(** * DocChat: the retrieval pipeline, embedded and verified

    A shallow embedding of the core of the DocChat repository:

    - [Chunking]: [chunkText] of [src/lib/fileVectordb.ts] (the chunking
      module that file is shipped with);
    - [Classifier]: [isGeneralQuestion] of [src/app/api/chat/route.ts];
    - [VectorDb]: [cosineSimilarity], [indexDocument], [searchSimilarChunks]
      and [getAllDocumentChunks] of [src/lib/fileVectordb.ts];
    - [Chat]: the two [POST] handlers of the chat route, the JSON one
      ([src/app/api/chat/route.ts]) and the streaming one (the server-sent
      event variant).

    JavaScript numbers that are character counts or indices are modelled
    as [Z]; JavaScript numbers that are similarity scores are IEEE 754
    binary64 values, modelled by Rocq's primitive [float]. *)

From Stdlib Require Reals Lra.
From Stdlib Require Import Floats.
From Stdlib Require Import String Ascii DecimalString DecimalZ DecimalPos.
From Stdlib Require Import ZArith List Lia Bool Sorted Permutation.
Import ListNotations.

Local Open Scope Z_scope.

(** ** Results of fallible code

    A JavaScript function either returns a value or throws.  The payload of
    [Throw] is the message of the thrown [Error]. *)

Inductive result (A : Type) : Type :=
| Ok (a : A)
| Throw (msg : string).
Arguments Ok {A} a.
Arguments Throw {A} msg.

Definition isOk {A : Type} (r : result A) : bool :=
  match r with Ok _ => true | Throw _ => false end.

(** ** JavaScript array and string helpers *)

Section JsSequences.
Context {A : Type}.

  (** [relIndex len i] is the clamping that [slice] applies to each of its
      arguments: a negative index counts from the end. *)
Definition relIndex (len i : Z) : Z :=
    if i <? 0 then Z.max (len + i) 0 else Z.min i len.

  (** [String.prototype.slice] and [Array.prototype.slice] on integer
      arguments. *)
Definition slice (s : list A) (from to : Z) : list A :=
    let len := Z.of_nat (length s) in
    let f := relIndex len from in
    let t := relIndex len to in
    firstn (Z.to_nat (t - f)) (skipn (Z.to_nat f) s).

End JsSequences.

(** ** Chunker: [chunkText] *)

Module Chunking.
Section Chunker.
  (** The code unit of the text; the chunker never looks at it. *)
Context {char : Type}.

Record TextChunk : Type := mkTextChunk {
    text : list char;
    startIndex : Z;
    endIndex : Z;
    chunkIndex : Z
  }.

  (** [Math.ceil(a / b)] for a non-negative count [a] and a positive
      integer [b].  Both are far below 2^53 (a string has fewer than 2^30
      code units), where the rounded quotient of two integers is an integer
      only when the exact quotient is, so the ceiling of the double is the
      ceiling of the exact quotient. *)
Definition ceilDiv (a b : Z) : Z := (a + b - 1) / b.

  (** The variables the [while] loop mutates. *)
Record LoopState : Type := mkLoop {
    st_chunks : list TextChunk;
    st_startIndex : Z;
    st_chunkIndex : Z;
    st_iterations : Z
  }.

Section Loop.
Variable (txt : list char) (chunkSize overlap : Z).

Definition textLength : Z := Z.of_nat (length txt).

Definition maxChunks : Z := ceilDiv textLength (chunkSize - overlap) + 100.

    (** The loop condition. *)
Definition loopCond (st : LoopState) : bool :=
      (st_startIndex st <? textLength) && (st_iterations st <? maxChunks).

    (** One execution of the loop body. *)
Definition loopBody (st : LoopState) : LoopState :=
      let startIdx := st_startIndex st in
      let endIdx := Z.min (startIdx + chunkSize) textLength in
      let chunkTxt := slice txt startIdx endIdx in
      let chunks' :=
        if (0 <? Z.of_nat (length chunkTxt))
        then st_chunks st ++ [mkTextChunk chunkTxt startIdx endIdx (st_chunkIndex st)]
        else st_chunks st in
      let nextStartIndex := endIdx - overlap in
      let startIdx' := if nextStartIndex <=? startIdx then endIdx else nextStartIndex in
      mkLoop chunks' startIdx' (st_chunkIndex st + 1) (st_iterations st + 1).

    (** The [while] loop.  Its own guard [iterations < maxChunks] bounds it
        by [maxChunks] rounds, so structural recursion on a counter that
        starts at [maxChunks] runs it to its exit; see [loop_exits]. *)
Fixpoint loop (fuel : nat) (st : LoopState) : LoopState :=
      match fuel with
      | O => st
      | S fuel' => if loopCond st then loop fuel' (loopBody st) else st
      end.

Definition initState : LoopState := mkLoop [] 0 0 0.

    (** The state of the loop after [n] rounds of its body. *)
Definition afterRounds (n : nat) : LoopState := Nat.iter n loopBody initState.

    (** The [while] loop leaves after exactly [n] rounds: its condition
        holds before each of them and fails after the last. *)
Definition exitsAfter (n : nat) : Prop :=
      (forall k, (k < n)%nat -> loopCond (afterRounds k) = true) /\
      loopCond (afterRounds n) = false.
End Loop.

Definition chunkText (txt : list char) (chunkSize overlap : Z)
    : result (list TextChunk) :=
    if Z.of_nat (length txt) =? 0 then Ok []
    else if chunkSize <=? 0 then Throw "chunkSize must be greater than 0"
    else if overlap <? 0 then Throw "overlap must be non-negative"
    else if chunkSize <=? overlap
      then Throw "overlap must be less than chunkSize to prevent infinite loops"
    else
      let fuel := Z.to_nat (maxChunks txt chunkSize overlap) in
      Ok (st_chunks (loop txt chunkSize overlap fuel initState)).

  (** The default arguments [chunkSize = 1000], [overlap = 200]. *)
Definition chunkTextDefault (txt : list char) : result (list TextChunk) :=
    chunkText txt 1000 200.

End Chunker.
Arguments TextChunk : clear implicits.
Arguments LoopState : clear implicits.
End Chunking.

(** ** Query classifier: [isGeneralQuestion]

    A question is a JavaScript string; the model covers the strings whose
    code units are below 256 (Latin-1), one [ascii] per code unit.  All the
    patterns are made of ASCII letters and spaces, so a code unit outside
    that range can only make a match fail. *)

Module Classifier.

Definition codeUnit (c : ascii) : N := N_of_ascii c.

(** [String.prototype.toLowerCase], code unit by code unit: [A-Z] and the
    Latin-1 capitals U+00C0..U+00DE (without the multiplication sign U+00D7)
    move up by 32. *)
Definition lowerChar (c : ascii) : ascii :=
  let n := codeUnit c in
  if ((65 <=? n) && (n <=? 90))%N then ascii_of_N (n + 32)
  else if ((192 <=? n) && (n <=? 222) && negb (n =? 215))%N then ascii_of_N (n + 32)
  else c.

Definition toLowerCase (s : list ascii) : list ascii := map lowerChar s.

(** The white space and line terminators [trim] removes, among the code
    units below 256: TAB, LF, VT, FF, CR, SPACE and NO-BREAK SPACE. *)
Definition isWhiteSpace (c : ascii) : bool :=
  let n := codeUnit c in
  ((9 <=? n) && (n <=? 13) || (n =? 32) || (n =? 160))%N.

Fixpoint trimStart (s : list ascii) : list ascii :=
  match s with
  | c :: s' => if isWhiteSpace c then trimStart s' else s
  | [] => []
  end.

Definition trimEnd (s : list ascii) : list ascii := rev (trimStart (rev s)).

(** [String.prototype.trim]. *)
Definition trim (s : list ascii) : list ascii := trimEnd (trimStart s).

(** The fragment of regular expressions the patterns are written in:
    characters, concatenation, alternation [a|b] and the optional [a?]. *)
Inductive regex : Type :=
| Eps
| Chr (c : ascii)
| Cat (r1 r2 : regex)
| Alt (r1 r2 : regex)
| Opt (r : regex).

(** The canonical form the [i] flag compares characters in: upper case.
    (A code unit of 128 or more never canonicalises to an ASCII letter.) *)
Definition canonicalize (c : ascii) : ascii :=
  let n := codeUnit c in
  if ((97 <=? n) && (n <=? 122))%N then ascii_of_N (n - 32) else c.

(** [matchAt r s]: the rests of [s] after each way [r] matches a prefix of
    [s], in the order a backtracking matcher tries them. *)
Fixpoint matchAt (r : regex) (s : list ascii) : list (list ascii) :=
  match r with
  | Eps => [s]
  | Chr c =>
      match s with
      | c' :: s' => if Ascii.eqb (canonicalize c) (canonicalize c') then [s'] else []
      | [] => []
      end
  | Cat r1 r2 => flat_map (matchAt r2) (matchAt r1 s)
  | Alt r1 r2 => matchAt r1 s ++ matchAt r2 s
  | Opt r1 => matchAt r1 s ++ [s]
  end.

Definition matchesAt (r : regex) (s : list ascii) : bool :=
  match matchAt r s with [] => false | _ :: _ => true end.

(** [RegExp.prototype.test] for a pattern without anchors and without the
    [g] or [y] flag: the pattern matches at some position of the input. *)
Fixpoint test (r : regex) (s : list ascii) : bool :=
  matchesAt r s ||
  match s with
  | [] => false
  | _ :: s' => test r s'
  end.

(** Pattern syntax. *)
Local Open Scope string_scope.

Definition lit (s : string) : regex :=
  fold_right (fun c r => Cat (Chr c) r) Eps (list_ascii_of_string s).

Fixpoint oneOf (r : regex) (rs : list regex) : regex :=
  match rs with
  | [] => r
  | r' :: rs' => Alt r (oneOf r' rs')
  end.

(** A group [(w1|w2|...)] of words. *)
Definition group (w : string) (ws : list string) : regex :=
  oneOf (lit w) (map lit ws).

Fixpoint cat (rs : list regex) : regex :=
  match rs with
  | [] => Eps
  | r :: rs' => Cat r (cat rs')
  end.

Definition sp : regex := Chr " "%char.

Definition whatDoes : regex := group "does" ["is"; "are"; "do"; "did"].
Definition thisThatThe : regex := group "this" ["that"; "the"].
Definition whatIsAre : regex := group "is" ["are"].
Definition documentFile : regex := group "document" ["file"].

Definition generalPatterns : list regex :=
  [ (* /what (does|is|are|do|did)/i *)
    cat [lit "what "; whatDoes];
    (* /what (does|is|are|do|did) (this|that|the) (document|file|text)/i *)
    cat [lit "what "; whatDoes; sp; thisThatThe; sp;
         group "document" ["file"; "text"]];
    (* /what (does|is|are|do|did) (this|that|the) (document|file|text)
        (contain|say|include|discuss|cover|describe)/i *)
    cat [lit "what "; whatDoes; sp; thisThatThe; sp;
         group "document" ["file"; "text"]; sp;
         group "contain" ["say"; "include"; "discuss"; "cover"; "describe"]];
    (* /(summarize|summary|summarise)/i *)
    group "summarize" ["summary"; "summarise"];
    (* /what (is|are) (in|inside|the content of|the contents of)/i *)
    cat [lit "what "; whatIsAre; sp;
         group "in" ["inside"; "the content of"; "the contents of"]];
    (* /(tell me|describe|explain) (what|about) (this|that|the) (document|file)/i *)
    cat [group "tell me" ["describe"; "explain"]; sp; group "what" ["about"]; sp;
         thisThatThe; sp; documentFile];
    (* /(overview|contents?|content) (of|about) (this|that|the) (document|file)/i *)
    cat [oneOf (lit "overview") [Cat (lit "content") (Opt (Chr "s"%char)); lit "content"];
         sp; group "of" ["about"]; sp; thisThatThe; sp; documentFile];
    (* /what (is|are) (this|that|the) (document|file) (about|on)/i *)
    cat [lit "what "; whatIsAre; sp; thisThatThe; sp; documentFile; sp;
         group "about" ["on"]]
  ].

Definition isGeneralQuestion (question : list ascii) : bool :=
  let lowerQuestion := trim (toLowerCase question) in
  existsb (fun pattern => test pattern lowerQuestion) generalPatterns.

(** The two classes of the specification: [General] is
    [isGeneralQuestion = true]. *)
Inductive QueryClass : Type := General | Specific.

Definition classify (question : list ascii) : QueryClass :=
  if isGeneralQuestion question then General else Specific.

Definition js (s : string) : list ascii := list_ascii_of_string s.

Local Close Scope string_scope.
End Classifier.

(** ** Vector store: [src/lib/fileVectordb.ts] *)

Module VectorDb.

(** The interface [DocumentChunk]. *)
Record DocumentChunk : Type := mkDocumentChunk {
  id : string;
  documentId : string;
  documentName : string;
  chunkIndex : Z;
  text : list ascii;
  startIndex : Z;
  endIndex : Z;
  vector : list float
}.

(** A row of the table [document_chunks]; [embedding] holds the numbers the
    BLOB reads back as (binary32 values, as doubles).  [row_text] is the
    text as it was bound, in 8-bit characters; what the UTF-8 column makes
    of a surrogate cut from its pair is outside the model. *)
Record Row : Type := mkRow {
  row_id : string;
  document_id : string;
  document_name : string;
  chunk_index : Z;
  row_text : list ascii;
  start_index : Z;
  end_index : Z;
  embedding : list float
}.

(** The table, in rowid order: an [INSERT] appends, a scan reads the rows
    in this order. *)
Definition Database : Type := list Row.

(** [generateEmbedding] is the embedding provider, an external service
    that answers each call with a vector or fails.  The first argument
    tells the calls of one operation apart (the [chunkIndex] of the chunk
    [indexDocument] is embedding, 0 for the query of a search), so the
    provider may answer two calls on the same text differently. *)
Definition Embedder : Type := nat -> list ascii -> result (list float).

(** *** [cosineSimilarity] *)

Record Sums : Type := mkSums { dotProduct : float; normA : float; normB : float }.

(** The [for] loop over the indices of two arrays of the same length. *)
Definition accumulate (vecA vecB : list float) : Sums :=
  fold_left
    (fun acc ab =>
       let '(a, b) := ab in
       mkSums (dotProduct acc + a * b) (normA acc + a * a) (normB acc + b * b))%float
    (combine vecA vecB) (mkSums 0 0 0)%float.

Definition cosineSimilarity (vecA vecB : list float) : result float :=
  if negb (length vecA =? length vecB)%nat
  then Throw "Vectors must have the same length"
  else
    let sums := accumulate vecA vecB in
    let denominator := (sqrt (normA sums) * sqrt (normB sums))%float in
    if (denominator =? 0)%float then Ok 0%float
    else Ok (dotProduct sums / denominator)%float.

(** *** Writing a document: [indexDocument] *)

(** [new Float32Array(embedding)]: each double is rounded to the nearest
    binary32 value (ties to even); the BLOB reads back exactly that. *)
Definition fround (x : float) : float :=
  match Prim2SF x with
  | S754_finite s m e => SF2Prim (binary_round 24 128 s m e)
  | _ => x
  end.

(** The decimal numeral a template literal prints an integer as. *)
Definition decimal (n : Z) : string := NilZero.string_of_int (Z.to_int n).

(** [`${documentId}_${chunk.chunkIndex}`] *)
Definition chunkId (documentId : string) (chunkIndex : Z) : string :=
  (documentId ++ "_" ++ decimal chunkIndex)%string.

(** [DELETE FROM document_chunks WHERE document_id = ?]: the table without
    the rows of the document, and the number of rows removed ([changes]). *)
Definition deleteWhere (db : Database) (documentId : string) : Database * Z :=
  (filter (fun r => negb (String.eqb (document_id r) documentId)) db,
   Z.of_nat (length (filter (fun r => String.eqb (document_id r) documentId) db))).

(** [insertStmt.run]: [id] is the primary key, a second row with the same
    [id] is refused. *)
Definition insertRow (db : Database) (r : Row) : result Database :=
  if existsb (fun r' => String.eqb (row_id r') (row_id r)) db
  then Throw "UNIQUE constraint failed: document_chunks.id"
  else Ok (db ++ [r]).

(** What one element of [batch.map] resolves to: the data of the row, or
    [null] when the embedding failed. *)
Definition batchDatum (generateEmbedding : Embedder)
    (documentId documentName : string) (chunk : Chunking.TextChunk ascii)
  : option Row :=
  match generateEmbedding (Z.to_nat (Chunking.chunkIndex chunk)) (Chunking.text chunk) with
  | Ok embedding =>
      Some (mkRow (chunkId documentId (Chunking.chunkIndex chunk))
                  documentId documentName
                  (Chunking.chunkIndex chunk) (Chunking.text chunk)
                  (Chunking.startIndex chunk) (Chunking.endIndex chunk)
                  (map fround embedding))
  | Throw _ => None
  end.

(** The body of the transaction: every non-null datum is inserted. *)
Fixpoint insertAll (db : Database) (batchData : list (option Row)) : result Database :=
  match batchData with
  | [] => Ok db
  | None :: rest => insertAll db rest
  | Some r :: rest =>
      match insertRow db r with
      | Ok db' => insertAll db' rest
      | Throw msg => Throw msg
      end
  end.

(** What [indexDocument] leaves behind: the table, the value it logged as
    [deleteResult.changes], and whether it returned or threw. *)
Record Indexed : Type := mkIndexed {
  db_after : Database;
  removed : Z;
  outcome : result unit
}.

Definition batchSize : nat := 5.

(** The loop [for (let i = 0; i < chunks.length; i += batchSize)].  Each
    round needs [i < chunks.length] and adds 5 to [i], so [chunks.length]
    rounds of fuel are never used up.  A transaction that throws is rolled
    back: the table stays as the previous batch left it. *)
Fixpoint batchLoop (fuel : nat) (generateEmbedding : Embedder)
    (documentId documentName : string) (chunks : list (Chunking.TextChunk ascii))
    (i : nat) (db : Database) : Database * result unit :=
  match fuel with
  | O => (db, Ok tt)
  | S fuel' =>
      if (i <? length chunks)%nat then
        let batch := slice chunks (Z.of_nat i) (Z.of_nat (i + batchSize)) in
        let batchData :=
          map (batchDatum generateEmbedding documentId documentName) batch in
        match insertAll db batchData with
        | Ok db' =>
            batchLoop fuel' generateEmbedding documentId documentName chunks
                      (i + batchSize) db'
        | Throw msg => (db, Throw msg)
        end
      else (db, Ok tt)
  end.

Definition indexDocument (generateEmbedding : Embedder) (db : Database)
    (documentId documentName : string) (txt : list ascii) : Indexed :=
  let '(db1, changes) := deleteWhere db documentId in
  match Chunking.chunkText txt 1000 200 with
  | Throw msg => mkIndexed db1 changes (Throw msg)
  | Ok chunks =>
      if (length chunks =? 0)%nat then mkIndexed db1 changes (Ok tt)
      else
        let '(db2, res) :=
          batchLoop (length chunks) generateEmbedding documentId documentName
                    chunks 0 db1 in
        mkIndexed db2 changes res
  end.

(** [deleteDocumentChunks] *)
Definition deleteDocumentChunks (db : Database) (documentId : string) : Database :=
  fst (deleteWhere db documentId).

(** *** Reading: [searchSimilarChunks] and [getAllDocumentChunks] *)

Definition toChunk (row : Row) : DocumentChunk :=
  mkDocumentChunk (row_id row) (document_id row) (document_name row)
                  (chunk_index row) (row_text row) (start_index row)
                  (end_index row) (embedding row).

Definition inIds (documentIds : list string) (row : Row) : bool :=
  existsb (String.eqb (document_id row)) documentIds.

(** A stable sort by insertion: [x] moves behind the elements [y] that follow
    it only while [after x y] holds. *)
Section StableSort.
Context {A : Type}.
Variable after : A -> A -> bool.

Fixpoint insertSorted (x : A) (l : list A) : list A :=
  match l with
  | [] => [x]
  | y :: l' => if after x y then y :: insertSorted x l' else x :: l
  end.

Definition stableSort (l : list A) : list A := fold_right insertSorted [] l.
End StableSort.

(** [Array.prototype.sort] with a comparator.  ECMAScript fixes the result
    when the comparator is consistent: the stable sort, where [a] stays
    before a later [b] unless [compareFn a b > 0].  (For an inconsistent
    comparator, one that sees a NaN, the order is left to the engine; the
    insertion sort is then one admissible outcome.) *)
Definition sort {A : Type} (compareFn : A -> A -> float) (l : list A) : list A :=
  stableSort (fun a b => (0 <? compareFn a b)%float) l.

Record Scored : Type := mkScored { chunk : DocumentChunk; score : float }.

(** [rows.map(row => ({chunk, score: cosineSimilarity(...)}))]; the first
    [cosineSimilarity] that throws ends the map. *)
Fixpoint scoreRows (queryEmbedding : list float) (rows : list Row)
  : result (list Scored) :=
  match rows with
  | [] => Ok []
  | row :: rest =>
      match cosineSimilarity queryEmbedding (embedding row) with
      | Throw msg => Throw msg
      | Ok s =>
          match scoreRows queryEmbedding rest with
          | Throw msg => Throw msg
          | Ok scored => Ok (mkScored (toChunk row) s :: scored)
          end
      end
  end.

(** The [SELECT] has no [ORDER BY]: the order in which [all()] returns the
    rows it matches is the engine's.  SQLite reads the table in rowid order,
    or, for the [WHERE document_id IN (...)], through [idx_document_id].  The
    model takes that order as a parameter: a [RowOrder] rearranges the
    matching rows, given in rowid order. *)
Definition RowOrder : Type := list Row -> list Row.

(** The scan in rowid order. *)
Definition tableScan : RowOrder := fun rows => rows.

(** The rows the [SELECT] loads: all of them, unless a non-empty
    [documentIds] is given. *)
Definition loadRows (rowOrder : RowOrder) (db : Database)
    (documentIds : option (list string)) : list Row :=
  rowOrder
    match documentIds with
    | Some ids =>
        if (0 <? length ids)%nat then filter (inIds ids) db else db
    | None => db
    end.

Definition searchSimilarChunks (generateEmbedding : Embedder) (rowOrder : RowOrder)
    (db : Database) (query : list ascii) (limit : Z)
    (documentIds : option (list string))
  : result (list DocumentChunk) :=
  match generateEmbedding 0%nat query with
  | Throw msg => Throw msg
  | Ok queryEmbedding =>
      let rows := loadRows rowOrder db documentIds in
      if (length rows =? 0)%nat then Ok []
      else
        match scoreRows queryEmbedding rows with
        | Throw msg => Throw msg
        | Ok scoredChunks =>
            let sorted := sort (fun a b => score b - score a)%float scoredChunks in
            Ok (map chunk (slice sorted 0 limit))
        end
  end.

(** [ORDER BY document_id, chunk_index]: [a] sorts after [b]. *)
Definition rowAfter (a b : Row) : bool :=
  match String.compare (document_id a) (document_id b) with
  | Lt => false
  | Gt => true
  | Eq => (chunk_index b <? chunk_index a)%Z
  end.

(** [getAllDocumentChunks], once [getDatabase()] has returned and the
    statement has run on the table [db]; [getAllDocumentChunksOn] below adds
    what it does when one of them throws. *)
Definition getAllDocumentChunks (db : Database) (documentIds : list string)
  : result (list DocumentChunk) :=
  if (length documentIds =? 0)%nat then Ok []
  else Ok (map toChunk (stableSort rowAfter (filter (inIds documentIds) db))).

(** *** The database behind an operation

    Every operation starts with [getDatabase()], which opens the file and
    creates the table on first use and throws when it cannot (no [storage]
    directory, a file that is no database).  The statement is then prepared
    and run, which the engine may refuse.  The [catch] of each operation
    logs the error and throws it again.  An [Engine] is what the database
    does for one operation. *)
Inductive Engine : Type :=
| CannotOpen (msg : string)
| Refuses (msg : string)
| Runs (db : Database).

(** [getAllDocumentChunks] from its first line: [getDatabase()] is called
    before [documentIds.length] is tested, the statement is prepared only
    for a list that is not empty.  [getAllDocumentChunks db] above is what
    it returns once the table [db] has been read. *)
Definition getAllDocumentChunksOn (engine : Engine) (documentIds : list string)
  : result (list DocumentChunk) :=
  match engine with
  | CannotOpen msg => Throw msg
  | Refuses msg => if (length documentIds =? 0)%nat then Ok [] else Throw msg
  | Runs db => getAllDocumentChunks db documentIds
  end.

(** *** [getDocumentStats] *)

(** A row of [SELECT document_id, document_name, COUNT( * ) ... GROUP BY
    document_id, document_name]. *)
Record StatRow : Type := mkStatRow {
  sr_document_id : string;
  sr_document_name : string;
  sr_chunk_count : Z
}.

Definition inGroup (g : StatRow) (r : Row) : bool :=
  String.eqb (sr_document_id g) (document_id r) &&
  String.eqb (sr_document_name g) (document_name r).

(** One more row for the aggregate: it joins its group or opens one. *)
Fixpoint addToGroup (r : Row) (groups : list StatRow) : list StatRow :=
  match groups with
  | [] => [mkStatRow (document_id r) (document_name r) 1]
  | g :: rest =>
      if inGroup g r
      then mkStatRow (sr_document_id g) (sr_document_name g) (sr_chunk_count g + 1)
           :: rest
      else g :: addToGroup r rest
  end.

Definition groupRows (db : Database) : list StatRow :=
  fold_left (fun groups r => addToGroup r groups) db [].

Record DocumentStat : Type := mkDocumentStat {
  ds_documentId : string;
  ds_documentName : string;
  ds_chunkCount : Z
}.

Record DocumentStats : Type := mkDocumentStats {
  totalDocuments : Z;
  totalChunks : Z;
  documents : list DocumentStat
}.

(** [ORDER BY document_name] fixes the order of the groups up to groups of
    the same name; [orderByName] is the order the engine returns them in. *)
Definition getDocumentStats (orderByName : list StatRow -> list StatRow)
    (db : Database) : DocumentStats :=
  let rows := orderByName (groupRows db) in
  let totalChunks := fold_left (fun sum row => sum + sr_chunk_count row) rows 0 in
  mkDocumentStats
    (Z.of_nat (length rows))
    totalChunks
    (map (fun row => mkDocumentStat (sr_document_id row) (sr_document_name row)
                                    (sr_chunk_count row)) rows).

(** An engine that sorts the groups by name and keeps groups of one name in
    the order they were formed. *)
Definition sortByName : list StatRow -> list StatRow :=
  stableSort (fun a b => String.ltb (sr_document_name b) (sr_document_name a)).

End VectorDb.

(** ** The chat route: the two [POST] handlers *)

Module Chat.
Import VectorDb.

Local Open Scope string_scope.

(** *** Data *)

(** The server-sent events, [sendSSE(controller, event, data)]. *)
Inductive SseEvent : Type :=
| ToolStart (tool message : string)
| ToolEnd (tool message : string)
| Thinking (message : string)
| Content (chunk : string)
| Done (hasContext : bool) (chunksUsed : Z) (usedWebSearch : bool)
| Error (error : string).

(** What the stream controller is asked to do, in order. *)
Inductive Output : Type :=
| Enqueue (e : SseEvent)
| CloseStream.

Record ToolCall : Type := mkToolCall {
  tc_id : string;
  tc_name : string;
  tc_arguments : string
}.

(** A chat message.  The [tool_calls] of an assistant message is the array
    the loop assembled; [None] in it is a hole of that array. *)
Inductive Message : Type :=
| SystemMessage (content : string)
| UserMessage (content : string)
| AssistantMessage (content : option string) (tool_calls : option (list (option ToolCall)))
| ToolMessage (tool_call_id : string) (content : string).

(** One [delta.tool_calls] entry of a streamed chunk; an absent field and an
    empty string are both falsy. *)
Record ToolCallDelta : Type := mkToolCallDelta {
  tcd_index : option nat;
  tcd_id : option string;
  tcd_name : option string;
  tcd_arguments : option string
}.

Record Delta : Type := mkDelta {
  delta_content : option string;
  delta_tool_calls : option (list ToolCallDelta)
}.

(** A streamed completion: the chunks the iterator yields ([None] is a
    chunk without [choices[0].delta]), and how the iteration ends.  A
    [create] call that throws is a stream that throws before its first
    chunk. *)
Inductive StreamEnd : Type :=
| EndOfStream
| StreamThrows (msg : string).

Record Completion : Type := mkCompletion {
  chunks : list (option Delta);
  ending : StreamEnd
}.

(** The message of a completion that is not streamed:
    [completion.choices[0]?.message]. *)
Record ChoiceMessage : Type := mkChoiceMessage {
  cm_content : option string;
  cm_tool_calls : option (list ToolCall)
}.

Record SearchResult : Type := mkSearchResult {
  title : string;
  snippet : string;
  url : string
}.

(** The parsed request body: [question] is [None] when the field is absent
    or not a string, [limit] is [None] when absent (default 5). *)
Record Body : Type := mkBody {
  question : option string;
  documentIds : option (list string);
  limit : option Z
}.

(** The external calls a request makes, as they are logged by the model. *)
Inductive Call : Type :=
| SearchCall (query : string) (limit : Z) (documentIds : list string)
| AllChunksCall (documentIds : list string)
| ModelCall (messages : list Message)
| WebSearchCall (query : string).

(** The collaborators of a request.  The [nat] argument of an oracle is the
    number of external calls made before it, so that two calls with the
    same arguments may be answered differently. *)
Record Env : Type := mkEnv {
  requestJson : result Body;
  searchSimilarChunks : nat -> string -> Z -> list string -> result (list DocumentChunk);
  getAllDocumentChunks : nat -> list string -> result (list DocumentChunk);
  getOpenAIClient : result unit;
  createStream : nat -> list Message -> Completion;
  createMessage : nat -> list Message -> result (option ChoiceMessage);
  (** [const { query } = JSON.parse(arguments)], [query] as the template
      literal prints it; [Throw] when the parse or the destructuring throws. *)
  parseQuery : string -> result string;
  searchWeb : nat -> string -> result (list SearchResult)
}.

(** *** The state of one request *)

Record State : Type := mkState {
  outputs : list Output;
  closed : bool;
  calls : list Call;
  contextChunks : list DocumentChunk;
  contextText : string;
  isGeneral : bool;
  messages : list Message;
  usedWebSearch : bool;
  iterationCount : Z;
  answer : string
}.

Definition initState : State :=
  mkState [] false [] [] "" false [] false 0 "".

Definition set_outputs (o : list Output) (c : bool) (st : State) : State :=
  mkState o c (calls st) (contextChunks st) (contextText st) (isGeneral st)
          (messages st) (usedWebSearch st) (iterationCount st) (answer st).
Definition set_calls (v : list Call) (st : State) : State :=
  mkState (outputs st) (closed st) v (contextChunks st) (contextText st)
          (isGeneral st) (messages st) (usedWebSearch st) (iterationCount st)
          (answer st).
Definition set_contextChunks (v : list DocumentChunk) (st : State) : State :=
  mkState (outputs st) (closed st) (calls st) v (contextText st) (isGeneral st)
          (messages st) (usedWebSearch st) (iterationCount st) (answer st).
Definition set_contextText (v : string) (st : State) : State :=
  mkState (outputs st) (closed st) (calls st) (contextChunks st) v (isGeneral st)
          (messages st) (usedWebSearch st) (iterationCount st) (answer st).
Definition set_isGeneral (v : bool) (st : State) : State :=
  mkState (outputs st) (closed st) (calls st) (contextChunks st) (contextText st) v
          (messages st) (usedWebSearch st) (iterationCount st) (answer st).
Definition set_messages (v : list Message) (st : State) : State :=
  mkState (outputs st) (closed st) (calls st) (contextChunks st) (contextText st)
          (isGeneral st) v (usedWebSearch st) (iterationCount st) (answer st).
Definition set_usedWebSearch (v : bool) (st : State) : State :=
  mkState (outputs st) (closed st) (calls st) (contextChunks st) (contextText st)
          (isGeneral st) (messages st) v (iterationCount st) (answer st).
Definition set_iterationCount (v : Z) (st : State) : State :=
  mkState (outputs st) (closed st) (calls st) (contextChunks st) (contextText st)
          (isGeneral st) (messages st) (usedWebSearch st) v (answer st).
Definition set_answer (v : string) (st : State) : State :=
  mkState (outputs st) (closed st) (calls st) (contextChunks st) (contextText st)
          (isGeneral st) (messages st) (usedWebSearch st) (iterationCount st) v.

(** *** Computations that read and write the state and may throw *)

Definition M (A : Type) : Type := State -> result A * State.

Definition ret {A : Type} (a : A) : M A := fun st => (Ok a, st).

Definition throw {A : Type} (msg : string) : M A := fun st => (Throw msg, st).

Definition bind {A B : Type} (m : M A) (k : A -> M B) : M B :=
  fun st =>
    match m st with
    | (Ok a, st') => k a st'
    | (Throw msg, st') => (Throw msg, st')
    end.

(** [try { m } catch (error) { handler error.message }] *)
Definition tryCatch {A : Type} (m : M A) (handler : string -> M A) : M A :=
  fun st =>
    match m st with
    | (Ok a, st') => (Ok a, st')
    | (Throw msg, st') => handler msg st'
    end.

Definition get : M State := fun st => (Ok st, st).

Definition modify (f : State -> State) : M unit := fun st => (Ok tt, f st).

Definition liftResult {A : Type} (r : result A) : M A := fun st => (r, st).

Notation "x <- m ;; k" := (bind m (fun x => k))
  (at level 61, m at next level, right associativity).
Notation "m ;; k" := (bind m (fun _ => k))
  (at level 61, right associativity).

(** [for (const x of l) { f x }] *)
Fixpoint forEach {A : Type} (l : list A) (f : A -> M unit) : M unit :=
  match l with
  | [] => ret tt
  | x :: l' => f x ;; forEach l' f
  end.

(** [controller.enqueue]: a closed stream refuses the chunk. *)
Definition sendSSE (e : SseEvent) : M unit :=
  fun st =>
    if closed st then (Throw "Invalid state: Controller is already closed", st)
    else (Ok tt, set_outputs (outputs st ++ [Enqueue e]) false st).

(** [controller.close()] *)
Definition close : M unit :=
  fun st =>
    if closed st then (Throw "Invalid state: Controller is already closed", st)
    else (Ok tt, set_outputs (outputs st ++ [CloseStream]) true st).

(** An external call: it is logged, then answered. *)
Definition external {A : Type} (c : Call) (answer : nat -> result A) : M A :=
  fun st => (answer (length (calls st)), set_calls (calls st ++ [c]) st).

(** *** String helpers *)

Definition nl : string := String "010" EmptyString.

(** The double quote. *)
Definition dq : string := String "034" EmptyString.

(** [haystack.includes(needle)] *)
Fixpoint includes (needle haystack : string) : bool :=
  String.prefix needle haystack ||
  match haystack with
  | EmptyString => false
  | String _ rest => includes needle rest
  end.

Definition toLowerCase (s : string) : string :=
  string_of_list_ascii (Classifier.toLowerCase (list_ascii_of_string s)).

Definition strLength (s : string) : Z := Z.of_nat (String.length s).

Definition isEmpty (s : string) : bool := (String.length s =? 0)%nat.

(** [s || fallback] for a string. *)
Definition orElse (s fallback : string) : string :=
  if isEmpty s then fallback else s.

(** A field that is absent or the empty string is falsy. *)
Definition truthy (s : option string) : option string :=
  match s with
  | Some v => if isEmpty v then None else Some v
  | None => None
  end.

(** *** Assembling the context *)

(** The names a plain object inherits from [Object.prototype]: [acc[name]]
    is truthy for them although [acc] has no such entry of its own. *)
Definition inheritedNames : list string :=
  ["constructor"; "__proto__"; "hasOwnProperty"; "isPrototypeOf";
   "propertyIsEnumerable"; "toLocaleString"; "toString"; "valueOf";
   "__defineGetter__"; "__defineSetter__"; "__lookupGetter__";
   "__lookupSetter__"].

Definition hasName (name : string) (names : list string) : bool :=
  existsb (String.eqb name) names.

Fixpoint pushTo (name txt : string) (acc : list (string * list string))
  : list (string * list string) :=
  match acc with
  | [] => [(name, [txt])]
  | (n, texts) :: rest =>
      if String.eqb n name then (n, (texts ++ [txt])%list) :: rest
      else (n, texts) :: pushTo name txt rest
  end.

(** The callback of [contextChunks.reduce]; the entries of [acc] are kept
    in the order they were created. *)
Definition groupStep (acc : list (string * list string)) (c : DocumentChunk)
  : result (list (string * list string)) :=
  let docName := orElse (documentName c) "Unknown" in
  if hasName docName (map fst acc) then
    Ok (pushTo docName (string_of_list_ascii (text c)) acc)
  else if hasName docName inheritedNames then
    Throw "acc[docName].push is not a function"
  else Ok (pushTo docName (string_of_list_ascii (text c)) acc).

Fixpoint groupByDocument (acc : list (string * list string))
    (cs : list DocumentChunk) : result (list (string * list string)) :=
  match cs with
  | [] => Ok acc
  | c :: rest =>
      match groupStep acc c with
      | Ok acc' => groupByDocument acc' rest
      | Throw msg => Throw msg
      end
  end.

(** A property name that is an array index: the canonical numeral of an
    integer between 0 and 2^32 - 2. *)
Definition arrayIndex (name : string) : option Z :=
  match NilZero.int_of_string name with
  | Some d =>
      let n := Z.of_int d in
      if String.eqb (decimal n) name && (0 <=? n)%Z && (n <=? 4294967294)%Z
      then Some n else None
  | None => None
  end.

Definition isIndexEntry (e : string * list string) : bool :=
  match arrayIndex (fst e) with Some _ => true | None => false end.

Definition indexAfter (a b : string * list string) : bool :=
  match arrayIndex (fst a), arrayIndex (fst b) with
  | Some x, Some y => (y <? x)%Z
  | _, _ => false
  end.

(** [Object.entries]: the array indices in ascending order, then the other
    names in the order they were created. *)
Definition entries (acc : list (string * list string)) : list (string * list string) :=
  (stableSort indexAfter (filter isIndexEntry acc) ++
   filter (fun e => negb (isIndexEntry e)) acc)%list.

Definition join (sep : string) (l : list string) : string := String.concat sep l.

Definition formatContext (chunksByDoc : list (string * list string)) : string :=
  join (nl ++ nl ++ "---" ++ nl ++ nl)
       (map (fun e => "[Document: " ++ fst e ++ "]" ++ nl ++ join (nl ++ nl) (snd e))
            (entries chunksByDoc)).

(** *** Prompts *)

(** The three system prompts are fixed texts; each is abridged here to its
    opening sentence. *)
Definition systemPrompt (hasContext general : bool) : string :=
  if hasContext then
    if general then
      "You are a helpful assistant that answers questions based on the provided document context. When asked about what a document contains or to summarize it, synthesize information from all the provided chunks to give a comprehensive overview."
    else
      "You are a helpful assistant that answers questions based on the provided document context. Use the information from the documents to answer the question accurately."
  else
    "You are a helpful assistant. You have access to a web search tool that you can use to search the internet for information.".

Definition userPrompt (ctx : string) (general : bool) (q : string) : string :=
  if negb (isEmpty ctx) then
    if general then
      "Context from documents:" ++ nl ++ nl ++ ctx ++ nl ++ nl ++ "Question: " ++ q
      ++ nl ++ nl ++ "Based on the document context provided above, provide a comprehensive answer. For questions about document contents, summarize the key topics, themes, and important information found in the documents. Organize your response clearly. If you need additional information not in the documents, use the web search tool."
    else
      "Context from documents:" ++ nl ++ nl ++ ctx ++ nl ++ nl ++ "Question: " ++ q
      ++ nl ++ nl ++ "Answer the question based on the context provided above. If you need to combine information from multiple chunks, do so to provide a complete answer. If the answer cannot be found in the context, use the web search tool to find the information."
  else
    "Question: " ++ q ++ nl ++ nl
    ++ "Note: No documents are available for context. Use web search if needed to answer the question.".

(** *** The web-search tool *)

Definition validResult (r : SearchResult) : bool :=
  negb (isEmpty (title r)) &&
  negb (String.eqb (title r) "No results found") &&
  negb (String.eqb (title r) "Search Error") &&
  negb (isEmpty (snippet r)) &&
  negb (includes "unable to" (toLowerCase (snippet r))) &&
  negb (includes "error" (toLowerCase (snippet r))).

Fixpoint formatResults (idx : Z) (rs : list SearchResult) : list string :=
  match rs with
  | [] => []
  | r :: rest =>
      ("[" ++ decimal (idx + 1) ++ "] Title: " ++ title r ++ nl ++ "Description: "
       ++ snippet r ++ (if isEmpty (url r) then "" else nl ++ "URL: " ++ url r))
      :: formatResults (idx + 1) rest
  end.

Definition searchResultsText (query : string) (validResults : list SearchResult)
  : string :=
  if (0 <? length validResults)%nat then
    join (nl ++ nl) (formatResults 0 validResults)
  else
    "The web search for " ++ dq ++ query ++ dq ++ " did not return any useful results. The search may have been blocked, the query may need to be rephrased, or there may be no relevant information available online for this query.".

Definition maxIterations : Z := 5.

Definition fallbackAnswer : string :=
  "I apologize, but I encountered an issue while processing your request. Please try again.".

Definition noAnswer : string :=
  "I apologize, but I could not generate an answer.".

(** *** Retrieval: the body of the [try] around the document search

    The statements that classify the question and fetch [contextChunks]
    are the same in both handlers. *)

Definition searchChunks (env : Env) (q : string) (k : Z) (ids : list string)
  : M (list DocumentChunk) :=
  external (SearchCall q k ids) (fun n => searchSimilarChunks env n q k ids).

Definition allDocumentChunks (env : Env) (ids : list string)
  : M (list DocumentChunk) :=
  external (AllChunksCall ids) (fun n => getAllDocumentChunks env n ids).

Definition generalLimit : Z := 25.

Definition retrieveChunks (env : Env) (q : string) (lim : Z) (ids : list string)
  : M unit :=
  modify (set_isGeneral (Classifier.isGeneralQuestion (list_ascii_of_string q))) ;;
  st <- get ;;
  if isGeneral st then
    found <- searchChunks env q generalLimit ids ;;
    modify (set_contextChunks found) ;;
    if (Z.of_nat (length found) <? 10)%Z then
      allChunks <- allDocumentChunks env ids ;;
      modify (set_contextChunks (slice allChunks 0 50))
    else ret tt
  else
    found <- searchChunks env q lim ids ;;
    modify (set_contextChunks found).

Definition count {A : Type} (l : list A) : string := decimal (Z.of_nat (length l)).

Definition pushMessage (m : Message) (st : State) : State :=
  set_messages (messages st ++ [m]) st.

Definition seedMessages (q : string) : M unit :=
  st <- get ;;
  modify (set_messages
            [SystemMessage (systemPrompt (negb (isEmpty (contextText st))) (isGeneral st));
             UserMessage (userPrompt (contextText st) (isGeneral st) q)]).

(** The loop [while (iterationCount < maxIterations)]: [round] is its body
    and answers [true] for [continue], [false] for [break].  The body adds
    1 to [iterationCount] first, so 5 rounds of fuel reach the guard. *)
Fixpoint whileRounds (fuel : nat) (round : M bool) : M unit :=
  match fuel with
  | O => ret tt
  | S fuel' =>
      st <- get ;;
      if (iterationCount st <? maxIterations)%Z then
        again <- round ;;
        if again then whileRounds fuel' round else ret tt
      else ret tt
  end.

Definition nextIteration : M unit :=
  modify (fun st => set_iterationCount (iterationCount st + 1) st).

(** *** The streaming handler *)

Definition documentSearchStream (env : Env) (q : string) (lim : Z)
    (ids : list string) : M unit :=
  tryCatch
    (sendSSE (ToolStart "document_search"
                ("Searching documents for: " ++ String.substring 0 100 q
                 ++ (if (100 <? String.length q)%nat then "..." else ""))) ;;
     retrieveChunks env q lim ids ;;
     st <- get ;;
     if (0 <? length (contextChunks st))%nat then
       chunksByDoc <- liftResult (groupByDocument [] (contextChunks st)) ;;
       modify (set_contextText (formatContext chunksByDoc)) ;;
       sendSSE (ToolEnd "document_search"
                  ("Found " ++ count (contextChunks st) ++ " relevant chunks from "
                   ++ count chunksByDoc ++ " document(s)"))
     else
       sendSSE (ToolEnd "document_search" "No relevant chunks found"))
    (fun _ => sendSSE (ToolEnd "document_search" "Error searching documents")).

(** The array [toolCalls]: [toolCalls[index] = v] beyond the end leaves
    holes. *)
Definition arrayGet {A : Type} (l : list (option A)) (i : nat) : option A :=
  nth i l None.

Fixpoint arraySet {A : Type} (l : list (option A)) (i : nat) (v : A)
  : list (option A) :=
  match i, l with
  | O, [] => [Some v]
  | O, _ :: rest => Some v :: rest
  | S i', [] => None :: arraySet [] i' v
  | S i', x :: rest => x :: arraySet rest i' v
  end.

Definition orEmpty (s : option string) : string :=
  match truthy s with Some v => v | None => "" end.

(** One [toolCallDelta] folded into [toolCalls]. *)
Definition applyToolCallDelta (toolCalls : list (option ToolCall))
    (d : ToolCallDelta) : list (option ToolCall) :=
  let index := match tcd_index d with Some i => i | None => O end in
  let current :=
    match arrayGet toolCalls index with
    | Some tc => tc
    | None => mkToolCall (orEmpty (tcd_id d)) "" ""
    end in
  arraySet toolCalls index
    (mkToolCall
       (match truthy (tcd_id d) with Some i => i | None => tc_id current end)
       (tc_name current ++ orEmpty (tcd_name d))
       (tc_arguments current ++ orEmpty (tcd_arguments d))).

(** [for await (const chunk of completion)], on the chunks the stream
    yields before it ends; the accumulator is [messageContent] and
    [toolCalls]. *)
Fixpoint consume (cs : list (option Delta))
    (acc : string * list (option ToolCall)) : M (string * list (option ToolCall)) :=
  match cs with
  | [] => ret acc
  | None :: rest => consume rest acc
  | Some delta :: rest =>
      acc1 <- match truthy (delta_content delta) with
              | Some c => sendSSE (Content c) ;; ret (fst acc ++ c, snd acc)
              | None => ret acc
              end ;;
      consume rest
        match delta_tool_calls delta with
        | Some ds => (fst acc1, fold_left applyToolCallDelta ds (snd acc1))
        | None => acc1
        end
  end.

Definition finish (e : StreamEnd) : M unit :=
  match e with
  | EndOfStream => ret tt
  | StreamThrows msg => throw msg
  end.

Definition webSearch (env : Env) (query : string) : M (list SearchResult) :=
  external (WebSearchCall query) (fun n => searchWeb env n query).

Definition toolResult (query : string) (validResults : list SearchResult) : string :=
  "Web search performed for: " ++ dq ++ query ++ dq ++ nl ++ nl
  ++ searchResultsText query validResults.

(** The body of [for (const toolCall of toolCalls)]; on a hole of the
    array, [toolCall.function] throws. *)
Definition runToolCallStream (env : Env) (toolCall : option ToolCall) : M unit :=
  match toolCall with
  | None => throw "Cannot read properties of undefined (reading 'function')"
  | Some tc =>
      if String.eqb (tc_name tc) "search_web" then
        tryCatch
          (query <- liftResult (parseQuery env (orElse (tc_arguments tc) "{}")) ;;
           sendSSE (ToolStart "web_search" ("Searching web for: " ++ query)) ;;
           searchResults <- webSearch env query ;;
           modify (set_usedWebSearch true) ;;
           sendSSE (ToolEnd "web_search"
                      ("Found " ++ count (filter validResult searchResults)
                       ++ " result(s)")) ;;
           modify (pushMessage
                     (ToolMessage (tc_id tc)
                        (toolResult query (filter validResult searchResults)))))
          (fun msg =>
             sendSSE (ToolEnd "web_search" "Web search error occurred") ;;
             modify (pushMessage
                       (ToolMessage (tc_id tc)
                          ("Error performing web search: " ++ msg))))
      else ret tt
  end.

Definition modelStream (env : Env) : M Completion :=
  st <- get ;;
  external (ModelCall (messages st))
           (fun n => Ok (createStream env n (messages st))).

(** One round of the streaming loop. *)
Definition roundStream (env : Env) : M bool :=
  nextIteration ;;
  st <- get ;;
  (if (iterationCount st =? 1)%Z
   then sendSSE (Thinking "Processing your question...") else ret tt) ;;
  completion <- modelStream env ;;
  acc <- consume (chunks completion) ("", []) ;;
  finish (ending completion) ;;
  modify (pushMessage
            (AssistantMessage
               (if isEmpty (fst acc) then None else Some (fst acc))
               (if (0 <? length (snd acc))%nat then Some (snd acc) else None))) ;;
  if (0 <? length (snd acc))%nat then
    forEach (snd acc) (runToolCallStream env) ;;
    ret true
  else ret false.

Definition sendDone : M unit :=
  st <- get ;;
  sendSSE (Done (0 <? String.length (contextText st))%nat
                (Z.of_nat (length (contextChunks st)))
                (usedWebSearch st)).

Definition defaultLimit (body : Body) : Z :=
  match limit body with Some l => l | None => 5%Z end.

(** [start(controller)] of the response stream. *)
Definition start (env : Env) : M unit :=
  tryCatch
    (body <- liftResult (requestJson env) ;;
     match truthy (question body) with
     | None =>
         sendSSE (Error "Question is required and must be a string") ;;
         close
     | Some q =>
         match documentIds body with
         | Some ids =>
             if (0 <? length ids)%nat
             then documentSearchStream env q (defaultLimit body) ids
             else ret tt
         | None => ret tt
         end ;;
         liftResult (getOpenAIClient env) ;;
         seedMessages q ;;
         whileRounds 5 (roundStream env) ;;
         sendDone ;;
         close
     end)
    (fun msg => sendSSE (Error msg) ;; close).

(** The streaming [POST]: whether [start] returned, and the state it left. *)
Definition POST_stream (env : Env) : result unit * State := start env initState.

(** *** The JSON handler *)

Inductive JsonResponse : Type :=
| Success (answer : string) (hasContext : bool) (chunksUsed : Z) (usedWebSearch : bool)
| Failure (status : Z) (error : string).

Definition documentSearchJson (env : Env) (q : string) (lim : Z)
    (ids : list string) : M unit :=
  tryCatch
    (retrieveChunks env q lim ids ;;
     st <- get ;;
     if (0 <? length (contextChunks st))%nat then
       chunksByDoc <- liftResult (groupByDocument [] (contextChunks st)) ;;
       modify (set_contextText (formatContext chunksByDoc))
     else ret tt)
    (fun _ => ret tt).

Definition runToolCallJson (env : Env) (tc : ToolCall) : M unit :=
  if String.eqb (tc_name tc) "search_web" then
    tryCatch
      (query <- liftResult (parseQuery env (orElse (tc_arguments tc) "{}")) ;;
       searchResults <- webSearch env query ;;
       modify (set_usedWebSearch true) ;;
       modify (pushMessage
                 (ToolMessage (tc_id tc)
                    (toolResult query (filter validResult searchResults)))))
      (fun msg =>
         modify (pushMessage
                   (ToolMessage (tc_id tc)
                      ("Error performing web search: " ++ msg))))
  else ret tt.

Definition modelMessage (env : Env) : M (option ChoiceMessage) :=
  st <- get ;;
  external (ModelCall (messages st)) (fun n => createMessage env n (messages st)).

Definition toolCallsOf (message : ChoiceMessage) : list ToolCall :=
  match cm_tool_calls message with Some l => l | None => [] end.

(** One round of the JSON loop. *)
Definition roundJson (env : Env) : M bool :=
  nextIteration ;;
  choice <- modelMessage env ;;
  match choice with
  | None => modify (set_answer noAnswer) ;; ret false
  | Some message =>
      modify (pushMessage
                (AssistantMessage (cm_content message)
                   (option_map (map Some) (cm_tool_calls message)))) ;;
      if (0 <? length (toolCallsOf message))%nat then
        forEach (toolCallsOf message) (runToolCallJson env) ;;
        ret true
      else
        modify (set_answer (orElse (orEmpty (cm_content message)) noAnswer)) ;;
        ret false
  end.

Definition fallback : M unit :=
  st <- get ;;
  if (maxIterations <=? iterationCount st)%Z && isEmpty (answer st)
  then modify (set_answer fallbackAnswer) else ret tt.

Definition respond : M JsonResponse :=
  st <- get ;;
  ret (Success (answer st) (0 <? String.length (contextText st))%nat
               (Z.of_nat (length (contextChunks st))) (usedWebSearch st)).

Definition handler (env : Env) : M JsonResponse :=
  body <- liftResult (requestJson env) ;;
  match truthy (question body) with
  | None => ret (Failure 400 "Question is required and must be a string")
  | Some q =>
      match documentIds body with
      | Some ids =>
          if (0 <? length ids)%nat
          then documentSearchJson env q (defaultLimit body) ids
          else ret tt
      | None => ret tt
      end ;;
      liftResult (getOpenAIClient env) ;;
      seedMessages q ;;
      whileRounds 5 (roundJson env) ;;
      fallback ;;
      respond
  end.

(** The JSON [POST]: the response, and the state the request left. *)
Definition POST_json (env : Env) : JsonResponse * State :=
  match handler env initState with
  | (Ok response, st) => (response, st)
  | (Throw msg, st) => (Failure 500 msg, st)
  end.

End Chat.

(** ** Embeddings: [src/lib/embeddings.ts] *)

Module Embeddings.
Import VectorDb.

(** [openai.embeddings.create], by what the code reads of its answer:
    [response.data[0].embedding] when the response has one, [None] when
    [data], its first entry or the embedding is missing; [Throw] when the
    call rejects.  The first argument tells the calls apart, as for an
    [Embedder]. *)
Definition Create : Type := nat -> list ascii -> result (option (list float)).

Definition maxLength : Z := 8000.

(** [generateEmbedding]; [apiKey] is [process.env.OPENAI_API_KEY]. *)
Definition generateEmbedding (apiKey : option string) (create : Create) : Embedder :=
  fun call text =>
    match Chat.truthy apiKey with
    | None =>
        Throw "OPENAI_API_KEY environment variable is not set. Please add it to your .env.local file."
    | Some _ =>
        let truncatedText :=
          if (maxLength <? Z.of_nat (length text))%Z
          then firstn (Z.to_nat maxLength) text else text in
        match create call truncatedText with
        | Throw msg => Throw msg
        | Ok None => Throw "Invalid embedding response from OpenAI"
        | Ok (Some embedding) => Ok embedding
        end
    end.

End Embeddings.

(** ** Web search: [src/lib/webSearch.ts] *)

Module WebSearch.
Import Chat.
Local Open Scope string_scope.

(** What the code reads of a table row that follows a result link: the text
    of its [td.result-snippet] cells and of its [span.link-text] elements,
    [None] when it has no such element. *)
Record RowAfter : Type := mkRowAfter {
  resultSnippet : option string;
  linkText : option string
}.

(** What the code reads of an [a.result-link] element: its [href]
    attribute, its text, and the rows that follow the row it is in. *)
Record Link : Type := mkLink {
  href : option string;
  linkTitle : string;
  nextAll : list RowAfter
}.

(** What [fetch] and [cheerio.load] give: a rejected request, an answer whose
    status is not [ok], or the result links of the page in document order. *)
Inductive Fetched : Type :=
| Rejected (message : string)
| NotOk (status : Z)
| Page (links : list Link).

(** [String.prototype.trim] *)
Definition trim (s : string) : string :=
  string_of_list_ascii (Classifier.trim (list_ascii_of_string s)).

(** The longest prefix without [&]. *)
Fixpoint untilAmpersand (s : string) : string :=
  match s with
  | EmptyString => ""
  | String c rest => if Ascii.eqb c "&" then "" else String c (untilAmpersand rest)
  end.

(** [redirectUrl.match(/uddg=([^&]+)/)]: the capture of the leftmost
    match. *)
Fixpoint matchUddg (s : string) : option string :=
  match s with
  | EmptyString => None
  | String _ rest =>
      if String.prefix "uddg=" s && negb (isEmpty (untilAmpersand (String.substring 5 (String.length s) s)))
      then Some (untilAmpersand (String.substring 5 (String.length s) s))
      else matchUddg rest
  end.

Section SearchWeb.
(** [decodeURIComponent] throws on a malformed escape sequence. *)
Variable decodeURIComponent : string -> result string.

Definition extractUrl (redirectUrl : string) : string :=
  match matchUddg redirectUrl with
  | Some capture =>
      match decodeURIComponent capture with
      | Ok decoded => decoded
      | Throw _ => redirectUrl
      end
  | None =>
      if String.prefix "//" redirectUrl then "https:" ++ redirectUrl else redirectUrl
  end.

(** [$nextRows.each] looking for the first row with a cell of the class. *)
Fixpoint firstWith (pick : RowAfter -> option string) (rows : list RowAfter)
  : option string :=
  match rows with
  | [] => None
  | row :: rest =>
      match pick row with
      | Some t => Some t
      | None => firstWith pick rest
      end
  end.

Definition noDescription : string := "No description available".

Definition findSnippet (link : Link) : string :=
  let nextRows := slice (nextAll link) 0 3 in
  let snippet :=
    match firstWith resultSnippet nextRows with
    | Some t => trim t
    | None => noDescription
    end in
  if isEmpty snippet || String.eqb snippet noDescription then
    match firstWith linkText nextRows with
    | Some t => "Visit " ++ trim t
    | None => snippet
    end
  else snippet.

Record Found : Type := mkFound {
  results : list SearchResult;
  seenUrls : list string
}.

(** The body of [$('a.result-link').each], past the check of
    [results.length]. *)
Definition visit (link : Link) (st : Found) : Found :=
  let redirectUrl := match href link with Some h => h | None => "" end in
  let title := trim (linkTitle link) in
  let url := extractUrl redirectUrl in
  if isEmpty url || includes "duckduckgo.com/l/" url
     || existsb (String.eqb url) (seenUrls st) || isEmpty title
  then st
  else
    let snippet := findSnippet link in
    mkFound (results st ++
               [mkSearchResult (String.substring 0 200 title)
                               (orElse (String.substring 0 500 snippet) noDescription)
                               url])
            (seenUrls st ++ [url]).

(** The [each] loop: the callback returns [false], which ends the loop, once
    [results.length >= maxResults]. *)
Fixpoint each (maxResults : Z) (links : list Link) (st : Found) : Found :=
  match links with
  | [] => st
  | link :: rest =>
      if (maxResults <=? Z.of_nat (length (results st)))%Z then st
      else each maxResults rest (visit link st)
  end.

Definition noResults (query : string) : SearchResult :=
  mkSearchResult "No results found"
    ("Unable to find search results for " ++ dq ++ query ++ dq
     ++ ". Please try rephrasing your query.")
    "".

Definition searchError (message : string) : SearchResult :=
  mkSearchResult "Search Error"
    ("Unable to perform web search: " ++ message ++ ". Please try again later.")
    "".

Definition searchWeb (fetched : Fetched) (query : string) (maxResults : Z)
  : list SearchResult :=
  match fetched with
  | Rejected message => [searchError message]
  | NotOk status => [searchError ("HTTP error! status: " ++ VectorDb.decimal status)]
  | Page links =>
      let found := results (each maxResults links (mkFound [] [])) in
      if (0 <? length found)%nat then slice found 0 maxResults
      else [noResults query]
  end.

End SearchWeb.
End WebSearch.

(** ** The chunker of the server routes: [chunkText] as
    [src/server/api/documents/[id].delete.ts] carries it *)

Module ServerChunking.
Import Chunking.
Section Chunker.
Context {char : Type}.
Variable (txt : list char) (chunkSize overlap : Z).

(** The variables the [while] loop mutates. *)
Record LoopState : Type := mkLoop {
    st_chunks : list (TextChunk char);
    st_startIndex : Z;
    st_chunkIndex : Z
  }.

    (** The loop condition, [startIndex < text.length]. *)
Definition loopCond (st : LoopState) : bool :=
      st_startIndex st <? textLength txt.

    (** One execution of the loop body. *)
Definition loopBody (st : LoopState) : LoopState :=
      let startIdx := st_startIndex st in
      let endIdx := Z.min (startIdx + chunkSize) (textLength txt) in
      let chunkTxt := slice txt startIdx endIdx in
      mkLoop (st_chunks st ++ [mkTextChunk chunkTxt startIdx endIdx (st_chunkIndex st)])
             (endIdx - overlap) (st_chunkIndex st + 1).

    (** The [while] loop.  Nothing in it bounds the number of rounds: [loop]
        runs at most [fuel] of them and answers [None] when the condition
        still holds after the last. *)
Fixpoint loop (fuel : nat) (st : LoopState) {struct fuel} : option LoopState :=
      if loopCond st then
        match fuel with
        | O => None
        | S fuel' => loop fuel' (loopBody st)
        end
      else Some st.

Definition initState : LoopState := mkLoop [] 0 0.

    (** What [chunkText] returns, when its loop exits within [fuel] rounds. *)
Definition chunkText (fuel : nat) : option (list (TextChunk char)) :=
      option_map st_chunks (loop fuel initState).

End Chunker.
Arguments LoopState : clear implicits.
End ServerChunking.

(** ** The vector store of the server routes: [indexDocument] as
    [src/unnamed/part_002] carries it

    It is the [indexDocument] of [src/lib/fileVectordb.ts] over the chunker
    above. *)

Module ServerVectorDb.
Import VectorDb.

(** What [indexDocument] leaves behind when [chunkText] returns within
    [fuel] rounds; [None] when it does not.  The [DELETE] has run before
    [chunkText] is called. *)
Definition indexDocument (fuel : nat) (generateEmbedding : Embedder) (db : Database)
    (documentId documentName : string) (txt : list ascii) : option Indexed :=
  let '(db1, changes) := deleteWhere db documentId in
  match ServerChunking.chunkText txt 1000 200 fuel with
  | None => None
  | Some chunks =>
      if (length chunks =? 0)%nat then Some (mkIndexed db1 changes (Ok tt))
      else
        let '(db2, res) :=
          batchLoop (length chunks) generateEmbedding documentId documentName
                    chunks 0 db1 in
        Some (mkIndexed db2 changes res)
  end.

End ServerVectorDb.

(** ** Document metadata: [src/unnamed/part_005], and the [DELETE] route of
    a document *)

Module Storage.
Local Open Scope string_scope.

(** The interface [DocumentMetadata]. *)
Record DocumentMetadata : Type := mkDocumentMetadata {
  md_id : string;
  md_name : string;
  md_fileName : string;
  md_size : Z;
  md_type : string;
  md_uploadedAt : string;
  md_textLength : Z
}.

(** The file [storage/metadata.json].  Only [writeMetadata] writes it, as
    the JSON text of an array of metadata, which [JSON.parse] reads back as
    written; [Unreadable] is a file that cannot be read or does not parse. *)
Inductive MetadataFile : Type :=
| Absent
| Holds (docs : list DocumentMetadata)
| Unreadable.

(** [readMetadata]: an absent file and every error give the empty array. *)
Definition readMetadata (file : MetadataFile) : list DocumentMetadata :=
  match file with
  | Holds docs => docs
  | Absent | Unreadable => []
  end.

(** How a [writeFile] goes wrong: the error, and what it leaves of the
    file. *)
Record WriteFault : Type := mkWriteFault {
  wf_message : string;
  wf_left : MetadataFile
}.

(** [writeMetadata]; [fault] is [None] when [writeFile] succeeds. *)
Definition writeMetadata (fault : option WriteFault) (metadata : list DocumentMetadata)
    (file : MetadataFile) : result unit * MetadataFile :=
  match fault with
  | None => (Ok tt, Holds metadata)
  | Some f => (Throw (wf_message f), wf_left f)
  end.

Definition addDocumentMetadata (fault : option WriteFault) (metadata : DocumentMetadata)
    (file : MetadataFile) : result unit * MetadataFile :=
  let allMetadata := readMetadata file in
  writeMetadata fault (allMetadata ++ [metadata])%list file.

Definition removeDocumentMetadata (fault : option WriteFault) (id : string)
    (file : MetadataFile) : result unit * MetadataFile :=
  let allMetadata := readMetadata file in
  let filtered := filter (fun doc => negb (String.eqb (md_id doc) id)) allMetadata in
  writeMetadata fault filtered file.

(** [getDocumentMetadata]: [find] answers with the first match. *)
Definition getDocumentMetadata (id : string) (file : MetadataFile)
  : option DocumentMetadata :=
  find (fun doc => String.eqb (md_id doc) id) (readMetadata file).

End Storage.

(** The handler [DELETE] of [/api/documents/[id]]
    ([src/app/api/upload/route.ts], [src/server/api/documents/[id].delete.ts]). *)

Module DocumentRoute.
Import Storage.
Local Open Scope string_scope.

(** What the handler works on: the metadata file, the names of the files in
    the documents directory, and the table of chunks. *)
Record World : Type := mkWorld {
  metadataFile : MetadataFile;
  documentFiles : list string;
  table : VectorDb.Database
}.

(** What can go wrong outside the handler during one request. *)
Record Faults : Type := mkFaults {
  unlinkFails : bool;
  deleteChunksFails : bool;
  writeFault : option WriteFault
}.

Definition noFaults : Faults := mkFaults false false None.

Inductive Response : Type :=
| Deleted
| Refused (status : Z) (error : string).

(** [unlink(filePath)]: a missing file is an error too. *)
Definition unlink (fails : bool) (fileName : string) (files : list string)
  : result unit * list string :=
  if fails then (Throw "EACCES: permission denied", files)
  else if existsb (String.eqb fileName) files
  then (Ok tt, filter (fun f => negb (String.eqb f fileName)) files)
  else (Throw "ENOENT: no such file or directory", files).

Definition DELETE (faults : Faults) (id : string) (w : World) : Response * World :=
  if Chat.isEmpty id then (Refused 400 "Document ID is required", w)
  else
    match getDocumentMetadata id (metadataFile w) with
    | None => (Refused 404 "Document not found", w)
    | Some metadata =>
        (* [unlink(...).catch(...)]: the error is logged and dropped *)
        let files := snd (unlink (unlinkFails faults) (md_fileName metadata)
                                 (documentFiles w)) in
        (* [try { deleteDocumentChunks(id) } catch { }] *)
        let chunks :=
          if deleteChunksFails faults then table w
          else VectorDb.deleteDocumentChunks (table w) id in
        match removeDocumentMetadata (writeFault faults) id (metadataFile w) with
        | (Ok _, file) => (Deleted, mkWorld file files chunks)
        | (Throw msg, file) => (Refused 500 msg, mkWorld file files chunks)
        end
    end.

End DocumentRoute.

(** ** Upload: the checks and the file name of [POST /api/upload], and the
    content type of [GET /api/documents/[id]/file] *)

Module Upload.
Local Open Scope string_scope.

(** [s.split(sep)] for a separator of one character: never empty. *)
Fixpoint split (sep : ascii) (s : string) : list string :=
  match s with
  | EmptyString => [""]
  | String c rest =>
      if Ascii.eqb c sep then "" :: split sep rest
      else
        match split sep rest with
        | segment :: segments => String c segment :: segments
        | [] => [String c ""]
        end
  end.

(** ['.' + name.split('.').pop()?.toLowerCase()] *)
Definition fileExtension (name : string) : string :=
  "." ++ Chat.toLowerCase (last (split "." name) "").

Definition MAX_FILE_SIZE : Z := 50 * 1024 * 1024.

Definition SUPPORTED_TYPES : list string :=
  [".pdf"; ".txt"; ".doc"; ".docx"; ".md"; ".xlsx"; ".xls"; ".csv"].

(** The list of [src/server/api/upload.post.ts]. *)
Definition SUPPORTED_TYPES_server : list string :=
  [".pdf"; ".txt"; ".doc"; ".docx"; ".md"].

(** [types.includes(extension)] *)
Definition supported (types : list string) (extension : string) : bool :=
  existsb (String.eqb extension) types.

(** What the handler reads of the uploaded [File]. *)
Record File : Type := mkFile {
  name : string;
  size : Z;
  type : string
}.

(** The three checks before the file is read: the refusal (status 400 and
    message) or the extension. *)
Definition validate (types : list string) (file : option File) : Z * string + string :=
  match file with
  | None => inl (400, "No file provided")
  | Some f =>
      if (MAX_FILE_SIZE <? size f)%Z then
        inl (400, "File size exceeds " ++ VectorDb.decimal (MAX_FILE_SIZE / (1024 * 1024))
                  ++ "MB limit")
      else
        let extension := fileExtension (name f) in
        if negb (supported types extension) then
          inl (400, "File type " ++ extension ++ " is not supported. Supported types: "
                    ++ String.concat ", " types)
        else inr extension
  end.

Definition codeUnit (c : ascii) : N := N_of_ascii c.

(** The class [[a-zA-Z0-9.-]]. *)
Definition kept (c : ascii) : bool :=
  let n := codeUnit c in
  ((97 <=? n) && (n <=? 122) || (65 <=? n) && (n <=? 90) || (48 <=? n) && (n <=? 57)
   || (n =? 46) || (n =? 45))%N.

Fixpoint mapString (f : ascii -> ascii) (s : string) : string :=
  match s with
  | EmptyString => EmptyString
  | String c rest => String (f c) (mapString f rest)
  end.

(** [name.replace(/[^a-zA-Z0-9.-]/g, '_')] *)
Definition sanitize (name : string) : string :=
  mapString (fun c => if kept c then c else "_"%char) name.

(** [`${documentId}_${...}`], the name of the stored file. *)
Definition storedFileName (documentId name : string) : string :=
  documentId ++ "_" ++ sanitize name.

(** [contentTypeMap[fileExtension] || 'application/octet-stream'] *)
Definition contentTypeMap : list (string * string) :=
  [ (".pdf", "application/pdf");
    (".doc", "application/msword");
    (".docx", "application/vnd.openxmlformats-officedocument.wordprocessingml.document");
    (".xls", "application/vnd.ms-excel");
    (".xlsx", "application/vnd.openxmlformats-officedocument.spreadsheetml.sheet");
    (".txt", "text/plain");
    (".md", "text/markdown");
    (".csv", "text/csv") ].

Definition contentType (name : string) : string :=
  match find (fun entry => String.eqb (fst entry) (fileExtension name)) contentTypeMap with
  | Some entry => snd entry
  | None => "application/octet-stream"
  end.

End Upload.

(* ================================================================= *)
(** * Properties *)

(** ** Facts about [slice] *)

Section JsSequenceFacts.
Context {A : Type}.

Lemma slice_length (s : list A) (from to : Z) :
    0 <= from <= to -> to <= Z.of_nat (length s) ->
    Z.of_nat (length (slice s from to)) = to - from.
  Proof.
    intros Hft Hto. unfold slice, relIndex.
    destruct (Z.ltb_spec from 0); [lia|].
    destruct (Z.ltb_spec to 0); [lia|].
    rewrite length_firstn, length_skipn. lia.
  Qed.

Lemma slice_nth (s : list A) (from to : Z) (k : nat) (d : A) :
    0 <= from <= to -> to <= Z.of_nat (length s) ->
    (Z.of_nat k < to - from) ->
    nth k (slice s from to) d = nth (Z.to_nat from + k) s d.
  Proof.
    intros Hft Hto Hk. unfold slice, relIndex.
    destruct (Z.ltb_spec from 0); [lia|].
    destruct (Z.ltb_spec to 0); [lia|].
    rewrite !Z.min_l by lia.
    rewrite nth_firstn.
    destruct (Nat.ltb_spec k (Z.to_nat (to - from))); [|lia].
    now rewrite nth_skipn.
  Qed.

Lemma slice_prefix (s : list A) (n : Z) :
    0 <= n -> slice s 0 n = firstn (Z.to_nat n) s.
  Proof.
    intros Hn. unfold slice, relIndex.
    destruct (Z.ltb_spec n 0); [lia|].
    change (0 <? 0) with false. cbv iota.
    assert (H0 : Z.min 0 (Z.of_nat (length s)) = 0) by lia.
    rewrite H0, Z.sub_0_r. cbn [Z.to_nat skipn].
    destruct (Z.le_ge_cases n (Z.of_nat (length s))).
    - now rewrite Z.min_l by lia.
    - rewrite Z.min_r by lia. rewrite Nat2Z.id.
      rewrite firstn_all. symmetry. apply firstn_all2. lia.
  Qed.
End JsSequenceFacts.

(** ** The chunker *)

Module ChunkingFacts.
Import Chunking.

Section LoopFacts.
Context {char : Type}.
Variable (txt : list char) (chunkSize overlap : Z).
Hypothesis chunkSize_pos : 0 < chunkSize.
Hypothesis overlap_range : 0 <= overlap < chunkSize.

Local Abbreviation len := (textLength txt).
Local Abbreviation step := (chunkSize - overlap).
Local Abbreviation body := (loopBody txt chunkSize overlap).
Local Abbreviation cond := (loopCond txt chunkSize overlap).
Local Abbreviation run := (loop txt chunkSize overlap).

(** What the body does once the guard [startIndex < text.length] holds: the
    window is non-empty, so a chunk is always pushed. *)
Lemma loopBody_pushes (st : LoopState char) :
  0 <= st_startIndex st < len ->
  let e := Z.min (st_startIndex st + chunkSize) len in
  loopBody txt chunkSize overlap st =
  mkLoop (st_chunks st ++
            [mkTextChunk (slice txt (st_startIndex st) e) (st_startIndex st) e
               (st_chunkIndex st)])
         (if e - overlap <=? st_startIndex st then e else e - overlap)
         (st_chunkIndex st + 1) (st_iterations st + 1).
Proof.
  intros Hs e. unfold loopBody. fold e.
  assert (Hlen : Z.of_nat (length (slice txt (st_startIndex st) e)) =
                 e - st_startIndex st).
  { apply slice_length; unfold e, textLength in *; lia. }
  rewrite Hlen.
  destruct (Z.ltb_spec 0 (e - st_startIndex st)) as [_|Hle]; [reflexivity|].
  unfold e in Hle. lia.
Qed.

Lemma loop_invariant (P : LoopState char -> Prop) :
  (forall st, P st -> cond st = true -> P (body st)) ->
  forall fuel st, P st -> P (run fuel st).
Proof.
  intros Hstep fuel. induction fuel as [|fuel IH]; intros st HP; cbn [loop].
  - exact HP.
  - destruct (cond st) eqn:Hc; [|exact HP].
    apply IH. now apply Hstep.
Qed.

(** With [maxChunks - iterations] rounds left on the counter, the loop
    stops on its own guard. *)
Lemma loop_exits (fuel : nat) (st : LoopState char) :
  maxChunks txt chunkSize overlap - st_iterations st <= Z.of_nat fuel ->
  cond (run fuel st) = false.
Proof.
  revert st. induction fuel as [|fuel IH]; intros st Hfuel; cbn [loop].
  - unfold loopCond. destruct (Z.ltb_spec (st_iterations st)
      (maxChunks txt chunkSize overlap)); [lia|]. apply andb_false_r.
  - destruct (cond st) eqn:Hc; [|exact Hc].
    apply IH. unfold loopBody; cbn [st_iterations]. lia.
Qed.

(** *** The shape of the emitted chunks *)

Definition wellFormed (c : TextChunk char) : Prop :=
  0 <= startIndex c /\ startIndex c < endIndex c /\
  endIndex c = Z.min (startIndex c + chunkSize) len /\
  text c = slice txt (startIndex c) (endIndex c).

(** The end of the last chunk pushed so far (0 before the first). *)
Definition lastEnd (chunks : list (TextChunk char)) : Z :=
  last (map endIndex chunks) 0.

Definition covers (chunks : list (TextChunk char)) (p : Z) : Prop :=
  exists c, In c chunks /\ startIndex c <= p < endIndex c.

Record Inv (st : LoopState char) : Prop := mkInv {
  inv_start : 0 <= st_startIndex st <= len;
  inv_wf : Forall wellFormed (st_chunks st);
  inv_sorted : StronglySorted Z.lt (map startIndex (st_chunks st));
  inv_before : Forall (fun c => startIndex c < st_startIndex st) (st_chunks st);
  inv_lastEnd : st_startIndex st <= lastEnd (st_chunks st) <= len;
  inv_covers : forall p, 0 <= p < lastEnd (st_chunks st) -> covers (st_chunks st) p;
  inv_index : map chunkIndex (st_chunks st) =
              map Z.of_nat (seq 0 (length (st_chunks st)));
  inv_counter : st_chunkIndex st = Z.of_nat (length (st_chunks st))
}.

Lemma Inv_init : Inv (@initState char).
Proof.
  constructor; cbn; try (constructor; fail); unfold textLength, lastEnd; cbn;
    try lia; reflexivity.
Qed.

Lemma StronglySorted_snoc (l : list Z) (x : Z) :
  StronglySorted Z.lt l -> Forall (fun y => y < x) l ->
  StronglySorted Z.lt (l ++ [x]).
Proof.
  induction l as [|a l IH]; intros Hs Hall; cbn.
  - constructor; constructor.
  - inversion Hs as [|? ? Hs' Ha]; subst. inversion Hall as [|? ? Hax Hall']; subst.
    constructor; [now apply IH|].
    apply Forall_app; split; [exact Ha|]. constructor; [exact Hax|constructor].
Qed.

Lemma lastEnd_snoc (chunks : list (TextChunk char)) (c : TextChunk char) :
  lastEnd (chunks ++ [c]) = endIndex c.
Proof. unfold lastEnd. rewrite map_app. cbn [map]. apply last_last. Qed.

Lemma Inv_step (st : LoopState char) :
  Inv st -> cond st = true -> Inv (body st).
Proof.
  intros [Hs Hwf Hsorted Hbefore Hlast Hcov Hidx Hcnt] Hc.
  unfold loopCond in Hc. apply andb_true_iff in Hc as [Hlt _].
  apply Z.ltb_lt in Hlt.
  rewrite loopBody_pushes by lia. cbv zeta.
  set (s := st_startIndex st) in *.
  set (e := Z.min (s + chunkSize) len).
  assert (He : s < e <= len) by (unfold e; lia).
  set (s' := if e - overlap <=? s then e else e - overlap).
  assert (Hs' : s < s' <= e).
  { unfold s'. destruct (Z.leb_spec (e - overlap) s); lia. }
  constructor; cbn [st_chunks st_startIndex st_chunkIndex st_iterations].
  - lia.
  - apply Forall_app; split; [exact Hwf|]. constructor; [|constructor].
    unfold wellFormed; cbn. repeat split; lia.
  - rewrite map_app. cbn [map startIndex]. apply StronglySorted_snoc; [exact Hsorted|].
    apply Forall_map. exact Hbefore.
  - apply Forall_app; split.
    + eapply Forall_impl; [|exact Hbefore]. cbn. intros c Hc. fold s in Hc. lia.
    + constructor; [cbn; lia|constructor].
  - rewrite lastEnd_snoc. cbn. lia.
  - rewrite lastEnd_snoc. cbn [endIndex]. intros p Hp.
    destruct (Z.lt_ge_cases p (lastEnd (st_chunks st))) as [Hold|Hnew].
    + destruct (Hcov p) as (c & Hin & Hc); [lia|].
      exists c. split; [apply in_or_app; now left|exact Hc].
    + eexists. split; [apply in_or_app; right; left; reflexivity|]. cbn. lia.
  - rewrite map_app, length_app, seq_app, map_app, Hidx. cbn. now rewrite Hcnt.
  - rewrite length_app. cbn. lia.
Qed.

(** *** The safety limit is never the reason the loop stops

    [remaining s] bounds the number of rounds still to run from start index
    [s]: one per full window, then at most two clipped ones. *)
Definition remaining (s : Z) : Z :=
  if len <=? s then 0
  else if len - overlap <=? s then 1
  else if len <=? s + chunkSize then 2
  else 2 + ceilDiv (len - chunkSize - s) step.

Lemma ceilDiv_pos (a : Z) : 0 < a -> 1 <= ceilDiv a step.
Proof.
  intros Ha. unfold ceilDiv.
  apply Z.div_le_lower_bound; lia.
Qed.

Lemma ceilDiv_step (a : Z) : ceilDiv (a - step) step = ceilDiv a step - 1.
Proof.
  unfold ceilDiv.
  replace (a - step + step - 1) with (a + step - 1 + (-1) * step) by lia.
  rewrite Z.div_add by lia. lia.
Qed.

Lemma ceilDiv_mono (a b : Z) : a <= b -> ceilDiv a step <= ceilDiv b step.
Proof. intros Hab. unfold ceilDiv. apply Z.div_le_mono; lia. Qed.

Lemma remaining_init : remaining 0 <= ceilDiv len step + 2.
Proof.
  unfold remaining.
  destruct (Z.leb_spec len 0); [unfold ceilDiv|].
  { assert (0 <= (len + step - 1) / step); [|lia].
    apply Z.div_pos; unfold textLength in *; lia. }
  assert (1 <= ceilDiv len step) by (apply ceilDiv_pos; lia).
  destruct (Z.leb_spec (len - overlap) 0); [lia|].
  destruct (Z.leb_spec len (0 + chunkSize)); [lia|].
  assert (ceilDiv (len - chunkSize - 0) step <= ceilDiv len step)
    by (apply ceilDiv_mono; lia).
  lia.
Qed.

Lemma remaining_step (st : LoopState char) :
  0 <= st_startIndex st < len ->
  remaining (st_startIndex (body st)) + 1 <= remaining (st_startIndex st).
Proof.
  intros Hs. rewrite loopBody_pushes by exact Hs. cbv zeta. cbn [st_startIndex].
  set (s := st_startIndex st) in *.
  unfold remaining at 2.
  destruct (Z.leb_spec len s); [lia|].
  destruct (Z.leb_spec (len - overlap) s) as [Htail|Hbody].
  - (* last round: the window is clipped and cannot advance by the overlap *)
    rewrite Z.min_r by lia.
    destruct (Z.leb_spec (len - overlap) s); [|lia].
    unfold remaining. destruct (Z.leb_spec len len); lia.
  - destruct (Z.leb_spec len (s + chunkSize)) as [Hclip|Hfull].
    + rewrite Z.min_r by lia.
      destruct (Z.leb_spec (len - overlap) s); [lia|].
      unfold remaining.
      destruct (Z.leb_spec len (len - overlap)); [lia|].
      destruct (Z.leb_spec (len - overlap) (len - overlap)); lia.
    + rewrite Z.min_l by lia.
      destruct (Z.leb_spec (s + chunkSize - overlap) s); [lia|].
      assert (Hc : 1 <= ceilDiv (len - chunkSize - s) step)
        by (apply ceilDiv_pos; lia).
      unfold remaining.
      destruct (Z.leb_spec len (s + chunkSize - overlap)); [lia|].
      destruct (Z.leb_spec (len - overlap) (s + chunkSize - overlap)); [lia|].
      destruct (Z.leb_spec len (s + chunkSize - overlap + chunkSize)); [lia|].
      replace (len - chunkSize - (s + chunkSize - overlap))
        with (len - chunkSize - s - step) by lia.
      rewrite ceilDiv_step. lia.
Qed.

Lemma remaining_zero (s : Z) : remaining s <= 0 -> len <= s.
Proof.
  unfold remaining.
  destruct (Z.leb_spec len s); [lia|].
  destruct (Z.leb_spec (len - overlap) s); [lia|].
  destruct (Z.leb_spec len (s + chunkSize)); [lia|].
  intros H'. assert (1 <= ceilDiv (len - chunkSize - s) step)
    by (apply ceilDiv_pos; lia). lia.
Qed.

Definition Budget (st : LoopState char) : Prop :=
  0 <= st_startIndex st /\
  st_iterations st + remaining (st_startIndex st) <= maxChunks txt chunkSize overlap.

Lemma Budget_step (st : LoopState char) :
  Budget st -> cond st = true -> Budget (body st).
Proof.
  intros [H0 Hb] Hc. unfold loopCond in Hc. apply andb_true_iff in Hc as [Hlt _].
  apply Z.ltb_lt in Hlt.
  pose proof (remaining_step st (conj H0 Hlt)) as Hr.
  split.
  - rewrite loopBody_pushes by lia. cbv zeta. cbn [st_startIndex].
    destruct (Z.leb_spec (Z.min (st_startIndex st + chunkSize) len - overlap)
                (st_startIndex st)); lia.
  - replace (st_iterations (body st)) with (st_iterations st + 1) by reflexivity.
    lia.
Qed.

(** The final state of the loop as [chunkText] runs it. *)
Definition final : LoopState char :=
  run (Z.to_nat (maxChunks txt chunkSize overlap)) initState.

Lemma final_Inv : Inv final.
Proof. unfold final. apply loop_invariant; [exact Inv_step|exact Inv_init]. Qed.

Lemma final_reaches_end : st_startIndex final = len.
Proof.
  assert (HB : Budget final).
  { unfold final. apply loop_invariant; [exact Budget_step|].
    split; cbn; [lia|]. pose proof remaining_init. unfold maxChunks. lia. }
  assert (Hexit : cond final = false).
  { unfold final. apply loop_exits. cbn [initState st_iterations]. lia. }
  pose proof (inv_start _ final_Inv) as Hs.
  destruct HB as [_ HB]. unfold loopCond in Hexit.
  apply andb_false_iff in Hexit as [Hexit|Hexit]; apply Z.ltb_ge in Hexit; [lia|].
  assert (len <= st_startIndex final) by (apply remaining_zero; lia). lia.
Qed.

Lemma final_lastEnd : lastEnd (st_chunks final) = len.
Proof.
  pose proof (inv_lastEnd _ final_Inv). pose proof final_reaches_end. lia.
Qed.

(** *** The run of the loop, round by round *)

(** A run that ends with the guard false has made some number of rounds,
    each of them with the guard true. *)
Lemma loop_trace (fuel : nat) (st : LoopState char) :
  cond (run fuel st) = false ->
  exists n, (forall k, (k < n)%nat -> cond (Nat.iter k body st) = true) /\
            cond (Nat.iter n body st) = false /\
            run fuel st = Nat.iter n body st.
Proof.
  revert st. induction fuel as [|fuel IH]; intros st Hexit; cbn [loop] in *.
  - exists 0%nat. split; [intros k Hk; lia|]. split; [exact Hexit|reflexivity].
  - destruct (cond st) eqn:Hc.
    + destruct (IH _ Hexit) as (n & Hbefore & Hafter & Hrun).
      exists (S n). rewrite Nat.iter_succ_r. split; [|split; assumption].
      intros [|k] Hk; [exact Hc|]. rewrite Nat.iter_succ_r. apply Hbefore. lia.
    + exists 0%nat. split; [intros k Hk; lia|]. split; [exact Hc|reflexivity].
Qed.

(** The loop of [chunkText] leaves by its guard, after the rounds that
    lead to [final]. *)
Lemma final_exitsAfter :
  exists n, exitsAfter txt chunkSize overlap n /\
            afterRounds txt chunkSize overlap n = final.
Proof.
  assert (Hexit : cond final = false).
  { unfold final. apply loop_exits. cbn [initState st_iterations]. lia. }
  destruct (loop_trace _ _ Hexit) as (n & Hbefore & Hafter & Hrun).
  exists n. split; [split; assumption|]. symmetry. exact Hrun.
Qed.

End LoopFacts.

(** *** The spans depend on the length of the text only *)

Definition span {char : Type} (c : TextChunk char) : Z * Z * Z :=
  (startIndex c, endIndex c, chunkIndex c).

Lemma slice_length_only {A B : Type} (s1 : list A) (s2 : list B) (from to : Z) :
  length s1 = length s2 ->
  length (slice s1 from to) = length (slice s2 from to).
Proof.
  intros Hl. unfold slice. rewrite !length_firstn, !length_skipn, Hl. reflexivity.
Qed.

Section LengthOnly.
Context {A B : Type}.
Variable (txt1 : list A) (txt2 : list B) (chunkSize overlap : Z).
Hypothesis same_length : length txt1 = length txt2.

Definition sameSpans (st1 : LoopState A) (st2 : LoopState B) : Prop :=
  st_startIndex st1 = st_startIndex st2 /\
  st_chunkIndex st1 = st_chunkIndex st2 /\
  st_iterations st1 = st_iterations st2 /\
  map span (st_chunks st1) = map span (st_chunks st2).

Lemma loop_sameSpans (fuel : nat) (st1 : LoopState A) (st2 : LoopState B) :
  sameSpans st1 st2 ->
  sameSpans (loop txt1 chunkSize overlap fuel st1)
            (loop txt2 chunkSize overlap fuel st2).
Proof.
  revert st1 st2. induction fuel as [|fuel IH]; intros st1 st2 HR; cbn [loop].
  - exact HR.
  - destruct HR as (Hs & Hi & Hn & Hc).
    assert (Hcond : loopCond txt1 chunkSize overlap st1 =
                    loopCond txt2 chunkSize overlap st2).
    { unfold loopCond, maxChunks, textLength. now rewrite Hs, Hn, same_length. }
    rewrite Hcond. destruct (loopCond txt2 chunkSize overlap st2).
    + apply IH. unfold sameSpans, loopBody, textLength.
      rewrite <- Hs, <- Hi, <- Hn, <- same_length.
      rewrite <- (slice_length_only txt1 txt2 _ _ same_length).
      cbn [st_startIndex st_chunkIndex st_iterations st_chunks].
      repeat split.
      destruct (0 <? _); [|exact Hc].
      rewrite !map_app, Hc. reflexivity.
    + repeat split; assumption.
Qed.

Lemma chunkText_sameSpans :
  match chunkText txt1 chunkSize overlap, chunkText txt2 chunkSize overlap with
  | Ok c1, Ok c2 => map span c1 = map span c2
  | Throw m1, Throw m2 => m1 = m2
  | _, _ => False
  end.
Proof.
  unfold chunkText, maxChunks, textLength. rewrite same_length.
  destruct (_ =? 0); [reflexivity|].
  destruct (chunkSize <=? 0); [reflexivity|].
  destruct (overlap <? 0); [reflexivity|].
  destruct (chunkSize <=? overlap); [reflexivity|].
  apply loop_sameSpans. repeat split.
Qed.
End LengthOnly.

(** *** Consequences of the invariant for [chunkText] *)

Lemma sorted_consecutive {A : Type} (f : A -> Z) (l : list A) :
  StronglySorted Z.lt (map f l) ->
  forall i c d, nth_error l i = Some c -> nth_error l (S i) = Some d -> f c < f d.
Proof.
  induction l as [|a l IH]; intros Hs i c d Hc Hd.
  - destruct i; discriminate.
  - cbn [map] in Hs. inversion Hs as [|? ? Hs' Ha]; subst.
    destruct i as [|i]; cbn in Hc, Hd.
    + injection Hc as <-. destruct l as [|b l]; [discriminate|].
      injection Hd as <-. now inversion Ha.
    + eapply IH; eauto.
Qed.

Lemma sorted_NoDup (l : list Z) : StronglySorted Z.lt l -> NoDup l.
Proof.
  induction 1 as [|a l Hs IH Ha]; constructor; [|exact IH].
  intros Hin. rewrite Forall_forall in Ha. specialize (Ha _ Hin). lia.
Qed.

Lemma chunkText_runs_loop {char : Type} (txt : list char) (chunkSize overlap : Z) :
  0 < chunkSize -> 0 <= overlap < chunkSize ->
  chunkText txt chunkSize overlap = Ok (st_chunks (final txt chunkSize overlap)).
Proof.
  intros Hc Ho. unfold chunkText.
  destruct (Z.eqb_spec (Z.of_nat (length txt)) 0) as [H0|H0].
  - unfold final. destruct txt; [|discriminate].
    destruct (Z.to_nat _); reflexivity.
  - destruct (Z.leb_spec chunkSize 0); [lia|].
    destruct (Z.ltb_spec overlap 0); [lia|].
    destruct (Z.leb_spec chunkSize overlap); [lia|]. reflexivity.
Qed.

(** [chunkIndex] counts the emitted chunks from 0. *)
Lemma chunkText_indices {char : Type} (txt : list char) (chunkSize overlap : Z) :
  0 < chunkSize -> 0 <= overlap < chunkSize ->
  exists chunks,
    chunkText txt chunkSize overlap = Ok chunks /\
    map chunkIndex chunks = map Z.of_nat (seq 0 (length chunks)).
Proof.
  intros Hc Ho. exists (st_chunks (final txt chunkSize overlap)).
  split; [now apply chunkText_runs_loop|].
  exact (inv_index _ _ _ (final_Inv txt chunkSize overlap Hc Ho)).
Qed.

(** C1. For every text and every valid pair [chunkSize > 0],
    [0 <= overlap < chunkSize], [chunkText] terminates: its [while] loop
    leaves after some number [n] of rounds, the condition true before each
    of them and false after the last, and [chunkText] returns the chunks
    pushed in those rounds, without throwing.  Every returned span is
    non-empty; no span is longer than [chunkSize]; and [startIndex] strictly
    increases from each emitted chunk to the next, so no span is emitted
    twice. *)
Theorem chunkText_total_nonempty_bounded_increasing
  {char : Type} (txt : list char) (chunkSize overlap : Z) :
  0 < chunkSize -> 0 <= overlap < chunkSize ->
  exists n chunks,
    exitsAfter txt chunkSize overlap n /\
    st_chunks (afterRounds txt chunkSize overlap n) = chunks /\
    chunkText txt chunkSize overlap = Ok chunks /\
    Forall (fun c => text c <> [] /\ startIndex c < endIndex c /\
                     endIndex c - startIndex c <= chunkSize) chunks /\
    (forall i c d, nth_error chunks i = Some c ->
                   nth_error chunks (S i) = Some d ->
                   startIndex c < startIndex d) /\
    NoDup (map startIndex chunks).
Proof.
  intros Hc Ho.
  destruct (final_exitsAfter txt chunkSize overlap) as (n & Hexits & Hfinal).
  exists n, (st_chunks (final txt chunkSize overlap)).
  pose proof (final_Inv txt chunkSize overlap Hc Ho) as HI.
  split; [exact Hexits|]. split; [now rewrite Hfinal|].
  split; [now apply chunkText_runs_loop|]. split; [|split].
  - eapply Forall_impl; [|exact (inv_wf _ _ _ HI)].
    intros c (H0 & Hlt & He & Ht). split; [|split; lia].
    intros Hnil. apply (f_equal (fun l => Z.of_nat (length l))) in Ht.
    rewrite slice_length in Ht; unfold textLength in *; try lia.
    rewrite Hnil in Ht. cbn in Ht. lia.
  - apply sorted_consecutive. exact (inv_sorted _ _ _ HI).
  - apply sorted_NoDup. exact (inv_sorted _ _ _ HI).
Qed.

Lemma chunkText_total_nonempty_bounded_increasing_witness :
  exists n chunks,
    exitsAfter ["a"; "b"; "c"; "d"; "e"]%char 3 1 n /\
    st_chunks (afterRounds ["a"; "b"; "c"; "d"; "e"]%char 3 1 n) = chunks /\
    chunkText ["a"; "b"; "c"; "d"; "e"]%char 3 1 = Ok chunks /\
    Forall (fun c => text c <> [] /\ startIndex c < endIndex c /\
                     endIndex c - startIndex c <= 3) chunks /\
    (forall i c d, nth_error chunks i = Some c ->
                   nth_error chunks (S i) = Some d ->
                   startIndex c < startIndex d) /\
    NoDup (map startIndex chunks).
Proof.
  apply (chunkText_total_nonempty_bounded_increasing
           ["a"; "b"; "c"; "d"; "e"]%char 3 1); lia.
Defined.

(** C10. For a non-empty text and valid parameters, every returned chunk
    carries the substring [text[startIndex, endIndex)] with
    [endIndex = min (startIndex + chunkSize) text.length]; the last chunk
    ends at [text.length]; and every position of the text lies in some
    returned chunk.  (The safety limit [maxChunks] never cuts the output
    short.) *)
Theorem chunkText_substrings_cover_text
  {char : Type} (txt : list char) (chunkSize overlap : Z) :
  txt <> [] -> 0 < chunkSize -> 0 <= overlap < chunkSize ->
  exists chunks,
    chunkText txt chunkSize overlap = Ok chunks /\
    Forall (fun c =>
              endIndex c = Z.min (startIndex c + chunkSize) (Z.of_nat (length txt)) /\
              text c = slice txt (startIndex c) (endIndex c) /\
              text c = firstn (Z.to_nat (endIndex c - startIndex c))
                              (skipn (Z.to_nat (startIndex c)) txt)) chunks /\
    (exists front c, chunks = front ++ [c] /\ endIndex c = Z.of_nat (length txt)) /\
    (forall p, 0 <= p < Z.of_nat (length txt) ->
               exists c, In c chunks /\ startIndex c <= p < endIndex c).
Proof.
  intros Hne Hc Ho. exists (st_chunks (final txt chunkSize overlap)).
  pose proof (final_Inv txt chunkSize overlap Hc Ho) as HI.
  pose proof (final_lastEnd txt chunkSize overlap Hc Ho) as HL.
  split; [now apply chunkText_runs_loop|]. split; [|split].
  - eapply Forall_impl; [|exact (inv_wf _ _ _ HI)].
    intros c (H0 & Hlt & He & Ht). split; [exact He|]. split; [exact Ht|].
    rewrite Ht at 1. unfold slice, relIndex.
    destruct (Z.ltb_spec (startIndex c) 0); [lia|].
    destruct (Z.ltb_spec (endIndex c) 0); [lia|].
    unfold textLength in He. rewrite !Z.min_l by lia. reflexivity.
  - assert (Hpos : 0 < textLength txt).
    { unfold textLength. destruct txt; [congruence|]. cbn. lia. }
    destruct (exists_last (l := st_chunks (final txt chunkSize overlap)))
      as (front & c & Heq).
    { intros Hnil. rewrite Hnil in HL. unfold lastEnd in HL. cbn in HL. lia. }
    exists front, c. split; [exact Heq|].
    rewrite Heq, lastEnd_snoc in HL. exact HL.
  - intros p Hp. apply (inv_covers _ _ _ HI). rewrite HL.
    unfold textLength. lia.
Qed.

Lemma chunkText_substrings_cover_text_witness :
  exists chunks,
    chunkText ["a"; "b"; "c"; "d"; "e"]%char 3 1 = Ok chunks /\
    Forall (fun c =>
              endIndex c = Z.min (startIndex c + 3) 5 /\
              text c = slice ["a"; "b"; "c"; "d"; "e"]%char (startIndex c) (endIndex c) /\
              text c = firstn (Z.to_nat (endIndex c - startIndex c))
                              (skipn (Z.to_nat (startIndex c))
                                     ["a"; "b"; "c"; "d"; "e"]%char)) chunks /\
    (exists front c, chunks = front ++ [c] /\ endIndex c = 5) /\
    (forall p, 0 <= p < 5 ->
               exists c, In c chunks /\ startIndex c <= p < endIndex c).
Proof.
  apply (chunkText_substrings_cover_text ["a"; "b"; "c"; "d"; "e"]%char 3 1);
    [discriminate | lia | lia].
Defined.

(** *** The 2500-character scenario *)

Definition text2500 : list ascii := repeat "x"%char 2500.

Lemma text2500_spans :
  exists chunks, chunkText text2500 1000 200 = Ok chunks /\
    map span chunks = [(0, 1000, 0); (800, 1800, 1);
                       (1600, 2500, 2); (2300, 2500, 3)].
Proof. eexists. split; vm_compute; reflexivity. Qed.

Lemma spans_2500 {char : Type} (txt : list char) :
  length txt = 2500%nat ->
  exists chunks, chunkText txt 1000 200 = Ok chunks /\
    map span chunks = [(0, 1000, 0); (800, 1800, 1);
                       (1600, 2500, 2); (2300, 2500, 3)].
Proof.
  intros Hlen.
  assert (Hl : length txt = length text2500).
  { rewrite Hlen. unfold text2500. now rewrite repeat_length. }
  pose proof (chunkText_sameSpans txt text2500 1000 200 Hl) as Hsame.
  destruct text2500_spans as (c2 & Hc2 & Hspans).
  rewrite Hc2 in Hsame.
  destruct (chunkText txt 1000 200) as [chunks|msg]; [|contradiction].
  exists chunks. split; [reflexivity|]. now rewrite Hsame.
Qed.

(** C2, as amended.  A text of exactly 2500 characters chunked with
    [chunkSize = 1000] and [overlap = 200] yields exactly 4 chunks, starting
    at 0, 800, 1600 and 2300: the third window is clipped at 2500, so the
    fourth starts at [2500 - 200]. *)
Theorem chunkText_2500_starts {char : Type} (txt : list char) :
  length txt = 2500%nat ->
  exists chunks,
    chunkText txt 1000 200 = Ok chunks /\
    length chunks = 4%nat /\
    map startIndex chunks = [0; 800; 1600; 2300] /\
    map endIndex chunks = [1000; 1800; 2500; 2500].
Proof.
  intros Hlen. destruct (spans_2500 txt Hlen) as (chunks & Hrun & Hs).
  exists chunks. split; [exact Hrun|]. split; [|split].
  - rewrite <- (length_map span), Hs. reflexivity.
  - change (@startIndex char) with (fun c : TextChunk char => fst (fst (span c))).
    rewrite <- (map_map span (fun t => fst (fst t))), Hs. reflexivity.
  - change (@endIndex char) with (fun c : TextChunk char => snd (fst (span c))).
    rewrite <- (map_map span (fun t => snd (fst t))), Hs. reflexivity.
Qed.

Lemma chunkText_2500_starts_witness :
  exists chunks,
    chunkText text2500 1000 200 = Ok chunks /\
    length chunks = 4%nat /\
    map startIndex chunks = [0; 800; 1600; 2300] /\
    map endIndex chunks = [1000; 1800; 2500; 2500].
Proof.
  apply (chunkText_2500_starts text2500). vm_compute. reflexivity.
Defined.

(** C2, as stated, fails: on a text of 2500 characters the fourth chunk
    does not start at 2400. *)
Lemma chunkText_2500_not_2400 :
  ~ (exists chunks,
       chunkText text2500 1000 200 = Ok chunks /\
       length chunks = 4%nat /\
       map startIndex chunks = [0; 800; 1600; 2400]).
Proof.
  intros (chunks & Hrun & _ & Hstarts).
  destruct text2500_spans as (chunks' & Hrun' & Hs).
  rewrite Hrun in Hrun'. injection Hrun' as <-.
  apply (f_equal (map (fun t : Z * Z * Z => fst (fst t)))) in Hs.
  rewrite map_map in Hs. cbn [map fst snd] in Hs.
  change (fun x : TextChunk ascii => fst (fst (span x))) with (@startIndex ascii) in Hs.
  rewrite Hstarts in Hs. discriminate.
Qed.

End ChunkingFacts.

(** ** The query classifier *)

Module ClassifierFacts.
Import Classifier.

Lemma ascii_cases (P : ascii -> Prop) :
  (forall b0 b1 b2 b3 b4 b5 b6 b7, P (Ascii b0 b1 b2 b3 b4 b5 b6 b7)) ->
  forall c, P c.
Proof. intros H [b0 b1 b2 b3 b4 b5 b6 b7]. apply H. Qed.

Lemma lowerChar_idempotent (c : ascii) : lowerChar (lowerChar c) = lowerChar c.
Proof.
  revert c. apply ascii_cases.
  intros [] [] [] [] [] [] [] []; vm_compute; reflexivity.
Qed.

Lemma lowerChar_whiteSpace (c : ascii) : isWhiteSpace (lowerChar c) = isWhiteSpace c.
Proof.
  revert c. apply ascii_cases.
  intros [] [] [] [] [] [] [] []; vm_compute; reflexivity.
Qed.

Lemma toLowerCase_idempotent (s : list ascii) :
  toLowerCase (toLowerCase s) = toLowerCase s.
Proof.
  unfold toLowerCase. rewrite map_map. apply map_ext. exact lowerChar_idempotent.
Qed.

Definition allWhiteSpace (s : list ascii) : Prop :=
  Forall (fun c => isWhiteSpace c = true) s.

Lemma trimStart_leading (ws s : list ascii) :
  allWhiteSpace ws -> trimStart (ws ++ s) = trimStart s.
Proof.
  induction 1 as [|c ws Hc _ IH]; cbn [app trimStart]; [reflexivity|].
  now rewrite Hc.
Qed.

Lemma trimStart_app (s u : list ascii) :
  trimStart (s ++ u) =
  match trimStart s with
  | [] => trimStart u
  | _ :: _ => trimStart s ++ u
  end.
Proof.
  induction s as [|c s IH]; cbn [app trimStart].
  - destruct (trimStart u); reflexivity.
  - destruct (isWhiteSpace c); [exact IH|reflexivity].
Qed.

Lemma trimStart_allWhiteSpace (ws : list ascii) :
  allWhiteSpace ws -> trimStart ws = [].
Proof.
  intros H. rewrite <- (app_nil_r ws). now rewrite trimStart_leading.
Qed.

Lemma trimEnd_trailing (s ws : list ascii) :
  allWhiteSpace ws -> trimEnd (s ++ ws) = trimEnd s.
Proof.
  intros H. unfold trimEnd. rewrite rev_app_distr, trimStart_leading; [reflexivity|].
  unfold allWhiteSpace in *. rewrite Forall_forall in *.
  intros c Hc. apply H. now apply in_rev.
Qed.

Lemma trim_padding (ws1 s ws2 : list ascii) :
  allWhiteSpace ws1 -> allWhiteSpace ws2 -> trim (ws1 ++ s ++ ws2) = trim s.
Proof.
  intros H1 H2. unfold trim. rewrite trimStart_leading by exact H1.
  rewrite trimStart_app. destruct (trimStart s) as [|c t] eqn:Hs.
  - now rewrite (trimStart_allWhiteSpace ws2).
  - now apply trimEnd_trailing.
Qed.

Lemma toLowerCase_allWhiteSpace (ws : list ascii) :
  allWhiteSpace ws -> allWhiteSpace (toLowerCase ws).
Proof.
  unfold allWhiteSpace, toLowerCase. intros H. apply Forall_map.
  eapply Forall_impl; [|exact H]. cbn. intros c Hc. now rewrite lowerChar_whiteSpace.
Qed.

(** C9. The classifier is a function of the question (deterministic), and
    it is [General] exactly when at least one template matches the
    lower-cased, trimmed question, [Specific] exactly when none does; the
    answer does not depend on letter case nor on surrounding white space;
    ["Summarize this document"] is General and
    ["What was the revenue in Q3?"] is Specific. *)
Theorem isGeneralQuestion_pattern_based :
  (forall q, classify q = General <->
             exists pattern, In pattern generalPatterns /\
                             test pattern (trim (toLowerCase q)) = true) /\
  (forall q, classify q = Specific <->
             forall pattern, In pattern generalPatterns ->
                             test pattern (trim (toLowerCase q)) = false) /\
  (forall q1 q2, toLowerCase q1 = toLowerCase q2 ->
                 isGeneralQuestion q1 = isGeneralQuestion q2) /\
  (forall q, isGeneralQuestion (toLowerCase q) = isGeneralQuestion q) /\
  (forall ws1 q ws2, allWhiteSpace ws1 -> allWhiteSpace ws2 ->
                     isGeneralQuestion (ws1 ++ q ++ ws2) = isGeneralQuestion q) /\
  classify (js "Summarize this document") = General /\
  classify (js "What was the revenue in Q3?") = Specific.
Proof.
  assert (Htrue : forall q, isGeneralQuestion q = true <->
            exists pattern, In pattern generalPatterns /\
                            test pattern (trim (toLowerCase q)) = true).
  { intros q. unfold isGeneralQuestion. apply existsb_exists. }
  split; [|split; [|split; [|split; [|split; [|split]]]]].
  - intros q. unfold classify. split.
    + destruct (isGeneralQuestion q) eqn:Hq; [|discriminate].
      intros _. now apply Htrue.
    + intros H. apply Htrue in H. now rewrite H.
  - intros q. unfold classify. split.
    + destruct (isGeneralQuestion q) eqn:Hq; [discriminate|].
      intros _ pattern Hin. destruct (test pattern _) eqn:Ht; [|reflexivity].
      assert (isGeneralQuestion q = true) by (apply Htrue; eauto). congruence.
    + intros H. destruct (isGeneralQuestion q) eqn:Hq; [|reflexivity].
      apply Htrue in Hq as (pattern & Hin & Ht). rewrite (H _ Hin) in Ht.
      discriminate.
  - intros q1 q2 H. unfold isGeneralQuestion. now rewrite H.
  - intros q. unfold isGeneralQuestion. now rewrite toLowerCase_idempotent.
  - intros ws1 q ws2 H1 H2. unfold isGeneralQuestion.
    unfold toLowerCase at 1. rewrite !map_app. fold (toLowerCase ws1).
    fold (toLowerCase q). fold (toLowerCase ws2).
    now rewrite trim_padding by (apply toLowerCase_allWhiteSpace; assumption).
  - vm_compute. reflexivity.
  - vm_compute. reflexivity.
Qed.

End ClassifierFacts.

(** ** The chat handlers *)

Module ChatFacts.
Import Chat.

(** *** A Hoare logic for the request computations

    [hoare P m Q E]: from a state in [P], [m] either returns [a] in a state
    in [Q a], or throws in a state in [E]. *)
Definition hoare {A : Type} (P : State -> Prop) (m : M A)
    (Q : A -> State -> Prop) (E : State -> Prop) : Prop :=
  forall st, P st ->
    match m st with
    | (Ok a, st') => Q a st'
    | (Throw _, st') => E st'
    end.

Lemma hoare_conseq {A : Type} (P P' : State -> Prop) (m : M A)
    (Q Q' : A -> State -> Prop) (E E' : State -> Prop) :
  hoare P' m Q' E' ->
  (forall st, P st -> P' st) ->
  (forall a st, Q' a st -> Q a st) ->
  (forall st, E' st -> E st) ->
  hoare P m Q E.
Proof.
  intros H HP HQ HE st Hst. specialize (H st (HP st Hst)).
  destruct (m st) as [[a|msg] st']; auto.
Qed.

Lemma hoare_ret {A : Type} (P : State -> Prop) (a : A) (Q : A -> State -> Prop)
    (E : State -> Prop) :
  (forall st, P st -> Q a st) -> hoare P (ret a) Q E.
Proof. intros H st Hst. cbn. auto. Qed.

Lemma hoare_throw {A : Type} (P : State -> Prop) (msg : string)
    (Q : A -> State -> Prop) (E : State -> Prop) :
  (forall st, P st -> E st) -> hoare P (throw msg) Q E.
Proof. intros H st Hst. cbn. auto. Qed.

Lemma hoare_bind {A B : Type} (P : State -> Prop) (m : M A) (k : A -> M B)
    (R : A -> State -> Prop) (Q : B -> State -> Prop) (E : State -> Prop) :
  hoare P m R E -> (forall a, hoare (R a) (k a) Q E) -> hoare P (bind m k) Q E.
Proof.
  intros Hm Hk st Hst. unfold bind. specialize (Hm st Hst).
  destruct (m st) as [[a|msg] st']; [|exact Hm].
  exact (Hk a st' Hm).
Qed.

Lemma hoare_tryCatch {A : Type} (P : State -> Prop) (m : M A)
    (handler : string -> M A) (Q : A -> State -> Prop) (E' E : State -> Prop) :
  hoare P m Q E' -> (forall msg, hoare E' (handler msg) Q E) ->
  hoare P (tryCatch m handler) Q E.
Proof.
  intros Hm Hh st Hst. unfold tryCatch. specialize (Hm st Hst).
  destruct (m st) as [[a|msg] st']; [exact Hm|].
  exact (Hh msg st' Hm).
Qed.

Lemma hoare_get (P : State -> Prop) (E : State -> Prop) :
  hoare P get (fun s st => s = st /\ P st) E.
Proof. intros st Hst. cbn. auto. Qed.

Lemma hoare_modify (P : State -> Prop) (f : State -> State)
    (Q : unit -> State -> Prop) (E : State -> Prop) :
  (forall st, P st -> Q tt (f st)) -> hoare P (modify f) Q E.
Proof. intros H st Hst. cbn. auto. Qed.

Lemma hoare_liftResult {A : Type} (P : State -> Prop) (r : result A)
    (E : State -> Prop) :
  (forall st, P st -> E st) ->
  hoare P (liftResult r) (fun a st => r = Ok a /\ P st) E.
Proof. intros H st Hst. unfold liftResult. destruct r; auto. Qed.

Lemma hoare_external {A : Type} (P : State -> Prop) (c : Call)
    (answer : nat -> result A) (Q : A -> State -> Prop) (E : State -> Prop) :
  (forall st a, P st -> answer (length (calls st)) = Ok a ->
                Q a (set_calls (calls st ++ [c]) st)) ->
  (forall st msg, P st -> answer (length (calls st)) = Throw msg ->
                  E (set_calls (calls st ++ [c]) st)) ->
  hoare P (external c answer) Q E.
Proof.
  intros HQ HE st Hst. unfold external.
  destruct (answer (length (calls st))) eqn:Ha; eauto.
Qed.

(** *** Invariants *)

(** [keeps I m]: [m] preserves [I], whether it returns or throws. *)
Definition keeps {A : Type} (I : State -> Prop) (m : M A) : Prop :=
  hoare I m (fun _ => I) I.

Section Keeps.
Variable I : State -> Prop.

Lemma keeps_ret {A : Type} (a : A) : keeps I (ret a).
Proof. apply hoare_ret. auto. Qed.

Lemma keeps_throw {A : Type} (msg : string) : keeps I (@throw A msg).
Proof. apply hoare_throw. auto. Qed.

Lemma keeps_get : keeps I get.
Proof. intros st Hst. cbn. exact Hst. Qed.

Lemma keeps_liftResult {A : Type} (r : result A) : keeps I (liftResult r).
Proof. intros st Hst. unfold liftResult. destruct r; exact Hst. Qed.

Lemma keeps_bind {A B : Type} (m : M A) (k : A -> M B) :
  keeps I m -> (forall a, keeps I (k a)) -> keeps I (bind m k).
Proof. intros Hm Hk. eapply hoare_bind; [exact Hm|exact Hk]. Qed.

Lemma keeps_tryCatch {A : Type} (m : M A) (handler : string -> M A) :
  keeps I m -> (forall msg, keeps I (handler msg)) -> keeps I (tryCatch m handler).
Proof. intros Hm Hh. eapply hoare_tryCatch; [exact Hm|exact Hh]. Qed.

Lemma keeps_forEach {A : Type} (l : list A) (f : A -> M unit) :
  (forall x, keeps I (f x)) -> keeps I (forEach l f).
Proof.
  intros Hf. induction l as [|x l IH]; cbn [forEach].
  - apply keeps_ret.
  - apply keeps_bind; [apply Hf|intros _; exact IH].
Qed.

Lemma keeps_modify (f : State -> State) :
  (forall st, I st -> I (f st)) -> keeps I (modify f).
Proof. intros H. apply hoare_modify. exact H. Qed.

Lemma keeps_external {A : Type} (c : Call) (answer : nat -> result A) :
  (forall st, I st -> I (set_calls (calls st ++ [c]) st)) ->
  keeps I (external c answer).
Proof. intros H. apply hoare_external; auto. Qed.

Lemma keeps_whileRounds (fuel : nat) (round : M bool) :
  keeps I round -> keeps I (whileRounds fuel round).
Proof.
  intros Hr. induction fuel as [|fuel IH]; cbn [whileRounds].
  - apply keeps_ret.
  - apply keeps_bind; [apply keeps_get|]. intros s.
    destruct (iterationCount s <? maxIterations)%Z; [|apply keeps_ret].
    apply keeps_bind; [exact Hr|]. intros [|]; [exact IH|apply keeps_ret].
Qed.

Lemma keeps_consume (cs : list (option Delta)) :
  (forall c, keeps I (sendSSE (Content c))) ->
  forall acc, keeps I (consume cs acc).
Proof.
  intros Hs. induction cs as [|[delta|] cs IH]; intros acc; cbn [consume].
  - apply keeps_ret.
  - apply keeps_bind; [|intros acc1; apply IH].
    destruct (truthy (delta_content delta)); [|apply keeps_ret].
    apply keeps_bind; [apply Hs|intros _; apply keeps_ret].
  - apply IH.
Qed.

End Keeps.

(** An invariant that reads neither the local variables nor the call log
    is kept by every assignment and every external call. *)
Definition sameStream (st st' : State) : Prop :=
  outputs st' = outputs st /\ closed st' = closed st.

Definition sameCalls (st st' : State) : Prop :=
  calls st' = calls st /\ iterationCount st' = iterationCount st.

(** *** The event stream *)

Definition terminal (e : SseEvent) : Prop :=
  match e with
  | Done _ _ _ | Error _ => True
  | _ => False
  end.

Definition nonTerminal (e : SseEvent) : Prop := ~ terminal e.

(** Only non-terminal events so far, and the stream is open. *)
Definition Quiet (st : State) : Prop :=
  closed st = false /\
  exists evs, outputs st = map Enqueue evs /\ Forall nonTerminal evs.

(** The terminal event has just been sent. *)
Definition Pending (st : State) : Prop :=
  closed st = false /\
  exists evs t, outputs st = map Enqueue evs ++ [Enqueue t] /\
                Forall nonTerminal evs /\ terminal t.


Ltac keeps_step :=
  match goal with
  | |- keeps _ (bind _ _) => apply keeps_bind; [|intros ?]
  | |- keeps _ (tryCatch _ _) => apply keeps_tryCatch; [|intros ?]
  | |- keeps _ (ret _) => apply keeps_ret
  | |- keeps _ (throw _) => apply keeps_throw
  | |- keeps _ get => apply keeps_get
  | |- keeps _ (liftResult _) => apply keeps_liftResult
  | |- keeps _ (forEach _ _) => apply keeps_forEach; intros ?
  | |- keeps _ (whileRounds _ _) => apply keeps_whileRounds
  | |- keeps _ (if ?b then _ else _) => destruct b
  | |- keeps _ (match ?x with _ => _ end) => destruct x
  end.

Lemma Quiet_sendSSE (e : SseEvent) : nonTerminal e -> keeps Quiet (sendSSE e).
Proof.
  intros He st (Hc & evs & Ho & Hev). unfold sendSSE. rewrite Hc. cbn.
  split; [reflexivity|]. exists (evs ++ [e]). rewrite map_app, Ho. split; [reflexivity|].
  apply Forall_app. split; [exact Hev|]. constructor; [exact He|constructor].
Qed.

Lemma Quiet_modify (f : State -> State) :
  (forall st, sameStream st (f st)) -> keeps Quiet (modify f).
Proof.
  intros Hf. apply keeps_modify. intros st (Hc & evs & Ho & Hev).
  destruct (Hf st) as [Ho' Hc']. split; [congruence|]. exists evs. split; congruence.
Qed.

Lemma Quiet_external {A : Type} (c : Call) (answer : nat -> result A) :
  keeps Quiet (external c answer).
Proof. apply keeps_external. intros st H. exact H. Qed.

Ltac quiet_base :=
  first
    [ apply Quiet_external
    | apply Quiet_sendSSE; unfold nonTerminal, terminal; tauto
    | apply Quiet_modify; intros ?; split; reflexivity ].

Ltac quiet := repeat (keeps_step || quiet_base).

Lemma Quiet_retrieveChunks env q lim ids : keeps Quiet (retrieveChunks env q lim ids).
Proof. unfold retrieveChunks, searchChunks, allDocumentChunks. quiet. Qed.

Lemma Quiet_documentSearchStream env q lim ids :
  keeps Quiet (documentSearchStream env q lim ids).
Proof.
  unfold documentSearchStream. apply keeps_tryCatch; [|intros ?; quiet].
  apply keeps_bind; [quiet|intros _].
  apply keeps_bind; [apply Quiet_retrieveChunks|intros _]. quiet.
Qed.

Lemma Quiet_runToolCallStream env toolCall :
  keeps Quiet (runToolCallStream env toolCall).
Proof. unfold runToolCallStream, webSearch. quiet. Qed.

Lemma Quiet_roundStream env : keeps Quiet (roundStream env).
Proof.
  unfold roundStream, nextIteration, modelStream, finish.
  apply keeps_bind; [quiet|intros _].
  apply keeps_bind; [quiet|intros st1].
  apply keeps_bind; [quiet|intros _].
  apply keeps_bind; [quiet|intros completion].
  apply keeps_bind; [apply keeps_consume; intros c; quiet|intros acc].
  apply keeps_bind; [quiet|intros _].
  apply keeps_bind; [quiet|intros _].
  destruct (0 <? length (snd acc))%nat; [|quiet].
  apply keeps_bind; [|intros _; quiet].
  apply keeps_forEach. intros tc. apply Quiet_runToolCallStream.
Qed.





(** *** The number of model calls *)

Definition isModelCall (c : Call) : bool :=
  match c with ModelCall _ => true | _ => false end.

(** The chat-completion calls a request has issued. *)
Definition modelCalls (st : State) : nat := length (filter isModelCall (calls st)).

(** At the head of the loop every model call is paid for by an increment of
    [iterationCount], which the guard keeps at 5 or below. *)
Definition Counted (st : State) : Prop :=
  (Z.of_nat (modelCalls st) <= iterationCount st <= maxIterations)%Z.

(** Inside a round, after the increment and before the call. *)
Definition Owed (st : State) : Prop :=
  (Z.of_nat (modelCalls st) + 1 <= iterationCount st <= maxIterations)%Z.

Definition AtMostFive (st : State) : Prop := (modelCalls st <= 5)%nat.

(** An invariant that reads only the call log and [iterationCount]. *)
Definition CallsOnly (I : State -> Prop) : Prop :=
  forall st st', sameCalls st st' -> I st -> I st'.

Lemma CallsOnly_sendSSE (I : State -> Prop) (e : SseEvent) :
  CallsOnly I -> keeps I (sendSSE e).
Proof.
  intros HI st Hst. unfold sendSSE. destruct (closed st); [exact Hst|].
  cbn. eapply HI; [|exact Hst]. split; reflexivity.
Qed.

Lemma CallsOnly_close (I : State -> Prop) : CallsOnly I -> keeps I close.
Proof.
  intros HI st Hst. unfold close. destruct (closed st); [exact Hst|].
  cbn. eapply HI; [|exact Hst]. split; reflexivity.
Qed.

Lemma CallsOnly_modify (I : State -> Prop) (f : State -> State) :
  CallsOnly I -> (forall st, sameCalls st (f st)) -> keeps I (modify f).
Proof. intros HI Hf. apply keeps_modify. intros st Hst. eapply HI; eauto. Qed.

Lemma modelCalls_log (st : State) (c : Call) :
  modelCalls (set_calls (calls st ++ [c]) st) =
  (modelCalls st + if isModelCall c then 1 else 0)%nat.
Proof.
  unfold modelCalls. cbn [calls set_calls]. rewrite filter_app, length_app.
  cbn [filter]. destruct (isModelCall c); reflexivity.
Qed.

(** An invariant on the number of model calls and on [iterationCount]. *)
Definition CountOnly (I : State -> Prop) : Prop :=
  forall st st',
    modelCalls st' = modelCalls st -> iterationCount st' = iterationCount st ->
    I st -> I st'.

Lemma CountOnly_CallsOnly (I : State -> Prop) : CountOnly I -> CallsOnly I.
Proof.
  intros HI st st' [Hc Hi] Hst. apply (HI st); [|exact Hi|exact Hst].
  unfold modelCalls. now rewrite Hc.
Qed.

Lemma CountOnly_external {A : Type} (I : State -> Prop) (c : Call)
    (answer : nat -> result A) :
  CountOnly I -> isModelCall c = false -> keeps I (external c answer).
Proof.
  intros HI Hc. apply keeps_external. intros st Hst.
  apply (HI st); [|reflexivity|exact Hst].
  rewrite modelCalls_log, Hc. lia.
Qed.

Ltac count_base HI :=
  first
    [ apply (CountOnly_external _ _ _ HI); reflexivity
    | apply (CallsOnly_sendSSE _ _ (CountOnly_CallsOnly _ HI))
    | apply (CallsOnly_close _ (CountOnly_CallsOnly _ HI))
    | apply (CallsOnly_modify _ _ (CountOnly_CallsOnly _ HI));
      intros ?; split; reflexivity ].

Ltac count HI := repeat (keeps_step || count_base HI).

Section CountOnlyFacts.
Variable I : State -> Prop.
Hypothesis HI : CountOnly I.

Lemma CountOnly_retrieveChunks env q lim ids : keeps I (retrieveChunks env q lim ids).
Proof. unfold retrieveChunks, searchChunks, allDocumentChunks. count HI. Qed.

Lemma CountOnly_documentSearchStream env q lim ids :
  keeps I (documentSearchStream env q lim ids).
Proof.
  unfold documentSearchStream. apply keeps_tryCatch; [|intros ?; count HI].
  apply keeps_bind; [count HI|intros _].
  apply keeps_bind; [apply CountOnly_retrieveChunks|intros _]. count HI.
Qed.

Lemma CountOnly_documentSearchJson env q lim ids :
  keeps I (documentSearchJson env q lim ids).
Proof.
  unfold documentSearchJson. apply keeps_tryCatch; [|intros ?; count HI].
  apply keeps_bind; [apply CountOnly_retrieveChunks|intros _]. count HI.
Qed.

Lemma CountOnly_runToolCallStream env toolCall :
  keeps I (runToolCallStream env toolCall).
Proof. unfold runToolCallStream, webSearch. count HI. Qed.

Lemma CountOnly_runToolCallJson env tc : keeps I (runToolCallJson env tc).
Proof. unfold runToolCallJson, webSearch. count HI. Qed.

Lemma CountOnly_seedMessages q : keeps I (seedMessages q).
Proof. unfold seedMessages. count HI. Qed.

Lemma CountOnly_consume cs acc : keeps I (consume cs acc).
Proof. apply keeps_consume. intros c. count HI. Qed.
End CountOnlyFacts.

Lemma CountOnly_Counted : CountOnly Counted.
Proof. intros st st' Hc Hi. unfold Counted. now rewrite Hc, Hi. Qed.

Lemma CountOnly_Owed : CountOnly Owed.
Proof. intros st st' Hc Hi. unfold Owed. now rewrite Hc, Hi. Qed.

Lemma CountOnly_AtMostFive : CountOnly AtMostFive.
Proof. intros st st' Hc Hi. unfold AtMostFive. now rewrite Hc. Qed.

Lemma Counted_AtMostFive (st : State) : Counted st -> AtMostFive st.
Proof. unfold Counted, AtMostFive, maxIterations. lia. Qed.

Lemma Owed_AtMostFive (st : State) : Owed st -> AtMostFive st.
Proof. unfold Owed, AtMostFive, maxIterations. lia. Qed.

(** The increment that opens a round, under the guard of the loop. *)
Lemma nextIteration_owes :
  hoare (fun st => Counted st /\ (iterationCount st < maxIterations)%Z)
        nextIteration (fun _ => Owed) AtMostFive.
Proof.
  apply hoare_modify. intros st [Hc Hlt]. unfold Counted, Owed in *.
  unfold modelCalls in *. cbn. lia.
Qed.

(** The model call pays the increment back. *)
Lemma modelCall_counted {A : Type} (msgs : list Message) (answer : nat -> result A) :
  hoare Owed (external (ModelCall msgs) answer) (fun _ => Counted) AtMostFive.
Proof.
  apply hoare_external.
  - intros st a Ho _. unfold Owed, Counted in *. rewrite modelCalls_log.
    cbn [isModelCall]. cbn [iterationCount set_calls]. lia.
  - intros st msg Ho _. unfold Owed, AtMostFive, maxIterations in *.
    rewrite modelCalls_log. cbn [isModelCall]. lia.
Qed.

Lemma keeps_hoare {A : Type} (I : State -> Prop) (m : M A) :
  keeps I m -> hoare I m (fun _ => I) I.
Proof. exact (fun H => H). Qed.

Ltac weaken_keeps H :=
  eapply hoare_conseq;
  [exact (keeps_hoare _ _ H)
  |cbv beta; auto using Counted_AtMostFive, Owed_AtMostFive..].

Lemma roundStream_counted env :
  hoare (fun st => Counted st /\ (iterationCount st < maxIterations)%Z)
        (roundStream env) (fun _ => Counted) AtMostFive.
Proof.
  unfold roundStream.
  eapply hoare_bind; [apply nextIteration_owes|intros ?; cbv beta].
  eapply hoare_bind with (R := fun _ => Owed); [|intros st1; cbv beta].
  { weaken_keeps (keeps_get Owed). }
  eapply hoare_bind with (R := fun _ => Owed); [|intros ?; cbv beta].
  { assert (H : keeps Owed (if (iterationCount st1 =? 1)%Z
                            then sendSSE (Thinking "Processing your question...")
                            else ret tt)) by count CountOnly_Owed.
    weaken_keeps H. }
  eapply hoare_bind with (R := fun _ => Counted); [|intros completion; cbv beta].
  { unfold modelStream.
    eapply hoare_bind with (R := fun _ => Owed); [|intros st2; cbv beta].
    { weaken_keeps (keeps_get Owed). }
    apply modelCall_counted. }
  assert (H : keeps Counted
    (acc <- consume (chunks completion) (""%string, []) ;;
     finish (ending completion) ;;
     modify (pushMessage
               (AssistantMessage
                  (if isEmpty (fst acc) then None else Some (fst acc))
                  (if (0 <? length (snd acc))%nat then Some (snd acc) else None))) ;;
     if (0 <? length (snd acc))%nat then
       forEach (snd acc) (runToolCallStream env) ;; ret true
     else ret false)).
  { apply keeps_bind; [apply CountOnly_consume, CountOnly_Counted|intros acc].
    apply keeps_bind; [unfold finish; count CountOnly_Counted|intros _].
    apply keeps_bind; [count CountOnly_Counted|intros _].
    destruct (0 <? length (snd acc))%nat; [|count CountOnly_Counted].
    apply keeps_bind; [|intros _; count CountOnly_Counted].
    apply keeps_forEach. intros tc.
    apply CountOnly_runToolCallStream, CountOnly_Counted. }
  weaken_keeps H.
Qed.

Lemma roundJson_counted env :
  hoare (fun st => Counted st /\ (iterationCount st < maxIterations)%Z)
        (roundJson env) (fun _ => Counted) AtMostFive.
Proof.
  unfold roundJson.
  eapply hoare_bind; [apply nextIteration_owes|intros ?; cbv beta].
  eapply hoare_bind with (R := fun _ => Counted); [|intros choice; cbv beta].
  { unfold modelMessage.
    eapply hoare_bind with (R := fun _ => Owed); [|intros st2; cbv beta].
    { weaken_keeps (keeps_get Owed). }
    apply modelCall_counted. }
  assert (H : keeps Counted
    match choice with
    | None => modify (set_answer noAnswer) ;; ret false
    | Some message =>
        modify (pushMessage
                  (AssistantMessage (cm_content message)
                     (option_map (map Some) (cm_tool_calls message)))) ;;
        if (0 <? length (toolCallsOf message))%nat then
          forEach (toolCallsOf message) (runToolCallJson env) ;; ret true
        else
          modify (set_answer (orElse (orEmpty (cm_content message)) noAnswer)) ;;
          ret false
    end).
  { destruct choice as [message|]; [|count CountOnly_Counted].
    apply keeps_bind; [count CountOnly_Counted|intros _].
    destruct (0 <? length (toolCallsOf message))%nat; [|count CountOnly_Counted].
    apply keeps_bind; [|intros _; count CountOnly_Counted].
    apply keeps_forEach. intros tc.
    apply CountOnly_runToolCallJson, CountOnly_Counted. }
  weaken_keeps H.
Qed.

Lemma whileRounds_counted (fuel : nat) (round : M bool) :
  hoare (fun st => Counted st /\ (iterationCount st < maxIterations)%Z)
        round (fun _ => Counted) AtMostFive ->
  hoare Counted (whileRounds fuel round) (fun _ => Counted) AtMostFive.
Proof.
  intros Hr. induction fuel as [|fuel IH]; cbn [whileRounds].
  - apply hoare_ret. auto.
  - eapply hoare_bind; [apply hoare_get|]. intros s. cbv beta.
    destruct (Z.ltb_spec (iterationCount s) maxIterations) as [Hlt|Hge].
    + eapply hoare_bind with (R := fun _ => Counted).
      * eapply hoare_conseq; [exact Hr|cbv beta; auto..].
        intros st [-> Hst]. auto.
      * intros [|]; cbv beta.
        -- exact IH.
        -- apply hoare_ret. auto.
    + apply hoare_ret. intros st [_ Hst]. exact Hst.
Qed.

(** No call, no round yet. *)
Definition Fresh (st : State) : Prop :=
  modelCalls st = 0%nat /\ iterationCount st = 0%Z.

Lemma CountOnly_Fresh : CountOnly Fresh.
Proof. intros st st' Hc Hi. unfold Fresh. now rewrite Hc, Hi. Qed.

Lemma Fresh_Counted (st : State) : Fresh st -> Counted st.
Proof. intros [Hc Hi]. unfold Counted, maxIterations. rewrite Hc, Hi. lia. Qed.

Lemma Fresh_AtMostFive (st : State) : Fresh st -> AtMostFive st.
Proof. intros H. now apply Counted_AtMostFive, Fresh_Counted. Qed.

Lemma start_atMostFive env :
  hoare Fresh (start env) (fun _ => AtMostFive) AtMostFive.
Proof.
  unfold start.
  apply hoare_tryCatch with (E' := AtMostFive);
    [|intros msg; apply keeps_hoare; count CountOnly_AtMostFive].
  eapply hoare_bind with (R := fun _ => Fresh); [|intros body; cbv beta].
  { weaken_keeps (keeps_liftResult Fresh (requestJson env)).
    apply Fresh_AtMostFive. }
  destruct (truthy (question body)) as [q|].
  - eapply hoare_bind with (R := fun _ => Fresh); [|intros ?; cbv beta].
    { assert (H : keeps Fresh
        match documentIds body with
        | Some ids =>
            if (0 <? length ids)%nat
            then documentSearchStream env q (defaultLimit body) ids else ret tt
        | None => ret tt
        end).
      { destruct (documentIds body) as [ids|]; [|apply keeps_ret].
        destruct (0 <? length ids)%nat; [|apply keeps_ret].
        apply CountOnly_documentSearchStream, CountOnly_Fresh. }
      weaken_keeps H. apply Fresh_AtMostFive. }
    eapply hoare_bind with (R := fun _ => Fresh); [|intros ?; cbv beta].
    { weaken_keeps (keeps_liftResult Fresh (getOpenAIClient env)).
      apply Fresh_AtMostFive. }
    eapply hoare_bind with (R := fun _ => Counted); [|intros ?; cbv beta].
    { eapply hoare_conseq;
        [exact (keeps_hoare _ _ (CountOnly_seedMessages Fresh CountOnly_Fresh q))
        |cbv beta; intros; auto using Fresh_Counted, Fresh_AtMostFive..]. }
    eapply hoare_bind with (R := fun _ => AtMostFive); [|intros ?; cbv beta].
    { eapply hoare_conseq;
        [apply whileRounds_counted, roundStream_counted
        |cbv beta; intros; auto using Counted_AtMostFive..]. }
    apply keeps_hoare. unfold sendDone. count CountOnly_AtMostFive.
  - eapply hoare_conseq with (P' := AtMostFive);
      [apply keeps_hoare; count CountOnly_AtMostFive|cbv beta; auto..].
    apply Fresh_AtMostFive.
Qed.

Lemma handler_atMostFive env :
  hoare Fresh (handler env) (fun _ => AtMostFive) AtMostFive.
Proof.
  unfold handler.
  eapply hoare_bind with (R := fun _ => Fresh); [|intros body; cbv beta].
  { weaken_keeps (keeps_liftResult Fresh (requestJson env)).
    apply Fresh_AtMostFive. }
  destruct (truthy (question body)) as [q|].
  - eapply hoare_bind with (R := fun _ => Fresh); [|intros ?; cbv beta].
    { assert (H : keeps Fresh
        match documentIds body with
        | Some ids =>
            if (0 <? length ids)%nat
            then documentSearchJson env q (defaultLimit body) ids else ret tt
        | None => ret tt
        end).
      { destruct (documentIds body) as [ids|]; [|apply keeps_ret].
        destruct (0 <? length ids)%nat; [|apply keeps_ret].
        apply CountOnly_documentSearchJson, CountOnly_Fresh. }
      weaken_keeps H. apply Fresh_AtMostFive. }
    eapply hoare_bind with (R := fun _ => Fresh); [|intros ?; cbv beta].
    { weaken_keeps (keeps_liftResult Fresh (getOpenAIClient env)).
      apply Fresh_AtMostFive. }
    eapply hoare_bind with (R := fun _ => Counted); [|intros ?; cbv beta].
    { eapply hoare_conseq;
        [exact (keeps_hoare _ _ (CountOnly_seedMessages Fresh CountOnly_Fresh q))
        |cbv beta; intros; auto using Fresh_Counted, Fresh_AtMostFive..]. }
    eapply hoare_bind with (R := fun _ => AtMostFive); [|intros ?; cbv beta].
    { eapply hoare_conseq;
        [apply whileRounds_counted, roundJson_counted
        |cbv beta; intros; auto using Counted_AtMostFive..]. }
    apply keeps_hoare. unfold fallback, respond. count CountOnly_AtMostFive.
  - apply hoare_ret. apply Fresh_AtMostFive.
Qed.

Lemma Fresh_initState : Fresh initState.
Proof. split; reflexivity. Qed.

(** Every request issues at most 5 chat-completion calls, in both handlers. *)
Lemma at_most_five_model_calls (env : Env) :
  (modelCalls (snd (POST_stream env)) <= 5)%nat /\
  (modelCalls (snd (POST_json env)) <= 5)%nat.
Proof.
  split.
  - pose proof (start_atMostFive env initState Fresh_initState) as H.
    unfold POST_stream. destruct (start env initState) as [[a|msg] st]; exact H.
  - pose proof (handler_atMostFive env initState Fresh_initState) as H.
    unfold POST_json. destruct (handler env initState) as [[a|msg] st]; exact H.
Qed.

(** *** Five rounds of tool calls in the JSON handler *)

(** [k] rounds done, each with its model call, and no answer yet. *)
Definition Unanswered (k : nat) (st : State) : Prop :=
  answer st = ""%string /\ iterationCount st = Z.of_nat k /\ modelCalls st = k.

Lemma Unanswered_log (k : nat) (st : State) (c : Call) :
  isModelCall c = false -> Unanswered k st ->
  Unanswered k (set_calls (calls st ++ [c]) st).
Proof.
  intros Hc (Ha & Hi & Hm). unfold Unanswered. rewrite modelCalls_log, Hc.
  cbn [answer iterationCount set_calls]. repeat split; try assumption. lia.
Qed.

Lemma keeps_sendSSE_frame (I : State -> Prop) (e : SseEvent) :
  (forall st, I st -> I (set_outputs (outputs st ++ [Enqueue e]) false st)) ->
  keeps I (sendSSE e).
Proof.
  intros H st Hst. unfold sendSSE. destruct (closed st); [exact Hst|]. now apply H.
Qed.

Ltac frame_base Hlog :=
  first
    [ apply keeps_external; intros ? ?; apply Hlog; [reflexivity|assumption]
    | apply keeps_modify; intros ? ?; assumption
    | apply keeps_sendSSE_frame; intros ? ?; assumption ].

Ltac frame Hlog := repeat (keeps_step || frame_base Hlog).

Lemma hoare_forEach {A : Type} (I E : State -> Prop) (l : list A)
    (f : A -> M unit) :
  (forall x, hoare I (f x) (fun _ => I) E) ->
  hoare I (forEach l f) (fun _ => I) E.
Proof.
  intros Hf. induction l as [|x l IH]; cbn [forEach].
  - apply hoare_ret. auto.
  - eapply hoare_bind; [apply Hf|intros ?; exact IH].
Qed.

Definition Never (st : State) : Prop := False.

Section FiveToolRounds.
Variable env : Env.

(** The model asks for a tool in every round. *)
Hypothesis always_tools :
  forall n msgs, exists message,
    createMessage env n msgs = Ok (Some message) /\ toolCallsOf message <> [].

Lemma Unanswered_retrieveChunks k q lim ids :
  keeps (Unanswered k) (retrieveChunks env q lim ids).
Proof.
  unfold retrieveChunks, searchChunks, allDocumentChunks.
  frame (Unanswered_log k).
Qed.

Lemma documentSearchJson_returns k q lim ids :
  hoare (Unanswered k) (documentSearchJson env q lim ids)
        (fun _ => Unanswered k) Never.
Proof.
  unfold documentSearchJson.
  apply hoare_tryCatch with (E' := Unanswered k).
  - apply keeps_hoare.
    apply keeps_bind; [apply Unanswered_retrieveChunks|intros _].
    frame (Unanswered_log k).
  - intros msg. apply hoare_ret. auto.
Qed.

Lemma runToolCallJson_returns k tc :
  hoare (Unanswered k) (runToolCallJson env tc) (fun _ => Unanswered k) Never.
Proof.
  unfold runToolCallJson.
  destruct (String.eqb (tc_name tc) "search_web"); [|apply hoare_ret; auto].
  apply hoare_tryCatch with (E' := Unanswered k).
  - apply keeps_hoare. unfold webSearch. frame (Unanswered_log k).
  - intros msg. apply hoare_modify. intros st H. exact H.
Qed.

Lemma roundJson_continues k :
  hoare (Unanswered k) (roundJson env)
        (fun again st => again = true /\ Unanswered (S k) st) Never.
Proof.
  unfold roundJson, nextIteration, modelMessage.
  eapply hoare_bind
    with (R := fun _ st => answer st = ""%string /\
                           iterationCount st = Z.of_nat (S k) /\
                           modelCalls st = k).
  { apply hoare_modify. intros st (Ha & Hi & Hm). unfold modelCalls in *. cbn.
    repeat split; try assumption. lia. }
  intros ?. cbv beta.
  eapply hoare_bind
    with (R := fun choice st =>
                 (exists message, choice = Some message /\
                                  toolCallsOf message <> []) /\
                 Unanswered (S k) st).
  { eapply hoare_bind; [apply hoare_get|]. intros s. cbv beta.
    apply hoare_external.
    - intros st choice [-> (Ha & Hi & Hm)] Hans.
      destruct (always_tools (length (calls st)) (messages st))
        as (message & Hm' & Htc).
      rewrite Hm' in Hans. injection Hans as <-.
      split; [eauto|]. unfold Unanswered. rewrite modelCalls_log.
      cbn [isModelCall answer iterationCount set_calls].
      repeat split; try assumption. lia.
    - intros st msg [-> _] Hans.
      destruct (always_tools (length (calls st)) (messages st))
        as (message & Hm' & _).
      rewrite Hm' in Hans. discriminate. }
  intros choice. cbv beta.
  intros st ((message & -> & Htc) & HU). revert st HU.
  change (hoare (Unanswered (S k))
    (modify (pushMessage
               (AssistantMessage (cm_content message)
                  (option_map (map Some) (cm_tool_calls message)))) ;;
     if (0 <? length (toolCallsOf message))%nat then
       forEach (toolCallsOf message) (runToolCallJson env) ;; ret true
     else
       modify (set_answer (orElse (orEmpty (cm_content message)) noAnswer)) ;;
       ret false)
    (fun again st => again = true /\ Unanswered (S k) st) Never).
  eapply hoare_bind with (R := fun _ => Unanswered (S k)).
  { apply hoare_modify. intros st H. exact H. }
  intros ?. cbv beta.
  destruct (toolCallsOf message) as [|tc tcs] eqn:Hl; [congruence|].
  cbn [length Nat.ltb Nat.leb].
  eapply hoare_bind with (R := fun _ => Unanswered (S k)).
  { apply hoare_forEach. intros x. apply runToolCallJson_returns. }
  intros ?. apply hoare_ret. auto.
Qed.

Lemma whileRounds_all_five (fuel k : nat) :
  (fuel + k = 5)%nat ->
  hoare (Unanswered k) (whileRounds fuel (roundJson env))
        (fun _ => Unanswered 5) Never.
Proof.
  revert k. induction fuel as [|fuel IH]; intros k Hk; cbn [whileRounds].
  - apply hoare_ret. intros st H. now replace 5%nat with k by lia.
  - eapply hoare_bind; [apply hoare_get|]. intros s. cbv beta.
    intros st [-> HU]. revert HU. revert st.
    change (forall st, Unanswered k st ->
             match (if (iterationCount st <? maxIterations)%Z
                    then again <- roundJson env ;;
                         if again then whileRounds fuel (roundJson env) else ret tt
                    else ret tt) st with
             | (Ok _, st') => Unanswered 5 st'
             | (Throw _, st') => Never st'
             end).
    intros st HU. pose proof HU as (_ & Hi & _).
    destruct (Z.ltb_spec (iterationCount st) maxIterations) as [_|Hge];
      [|unfold maxIterations in Hge; lia].
    clear Hi. revert st HU.
    change (hoare (Unanswered k)
              (again <- roundJson env ;;
               if again then whileRounds fuel (roundJson env) else ret tt)
              (fun _ => Unanswered 5) Never).
    eapply hoare_bind; [apply roundJson_continues|].
    intros again. cbv beta. intros st [-> HU]. revert st HU.
    apply IH. lia.
Qed.

(** If the model asks for a tool in all 5 rounds, the JSON handler issues
    exactly 5 model calls and answers with the fixed fallback message. *)
Lemma json_fallback_after_five_tool_rounds (body : Body) (q : string) :
  requestJson env = Ok body ->
  truthy (question body) = Some q ->
  getOpenAIClient env = Ok tt ->
  modelCalls (snd (POST_json env)) = 5%nat /\
  exists hasContext chunksUsed usedWebSearch,
    fst (POST_json env) = Success fallbackAnswer hasContext chunksUsed usedWebSearch.
Proof.
  intros Hbody Hq Hclient.
  assert (H : hoare (Unanswered 0) (handler env)
                (fun response st =>
                   modelCalls st = 5%nat /\
                   exists h c u, response = Success fallbackAnswer h c u) Never).
  { unfold handler. rewrite Hbody.
    eapply hoare_bind with (R := fun b st => b = body /\ Unanswered 0 st).
    { intros st H. cbn. auto. }
    intros b. cbv beta. intros st [-> HU]. revert st HU. rewrite Hq, Hclient.
    change (hoare (Unanswered 0)
      (match documentIds body with
       | Some ids =>
           if (0 <? length ids)%nat
           then documentSearchJson env q (defaultLimit body) ids else ret tt
       | None => ret tt
       end ;;
       liftResult (Ok tt) ;;
       seedMessages q ;;
       whileRounds 5 (roundJson env) ;;
       fallback ;;
       respond)
      (fun response st =>
         modelCalls st = 5%nat /\
         exists h c u, response = Success fallbackAnswer h c u) Never).
    eapply hoare_bind with (R := fun _ => Unanswered 0).
    { destruct (documentIds body) as [ids|]; [|apply hoare_ret; auto].
      destruct (0 <? length ids)%nat; [|apply hoare_ret; auto].
      apply documentSearchJson_returns. }
    intros ?. cbv beta.
    eapply hoare_bind with (R := fun _ => Unanswered 0).
    { intros st H. cbn. exact H. }
    intros ?. cbv beta.
    eapply hoare_bind with (R := fun _ => Unanswered 0).
    { intros st H. cbn. exact H. }
    intros ?. cbv beta.
    eapply hoare_bind; [apply (whileRounds_all_five 5 0); reflexivity|].
    intros ?. cbv beta.
    intros st (Ha & Hi & Hm). cbv [bind fallback respond get modify ret].
    rewrite Hi, Ha. cbn. split; [exact Hm|eauto]. }
  assert (H0 : Unanswered 0 initState) by (repeat split).
  specialize (H initState H0). unfold POST_json.
  destruct (handler env initState) as [[response|msg] st]; [|contradiction].
  exact H.
Qed.

End FiveToolRounds.

(** *** Retrieval *)

Definition isRetrieval (c : Call) : bool :=
  match c with
  | SearchCall _ _ _ | AllChunksCall _ => true
  | _ => false
  end.

(** What the rest of a request leaves alone once the retrieval is over. *)
Section Frame.
Variable I : State -> Prop.
Hypothesis I_outputs : forall st o c, I st -> I (set_outputs o c st).
Hypothesis I_messages : forall st v, I st -> I (set_messages v st).
Hypothesis I_usedWebSearch : forall st v, I st -> I (set_usedWebSearch v st).
Hypothesis I_iterationCount : forall st v, I st -> I (set_iterationCount v st).
Hypothesis I_answer : forall st v, I st -> I (set_answer v st).
Hypothesis I_log :
  forall st c, isRetrieval c = false -> I st -> I (set_calls (calls st ++ [c]) st).

Lemma Frame_sendSSE e : keeps I (sendSSE e).
Proof. apply keeps_sendSSE_frame. intros st H. now apply I_outputs. Qed.

Lemma Frame_close : keeps I close.
Proof.
  intros st H. unfold close. destruct (closed st); [exact H|]. now apply I_outputs.
Qed.

Ltac framed :=
  repeat
    (keeps_step ||
     first
       [ apply Frame_sendSSE
       | apply Frame_close
       | apply keeps_external; intros ? ?; apply I_log; [reflexivity|assumption]
       | apply keeps_modify; intros ? ?;
         first [ apply I_messages | apply I_usedWebSearch
               | apply I_iterationCount | apply I_answer ];
         assumption ]).

Lemma Frame_seedMessages q : keeps I (seedMessages q).
Proof. unfold seedMessages. framed. Qed.

Lemma Frame_runToolCallStream env toolCall : keeps I (runToolCallStream env toolCall).
Proof. unfold runToolCallStream, webSearch. framed. Qed.

Lemma Frame_runToolCallJson env tc : keeps I (runToolCallJson env tc).
Proof. unfold runToolCallJson, webSearch. framed. Qed.

Lemma Frame_roundStream env : keeps I (roundStream env).
Proof.
  unfold roundStream, nextIteration, modelStream, finish.
  apply keeps_bind; [framed|intros _].
  apply keeps_bind; [framed|intros st1].
  apply keeps_bind; [framed|intros _].
  apply keeps_bind; [framed|intros completion].
  apply keeps_bind; [apply keeps_consume; intros c; framed|intros acc].
  apply keeps_bind; [framed|intros _].
  apply keeps_bind; [framed|intros _].
  destruct (0 <? length (snd acc))%nat; [|framed].
  apply keeps_bind; [|intros _; framed].
  apply keeps_forEach. intros tc. apply Frame_runToolCallStream.
Qed.

Lemma Frame_roundJson env : keeps I (roundJson env).
Proof.
  unfold roundJson, nextIteration, modelMessage.
  apply keeps_bind; [framed|intros _].
  apply keeps_bind; [framed|intros choice].
  destruct choice as [message|]; [|framed].
  apply keeps_bind; [framed|intros _].
  destruct (0 <? length (toolCallsOf message))%nat; [|framed].
  apply keeps_bind; [|intros _; framed].
  apply keeps_forEach. intros tc. apply Frame_runToolCallJson.
Qed.

(** The streaming handler from [getOpenAIClient()] on. *)
Lemma Frame_stream_tail env q :
  keeps I (liftResult (getOpenAIClient env) ;;
           seedMessages q ;;
           whileRounds 5 (roundStream env) ;;
           sendDone ;;
           close).
Proof.
  apply keeps_bind; [framed|intros _].
  apply keeps_bind; [apply Frame_seedMessages|intros _].
  apply keeps_bind; [apply keeps_whileRounds, Frame_roundStream|intros _].
  unfold sendDone. framed.
Qed.

(** The JSON handler from [getOpenAIClient()] on. *)
Lemma Frame_json_tail env q :
  keeps I (liftResult (getOpenAIClient env) ;;
           seedMessages q ;;
           whileRounds 5 (roundJson env) ;;
           fallback ;;
           respond).
Proof.
  apply keeps_bind; [framed|intros _].
  apply keeps_bind; [apply Frame_seedMessages|intros _].
  apply keeps_bind; [apply keeps_whileRounds, Frame_roundJson|intros _].
  unfold fallback, respond. framed.
Qed.

Lemma Frame_catch msg : keeps I (sendSSE (Error msg) ;; close).
Proof. framed. Qed.
End Frame.

Definition noRetrieval (c : Call) : Prop := isRetrieval c = false.

(** The retrieval made the calls [p], in this order, and no other; it left
    [v] in [contextChunks]. *)
Definition Retrieved (v : list VectorDb.DocumentChunk) (p : list Call)
    (st : State) : Prop :=
  contextChunks st = v /\
  exists rest, calls st = p ++ rest /\ Forall noRetrieval rest.

(** The retrieval for a general question, by what the two oracles answer
    to its first and second call. *)
Definition GeneralOutcome (env : Env) (q : string) (ids : list string)
    (st : State) : Prop :=
  match searchSimilarChunks env 0 q 25 ids with
  | Throw _ => Retrieved [] [SearchCall q 25 ids] st
  | Ok found =>
      if (Z.of_nat (length found) <? 10)%Z then
        match getAllDocumentChunks env 1 ids with
        | Ok allChunks =>
            Retrieved (firstn 50 allChunks)
                      [SearchCall q 25 ids; AllChunksCall ids] st
        | Throw _ =>
            Retrieved found [SearchCall q 25 ids; AllChunksCall ids] st
        end
      else Retrieved found [SearchCall q 25 ids] st
  end.

(** No retrieval at all. *)
Definition NoRetrieval (st : State) : Prop :=
  contextText st = ""%string /\ Retrieved [] [] st.

Lemma Retrieved_log v p st c :
  isRetrieval c = false -> Retrieved v p st ->
  Retrieved v p (set_calls (calls st ++ [c]) st).
Proof.
  intros Hc (Hv & rest & Hcalls & Hrest). split; [exact Hv|].
  exists (rest ++ [c]). cbn [calls set_calls]. rewrite Hcalls, app_assoc.
  split; [reflexivity|]. apply Forall_app. split; [exact Hrest|].
  constructor; [exact Hc|constructor].
Qed.

Lemma GeneralOutcome_log env q ids st c :
  isRetrieval c = false -> GeneralOutcome env q ids st ->
  GeneralOutcome env q ids (set_calls (calls st ++ [c]) st).
Proof.
  intros Hc. unfold GeneralOutcome.
  destruct (searchSimilarChunks env 0 q 25 ids) as [found|];
    [|now apply Retrieved_log].
  destruct (Z.of_nat (length found) <? 10)%Z; [|now apply Retrieved_log].
  destruct (getAllDocumentChunks env 1 ids); now apply Retrieved_log.
Qed.

Lemma NoRetrieval_log st c :
  isRetrieval c = false -> NoRetrieval st ->
  NoRetrieval (set_calls (calls st ++ [c]) st).
Proof. intros Hc [Ht Hr]. split; [exact Ht|now apply Retrieved_log]. Qed.

(** [GeneralOutcome] and [NoRetrieval] read [contextChunks], [contextText]
    and the retrieval calls only. *)
Ltac frame_args Hlog :=
  first [ exact (fun st _ _ H => H) | exact (fun st _ H => H) | exact Hlog ].

Section Retrieval.
Variables (env : Env) (q : string) (lim : Z) (ids : list string).

Definition Start (st : State) : Prop :=
  calls st = [] /\ contextChunks st = [] /\ contextText st = ""%string.

Lemma retrieveChunks_general :
  Classifier.isGeneralQuestion (list_ascii_of_string q) = true ->
  hoare Start (retrieveChunks env q lim ids)
        (fun _ => GeneralOutcome env q ids) (GeneralOutcome env q ids).
Proof.
  intros Hgen st (Hcalls & Hchunks & _).
  cbv [retrieveChunks bind modify get ret searchChunks allDocumentChunks external
       generalLimit].
  cbn [isGeneral set_isGeneral]. rewrite Hgen. cbv beta iota.
  cbn [calls set_isGeneral]. rewrite Hcalls. cbn [length app].
  unfold GeneralOutcome, Retrieved.
  destruct (searchSimilarChunks env 0 q 25 ids) as [found|msg].
  - destruct (Z.of_nat (length found) <? 10)%Z.
    + cbn [calls set_calls set_contextChunks length app].
      destruct (getAllDocumentChunks env 1 ids) as [allChunks|msg];
        cbn [contextChunks calls set_calls set_contextChunks].
      * split; [apply slice_prefix; lia|]. exists []. split; [reflexivity|constructor].
      * split; [reflexivity|]. exists []. split; [reflexivity|constructor].
    + cbn [contextChunks calls set_calls set_contextChunks].
      split; [reflexivity|]. exists []. split; [reflexivity|constructor].
  - cbn [contextChunks calls set_calls set_isGeneral].
    split; [exact Hchunks|]. exists []. split; [reflexivity|constructor].
Qed.

Lemma documentSearchJson_general :
  Classifier.isGeneralQuestion (list_ascii_of_string q) = true ->
  hoare Start (documentSearchJson env q lim ids)
        (fun _ => GeneralOutcome env q ids) (GeneralOutcome env q ids).
Proof.
  intros Hgen. unfold documentSearchJson.
  apply hoare_tryCatch with (E' := GeneralOutcome env q ids);
    [|intros msg; apply hoare_ret; auto].
  eapply hoare_bind; [apply (retrieveChunks_general Hgen)|intros ?; cbv beta].
  apply keeps_hoare. repeat keeps_step.
  apply keeps_modify. intros st H. exact H.
Qed.

Lemma documentSearchStream_general :
  Classifier.isGeneralQuestion (list_ascii_of_string q) = true ->
  hoare (fun st => Start st /\ closed st = false)
        (documentSearchStream env q lim ids)
        (fun _ => GeneralOutcome env q ids) (GeneralOutcome env q ids).
Proof.
  intros Hgen. unfold documentSearchStream.
  assert (Hsend : forall e, keeps (GeneralOutcome env q ids) (sendSSE e)).
  { intros e. apply keeps_sendSSE_frame. intros st H. exact H. }
  apply hoare_tryCatch with (E' := GeneralOutcome env q ids);
    [|intros msg; apply keeps_hoare, Hsend].
  eapply hoare_bind with (R := fun _ => Start).
  { intros st [HS Hopen]. unfold sendSSE. rewrite Hopen. exact HS. }
  intros ?. cbv beta.
  eapply hoare_bind; [apply (retrieveChunks_general Hgen)|intros ?; cbv beta].
  apply keeps_hoare. repeat (keeps_step || apply Hsend).
  apply keeps_modify. intros st H. exact H.
Qed.
End Retrieval.

Section WholeRequest.
Variables (env : Env) (body : Body) (q : string).
Hypothesis body_parsed : requestJson env = Ok body.
Hypothesis question_given : truthy (question body) = Some q.

Lemma Start_initState : Start initState /\ closed initState = false.
Proof. repeat split. Qed.

Lemma parsed_bind {B : Type} (P : State -> Prop) (k : Body -> M B)
    (Q : B -> State -> Prop) (E : State -> Prop) :
  hoare P (k body) Q E -> hoare P (bind (liftResult (requestJson env)) k) Q E.
Proof.
  intros H st HP. unfold bind, liftResult. rewrite body_parsed. exact (H st HP).
Qed.

Lemma POST_stream_general (ids : list string) :
  documentIds body = Some ids -> ids <> [] ->
  Classifier.isGeneralQuestion (list_ascii_of_string q) = true ->
  GeneralOutcome env q ids (snd (POST_stream env)).
Proof.
  intros Hids Hne Hgen.
  assert (H : hoare (fun st => Start st /\ closed st = false) (start env)
                (fun _ => GeneralOutcome env q ids) (GeneralOutcome env q ids)).
  { unfold start.
    apply hoare_tryCatch with (E' := GeneralOutcome env q ids).
    - apply parsed_bind. rewrite question_given, Hids.
      destruct ids as [|i ids']; [congruence|]. cbn [length Nat.ltb Nat.leb].
      eapply hoare_bind;
        [apply documentSearchStream_general; exact Hgen|intros ?; cbv beta].
      apply keeps_hoare.
      apply Frame_stream_tail; frame_args (GeneralOutcome_log env q (i :: ids')).
    - intros msg. apply keeps_hoare.
      apply Frame_catch; frame_args (GeneralOutcome_log env q ids). }
  specialize (H initState Start_initState). unfold POST_stream.
  destruct (start env initState) as [[a|msg] st]; exact H.
Qed.

Lemma POST_json_general (ids : list string) :
  documentIds body = Some ids -> ids <> [] ->
  Classifier.isGeneralQuestion (list_ascii_of_string q) = true ->
  GeneralOutcome env q ids (snd (POST_json env)).
Proof.
  intros Hids Hne Hgen.
  assert (H : hoare Start (handler env)
                (fun _ => GeneralOutcome env q ids) (GeneralOutcome env q ids)).
  { unfold handler.
    apply parsed_bind. rewrite question_given, Hids.
    destruct ids as [|i ids']; [congruence|]. cbn [length Nat.ltb Nat.leb].
    eapply hoare_bind;
      [apply documentSearchJson_general; exact Hgen|intros ?; cbv beta].
    apply keeps_hoare.
    apply Frame_json_tail; frame_args (GeneralOutcome_log env q (i :: ids')). }
  specialize (H initState (proj1 Start_initState)). unfold POST_json.
  destruct (handler env initState) as [[a|msg] st]; exact H.
Qed.

Lemma NoRetrieval_initState : NoRetrieval initState.
Proof.
  split; [reflexivity|]. split; [reflexivity|].
  exists []. split; [reflexivity|constructor].
Qed.

Lemma POST_stream_no_ids :
  documentIds body = None \/ documentIds body = Some [] ->
  NoRetrieval (snd (POST_stream env)).
Proof.
  intros Hids.
  assert (H : hoare NoRetrieval (start env) (fun _ => NoRetrieval) NoRetrieval).
  { unfold start. apply hoare_tryCatch with (E' := NoRetrieval).
    - apply parsed_bind. rewrite question_given.
      eapply hoare_bind with (R := fun _ => NoRetrieval); [|intros ?; cbv beta].
      { destruct Hids as [-> | ->]; apply hoare_ret; auto. }
      apply keeps_hoare. apply Frame_stream_tail; frame_args NoRetrieval_log.
    - intros msg. apply keeps_hoare.
      apply Frame_catch; frame_args NoRetrieval_log. }
  specialize (H initState NoRetrieval_initState). unfold POST_stream.
  destruct (start env initState) as [[a|msg] st]; exact H.
Qed.

Lemma POST_json_no_ids :
  documentIds body = None \/ documentIds body = Some [] ->
  NoRetrieval (snd (POST_json env)).
Proof.
  intros Hids.
  assert (H : hoare NoRetrieval (handler env) (fun _ => NoRetrieval) NoRetrieval).
  { unfold handler. apply parsed_bind. rewrite question_given.
    eapply hoare_bind with (R := fun _ => NoRetrieval); [|intros ?; cbv beta].
    { destruct Hids as [-> | ->]; apply hoare_ret; auto. }
    apply keeps_hoare. apply Frame_json_tail; frame_args NoRetrieval_log. }
  specialize (H initState NoRetrieval_initState). unfold POST_json.
  destruct (handler env initState) as [[a|msg] st]; exact H.
Qed.

End WholeRequest.

(** What [GeneralOutcome] says, call by call. *)
Definition generalRetrieval (env : Env) (q : string) (ids : list string)
    (st : State) : Prop :=
  exists rest,
    calls st = SearchCall q 25 ids :: rest /\
    forall found,
      searchSimilarChunks env 0 q 25 ids = Ok found ->
      ((length found < 10)%nat ->
         (exists rest', rest = AllChunksCall ids :: rest' /\
                        Forall noRetrieval rest') /\
         (forall allChunks,
             getAllDocumentChunks env 1 ids = Ok allChunks ->
             contextChunks st = firstn 50 allChunks)) /\
      ((10 <= length found)%nat ->
         contextChunks st = found /\ Forall noRetrieval rest).

Lemma GeneralOutcome_generalRetrieval env q ids st :
  GeneralOutcome env q ids st -> generalRetrieval env q ids st.
Proof.
  unfold GeneralOutcome, generalRetrieval, Retrieved.
  destruct (searchSimilarChunks env 0 q 25 ids) as [found|msg].
  - destruct (Z.ltb_spec (Z.of_nat (length found)) 10) as [Hlt|Hge].
    + destruct (getAllDocumentChunks env 1 ids) as [allChunks|msg];
        intros (Hv & rest & Hcalls & Hrest);
        (eexists; split; [exact Hcalls|]);
        intros found' [= <-]; (split; [intros _|lia]);
        (split; [exists rest; split; [reflexivity|exact Hrest]|]).
      * intros a [= <-]. exact Hv.
      * intros a [=].
    + intros (Hv & rest & Hcalls & Hrest).
      exists rest. split; [exact Hcalls|].
      intros found' [= <-]. split; [lia|]. intros _. split; assumption.
  - intros (Hv & rest & Hcalls & Hrest). exists rest. split; [exact Hcalls|].
    intros found [=].
Qed.

(** A request with a general question over one document, whose search
    finds 3 chunks and whose document has 60. *)
Definition sixtyChunks : list VectorDb.DocumentChunk :=
  map (fun i => VectorDb.mkDocumentChunk "d_0" "d" "report.pdf" (Z.of_nat i) []
                  0 0 [])
      (seq 0 60).

Definition summaryEnv : Env :=
  mkEnv (Ok (mkBody (Some "Summarize this document"%string) (Some ["d"%string]) None))
        (fun _ _ _ _ => Ok (firstn 3 sixtyChunks))
        (fun _ _ => Ok sixtyChunks)
        (Ok tt)
        (fun _ _ => mkCompletion [Some (mkDelta (Some "A summary."%string) None)]
                                 EndOfStream)
        (fun _ _ => Ok (Some (mkChoiceMessage (Some "A summary."%string) None)))
        (fun _ => Ok "q"%string)
        (fun _ _ => Ok []).

(** C4. For a request whose question is classified General and whose
    [documentIds] is not empty, in both handlers: the first external call
    is the search with [k = 25]; if it returns fewer than 10 chunks, the
    next call fetches all the chunks of those documents and
    [contextChunks] is the first 50 of them, and there is no other
    retrieval call; if it returns 10 or more, they are the context and
    nothing else is fetched.  For a request without [documentIds], or with
    an empty list, no search call is made and the context is empty. *)
Theorem general_retrieval_widens_then_falls_back
    (env : Env) (body : Body) (q : string) :
  requestJson env = Ok body ->
  truthy (question body) = Some q ->
  (forall ids,
      documentIds body = Some ids -> ids <> [] ->
      Classifier.classify (list_ascii_of_string q) = Classifier.General ->
      generalRetrieval env q ids (snd (POST_stream env)) /\
      generalRetrieval env q ids (snd (POST_json env))) /\
  (documentIds body = None \/ documentIds body = Some [] ->
   forall st, st = snd (POST_stream env) \/ st = snd (POST_json env) ->
     contextText st = ""%string /\ contextChunks st = [] /\
     Forall noRetrieval (calls st)).
Proof.
  intros Hbody Hq. split.
  - intros ids Hids Hne Hgen.
    assert (Hg : Classifier.isGeneralQuestion (list_ascii_of_string q) = true).
    { unfold Classifier.classify in Hgen.
      destruct (Classifier.isGeneralQuestion _); [reflexivity|discriminate]. }
    split; apply GeneralOutcome_generalRetrieval.
    + exact (POST_stream_general env body q Hbody Hq ids Hids Hne Hg).
    + exact (POST_json_general env body q Hbody Hq ids Hids Hne Hg).
  - intros Hids st Hst.
    assert (H : NoRetrieval st).
    { destruct Hst as [-> | ->].
      - exact (POST_stream_no_ids env body q Hbody Hq Hids).
      - exact (POST_json_no_ids env body q Hbody Hq Hids). }
    destruct H as (Ht & Hv & rest & Hcalls & Hrest).
    repeat split; try assumption. now rewrite Hcalls.
Qed.

Lemma general_retrieval_widens_then_falls_back_witness :
  (forall ids,
      Some ["d"%string] = Some ids -> ids <> [] ->
      Classifier.classify
        (list_ascii_of_string "Summarize this document") = Classifier.General ->
      generalRetrieval summaryEnv "Summarize this document" ids
                       (snd (POST_stream summaryEnv)) /\
      generalRetrieval summaryEnv "Summarize this document" ids
                       (snd (POST_json summaryEnv))) /\
  (Some ["d"%string] = None \/ Some ["d"%string] = Some [] ->
   forall st, st = snd (POST_stream summaryEnv) \/ st = snd (POST_json summaryEnv) ->
     contextText st = ""%string /\ contextChunks st = [] /\
     Forall noRetrieval (calls st)).
Proof.
  apply (general_retrieval_widens_then_falls_back summaryEnv
           (mkBody (Some "Summarize this document"%string) (Some ["d"%string]) None)
           "Summarize this document"); reflexivity.
Defined.

Example summaryEnv_falls_back_to_fifty :
  contextChunks (snd (POST_stream summaryEnv)) = firstn 50 sixtyChunks /\
  contextChunks (snd (POST_json summaryEnv)) = firstn 50 sixtyChunks /\
  filter isRetrieval (calls (snd (POST_stream summaryEnv))) =
    [SearchCall "Summarize this document" 25 ["d"%string]; AllChunksCall ["d"%string]].
Proof. vm_compute. repeat split. Qed.

(** *** The round limit *)

(** A request without documents whose model asks for [search_web] in every
    round. *)
Definition searchWebDelta : Delta :=
  mkDelta None
    (Some [mkToolCallDelta (Some 0%nat) (Some "call_1"%string)
             (Some "search_web"%string) (Some "{}"%string)]).

Definition toolsEveryRound : Env :=
  mkEnv (Ok (mkBody (Some "What is new today?"%string) None None))
        (fun _ _ _ _ => Ok [])
        (fun _ _ => Ok [])
        (Ok tt)
        (fun _ _ => mkCompletion [Some searchWebDelta] EndOfStream)
        (fun _ _ =>
           Ok (Some (mkChoiceMessage None
                       (Some [mkToolCall "call_1" "search_web" "{}"]))))
        (fun _ => Ok "news"%string)
        (fun _ _ => Ok [mkSearchResult "Title" "Snippet" "https://example.org"]).

Definition isMessageEvent (e : SseEvent) : bool :=
  match e with
  | Content _ | Error _ => true
  | _ => false
  end.

Definition events (st : State) : list SseEvent :=
  flat_map (fun o => match o with Enqueue e => [e] | CloseStream => [] end)
           (outputs st).

(** C5, on the code.  In both handlers no request issues more than 5 model
    calls.  When the model asks for a tool in all 5 rounds, the JSON
    handler answers with the fixed fallback message, but the streaming
    handler sends neither an [error] event nor any [content]: after
    exactly 5 model calls its stream ends with an ordinary [done]. *)
Theorem round_limit_reached_streams_done :
  (forall env, (modelCalls (snd (POST_stream env)) <= 5)%nat /\
               (modelCalls (snd (POST_json env)) <= 5)%nat) /\
  modelCalls (snd (POST_stream toolsEveryRound)) = 5%nat /\
  filter isMessageEvent (events (snd (POST_stream toolsEveryRound))) = [] /\
  outputs (snd (POST_stream toolsEveryRound)) =
    Enqueue (Thinking "Processing your question...")
    :: concat (repeat [Enqueue (ToolStart "web_search" "Searching web for: news");
                       Enqueue (ToolEnd "web_search" "Found 1 result(s)")] 5)
    ++ [Enqueue (Done false 0 true); CloseStream] /\
  modelCalls (snd (POST_json toolsEveryRound)) = 5%nat /\
  fst (POST_json toolsEveryRound) = Success fallbackAnswer false 0 true.
Proof.
  split; [exact at_most_five_model_calls|].
  split; [vm_compute; reflexivity|].
  split; [vm_compute; reflexivity|].
  split; [vm_compute; reflexivity|].
  split; vm_compute; reflexivity.
Qed.

End ChatFacts.

(** ** The order of binary64

    The comparator of [searchSimilarChunks] subtracts two scores and looks
    at the sign.  These facts relate that sign to the order of the scores,
    from the format's specification. *)

Module FloatOrder.
Local Open Scope Z_scope.

(** digits *)
Lemma digits2_size (m : positive) : digits2_pos m = Pos.size m.
Proof. induction m; cbn; congruence. Qed.

Lemma digits2_bounds (m : positive) :
  2 ^ (Z.pos (digits2_pos m) - 1) <= Z.pos m < 2 ^ Z.pos (digits2_pos m).
Proof.
  induction m as [m IH|m IH|]; cbn [digits2_pos].
  - rewrite Pos2Z.inj_succ.
    replace (Z.succ (Z.pos (digits2_pos m)) - 1) with (Z.succ (Z.pos (digits2_pos m) - 1)) by lia.
    rewrite !Z.pow_succ_r by lia. lia.
  - rewrite Pos2Z.inj_succ.
    replace (Z.succ (Z.pos (digits2_pos m)) - 1) with (Z.succ (Z.pos (digits2_pos m) - 1)) by lia.
    rewrite !Z.pow_succ_r by lia. lia.
  - cbn. lia.
Qed.

(** shifting right *)
Lemma shr_1_m (mrs : shr_record) :
  0 <= shr_m mrs -> shr_m (shr_1 mrs) = shr_m mrs / 2.
Proof.
  destruct mrs as [m r s]. cbn [shr_m]. intros Hm.
  destruct m as [|[p|p|]|p]; cbn [shr_1 shr_m].
  - reflexivity.
  - apply Z.div_unique with 1; lia.
  - apply Z.div_unique with 0; lia.
  - reflexivity.
  - lia.
Qed.

Lemma pow2_xO (p : positive) : 2 ^ Z.pos p~0 = 2 ^ Z.pos p * 2 ^ Z.pos p.
Proof. rewrite <- Z.pow_add_r by lia. f_equal. lia. Qed.

Lemma pow2_xI (p : positive) : 2 ^ Z.pos p~1 = 2 * (2 ^ Z.pos p * 2 ^ Z.pos p).
Proof.
  rewrite <- Z.pow_add_r by lia. rewrite <- Z.pow_succ_r by lia. f_equal. lia.
Qed.

Lemma iter_shr_1_m (p : positive) (mrs : shr_record) :
  0 <= shr_m mrs ->
  shr_m (SpecFloat.iter_pos shr_1 p mrs) = shr_m mrs / 2 ^ Z.pos p.
Proof.
  revert mrs. induction p as [p IH|p IH|]; intros mrs Hm; cbn [SpecFloat.iter_pos].
  - assert (H1 : 0 <= shr_m (shr_1 mrs)) by (rewrite shr_1_m by lia; apply Z.div_pos; lia).
    assert (H2 : 0 <= shr_m (SpecFloat.iter_pos shr_1 p (shr_1 mrs)))
      by (rewrite IH by lia; apply Z.div_pos; lia).
    rewrite IH, IH, shr_1_m by lia.
    rewrite !Z.div_div by lia. now rewrite pow2_xI, Z.mul_assoc.
  - assert (H2 : 0 <= shr_m (SpecFloat.iter_pos shr_1 p mrs))
      by (rewrite IH by lia; apply Z.div_pos; lia).
    rewrite IH, IH by lia. rewrite Z.div_div by lia. now rewrite pow2_xO.
  - rewrite shr_1_m by lia. reflexivity.
Qed.

(** rounding a positive integer keeps it positive *)

Lemma shr_record_of_loc_m (m : Z) (l : location) : shr_m (shr_record_of_loc m l) = m.
Proof. destruct l as [|[]]; reflexivity. Qed.

Lemma Zdigits2_pos (m : Z) : 0 < m -> 2 ^ (Zdigits2 m - 1) <= m < 2 ^ Zdigits2 m /\ 0 < Zdigits2 m.
Proof.
  destruct m as [|p|p]; try lia. intros _. cbn [Zdigits2].
  split; [apply digits2_bounds|lia].
Qed.

Lemma shr_fexp_positive (m e : Z) (l : location) :
  0 < m -> emin <= e ->
  0 < shr_m (fst (shr_fexp prec emax m e l)) /\
  emin <= snd (shr_fexp prec emax m e l).
Proof.
  intros Hm He. unfold shr_fexp, shr.
  destruct (Zdigits2_pos m Hm) as [[Hlo Hhi] Hd].
  set (d := Zdigits2 m) in *.
  assert (Hn : fexp prec emax (d + e) - e < d).
  { unfold fexp, SpecFloat.emin, prec, emax in *. lia. }
  destruct (fexp prec emax (d + e) - e) as [|p|p] eqn:Hp; cbn [fst snd];
    rewrite ?shr_record_of_loc_m; try (split; lia).
  rewrite iter_shr_1_m by (rewrite shr_record_of_loc_m; lia).
  rewrite shr_record_of_loc_m. split; [|lia].
  apply Z.div_str_pos. split; [lia|].
  apply Z.le_trans with (2 ^ (d - 1)); [|exact Hlo].
  apply Z.pow_le_mono_r; lia.
Qed.

Lemma round_nearest_even_ge (m : Z) (l : location) : m <= round_nearest_even m l.
Proof.
  unfold round_nearest_even. destruct l as [|[]]; try lia.
  destruct (Z.even m); lia.
Qed.

Definition signed (s : bool) (x : spec_float) : Prop :=
  match x with
  | S754_finite s' _ _ | S754_infinity s' => s' = s
  | _ => False
  end.

Lemma binary_round_aux_positive (s : bool) (m e : Z) (l : location) :
  0 < m -> emin <= e -> signed s (binary_round_aux prec emax s m e l).
Proof.
  intros Hm He. unfold binary_round_aux.
  destruct (shr_fexp_positive m e l Hm He) as [H1 H2].
  destruct (shr_fexp prec emax m e l) as [mrs' e'] eqn:E1. cbn [fst snd] in *.
  pose proof (round_nearest_even_ge (shr_m mrs') (loc_of_shr_record mrs')) as Hr.
  destruct (shr_fexp_positive (round_nearest_even (shr_m mrs') (loc_of_shr_record mrs'))
              e' loc_Exact) as [H3 H4]; [lia|lia|].
  destruct (shr_fexp prec emax _ e' loc_Exact) as [mrs'' e''] eqn:E2.
  cbn [fst snd] in *.
  destruct (shr_m mrs'') as [|p|p]; try lia.
  destruct (e'' <=? emax - prec); reflexivity.
Qed.

Lemma iter_xO (m d : positive) : Z.pos (Pos.iter xO m d) = Z.pos m * 2 ^ Z.pos d.
Proof.
  induction d as [|d IH] using Pos.peano_ind.
  - cbn. lia.
  - rewrite Pos.iter_succ, Pos2Z.inj_xO, IH, Pos2Z.inj_succ, Z.pow_succ_r; lia.
Qed.

Lemma shl_align_val (m : positive) (e ez : Z) :
  ez <= e ->
  Z.pos (fst (shl_align m e ez)) = Z.pos m * 2 ^ (e - ez) /\
  snd (shl_align m e ez) = ez.
Proof.
  intros Hle. unfold shl_align.
  destruct (ez - e) as [|d|d] eqn:Hd; cbn [fst snd]; try lia.
  - replace (e - ez) with 0 by lia. cbn. lia.
  - rewrite iter_xO. replace (e - ez) with (Z.pos d) by lia. auto.
Qed.

Lemma binary_round_positive (s : bool) (m : positive) (e : Z) :
  emin <= e -> signed s (binary_round prec emax s m e).
Proof.
  intros He. unfold binary_round.
  destruct (shl_align m e (fexp prec emax (Z.pos (digits2_pos m) + e)))
    as [mz ez] eqn:E.
  apply binary_round_aux_positive; [lia|].
  unfold shl_align in E.
  assert (Hf : emin <= fexp prec emax (Z.pos (digits2_pos m) + e)).
  { unfold fexp. lia. }
  destruct (fexp prec emax (Z.pos (digits2_pos m) + e) - e);
    injection E as <- <-; solve [lia | exact Hf].
Qed.

(** the sign of a rounded result is the sign it was given *)
Definition signedOrNone (s : bool) (x : spec_float) : Prop :=
  match x with
  | S754_finite s' _ _ | S754_infinity s' | S754_zero s' => s' = s
  | S754_nan => True
  end.

Lemma binary_round_aux_sign (s : bool) (m e : Z) (l : location) :
  signedOrNone s (binary_round_aux prec emax s m e l).
Proof.
  unfold binary_round_aux.
  destruct (shr_fexp prec emax m e l) as [mrs' e'].
  destruct (shr_fexp prec emax _ e' loc_Exact) as [mrs'' e''].
  destruct (shr_m mrs'') as [|p|p]; [reflexivity| |exact I].
  destruct (e'' <=? emax - prec); reflexivity.
Qed.

Lemma binary_round_sign (s : bool) (m : positive) (e : Z) :
  signedOrNone s (binary_round prec emax s m e).
Proof.
  unfold binary_round. destruct (shl_align m e _) as [mz ez].
  apply binary_round_aux_sign.
Qed.

Lemma positive_after_zero (x : spec_float) :
  signed false x -> SFltb (S754_zero false) x = true.
Proof. destruct x as [s|s| |s m e]; cbn; try tauto; intros ->; reflexivity. Qed.

Lemma not_positive_after_zero (x : spec_float) :
  signedOrNone true x -> SFltb (S754_zero false) x = false.
Proof. destruct x as [s|s| |s m e]; cbn; try tauto; intros ->; reflexivity. Qed.

(** [0 < normalize D] exactly when [0 < D] *)
Lemma normalize_positive (D e : Z) :
  emin <= e ->
  SFltb (S754_zero false) (binary_normalize prec emax D e false) = (0 <? D).
Proof.
  intros He. unfold binary_normalize. destruct D as [|p|p].
  - reflexivity.
  - apply positive_after_zero. now apply binary_round_positive.
  - apply not_positive_after_zero. apply binary_round_sign.
Qed.

(** what validity says of a finite number *)
Lemma valid_finite (s : bool) (m : positive) (e : Z) :
  valid_binary (S754_finite s m e) = true ->
  emin <= e /\ Z.pos m < 2 ^ 53 /\ (emin < e -> 2 ^ 52 <= Z.pos m).
Proof.
  cbn [valid_binary]. unfold bounded, canonical_mantissa.
  intros H. apply andb_prop in H as [H _]. apply Z.eqb_eq in H.
  pose proof (digits2_bounds m) as [Hlo Hhi].
  set (d := Z.pos (digits2_pos m)) in *.
  assert (Hd : d <= 53 /\ emin <= e /\ (emin < e -> d = 53)).
  { unfold fexp, SpecFloat.emin, prec, emax in *. lia. }
  destruct Hd as (Hd & He & Hn). split; [exact He|]. split.
  - apply Z.lt_le_trans with (2 ^ d); [exact Hhi|].
    apply Z.pow_le_mono_r; lia.
  - intros Hlt. rewrite (Hn Hlt) in Hlo. exact Hlo.
Qed.

(** Two finite numbers of the format compare as their mantissas do once
    both are written with the smaller exponent. *)
Lemma aligned_compare (mx my : positive) (ex ey : Z) (s t : bool) :
  valid_binary (S754_finite s mx ex) = true ->
  valid_binary (S754_finite t my ey) = true ->
  (Z.pos mx * 2 ^ (ex - Z.min ey ex) ?= Z.pos my * 2 ^ (ey - Z.min ey ex)) =
  match ex ?= ey with
  | Lt => Lt
  | Gt => Gt
  | Eq => Pos.compare_cont Eq mx my
  end.
Proof.
  intros Hx Hy.
  apply valid_finite in Hx as (Hex & Hmx & Hnx).
  apply valid_finite in Hy as (Hey & Hmy & Hny).
  destruct (Z.compare_spec ex ey) as [->|Hlt|Hgt].
  - rewrite Z.min_id, Z.sub_diag, !Z.mul_1_r. reflexivity.
  - rewrite Z.min_r by lia. rewrite Z.sub_diag, Z.mul_1_r.
    apply Z.compare_lt_iff.
    assert (2 ^ 1 <= 2 ^ (ey - ex)) by (apply Z.pow_le_mono_r; lia).
    assert (2 ^ 52 <= Z.pos my) by (apply Hny; lia).
    change (2 ^ 53) with (2 ^ 52 * 2 ^ 1) in Hmx. nia.
  - rewrite Z.min_l by lia. rewrite Z.sub_diag, Z.mul_1_r.
    apply Z.compare_gt_iff.
    assert (2 ^ 1 <= 2 ^ (ex - ey)) by (apply Z.pow_le_mono_r; lia).
    assert (2 ^ 52 <= Z.pos mx) by (apply Hnx; lia).
    change (2 ^ 53) with (2 ^ 52 * 2 ^ 1) in Hmy. nia.
Qed.

Lemma ltb_compare (a b : Z) : (a <? b) = match a ?= b with Lt => true | _ => false end.
Proof. reflexivity. Qed.

(** The difference [y - x] is positive exactly when [x < y]: by gradual
    underflow a difference of distinct numbers never rounds to zero. *)
Lemma SFsub_positive (x y : spec_float) :
  valid_binary x = true -> valid_binary y = true ->
  SFltb (S754_zero false) (SFsub prec emax y x) = SFltb x y.
Proof.
  intros Hx Hy.
  destruct x as [sx|sx| |sx mx ex], y as [sy|sy| |sy my ey];
    try reflexivity;
    try (destruct sx; reflexivity); try (destruct sy; reflexivity);
    try (destruct sx, sy; reflexivity).
  cbn [SFsub].
  pose proof (valid_finite _ _ _ Hx) as (Hex & _).
  pose proof (valid_finite _ _ _ Hy) as (Hey & _).
  rewrite normalize_positive by lia.
  destruct (shl_align_val my ey (Z.min ey ex)) as [-> _]; [lia|].
  destruct (shl_align_val mx ex (Z.min ey ex)) as [-> _]; [lia|].
  pose proof (aligned_compare mx my ex ey sx sy Hx Hy) as Hc.
  unfold SFltb, SFcompare.
  assert (0 < Z.pos mx * 2 ^ (ex - Z.min ey ex)) by (apply Z.mul_pos_pos; [lia|apply Z.pow_pos_nonneg; lia]).
  assert (0 < Z.pos my * 2 ^ (ey - Z.min ey ex)) by (apply Z.mul_pos_pos; [lia|apply Z.pow_pos_nonneg; lia]).
  set (X := Z.pos mx * 2 ^ (ex - Z.min ey ex)) in *.
  set (Y := Z.pos my * 2 ^ (ey - Z.min ey ex)) in *.
  destruct sx, sy; cbn [cond_Zopp].
  - (* both negative *)
    destruct (Z.compare_spec X Y) as [E|E|E];
      destruct (ex ?= ey); rewrite <- ?Hc; cbn [CompOpp];
      try discriminate; try (apply Z.ltb_lt; lia); apply Z.ltb_ge; lia.
  - apply Z.ltb_lt; lia.
  - apply Z.ltb_ge; lia.
  - destruct (Z.compare_spec X Y) as [E|E|E];
      destruct (ex ?= ey); rewrite <- ?Hc;
      try discriminate; try (apply Z.ltb_lt; lia); apply Z.ltb_ge; lia.
Qed.

Theorem sub_pos_iff_lt (x y : float) : (0 <? y - x)%float = (x <? y)%float.
Proof.
  rewrite !FloatAxioms.ltb_spec, FloatAxioms.sub_spec.
  apply (SFsub_positive (Prim2SF x) (Prim2SF y)); apply Prim2SF_valid.
Qed.

(** *** The order as an order of integers *)

(** Every number of the format gets an integer rank that orders it as the
    comparison does; the two zeros share a rank. *)
Definition rank (x : spec_float) : Z :=
  match x with
  | S754_zero _ | S754_nan => 0
  | S754_infinity s => cond_Zopp s (2 ^ 65)
  | S754_finite s m e => cond_Zopp s ((e + 1074) * 2 ^ 53 + Z.pos m)
  end.

Definition notNaN (x : spec_float) : Prop :=
  match x with S754_nan => False | _ => True end.

Lemma valid_finite_rank (s : bool) (m : positive) (e : Z) :
  valid_binary (S754_finite s m e) = true ->
  0 < (e + 1074) * 2 ^ 53 + Z.pos m < 2 ^ 65.
Proof.
  intros H. pose proof (valid_finite _ _ _ H) as (He & Hm & _).
  cbn [valid_binary] in H. unfold bounded in H.
  apply andb_prop in H as [_ H]. apply Z.leb_le in H.
  unfold SpecFloat.emin, prec, emax in *.
  change (2 ^ 53) with 9007199254740992 in *.
  change (2 ^ 65) with 36893488147419103232. lia.
Qed.

Lemma finite_rank_compare (m1 m2 : positive) (e1 e2 : Z) (s t : bool) :
  valid_binary (S754_finite s m1 e1) = true ->
  valid_binary (S754_finite t m2 e2) = true ->
  match e1 ?= e2 with
  | Lt => Lt
  | Gt => Gt
  | Eq => Pos.compare_cont Eq m1 m2
  end = ((e1 + 1074) * 2 ^ 53 + Z.pos m1 ?= (e2 + 1074) * 2 ^ 53 + Z.pos m2).
Proof.
  intros H1 H2.
  apply valid_finite in H1 as (_ & Hm1 & _).
  apply valid_finite in H2 as (_ & Hm2 & _).
  change (2 ^ 53) with 9007199254740992 in *.
  destruct (Z.compare_spec e1 e2) as [->|Hlt|Hgt]; symmetry.
  - rewrite Z.add_compare_mono_l. reflexivity.
  - apply Z.compare_lt_iff. lia.
  - apply Z.compare_gt_iff. lia.
Qed.

Lemma SFcompare_rank (x y : spec_float) :
  valid_binary x = true -> valid_binary y = true -> notNaN x -> notNaN y ->
  SFcompare x y = Some (rank x ?= rank y).
Proof.
  intros Hx Hy Nx Ny.
  destruct x as [sx|sx| |sx mx ex]; try contradiction;
    destruct y as [sy|sy| |sy my ey]; try contradiction;
    try (pose proof (valid_finite_rank _ _ _ Hx) as Rx);
    try (pose proof (valid_finite_rank _ _ _ Hy) as Ry);
    cbn [SFcompare rank];
    try set (X := (ex + 1074) * 2 ^ 53 + Z.pos mx) in *;
    try set (Y := (ey + 1074) * 2 ^ 53 + Z.pos my) in *;
    try (destruct sx); try (destruct sy); cbn [cond_Zopp];
    try reflexivity; f_equal; symmetry;
    try (apply Z.compare_lt_iff; lia); try (apply Z.compare_gt_iff; lia).
  - subst X Y. rewrite Z.compare_opp, Z.compare_antisym.
    rewrite <- (finite_rank_compare mx my ex ey true true Hx Hy).
    destruct (ex ?= ey); reflexivity.
  - subst X Y. symmetry. apply (finite_rank_compare mx my ex ey false false Hx Hy).
Qed.

Definition rankOf (x : float) : Z := rank (Prim2SF x).

Lemma is_nan_spec (x : float) : is_nan x = false -> notNaN (Prim2SF x).
Proof.
  unfold is_nan. intros H. rewrite FloatAxioms.eqb_spec in H.
  destruct (Prim2SF x); cbn in *; try tauto. discriminate.
Qed.

Lemma compare_rank (x y : float) :
  is_nan x = false -> is_nan y = false ->
  SFcompare (Prim2SF x) (Prim2SF y) = Some (rankOf x ?= rankOf y).
Proof.
  intros Hx Hy. apply SFcompare_rank; auto using Prim2SF_valid, is_nan_spec.
Qed.

Lemma ltb_rank (x y : float) :
  is_nan x = false -> is_nan y = false -> (x <? y)%float = (rankOf x <? rankOf y).
Proof.
  intros Hx Hy. rewrite FloatAxioms.ltb_spec. unfold SFltb. rewrite compare_rank by assumption.
  unfold Z.ltb. destruct (rankOf x ?= rankOf y); reflexivity.
Qed.

Lemma leb_rank (x y : float) :
  is_nan x = false -> is_nan y = false -> (x <=? y)%float = (rankOf x <=? rankOf y).
Proof.
  intros Hx Hy. rewrite FloatAxioms.leb_spec. unfold SFleb. rewrite compare_rank by assumption.
  unfold Z.leb. destruct (rankOf x ?= rankOf y); reflexivity.
Qed.

Lemma eqb_rank (x y : float) :
  is_nan x = false -> is_nan y = false -> (x =? y)%float = (rankOf x =? rankOf y).
Proof.
  intros Hx Hy. rewrite FloatAxioms.eqb_spec. unfold SFeqb. rewrite compare_rank by assumption.
  rewrite Z.eqb_compare. destruct (rankOf x ?= rankOf y); reflexivity.
Qed.

Lemma SFcompare_refl (x : spec_float) : notNaN x -> SFcompare x x = Some Eq.
Proof.
  destruct x as [s|s| |s m e]; cbn [SFcompare notNaN]; try tauto; intros _.
  - destruct s; reflexivity.
  - rewrite Z.compare_refl, Pos.compare_cont_refl. destruct s; reflexivity.
Qed.

Lemma is_nan_false (x : float) : notNaN (Prim2SF x) -> is_nan x = false.
Proof.
  intros H. unfold is_nan. rewrite FloatAxioms.eqb_spec. unfold SFeqb.
  rewrite SFcompare_refl by assumption. reflexivity.
Qed.

Lemma eqb_not_nan (x y : float) :
  (x =? y)%float = true -> is_nan x = false /\ is_nan y = false.
Proof.
  rewrite FloatAxioms.eqb_spec. intros H.
  split; apply is_nan_false;
    destruct (Prim2SF x) as [?|?| |? ? ?], (Prim2SF y) as [?|?| |? ? ?];
    cbn [notNaN]; try exact I; discriminate H.
Qed.

End FloatOrder.

(** ** Rounding to binary64

    What [binary_round_aux] does to a mantissa of 53 digits or more in
    the normal range, and what the cores of [sqrt] and [/] hand to it. *)

Module Rounding.
Import FloatOrder.
Local Open Scope Z_scope.

Lemma digits_unique (m k : Z) : 0 < k -> 2 ^ (k - 1) <= m < 2 ^ k -> Zdigits2 m = k.
Proof.
  intros Hk [Hlo Hhi].
  assert (Hm : 0 < m) by (pose proof (Z.pow_pos_nonneg 2 (k - 1)); lia).
  destruct (Zdigits2_pos m Hm) as [[Dlo Dhi] Dpos].
  set (d := Zdigits2 m) in *.
  destruct (Z.lt_trichotomy d k) as [Hlt|[Heq|Hgt]]; [|exact Heq|].
  - assert (2 ^ d <= 2 ^ (k - 1)) by (apply Z.pow_le_mono_r; lia). lia.
  - assert (2 ^ k <= 2 ^ (d - 1)) by (apply Z.pow_le_mono_r; lia). lia.
Qed.

Lemma shr_fexp_shift (m e : Z) (l : location) :
  0 < m -> 0 <= fexp prec emax (Zdigits2 m + e) - e ->
  shr_m (fst (shr_fexp prec emax m e l)) =
    m / 2 ^ (fexp prec emax (Zdigits2 m + e) - e) /\
  snd (shr_fexp prec emax m e l) = fexp prec emax (Zdigits2 m + e).
Proof.
  intros Hm Hk. unfold shr_fexp, shr.
  destruct (fexp prec emax (Zdigits2 m + e) - e) as [|p|p] eqn:Hp; cbn [fst snd]; try lia.
  - rewrite shr_record_of_loc_m, Z.div_1_r. split; [reflexivity|lia].
  - rewrite iter_shr_1_m by (rewrite shr_record_of_loc_m; lia).
    rewrite shr_record_of_loc_m. split; [reflexivity|lia].
Qed.

Lemma round_nearest_even_le (m : Z) (l : location) : round_nearest_even m l <= m + 1.
Proof.
  unfold round_nearest_even. destruct l as [|[]]; try lia.
  destruct (Z.even m); lia.
Qed.

(** Rounding a mantissa of at least 53 digits, in the normal range: the
    result is a normal number within one unit in the last place. *)
Lemma round_normal (s : bool) (m e : Z) (l : location) :
  0 < m -> 53 <= Zdigits2 m ->
  -1074 <= Zdigits2 m + e - 53 -> Zdigits2 m + e - 53 < 971 ->
  exists (m' : positive) (e' : Z),
    binary_round_aux prec emax s m e l = S754_finite s m' e' /\
    Zdigits2 m + e - 53 <= e' <= Zdigits2 m + e - 52 /\
    2 ^ 52 <= Z.pos m' < 2 ^ 53 /\
    m - 2 ^ (e' - e) < Z.pos m' * 2 ^ (e' - e) <= m + 2 ^ (e' - e).
Proof.
  intros Hm Hd Hlo Hhi.
  destruct (Zdigits2_pos m Hm) as [[Dlo Dhi] _].
  set (d := Zdigits2 m) in *. set (k := d - 53).
  assert (Hf : fexp prec emax (d + e) = e + k).
  { unfold fexp, SpecFloat.emin, prec, emax, k. lia. }
  assert (Hpow : 0 < 2 ^ k) by (apply Z.pow_pos_nonneg; lia).
  assert (E1 : 2 ^ (d - 1) = 2 ^ 52 * 2 ^ k).
  { rewrite <- Z.pow_add_r by lia. f_equal. lia. }
  assert (E2 : 2 ^ d = 2 ^ 53 * 2 ^ k).
  { rewrite <- Z.pow_add_r by lia. f_equal. lia. }
  unfold binary_round_aux.
  destruct (shr_fexp_shift m e l Hm) as [S1 S2]; [fold d; lia|].
  fold d in S1, S2. rewrite Hf in S1, S2. replace (e + k - e) with k in S1 by lia.
  destruct (shr_fexp prec emax m e l) as [mrs' e1]. cbn [fst snd] in S1, S2. subst e1.
  set (m1 := m / 2 ^ k) in *.
  assert (B1 : m1 * 2 ^ k <= m < (m1 + 1) * 2 ^ k).
  { unfold m1. pose proof (Z.mul_div_le m (2 ^ k) Hpow).
    pose proof (Z.mul_succ_div_gt m (2 ^ k) Hpow). lia. }
  assert (R1 : 2 ^ 52 <= m1 < 2 ^ 53).
  { unfold m1. split.
    - apply Z.div_le_lower_bound; [exact Hpow|]. lia.
    - apply Z.div_lt_upper_bound; [exact Hpow|]. lia. }
  pose proof (round_nearest_even_ge (shr_m mrs') (loc_of_shr_record mrs')) as G1.
  pose proof (round_nearest_even_le (shr_m mrs') (loc_of_shr_record mrs')) as G2.
  set (m2 := round_nearest_even (shr_m mrs') (loc_of_shr_record mrs')) in *.
  rewrite S1 in G1, G2.
  assert (Hm2 : 0 < m2) by lia.
  destruct (Z.eq_dec m2 (2 ^ 53)) as [Heq|Hne].
  - assert (D2 : Zdigits2 m2 = 54) by (rewrite Heq; reflexivity).
    assert (F2 : fexp prec emax (Zdigits2 m2 + (e + k)) = e + k + 1).
    { rewrite D2. unfold fexp, SpecFloat.emin, prec, emax, k. lia. }
    destruct (shr_fexp_shift m2 (e + k) loc_Exact Hm2) as [S3 S4]; [lia|].
    rewrite F2 in S3, S4. replace (e + k + 1 - (e + k)) with 1 in S3 by lia.
    destruct (shr_fexp prec emax m2 (e + k) loc_Exact) as [mrs'' e2].
    cbn [fst snd] in S3, S4. subst e2. rewrite S3, Heq.
    change (2 ^ 53 / 2 ^ 1) with (Z.pos 4503599627370496).
    assert (Hle : (e + k + 1 <=? emax - prec) = true).
    { apply Z.leb_le. unfold emax, prec, k. lia. }
    cbv iota. rewrite Hle.
    exists 4503599627370496%positive, (e + k + 1).
    split; [reflexivity|]. split; [unfold k; lia|]. split; [cbn; lia|].
    replace (e + k + 1 - e) with (k + 1) by lia.
    rewrite Z.pow_add_r by lia. change (2 ^ 1) with 2.
    change (2 ^ 53) with 9007199254740992 in *.
    assert (Em1 : m1 = 9007199254740991) by lia.
    rewrite Em1 in B1. lia.
  - assert (D2 : Zdigits2 m2 = 53) by (apply digits_unique; [lia|]; change (53 - 1) with 52; lia).
    assert (F2 : fexp prec emax (Zdigits2 m2 + (e + k)) = e + k).
    { rewrite D2. unfold fexp, SpecFloat.emin, prec, emax, k. lia. }
    destruct (shr_fexp_shift m2 (e + k) loc_Exact Hm2) as [S3 S4]; [lia|].
    rewrite F2 in S3, S4. replace (e + k - (e + k)) with 0 in S3 by lia.
    destruct (shr_fexp prec emax m2 (e + k) loc_Exact) as [mrs'' e2].
    cbn [fst snd] in S3, S4. subst e2. rewrite S3, Z.div_1_r.
    destruct m2 as [|p|p] eqn:Em2; try lia.
    assert (Hle : (e + k <=? emax - prec) = true).
    { apply Z.leb_le. unfold emax, prec, k. lia. }
    rewrite Hle. exists p, (e + k).
    split; [reflexivity|]. split; [unfold k; lia|]. split; [lia|].
    replace (e + k - e) with k by lia. nia.
Qed.

Lemma SFsqrt_core_eq (m e : Z) :
  SFsqrt_core_binary prec emax m e =
  let e' := Z.min (fexp prec emax (Z.div2 (Zdigits2 m + e + 1))) (Z.div2 e) in
  let s := e - 2 * e' in
  let m' := match s with Z.pos _ => Z.shiftl m s | 0 => m | Z.neg _ => 0 end in
  let (q, r) := Z.sqrtrem m' in
  (q, e', if r =? 0 then loc_Exact else loc_Inexact (if r <=? q then Lt else Gt)).
Proof. reflexivity. Qed.

Lemma SFdiv_core_eq (m1 e1 m2 e2 : Z) :
  SFdiv_core_binary prec emax m1 e1 m2 e2 =
  let e' := Z.min (fexp prec emax (Zdigits2 m1 + e1 - (Zdigits2 m2 + e2))) (e1 - e2) in
  let s := e1 - e2 - e' in
  let m' := match s with Z.pos _ => Z.shiftl m1 s | 0 => m1 | Z.neg _ => 0 end in
  let '(q, r) := Z.div_eucl m' m2 in
  (q, e', new_location m2 r).
Proof. reflexivity. Qed.

Lemma normal_digits (m : Z) : 2 ^ 52 <= m < 2 ^ 53 -> Zdigits2 m = 53.
Proof. intros H. apply digits_unique; [lia|exact H]. Qed.

(** The integer square root the core computes, for a normal mantissa. *)
Lemma sqrt_core_normal (m e : Z) :
  2 ^ 52 <= m < 2 ^ 53 -> -1074 <= e ->
  exists (q : Z) (l : location),
    SFsqrt_core_binary prec emax m e = (q, Z.div2 e - 26, l) /\
    2 ^ 52 <= q < 2 ^ 53 /\
    q * q <= m * 2 ^ (e - 2 * (Z.div2 e - 26)) < (q + 1) * (q + 1) /\
    52 <= e - 2 * (Z.div2 e - 26) <= 53.
Proof.
  intros Hm He. rewrite SFsqrt_core_eq, (normal_digits m Hm).
  pose proof (Z.div2_odd e) as Hodd.
  assert (Hb : 0 <= Z.b2z (Z.odd e) <= 1) by (destruct (Z.odd e); cbn; lia).
  assert (H2 : Z.div2 (53 + e + 1) = Z.div2 e + 27).
  { rewrite !Z.div2_div. replace (53 + e + 1) with (e + 27 * 2) by lia.
    rewrite Z.div_add by lia. reflexivity. }
  rewrite H2.
  assert (H3 : Z.min (fexp prec emax (Z.div2 e + 27)) (Z.div2 e) = Z.div2 e - 26).
  { unfold fexp, SpecFloat.emin, prec, emax. lia. }
  rewrite H3. cbv zeta.
  set (s := e - 2 * (Z.div2 e - 26)).
  assert (Hs : 52 <= s <= 53) by (unfold s; lia).
  destruct s as [|p|p] eqn:Es; try lia. rewrite <- Es in *.
  rewrite Z.shiftl_mul_pow2 by lia.
  assert (Hbig : 2 ^ 104 <= m * 2 ^ s < 2 ^ 106).
  { assert (s = 52 \/ s = 53) as [-> | ->] by lia.
    - change (2 ^ 52) with 4503599627370496 in *.
      change (2 ^ 53) with 9007199254740992 in *.
      change (2 ^ 104) with (4503599627370496 * 4503599627370496).
      change (2 ^ 106) with (9007199254740992 * 9007199254740992). nia.
    - change (2 ^ 52) with 4503599627370496 in *.
      change (2 ^ 53) with 9007199254740992 in *.
      change (2 ^ 104) with (4503599627370496 * 4503599627370496).
      change (2 ^ 106) with (9007199254740992 * 9007199254740992). nia. }
  pose proof (Z.sqrtrem_spec (m * 2 ^ s)) as Hspec.
  destruct (Z.sqrtrem (m * 2 ^ s)) as [q r].
  destruct Hspec as [Hq Hr]; [lia|].
  eexists q, _. split; [reflexivity|].
  assert (Hq0 : 0 <= q) by lia.
  split; [|split; [nia|exact Hs]].
  change (2 ^ 104) with (2 ^ 52 * 2 ^ 52) in Hbig.
  change (2 ^ 106) with (2 ^ 53 * 2 ^ 53) in Hbig.
  set (a := 2 ^ 52) in *. set (b := 2 ^ 53) in *.
  assert (0 < a) by (unfold a; lia). assert (0 < b) by (unfold b; lia).
  nia.
Qed.

Lemma div_core_normal (m1 e1 m2 e2 : Z) :
  2 ^ 52 <= m1 < 2 ^ 53 -> 2 ^ 52 <= m2 < 2 ^ 53 -> -1021 <= e1 - e2 ->
  exists (q : Z) (l : location),
    SFdiv_core_binary prec emax m1 e1 m2 e2 = (q, e1 - e2 - 53, l) /\
    2 ^ 52 <= q < 2 ^ 54 /\
    q * m2 <= m1 * 2 ^ 53 < (q + 1) * m2.
Proof.
  intros H1 H2 He. rewrite SFdiv_core_eq, (normal_digits m1 H1), (normal_digits m2 H2).
  replace (53 + e1 - (53 + e2)) with (e1 - e2) by lia.
  assert (H3 : Z.min (fexp prec emax (e1 - e2)) (e1 - e2) = e1 - e2 - 53).
  { unfold fexp, SpecFloat.emin, prec, emax. lia. }
  rewrite H3. cbv zeta. replace (e1 - e2 - (e1 - e2 - 53)) with 53 by lia.
  rewrite Z.shiftl_mul_pow2 by lia.
  assert (Hm2 : 0 < m2) by lia.
  pose proof (Z.div_eucl_eq (m1 * 2 ^ 53) m2) as Heq.
  pose proof (Z.mod_pos_bound (m1 * 2 ^ 53) m2 Hm2) as Hbound.
  unfold Z.modulo in Hbound.
  destruct (Z.div_eucl (m1 * 2 ^ 53) m2) as [q r].
  specialize (Heq ltac:(lia)).
  eexists q, _. split; [reflexivity|].
  split; [|nia].
  change (2 ^ 54) with (2 * 2 ^ 53).
  set (a := 2 ^ 52) in *. set (b := 2 ^ 53) in *.
  assert (Hab : b = 2 * a) by reflexivity.
  assert (0 < a) by (unfold a; lia).
  nia.
Qed.

Lemma digits_53_54 (q : Z) : 2 ^ 52 <= q < 2 ^ 54 -> 53 <= Zdigits2 q <= 54.
Proof.
  intros H. destruct (Z_lt_le_dec q (2 ^ 53)).
  - rewrite (digits_unique q 53); lia.
  - rewrite (digits_unique q 54); lia.
Qed.

Lemma digits_105_106 (q : Z) : 2 ^ 104 <= q < 2 ^ 106 -> 105 <= Zdigits2 q <= 106.
Proof.
  intros H. destruct (Z_lt_le_dec q (2 ^ 105)).
  - rewrite (digits_unique q 105); lia.
  - rewrite (digits_unique q 106); lia.
Qed.
End Rounding.

(** ** Relative error of [sqrt], [*] and [/]

    The value of a finite number is the real [m * 2^e]; each operation on
    normal numbers returns the exact result within a relative error
    [eta]. *)

Module RoundingError.
Import Stdlib.Reals.Reals Stdlib.micromega.Lra.
Import FloatOrder Rounding.
Local Open Scope R_scope.

Definition bpow (e : Z) : R := powerRZ 2 e.

(** The real number [m * 2^e]. *)
Definition F2R (m e : Z) : R := IZR m * bpow e.

Lemma bpow_pos (e : Z) : 0 < bpow e.
Proof. apply powerRZ_lt. lra. Qed.

Lemma bpow_add (a b : Z) : bpow (a + b) = bpow a * bpow b.
Proof. apply powerRZ_add. lra. Qed.

Lemma bpow_IZR (k : Z) : (0 <= k)%Z -> IZR (2 ^ k) = bpow k.
Proof.
  intros Hk. unfold bpow. rewrite <- (Z2Nat.id k Hk) at 1 2.
  now rewrite <- pow_IZR, pow_powerRZ.
Qed.

Lemma F2R_shift (m e k : Z) : (0 <= k)%Z -> F2R (m * 2 ^ k) e = F2R m (e + k).
Proof.
  intros Hk. unfold F2R. rewrite mult_IZR, bpow_IZR by exact Hk.
  rewrite (Z.add_comm e k), bpow_add. ring.
Qed.

(** The relative error bound of one rounding. *)
Definition eta : R := 2 / 4503599627370495.

Lemma round_rel (s : bool) (m e : Z) (l : location) (x : R) :
  (0 < m)%Z -> (53 <= Zdigits2 m)%Z ->
  (-1074 <= Zdigits2 m + e - 53)%Z -> (Zdigits2 m + e - 53 < 971)%Z ->
  F2R m e <= x < F2R (m + 1) e ->
  exists (m' : positive) (e' : Z),
    binary_round_aux prec emax s m e l = S754_finite s m' e' /\
    (Zdigits2 m + e - 53 <= e' <= Zdigits2 m + e - 52)%Z /\
    (2 ^ 52 <= Z.pos m' < 2 ^ 53)%Z /\
    Rabs (F2R (Z.pos m') e' - x) <= eta * x.
Proof.
  intros Hm Hd Hlo Hhi Hx.
  destruct (round_normal s m e l Hm Hd Hlo Hhi) as (m' & e' & Hres & He & Hm' & Hb).
  exists m', e'. split; [exact Hres|]. split; [exact He|]. split; [exact Hm'|].
  assert (Hk : (0 <= e' - e)%Z) by lia.
  assert (HT : (1 <= 2 ^ (e' - e))%Z) by (pose proof (Z.pow_pos_nonneg 2 (e' - e)); lia).
  set (T := (2 ^ (e' - e))%Z) in *.
  assert (Hv : F2R (Z.pos m') e' = IZR (Z.pos m' * T) * bpow e).
  { unfold T. fold (F2R (Z.pos m' * 2 ^ (e' - e)) e). rewrite F2R_shift by exact Hk.
    f_equal. lia. }
  rewrite Hv. unfold F2R in Hx. rewrite plus_IZR in Hx.
  destruct Hb as [Hb1 Hb2]. apply IZR_lt in Hb1. apply IZR_le in Hb2.
  rewrite minus_IZR in Hb1. rewrite plus_IZR in Hb2.
  destruct Hm' as [Hm1 _]. apply IZR_le in Hm1.
  apply IZR_le in HT. rewrite mult_IZR in *.
  change (IZR (2 ^ 52)) with 4503599627370496 in Hm1.
  pose proof (bpow_pos e) as HB.
  set (B := bpow e) in *. set (t := IZR T) in *. set (a := IZR (Z.pos m')) in *.
  set (b := IZR m) in *.
  assert (H1 : (b - t) * B < a * t * B) by (apply Rmult_lt_compat_r; assumption).
  assert (H2 : a * t * B <= (b + t) * B) by (apply Rmult_le_compat_r; lra).
  assert (H3 : 4503599627370496 * (t * B) <= a * (t * B)).
  { apply Rmult_le_compat_r; [|exact Hm1]. apply Rmult_le_pos; lra. }
  assert (H4 : 1 * B <= t * B) by (apply Rmult_le_compat_r; lra).
  unfold eta. apply Rabs_le. lra.
Qed.

Definition normal (m : positive) : Prop := (2 ^ 52 <= Z.pos m < 2 ^ 53)%Z.

Lemma F2R_pos (m e : Z) : (0 < m)%Z -> 0 < F2R m e.
Proof.
  intros Hm. unfold F2R. apply Rmult_lt_0_compat; [|apply bpow_pos].
  now apply IZR_lt.
Qed.

Lemma F2R_le (m1 m2 e : Z) : (m1 <= m2)%Z -> F2R m1 e <= F2R m2 e.
Proof.
  intros H. unfold F2R. apply Rmult_le_compat_r; [|now apply IZR_le].
  apply Rlt_le, bpow_pos.
Qed.

Lemma F2R_lt (m1 m2 e : Z) : (m1 < m2)%Z -> F2R m1 e < F2R m2 e.
Proof.
  intros H. unfold F2R. apply Rmult_lt_compat_r; [apply bpow_pos|now apply IZR_lt].
Qed.

Lemma F2R_mul (m1 e1 m2 e2 : Z) : F2R m1 e1 * F2R m2 e2 = F2R (m1 * m2) (e1 + e2).
Proof. unfold F2R. rewrite mult_IZR, bpow_add. ring. Qed.

(** [sqrt], correctly rounded, of a normal number. *)
Lemma SFsqrt_rel (m : positive) (e : Z) :
  normal m -> (-1074 <= e <= 971)%Z ->
  exists (m' : positive) (e' : Z),
    SFsqrt prec emax (S754_finite false m e) = S754_finite false m' e' /\
    (Z.div2 e - 26 <= e' <= Z.div2 e - 25)%Z /\ normal m' /\
    Rabs (F2R (Z.pos m') e' - sqrt (F2R (Z.pos m) e)) <= eta * sqrt (F2R (Z.pos m) e).
Proof.
  intros Hm He. cbn [SFsqrt].
  destruct (sqrt_core_normal (Z.pos m) e Hm) as (q & l & Hcore & Hq & Hsq & Hs); [lia|].
  rewrite Hcore.
  pose proof (Z.div2_odd e) as Hodd.
  assert (Hb : (0 <= Z.b2z (Z.odd e) <= 1)%Z) by (destruct (Z.odd e); cbn; lia).
  set (e0 := (Z.div2 e - 26)%Z) in *. set (s := (e - 2 * e0)%Z) in *.
  assert (Hn : F2R (Z.pos m) e = F2R (Z.pos m * 2 ^ s) (e0 + e0)).
  { rewrite F2R_shift by lia. f_equal. unfold s. lia. }
  assert (Hq0 : 0 <= F2R q e0) by (apply Rlt_le, F2R_pos; lia).
  assert (Hq1 : 0 <= F2R (q + 1) e0) by (apply Rlt_le, F2R_pos; lia).
  destruct (round_rel false q e0 l (sqrt (F2R (Z.pos m) e))) as (m' & e' & Hres & He' & Hm' & Hrel).
  - lia.
  - rewrite (normal_digits q Hq). lia.
  - rewrite (normal_digits q Hq). unfold e0. lia.
  - rewrite (normal_digits q Hq). unfold e0. lia.
  - split.
    + rewrite <- (sqrt_square (F2R q e0)) by exact Hq0.
      apply sqrt_le_1_alt. rewrite F2R_mul, Hn. apply F2R_le. lia.
    + rewrite <- (sqrt_square (F2R (q + 1) e0)) by exact Hq1.
      apply sqrt_lt_1_alt. split; [apply Rlt_le, F2R_pos; lia|].
      rewrite F2R_mul, Hn. apply F2R_lt. lia.
  - exists m', e'. rewrite (normal_digits q Hq) in He'.
    split; [exact Hres|]. split; [unfold e0 in *; lia|]. split; [exact Hm'|exact Hrel].
Qed.

Lemma SFmul_rel (m1 m2 : positive) (e1 e2 : Z) :
  normal m1 -> normal m2 -> (-1126 <= e1 + e2 < 918)%Z ->
  exists (m' : positive) (e' : Z),
    SFmul prec emax (S754_finite false m1 e1) (S754_finite false m2 e2) =
      S754_finite false m' e' /\
    (e1 + e2 + 52 <= e' <= e1 + e2 + 54)%Z /\ normal m' /\
    Rabs (F2R (Z.pos m') e' - F2R (Z.pos m1) e1 * F2R (Z.pos m2) e2) <=
      eta * (F2R (Z.pos m1) e1 * F2R (Z.pos m2) e2).
Proof.
  intros H1 H2 He. cbn [SFmul xorb]. rewrite F2R_mul.
  assert (HP : (2 ^ 104 <= Z.pos (m1 * m2) < 2 ^ 106)%Z).
  { unfold normal in *. rewrite Pos2Z.inj_mul.
    change (2 ^ 104)%Z with (2 ^ 52 * 2 ^ 52)%Z.
    change (2 ^ 106)%Z with (2 ^ 53 * 2 ^ 53)%Z.
    set (a := (2 ^ 52)%Z) in *. set (b := (2 ^ 53)%Z) in *.
    assert (0 < a)%Z by (unfold a; lia). nia. }
  pose proof (digits_105_106 _ HP) as Hd.
  destruct (round_rel false (Z.pos (m1 * m2)) (e1 + e2) loc_Exact
              (F2R (Z.pos m1 * Z.pos m2) (e1 + e2)))
    as (m' & e' & Hres & He' & Hm' & Hrel); try lia.
  - rewrite <- Pos2Z.inj_mul. split; [apply Rle_refl|]. apply F2R_lt. lia.
  - exists m', e'. split; [exact Hres|]. split; [lia|]. split; [exact Hm'|exact Hrel].
Qed.

Lemma SFdiv_rel (m1 m2 : positive) (e1 e2 : Z) :
  normal m1 -> normal m2 -> (-1021 <= e1 - e2 < 1023)%Z ->
  exists (m' : positive) (e' : Z),
    SFdiv prec emax (S754_finite false m1 e1) (S754_finite false m2 e2) =
      S754_finite false m' e' /\
    (e1 - e2 - 53 <= e' <= e1 - e2 - 51)%Z /\ normal m' /\
    Rabs (F2R (Z.pos m') e' - F2R (Z.pos m1) e1 / F2R (Z.pos m2) e2) <=
      eta * (F2R (Z.pos m1) e1 / F2R (Z.pos m2) e2).
Proof.
  intros H1 H2 He. cbn [SFdiv xorb].
  destruct (div_core_normal (Z.pos m1) e1 (Z.pos m2) e2 H1 H2) as (q & l & Hcore & Hq & Hdiv);
    [lia|].
  rewrite Hcore. pose proof (digits_53_54 q Hq) as Hd.
  set (e0 := (e1 - e2 - 53)%Z) in *.
  pose proof (F2R_pos (Z.pos m2) e2 ltac:(lia)) as Hy.
  assert (Hscale : forall k : Z,
            F2R k e0 * F2R (Z.pos m2) e2 = IZR (k * Z.pos m2) * (bpow e1 * / bpow 53)).
  { intros k. rewrite F2R_mul. unfold F2R. f_equal.
    replace (e0 + e2)%Z with (e1 + - (53))%Z by (unfold e0; lia).
    rewrite bpow_add. reflexivity. }
  assert (Hx : F2R (Z.pos m1) e1 = IZR (Z.pos m1 * 2 ^ 53) * (bpow e1 * / bpow 53)).
  { unfold F2R. rewrite mult_IZR, bpow_IZR by lia.
    pose proof (bpow_pos 53). field. lra. }
  assert (Hc : 0 < bpow e1 * / bpow 53).
  { apply Rmult_lt_0_compat; [apply bpow_pos|]. apply Rinv_0_lt_compat, bpow_pos. }
  destruct (round_rel false q e0 l (F2R (Z.pos m1) e1 / F2R (Z.pos m2) e2))
    as (m' & e' & Hres & He' & Hm' & Hrel); try (unfold e0; lia).
  - split.
    + apply (Rmult_le_reg_r (F2R (Z.pos m2) e2)); [exact Hy|].
      unfold Rdiv. rewrite Rmult_assoc, Rinv_l, Rmult_1_r by lra.
      rewrite Hscale, Hx. apply Rmult_le_compat_r; [lra|]. apply IZR_le. lia.
    + apply (Rmult_lt_reg_r (F2R (Z.pos m2) e2)); [exact Hy|].
      unfold Rdiv. rewrite Rmult_assoc, Rinv_l, Rmult_1_r by lra.
      rewrite Hscale, Hx. apply Rmult_lt_compat_r; [lra|]. apply IZR_lt. lia.
  - exists m', e'. split; [exact Hres|]. split; [unfold e0 in *; lia|].
    split; [exact Hm'|exact Hrel].
Qed.

(** The tolerance: 2^-48. *)
Definition eps : R := / 281474976710656.

Lemma rel_bounds (a x : R) :
  Rabs (a - x) <= eta * x -> (1 - eta) * x <= a <= (1 + eta) * x.
Proof.
  intros H. unfold Rabs in H. unfold eta in *.
  destruct (Rcase_abs (a - x)); lra.
Qed.

Lemma eta_small : 0 < eta < 1.
Proof. unfold eta. lra. Qed.

(** Three roundings: the square root, its square, and the quotient. *)
Lemma three_roundings (n r d q : R) :
  0 < n ->
  Rabs (r - sqrt n) <= eta * sqrt n ->
  Rabs (d - r * r) <= eta * (r * r) ->
  (0 < d -> Rabs (q - n / d) <= eta * (n / d)) ->
  Rabs (q - 1) <= eps.
Proof.
  intros Hn Hr Hd Hq.
  pose proof (sqrt_lt_R0 n Hn) as Hs. pose proof (sqrt_sqrt n (Rlt_le _ _ Hn)) as Hss.
  set (x := sqrt n) in *.
  pose proof eta_small as He.
  apply rel_bounds in Hr. apply rel_bounds in Hd.
  set (lo := 1 - eta) in *. set (hi := 1 + eta) in *.
  assert (Hlo : 0 < lo) by (unfold lo; lra).
  assert (Hhi : 0 < hi) by (unfold hi; lra).
  assert (Hlx : 0 < lo * x) by (apply Rmult_lt_0_compat; assumption).
  assert (R1 : lo * x * (lo * x) <= r * r) by (apply Rmult_le_compat; lra).
  assert (R2 : r * r <= hi * x * (hi * x)) by (apply Rmult_le_compat; lra).
  assert (R3 : lo * (lo * x * (lo * x)) <= lo * (r * r)) by (apply Rmult_le_compat_l; lra).
  assert (R4 : hi * (r * r) <= hi * (hi * x * (hi * x))) by (apply Rmult_le_compat_l; lra).
  assert (D1 : lo * lo * lo * n <= d).
  { replace (lo * lo * lo * n) with (lo * (lo * x * (lo * x))) by (rewrite <- Hss; ring). lra. }
  assert (D2 : d <= hi * hi * hi * n).
  { replace (hi * hi * hi * n) with (hi * (hi * x * (hi * x))) by (rewrite <- Hss; ring). lra. }
  assert (Hd0 : 0 < d).
  { apply Rlt_le_trans with (lo * lo * lo * n); [|exact D1].
    repeat apply Rmult_lt_0_compat; assumption. }
  specialize (Hq Hd0). apply rel_bounds in Hq. fold lo hi in Hq.
  assert (Q1 : lo * n <= q * d).
  { replace (lo * n) with (lo * (n / d) * d) by (field; lra).
    apply Rmult_le_compat_r; lra. }
  assert (Q2 : q * d <= hi * n).
  { replace (hi * n) with (hi * (n / d) * d) by (field; lra).
    apply Rmult_le_compat_r; lra. }
  assert (N1 : hi <= (1 + eps) * (lo * lo * lo)) by (unfold hi, lo, eta, eps; lra).
  assert (N2 : (1 - eps) * (hi * hi * hi) <= lo) by (unfold hi, lo, eta, eps; lra).
  assert (N3 : 0 < 1 - eps) by (unfold eps; lra).
  assert (U : q * d <= (1 + eps) * d).
  { apply Rle_trans with (hi * n); [exact Q2|].
    apply Rle_trans with ((1 + eps) * (lo * lo * lo) * n).
    - apply Rmult_le_compat_r; lra.
    - rewrite !Rmult_assoc. apply Rmult_le_compat_l; [unfold eps; lra|]. lra. }
  assert (L : (1 - eps) * d <= q * d).
  { apply Rle_trans with (lo * n); [|exact Q1].
    apply Rle_trans with ((1 - eps) * (hi * hi * hi) * n).
    - rewrite !Rmult_assoc. apply Rmult_le_compat_l; [lra|]. lra.
    - apply Rmult_le_compat_r; lra. }
  apply Rmult_le_reg_r in U; [|exact Hd0].
  apply Rmult_le_reg_r in L; [|exact Hd0].
  apply Rabs_le. lra.
Qed.

(** [n / (sqrt n * sqrt n)] for a normal [n] whose square root squared
    neither overflows nor underflows. *)
Lemma self_ratio_spec (m : positive) (e : Z) :
  normal m -> (-1052 <= e <= 948)%Z ->
  exists (mr : positive) (er : Z) (md : positive) (ed : Z) (mq : positive) (eq : Z),
    SFsqrt prec emax (S754_finite false m e) = S754_finite false mr er /\
    SFmul prec emax (S754_finite false mr er) (S754_finite false mr er) =
      S754_finite false md ed /\
    SFdiv prec emax (S754_finite false m e) (S754_finite false md ed) =
      S754_finite false mq eq /\
    normal mq /\ (-57 <= eq <= -50)%Z /\
    Rabs (F2R (Z.pos mq) eq - 1) <= eps.
Proof.
  intros Hm He.
  pose proof (Z.div2_odd e) as Hodd.
  assert (Hb : (0 <= Z.b2z (Z.odd e) <= 1)%Z) by (destruct (Z.odd e); cbn; lia).
  destruct (SFsqrt_rel m e Hm) as (mr & er & Hr & Her & Hmr & Rr); [lia|].
  destruct (SFmul_rel mr mr er er Hmr Hmr) as (md & ed & Hd & Hed & Hmd & Rd); [lia|].
  destruct (SFdiv_rel m md e ed Hm Hmd) as (mq & eq & Hq & Heq & Hmq & Rq); [lia|].
  exists mr, er, md, ed, mq, eq.
  split; [exact Hr|]. split; [exact Hd|]. split; [exact Hq|]. split; [exact Hmq|].
  split; [lia|].
  apply (three_roundings (F2R (Z.pos m) e) (F2R (Z.pos mr) er) (F2R (Z.pos md) ed)).
  - apply F2R_pos. lia.
  - exact Rr.
  - exact Rd.
  - intros _. exact Rq.
Qed.

(** A normal number within [eps] of 1, as a mantissa and an exponent. *)
Lemma near_one (mq : positive) (eq : Z) :
  normal mq -> (-57 <= eq <= -50)%Z -> Rabs (F2R (Z.pos mq) eq - 1) <= eps ->
  (eq = -53 /\ 2 ^ 53 - 32 <= Z.pos mq)%Z \/ (eq = -52 /\ Z.pos mq <= 2 ^ 52 + 16)%Z.
Proof.
  intros [Hlo Hhi] He H. unfold Rabs in H.
  apply IZR_le in Hlo. apply IZR_lt in Hhi.
  change (IZR (2 ^ 52)) with 4503599627370496 in Hlo.
  change (IZR (2 ^ 53)) with 9007199254740992 in Hhi.
  unfold F2R, bpow, eps in H.
  assert (Hcases : (eq = -57 \/ eq = -56 \/ eq = -55 \/ eq = -54 \/ eq = -53 \/
                    eq = -52 \/ eq = -51 \/ eq = -50)%Z) by lia.
  destruct Hcases as [->|[->|[->|[->|[->|[->|[->| ->]]]]]]];
    cbn [powerRZ] in H;
    match type of H with context [Pos.to_nat ?p] =>
      let n := eval vm_compute in (Pos.to_nat p) in
      change (Pos.to_nat p) with n in H
    end;
    destruct (Rcase_abs _) as [Hc|Hc] in H; try (exfalso; lra).
  - left. split; [reflexivity|]. apply le_IZR.
    change (IZR (2 ^ 53 - 32)) with 9007199254740960. lra.
  - right. split; [reflexivity|]. apply le_IZR.
    change (IZR (2 ^ 52 + 16)) with 4503599627370512. lra.
Qed.
End RoundingError.

(** ** [n / (sqrt n * sqrt n)] on binary64 *)

Module SelfRatio.
Import FloatOrder Rounding RoundingError.
Local Open Scope float_scope.

Lemma SFleb_positive (m1 m2 : positive) (e1 e2 : Z) :
  SFleb (S754_finite false m1 e1) (S754_finite false m2 e2) =
  match (e1 ?= e2)%Z with
  | Lt => true
  | Gt => false
  | Eq => (m1 <=? m2)%positive
  end.
Proof.
  unfold SFleb, SFcompare. destruct (e1 ?= e2)%Z; reflexivity.
Qed.

(** The numbers from 2^-1000 to 2^1000 are normal. *)
Lemma in_range_normal (n : float) :
  (0x1p-1000 <=? n) = true -> (n <=? 0x1p1000) = true ->
  exists (m : positive) (e : Z),
    Prim2SF n = S754_finite false m e /\ normal m /\ (-1052 <= e <= 948)%Z.
Proof.
  rewrite !FloatAxioms.leb_spec.
  change (Prim2SF 0x1p-1000) with (S754_finite false 4503599627370496 (-1052)).
  change (Prim2SF 0x1p1000) with (S754_finite false 4503599627370496 948).
  pose proof (Prim2SF_valid n) as Hv.
  destruct (Prim2SF n) as [s|s| |s m e]; try (destruct s; discriminate);
    try discriminate.
  destruct s; [discriminate|]. rewrite !SFleb_positive. intros H1 H2.
  assert (He : (-1052 <= e <= 948)%Z).
  { destruct (Z.compare_spec (-1052) e), (Z.compare_spec e 948);
      try discriminate; lia. }
  exists m, e. split; [reflexivity|]. split; [|exact He].
  destruct (valid_finite _ _ _ Hv) as (_ & Hhi & Hlo).
  split; [apply Hlo; unfold SpecFloat.emin, prec, emax; lia|exact Hhi].
Qed.

(** For a squared norm [n] from 2^-1000 to 2^1000, the denominator
    [sqrt n * sqrt n] is not zero and [n] divided by it is within 2^-48
    of 1. *)
Theorem self_ratio_near_one (n : float) :
  (0x1p-1000 <=? n) = true -> (n <=? 0x1p1000) = true ->
  (sqrt n * sqrt n =? 0) = false /\
  (0x1.fffffffffffep-1 <=? n / (sqrt n * sqrt n)) = true /\
  (n / (sqrt n * sqrt n) <=? 0x1.000000000001p0) = true.
Proof.
  intros H1 H2. destruct (in_range_normal n H1 H2) as (m & e & Hn & Hm & He).
  destruct (self_ratio_spec m e Hm He)
    as (mr & er & md & ed & mq & eq & Hr & Hd & Hq & Hmq & Heq & Hnear).
  assert (Sr : Prim2SF (sqrt n) = S754_finite false mr er).
  { rewrite sqrt_spec, Hn. exact Hr. }
  assert (Sd : Prim2SF (sqrt n * sqrt n) = S754_finite false md ed).
  { rewrite mul_spec, Sr. exact Hd. }
  assert (Sq : Prim2SF (n / (sqrt n * sqrt n)) = S754_finite false mq eq).
  { rewrite div_spec, Sd, Hn. exact Hq. }
  split; [|split].
  - rewrite FloatAxioms.eqb_spec, Sd. reflexivity.
  - rewrite FloatAxioms.leb_spec, Sq.
    change (Prim2SF 0x1.fffffffffffep-1)
      with (S754_finite false 9007199254740960 (-53)).
    rewrite SFleb_positive.
    destruct (near_one mq eq Hmq Heq Hnear) as [[-> Hb]|[-> Hb]]; [|reflexivity].
    rewrite Z.compare_refl.
    change (2 ^ 53 - 32)%Z with (Z.pos 9007199254740960) in Hb.
    rewrite Pos2Z.inj_leb. apply Z.leb_le. exact Hb.
  - rewrite FloatAxioms.leb_spec, Sq.
    change (Prim2SF 0x1.000000000001p0)
      with (S754_finite false 4503599627370512 (-52)).
    rewrite SFleb_positive.
    destruct (near_one mq eq Hmq Heq Hnear) as [[-> Hb]|[-> Hb]]; [reflexivity|].
    rewrite Z.compare_refl.
    change (2 ^ 52 + 16)%Z with (Z.pos 4503599627370512) in Hb.
    rewrite Pos2Z.inj_leb. apply Z.leb_le. exact Hb.
Qed.
End SelfRatio.


(** ** IEEE 754 facts used by the vector store

    The primitive operations are specified by [FloatAxioms] on
    [spec_float]; the facts below are read off [SpecFloat]. *)

Module FloatFacts.

Local Open Scope float_scope.

Lemma SFmul_comm (x y : spec_float) : SFmul prec emax x y = SFmul prec emax y x.
Proof.
  destruct x as [sx|sx| |sx mx ex], y as [sy|sy| |sy my ey]; cbn;
    rewrite ?(xorb_comm sx sy); try reflexivity.
  now rewrite (Pos.mul_comm mx my), (Z.add_comm ex ey).
Qed.

Lemma mul_comm (x y : float) : x * y = y * x.
Proof. apply Prim2SF_inj. rewrite !mul_spec. apply SFmul_comm. Qed.

Definition isZero (x : float) : Prop := (x =? 0) = true.

Lemma isZero_spec (x : float) : isZero x <-> exists s, Prim2SF x = S754_zero s.
Proof.
  unfold isZero. rewrite FloatAxioms.eqb_spec.
  change (Prim2SF 0) with (S754_zero false). unfold SFeqb.
  destruct (Prim2SF x) as [s|s| |s m e]; cbn; split;
    try (intros (s' & [=])); try discriminate; eauto.
  - destruct s; discriminate.
  - destruct s; discriminate.
Qed.

Lemma nan_spec (x : float) : Prim2SF x = S754_nan -> x = nan.
Proof. intros H. apply Prim2SF_inj. now rewrite H. Qed.

Lemma isZero_sqrt (x : float) : isZero x -> isZero (sqrt x).
Proof.
  rewrite !isZero_spec. intros (s & Hs). exists s.
  rewrite sqrt_spec, Hs. reflexivity.
Qed.

Lemma isZero_mul_l (x y : float) : isZero x -> isZero (x * y) \/ x * y = nan.
Proof.
  rewrite !isZero_spec. intros (s & Hs).
  destruct (Prim2SF y) as [sy|sy| |sy my ey] eqn:Hy.
  - left. exists (xorb s sy). now rewrite mul_spec, Hs, Hy.
  - right. apply nan_spec. now rewrite mul_spec, Hs, Hy.
  - right. apply nan_spec. now rewrite mul_spec, Hs, Hy.
  - left. exists (xorb s sy). now rewrite mul_spec, Hs, Hy.
Qed.

Lemma isZero_mul_r (x y : float) : isZero y -> isZero (x * y) \/ x * y = nan.
Proof. rewrite mul_comm. apply isZero_mul_l. Qed.

Lemma is_finite_spec (x : float) :
  is_finite x = true ->
  (exists s, Prim2SF x = S754_zero s) \/ exists s m e, Prim2SF x = S754_finite s m e.
Proof.
  unfold is_finite, is_nan, is_infinity.
  rewrite !FloatAxioms.eqb_spec, abs_spec.
  change (Prim2SF infinity) with (S754_infinity false).
  destruct (Prim2SF x) as [s|s| |s m e]; cbn; try discriminate; eauto.
  destruct s; cbn; discriminate.
Qed.

(** Zero times a finite number is zero. *)
Lemma isZero_mul_finite (x y : float) :
  isZero x -> is_finite y = true -> isZero (x * y).
Proof.
  rewrite !isZero_spec. intros (s & Hs) Hy.
  destruct (is_finite_spec y Hy) as [(sy & Hy')|(sy & m & e & Hy')];
    exists (xorb s sy); now rewrite mul_spec, Hs, Hy'.
Qed.

Lemma div_nan (x : float) : x / nan = nan.
Proof.
  apply nan_spec. rewrite div_spec. change (Prim2SF nan) with S754_nan.
  now destruct (Prim2SF x).
Qed.

Lemma nan_not_zero : (nan =? 0) = false.
Proof. reflexivity. Qed.

(** A finite non-zero number divided by itself is exactly 1. *)
Lemma div_self (x : float) (s : bool) (m : positive) (e : Z) :
  Prim2SF x = S754_finite s m e -> x / x = 1.
Proof.
  intros Hx. apply Prim2SF_inj. rewrite div_spec, Hx.
  change (Prim2SF 1) with (S754_finite false 4503599627370496 (-52)).
  unfold SF64div, SFdiv, SFdiv_core_binary.
  rewrite !Z.sub_diag, xorb_nilpotent. cbn [Zdigits2].
  change (IntDef.Z.min (fexp prec emax 0) 0) with (-53)%Z.
  change (0 - -53)%Z with 53%Z. cbv iota.
  change (IntDef.Z.div_eucl (IntDef.Z.shiftl (Z.pos m) 53) (Z.pos m))
    with (Z.div_eucl (Z.shiftl (Z.pos m) 53) (Z.pos m)).
  assert (Hdiv : Z.div_eucl (Z.shiftl (Z.pos m) 53) (Z.pos m) =
                 (9007199254740992, 0)%Z).
  { rewrite Z.shiftl_mul_pow2 by lia.
    pose proof (Z.div_eucl_eq (Z.pos m * 2 ^ 53) (Z.pos m)) as Heq.
    pose proof (Z.mod_pos_bound (Z.pos m * 2 ^ 53) (Z.pos m)) as Hbound.
    unfold Z.modulo, Z.div in *.
    destruct (Z.div_eucl (Z.pos m * 2 ^ 53) (Z.pos m)) as [q r].
    assert (Hq : q = (2 ^ 53)%Z) by nia.
    assert (Hr : r = 0%Z) by nia.
    subst. reflexivity. }
  rewrite Hdiv.
  assert (Hloc : new_location (Z.pos m) 0 = loc_Exact).
  { unfold new_location. destruct (IntDef.Z.even (Z.pos m)); reflexivity. }
  rewrite Hloc. vm_compute. reflexivity.
Qed.

End FloatFacts.

(** ** The vector store *)

Module VectorDbFacts.
Import VectorDb.

(** *** Row identifiers *)

Fixpoint hasChar (c : ascii) (s : string) : bool :=
  match s with
  | EmptyString => false
  | String a s' => Ascii.eqb a c || hasChar c s'
  end.

Lemma hasChar_app (c : ascii) (s t : string) :
  hasChar c (s ++ t) = hasChar c s || hasChar c t.
Proof.
  induction s as [|a s IH]; cbn; [reflexivity|]. now rewrite IH, orb_assoc.
Qed.

Lemma uint_no_underscore (d : Decimal.uint) :
  hasChar "_" (NilEmpty.string_of_uint d) = false.
Proof. induction d; cbn; auto. Qed.

Lemma decimal_no_underscore (n : Z) : hasChar "_" (decimal n) = false.
Proof.
  unfold decimal, NilZero.string_of_int, NilZero.string_of_uint.
  destruct (Z.to_int n) as [d|d]; destruct d; cbn; auto using uint_no_underscore.
Qed.

Lemma decimal_inj (a b : Z) : decimal a = decimal b -> a = b.
Proof.
  unfold decimal. intros H. apply DecimalZ.to_int_inj.
  assert (Hnn : forall z, Z.to_int z <> Decimal.Pos Decimal.Nil /\
                          Z.to_int z <> Decimal.Neg Decimal.Nil).
  { intros [|p|p]; cbn; split; try discriminate;
      intros [= Hp]; exact (DecimalPos.Unsigned.to_uint_nonnil p Hp). }
  assert (Hs : Some (Z.to_int a) = Some (Z.to_int b)).
  { rewrite <- (NilZero.isi (Z.to_int a)) by apply Hnn.
    rewrite <- (NilZero.isi (Z.to_int b)) by apply Hnn.
    now rewrite H. }
  now injection Hs.
Qed.

Lemma split_at_last_underscore (d d' s s' : string) :
  hasChar "_" s = false -> hasChar "_" s' = false ->
  (d ++ "_" ++ s = d' ++ "_" ++ s')%string -> d = d' /\ s = s'.
Proof.
  intros Hs Hs'. revert d'.
  induction d as [|a d IH]; intros [|a' d'] H; cbn in H.
  - injection H as H. auto.
  - injection H as Ha Hrest. subst s.
    rewrite hasChar_app in Hs. cbn in Hs. rewrite orb_true_r in Hs. discriminate.
  - injection H as Ha Hrest. subst s'.
    rewrite hasChar_app in Hs'. cbn in Hs'. rewrite orb_true_r in Hs'. discriminate.
  - injection H as Ha Hrest. subst a'. destruct (IH d' Hrest) as [-> ->]. auto.
Qed.

Lemma chunkId_inj (d d' : string) (i j : Z) :
  chunkId d i = chunkId d' j -> d = d' /\ i = j.
Proof.
  unfold chunkId. intros H.
  destruct (split_at_last_underscore d d' (decimal i) (decimal j)) as [Hd Hij];
    auto using decimal_no_underscore.
  split; [exact Hd|]. now apply decimal_inj.
Qed.

(** Every row carries the identifier [indexDocument] gives it. *)
Definition wellKeyed (db : Database) : Prop :=
  Forall (fun r => row_id r = chunkId (document_id r) (chunk_index r)) db.

(** *** Inserting the rows of a document *)

Fixpoint somes {A : Type} (l : list (option A)) : list A :=
  match l with
  | [] => []
  | Some a :: l' => a :: somes l'
  | None :: l' => somes l'
  end.

Lemma somes_app {A : Type} (l1 l2 : list (option A)) :
  somes (l1 ++ l2) = somes l1 ++ somes l2.
Proof.
  induction l1 as [|[a|] l1 IH]; cbn; [reflexivity| |exact IH]. now rewrite IH.
Qed.

(** The rows [indexDocument] is to store for [chunks]: one per chunk whose
    embedding succeeds, in the order of the chunks. *)
Definition storedRows (generateEmbedding : Embedder) (documentId documentName : string)
    (chunks : list (Chunking.TextChunk ascii)) : list Row :=
  somes (map (batchDatum generateEmbedding documentId documentName) chunks).

Definition rowsOf (documentId : string) (db : Database) : list Row :=
  filter (fun r => String.eqb (document_id r) documentId) db.

Definition otherRows (documentId : string) (db : Database) : list Row :=
  filter (fun r => negb (String.eqb (document_id r) documentId)) db.

(** The rows are new to the table and distinct from one another. *)
Definition FreshRows (db : Database) (rows : list Row) : Prop :=
  NoDup (map row_id rows) /\
  forall r r', In r rows -> In r' db -> row_id r' <> row_id r.

Lemma insertRow_fresh (db : Database) (r : Row) :
  (forall r', In r' db -> row_id r' <> row_id r) ->
  insertRow db r = Ok (db ++ [r]).
Proof.
  intros H. unfold insertRow.
  destruct (existsb (fun r' => String.eqb (row_id r') (row_id r)) db) eqn:He;
    [|reflexivity].
  apply existsb_exists in He as (r' & Hin & Heq). apply String.eqb_eq in Heq.
  now destruct (H r' Hin).
Qed.

Lemma FreshRows_cons (db : Database) (r : Row) (rows : list Row) :
  FreshRows db (r :: rows) ->
  (forall r', In r' db -> row_id r' <> row_id r) /\ FreshRows (db ++ [r]) rows.
Proof.
  intros [Hnd Hdb]. cbn [map] in Hnd. inversion Hnd as [|? ? Hnotin Hnd']; subst.
  split; [intros r' Hin; apply (Hdb r r'); [now left|exact Hin]|].
  split; [exact Hnd'|]. intros r1 r2 H1 H2.
  apply in_app_or in H2 as [H2|[<-|[]]].
  - apply Hdb; [now right|exact H2].
  - intros Heq. apply Hnotin. rewrite Heq. now apply in_map.
Qed.

Lemma FreshRows_app (db : Database) (rows1 rows2 : list Row) :
  FreshRows db (rows1 ++ rows2) ->
  FreshRows db rows1 /\ FreshRows (db ++ rows1) rows2.
Proof.
  revert db. induction rows1 as [|r rows1 IH]; intros db H; cbn [app] in *.
  - rewrite app_nil_r. split; [|exact H]. split; [constructor|]. intros r r' [].
  - destruct (FreshRows_cons db r _ H) as [Hr Hrest].
    destruct (IH _ Hrest) as [H1 H2]. split.
    + destruct H as [Hnd Hdb]. split.
      * cbn [map] in *. rewrite map_app in Hnd.
        inversion Hnd as [|? ? Hnotin Hnd']; subst. constructor.
        -- intros Hin. apply Hnotin. apply in_or_app. now left.
        -- now apply NoDup_app_remove_r in Hnd'.
      * intros r1 r2 Hin1 Hin2. apply Hdb; [|exact Hin2].
        destruct Hin1 as [<-|Hin1]; [now left|right; apply in_or_app; now left].
    + rewrite <- app_assoc in H2. exact H2.
Qed.

Lemma insertAll_fresh (batchData : list (option Row)) (db : Database) :
  FreshRows db (somes batchData) ->
  insertAll db batchData = Ok (db ++ somes batchData).
Proof.
  revert db. induction batchData as [|[r|] rest IH]; intros db H; cbn [insertAll somes].
  - now rewrite app_nil_r.
  - destruct (FreshRows_cons db r _ H) as [Hr Hrest].
    rewrite insertRow_fresh by exact Hr. rewrite IH by exact Hrest.
    now rewrite <- app_assoc.
  - now apply IH.
Qed.

Lemma slice_batch {A : Type} (l : list A) (i : nat) :
  (i <= length l)%nat ->
  slice l (Z.of_nat i) (Z.of_nat (i + batchSize)) = firstn batchSize (skipn i l).
Proof.
  intros Hi. unfold slice, relIndex, batchSize.
  destruct (Z.ltb_spec (Z.of_nat i) 0); [lia|].
  destruct (Z.ltb_spec (Z.of_nat (i + 5)) 0); [lia|].
  rewrite (Z.min_l (Z.of_nat i)) by lia. rewrite Nat2Z.id.
  destruct (Nat.le_gt_cases (i + 5) (length l)) as [Hle|Hgt].
  - rewrite Z.min_l by lia. f_equal. lia.
  - rewrite Z.min_r by lia.
    replace (Z.to_nat (Z.of_nat (length l) - Z.of_nat i)) with (length (skipn i l))
      by (rewrite length_skipn; lia).
    rewrite firstn_all. symmetry. apply firstn_all2. rewrite length_skipn. lia.
Qed.

Section BatchLoop.
Variables (generateEmbedding : Embedder) (documentId documentName : string).
Variable chunks : list (Chunking.TextChunk ascii).

Local Abbreviation datum := (batchDatum generateEmbedding documentId documentName).

(** With enough rounds, the loop inserts the rows of the chunks from [i]
    on, batch after batch, when none of them meets an identifier already in
    the table. *)
Lemma batchLoop_inserts (fuel i : nat) (db : Database) :
  (length chunks - i <= fuel)%nat ->
  FreshRows db (somes (map datum (skipn i chunks))) ->
  batchLoop fuel generateEmbedding documentId documentName chunks i db =
  (db ++ somes (map datum (skipn i chunks)), Ok tt).
Proof.
  revert i db. induction fuel as [|fuel IH]; intros i db Hfuel Hfresh; cbn [batchLoop].
  - rewrite skipn_all2 by lia. cbn. now rewrite app_nil_r.
  - destruct (Nat.ltb_spec i (length chunks)) as [Hlt|Hge].
    + rewrite slice_batch by lia.
      rewrite <- (firstn_skipn batchSize (skipn i chunks)) in Hfresh.
      rewrite map_app, somes_app in Hfresh.
      destruct (FreshRows_app _ _ _ Hfresh) as [H1 H2].
      rewrite insertAll_fresh by exact H1.
      rewrite skipn_skipn in H2. rewrite (Nat.add_comm batchSize i) in H2.
      rewrite IH; [|unfold batchSize; lia|exact H2].
      rewrite <- app_assoc. f_equal. f_equal.
      rewrite <- somes_app, <- map_app.
      rewrite <- (Nat.add_comm batchSize i), <- skipn_skipn.
      now rewrite firstn_skipn.
    + rewrite skipn_all2 by lia. cbn. now rewrite app_nil_r.
Qed.
End BatchLoop.

(** *** [indexDocument] replaces the rows of a document *)

Section IndexDocument.
Variables (documentId documentName : string).

Lemma storedRows_shape (e : Embedder) (chunks : list (Chunking.TextChunk ascii))
    (r : Row) :
  In r (storedRows e documentId documentName chunks) ->
  document_id r = documentId /\
  row_id r = chunkId documentId (chunk_index r) /\
  In (chunk_index r) (map Chunking.chunkIndex chunks).
Proof.
  unfold storedRows. induction chunks as [|c cs IH]; cbn [map somes]; [intros []|].
  unfold batchDatum at 1.
  destruct (e (Z.to_nat (Chunking.chunkIndex c)) (Chunking.text c)).
  - intros [<-|Hin].
    + cbn. auto.
    + destruct (IH Hin) as (H1 & H2 & H3). cbn. auto.
  - intros Hin. destruct (IH Hin) as (H1 & H2 & H3). cbn. auto.
Qed.

Lemma storedRows_distinct (e : Embedder) (chunks : list (Chunking.TextChunk ascii)) :
  NoDup (map Chunking.chunkIndex chunks) ->
  NoDup (map row_id (storedRows e documentId documentName chunks)).
Proof.
  induction chunks as [|c cs IH]; cbn [map]; intros Hnd; [constructor|].
  inversion Hnd as [|? ? Hnotin Hnd']; subst.
  unfold storedRows. cbn [map somes]. fold (storedRows e documentId documentName cs).
  unfold batchDatum at 1.
  destruct (e (Z.to_nat (Chunking.chunkIndex c)) (Chunking.text c)); [|now apply IH].
  cbn [map row_id]. constructor; [|now apply IH].
  intros Hin. apply in_map_iff in Hin as (r & Hid & Hr).
  destruct (storedRows_shape e cs r Hr) as (_ & Hkey & Hidx).
  rewrite Hkey in Hid. apply chunkId_inj in Hid as [_ Hid].
  apply Hnotin. now rewrite <- Hid.
Qed.

Lemma storedRows_fresh (e : Embedder) (db : Database)
    (chunks : list (Chunking.TextChunk ascii)) :
  wellKeyed db -> NoDup (map Chunking.chunkIndex chunks) ->
  FreshRows (otherRows documentId db) (storedRows e documentId documentName chunks).
Proof.
  intros Hkeys Hnd. split; [now apply storedRows_distinct|].
  intros r r' Hr Hr' Heq.
  destruct (storedRows_shape e chunks r Hr) as (Hdoc & Hkey & _).
  apply filter_In in Hr' as [Hin Hother].
  unfold wellKeyed in Hkeys. rewrite Forall_forall in Hkeys.
  rewrite (Hkeys r' Hin), Hkey in Heq. apply chunkId_inj in Heq as [Hd _].
  rewrite Hd, String.eqb_refl in Hother. discriminate.
Qed.

Lemma indices_distinct (chunks : list (Chunking.TextChunk ascii)) :
  map Chunking.chunkIndex chunks = map Z.of_nat (seq 0 (length chunks)) ->
  NoDup (map Chunking.chunkIndex chunks).
Proof.
  intros ->. generalize (seq_NoDup (length chunks) 0).
  induction 1 as [|a l Hnotin _ IH]; cbn [map]; constructor; [|exact IH].
  intros Hin. apply in_map_iff in Hin as (b & Hb & Hin).
  apply Nat2Z.inj in Hb. now subst.
Qed.

(** What [indexDocument] does to a well-keyed table. *)
Lemma indexDocument_result (e : Embedder) (db : Database) (txt : list ascii) :
  wellKeyed db ->
  exists chunks,
    Chunking.chunkText txt 1000 200 = Ok chunks /\
    indexDocument e db documentId documentName txt =
    mkIndexed (otherRows documentId db ++ storedRows e documentId documentName chunks)
              (Z.of_nat (length (rowsOf documentId db))) (Ok tt).
Proof.
  intros Hkeys.
  destruct (ChunkingFacts.chunkText_indices txt 1000 200) as (chunks & Hrun & Hidx);
    [lia|lia|].
  exists chunks. split; [exact Hrun|].
  unfold indexDocument, deleteWhere. rewrite Hrun.
  fold (otherRows documentId db). fold (rowsOf documentId db).
  destruct (Nat.eqb_spec (length chunks) 0) as [H0|H0].
  - destruct chunks; [|discriminate]. cbn. now rewrite app_nil_r.
  - rewrite batchLoop_inserts; [reflexivity|lia|].
    cbn [skipn]. apply storedRows_fresh; [exact Hkeys|].
    now apply indices_distinct.
Qed.

Lemma rowsOf_app (db1 db2 : Database) :
  rowsOf documentId (db1 ++ db2) = rowsOf documentId db1 ++ rowsOf documentId db2.
Proof. apply filter_app. Qed.

Lemma otherRows_app (db1 db2 : Database) :
  otherRows documentId (db1 ++ db2) =
  otherRows documentId db1 ++ otherRows documentId db2.
Proof. apply filter_app. Qed.

Lemma rowsOf_otherRows (db : Database) : rowsOf documentId (otherRows documentId db) = [].
Proof.
  unfold rowsOf, otherRows. induction db as [|r db IH]; cbn; [reflexivity|].
  destruct (String.eqb (document_id r) documentId) eqn:He; cbn; [exact IH|].
  now rewrite He.
Qed.

Lemma otherRows_idempotent (db : Database) :
  otherRows documentId (otherRows documentId db) = otherRows documentId db.
Proof.
  unfold otherRows. induction db as [|r db IH]; cbn; [reflexivity|].
  destruct (String.eqb (document_id r) documentId) eqn:He; cbn; [exact IH|].
  now rewrite He, IH.
Qed.

Lemma rowsOf_storedRows (e : Embedder) (chunks : list (Chunking.TextChunk ascii)) :
  rowsOf documentId (storedRows e documentId documentName chunks) =
  storedRows e documentId documentName chunks /\
  otherRows documentId (storedRows e documentId documentName chunks) = [].
Proof.
  assert (H : Forall (fun r => document_id r = documentId)
                (storedRows e documentId documentName chunks)).
  { apply Forall_forall. intros r Hr. now destruct (storedRows_shape e chunks r Hr). }
  unfold rowsOf, otherRows.
  induction H as [|r rows Hr _ [IH1 IH2]]; cbn; [auto|].
  rewrite Hr, String.eqb_refl. cbn. now rewrite IH1, IH2.
Qed.

Lemma wellKeyed_after (e : Embedder) (db : Database)
    (chunks : list (Chunking.TextChunk ascii)) :
  wellKeyed db ->
  wellKeyed (otherRows documentId db ++ storedRows e documentId documentName chunks).
Proof.
  intros H. unfold wellKeyed in *. apply Forall_app. split.
  - unfold otherRows. rewrite Forall_forall in *. intros r Hr.
    apply filter_In in Hr as [Hr _]. auto.
  - apply Forall_forall. intros r Hr.
    destruct (storedRows_shape e chunks r Hr) as (Hd & Hk & _).
    now rewrite Hd.
Qed.

(** The number of stored rows depends on which embeddings fail only. *)
Lemma storedRows_length (e1 e2 : Embedder) (chunks : list (Chunking.TextChunk ascii)) :
  (forall n t, isOk (e1 n t) = isOk (e2 n t)) ->
  length (storedRows e1 documentId documentName chunks) =
  length (storedRows e2 documentId documentName chunks).
Proof.
  intros Hsame. unfold storedRows.
  induction chunks as [|c cs IH]; cbn [map somes]; [reflexivity|].
  set (rows1 := somes (map (batchDatum e1 documentId documentName) cs)) in *.
  set (rows2 := somes (map (batchDatum e2 documentId documentName) cs)) in *.
  unfold batchDatum.
  specialize (Hsame (Z.to_nat (Chunking.chunkIndex c)) (Chunking.text c)).
  destruct (e1 _ _), (e2 _ _); cbn in Hsame; try discriminate;
    cbn [somes length]; [f_equal|]; exact IH.
Qed.

Lemma storedRows_all (e : Embedder) (chunks : list (Chunking.TextChunk ascii)) :
  (forall n t, isOk (e n t) = true) ->
  length (storedRows e documentId documentName chunks) = length chunks.
Proof.
  intros Hok. unfold storedRows.
  induction chunks as [|c cs IH]; cbn [map somes]; [reflexivity|].
  unfold batchDatum at 1.
  specialize (Hok (Z.to_nat (Chunking.chunkIndex c)) (Chunking.text c)).
  destruct (e _ _); cbn in Hok; [|discriminate]. cbn [somes length].
  f_equal. exact IH.
Qed.
End IndexDocument.

(** C7. On a table whose rows carry the identifiers [indexDocument] gives
    them, [indexDocument d name t] returns; it has removed every row of
    [d] (and reports their number) and then appended exactly the rows of
    the chunks of [t], in order, leaving out each chunk whose embedding
    failed.  Re-indexing with the same text, when the provider fails on the
    same chunks, removes exactly the rows the first run stored and stores
    as many again.  When no embedding fails that number is the number of
    chunks. *)
Theorem indexDocument_replaces_document
    (e1 e2 : Embedder) (db : Database) (d name : string) (txt : list ascii) :
  wellKeyed db ->
  (forall n t, isOk (e1 n t) = isOk (e2 n t)) ->
  exists chunks,
    Chunking.chunkText txt 1000 200 = Ok chunks /\
    let first := indexDocument e1 db d name txt in
    let second := indexDocument e2 (db_after first) d name txt in
    outcome first = Ok tt /\
    removed first = Z.of_nat (length (rowsOf d db)) /\
    db_after first = otherRows d db ++ storedRows e1 d name chunks /\
    rowsOf d (db_after first) = storedRows e1 d name chunks /\
    ((forall n t, isOk (e1 n t) = true) ->
     length (rowsOf d (db_after first)) = length chunks) /\
    outcome second = Ok tt /\
    removed second = Z.of_nat (length (rowsOf d (db_after first))) /\
    db_after second = otherRows d db ++ storedRows e2 d name chunks /\
    length (rowsOf d (db_after second)) = length (rowsOf d (db_after first)).
Proof.
  intros Hkeys Hsame.
  destruct (indexDocument_result d name e1 db txt Hkeys) as (chunks & Hrun & H1).
  exists chunks. split; [exact Hrun|]. cbv zeta. rewrite H1. cbn [db_after removed outcome].
  destruct (indexDocument_result d name e2 _ txt
              (wellKeyed_after d name e1 db chunks Hkeys)) as (chunks' & Hrun' & H2).
  rewrite Hrun in Hrun'. injection Hrun' as <-. rewrite H2.
  cbn [db_after removed outcome].
  assert (Hrows : forall e, rowsOf d (otherRows d db ++ storedRows e d name chunks) =
                            storedRows e d name chunks).
  { intros e. rewrite rowsOf_app, rowsOf_otherRows.
    now destruct (rowsOf_storedRows d name e chunks) as [-> _]. }
  rewrite otherRows_app, otherRows_idempotent.
  destruct (rowsOf_storedRows d name e1 chunks) as [_ ->]. rewrite app_nil_r.
  rewrite !Hrows.
  repeat split; try reflexivity.
  - intros Hok. now apply storedRows_all.
  - symmetry. now apply storedRows_length.
Qed.

(** A provider that fails on the second chunk of every document. *)
Definition secondChunkFails : Embedder :=
  fun n _ => if (n =? 1)%nat then Throw "rate limit" else Ok [1%float; 0%float].

Lemma indexDocument_replaces_document_witness :
  exists chunks,
    Chunking.chunkText ChunkingFacts.text2500 1000 200 = Ok chunks /\
    let first := indexDocument secondChunkFails [] "d" "report.txt"
                               ChunkingFacts.text2500 in
    let second := indexDocument secondChunkFails (db_after first) "d" "report.txt"
                                ChunkingFacts.text2500 in
    outcome first = Ok tt /\
    removed first = Z.of_nat (length (rowsOf "d" [])) /\
    db_after first =
      otherRows "d" [] ++ storedRows secondChunkFails "d" "report.txt" chunks /\
    rowsOf "d" (db_after first) =
      storedRows secondChunkFails "d" "report.txt" chunks /\
    ((forall n t, isOk (secondChunkFails n t) = true) ->
     length (rowsOf "d" (db_after first)) = length chunks) /\
    outcome second = Ok tt /\
    removed second = Z.of_nat (length (rowsOf "d" (db_after first))) /\
    db_after second =
      otherRows "d" [] ++ storedRows secondChunkFails "d" "report.txt" chunks /\
    length (rowsOf "d" (db_after second)) = length (rowsOf "d" (db_after first)).
Proof.
  apply (indexDocument_replaces_document secondChunkFails secondChunkFails []
           "d" "report.txt" ChunkingFacts.text2500).
  - constructor.
  - reflexivity.
Defined.

Example reindex_2500_counts :
  let first := indexDocument secondChunkFails [] "d" "report.txt"
                             ChunkingFacts.text2500 in
  let second := indexDocument secondChunkFails (db_after first) "d" "report.txt"
                              ChunkingFacts.text2500 in
  map row_id (db_after first) = ["d_0"; "d_2"; "d_3"]%string /\
  removed first = 0 /\ removed second = 3 /\
  map row_id (db_after second) = ["d_0"; "d_2"; "d_3"]%string.
Proof. vm_compute. repeat split. Qed.

(** A provider that always answers. *)
Definition neverFails : Embedder := fun _ _ => Ok [1%float; 0%float].

(** Where the last sentence of C7 fails: the same text indexed again after
    the provider has recovered stores four rows where the first run stored
    three. *)
Lemma reindex_after_recovery_stores_more :
  let first := indexDocument secondChunkFails [] "d" "report.txt"
                             ChunkingFacts.text2500 in
  let second := indexDocument neverFails (db_after first) "d" "report.txt"
                              ChunkingFacts.text2500 in
  outcome first = Ok tt /\ outcome second = Ok tt /\
  length (rowsOf "d" (db_after first)) = 3%nat /\
  removed second = 3 /\
  length (rowsOf "d" (db_after second)) = 4%nat.
Proof. vm_compute. repeat split. Qed.

(** *** [cosineSimilarity] *)

Section Cosine.
Local Open Scope float_scope.
Import FloatFacts.

Definition swapSums (s : Sums) : Sums :=
  mkSums (dotProduct s) (normB s) (normA s).

Definition accumulateFrom (s : Sums) (vecA vecB : list float) : Sums :=
  fold_left
    (fun acc ab =>
       let '(a, b) := ab in
       mkSums (dotProduct acc + a * b) (normA acc + a * a) (normB acc + b * b))
    (combine vecA vecB) s.

Lemma accumulateFrom_swap (vecA vecB : list float) (s : Sums) :
  accumulateFrom (swapSums s) vecB vecA = swapSums (accumulateFrom s vecA vecB).
Proof.
  revert vecB s. induction vecA as [|a vecA IH]; intros [|b vecB] s; try reflexivity.
  unfold accumulateFrom in *. cbn [combine fold_left].
  rewrite <- IH. unfold swapSums. cbn [dotProduct normA normB].
  now rewrite (mul_comm b a).
Qed.

Lemma accumulate_swap (vecA vecB : list float) :
  accumulate vecB vecA = swapSums (accumulate vecA vecB).
Proof. exact (accumulateFrom_swap vecA vecB (mkSums 0 0 0)). Qed.

Lemma cosineSimilarity_sym (vecA vecB : list float) :
  cosineSimilarity vecA vecB = cosineSimilarity vecB vecA.
Proof.
  unfold cosineSimilarity. rewrite (Nat.eqb_sym (length vecB)).
  destruct (length vecA =? length vecB)%nat; [|reflexivity]. cbn [negb].
  rewrite (accumulate_swap vecA vecB). cbn [swapSums dotProduct normA normB].
  now rewrite (mul_comm (sqrt (normB (accumulate vecA vecB)))).
Qed.

(** The sum of the squares of a vector, as the loop computes it. *)
Definition squaredNorm (v : list float) : float := normA (accumulate v v).

Lemma accumulateFrom_norms (vecA vecB : list float) (s1 s2 : Sums) :
  length vecA = length vecB ->
  normA s1 = normA s2 ->
  normA (accumulateFrom s1 vecA vecB) = normA (accumulateFrom s2 vecA vecA).
Proof.
  revert vecB s1 s2. induction vecA as [|a vecA IH]; intros [|b vecB] s1 s2 Hl Hs;
    try discriminate; [exact Hs|].
  unfold accumulateFrom in *. cbn [combine fold_left]. apply IH.
  - now injection Hl.
  - cbn [normA]. now rewrite Hs.
Qed.

Lemma normA_squaredNorm (vecA vecB : list float) :
  length vecA = length vecB -> normA (accumulate vecA vecB) = squaredNorm vecA.
Proof. intros Hl. now apply accumulateFrom_norms. Qed.

Lemma normB_squaredNorm (vecA vecB : list float) :
  length vecA = length vecB -> normB (accumulate vecA vecB) = squaredNorm vecB.
Proof.
  intros Hl. rewrite <- (normA_squaredNorm vecB vecA) by now symmetry.
  now rewrite (accumulate_swap vecA vecB).
Qed.

Lemma cosineSimilarity_equal_lengths (vecA vecB : list float) :
  length vecA = length vecB ->
  cosineSimilarity vecA vecB =
  let denominator := sqrt (squaredNorm vecA) * sqrt (squaredNorm vecB) in
  if denominator =? 0 then Ok 0
  else Ok (dotProduct (accumulate vecA vecB) / denominator).
Proof.
  intros Hl. unfold cosineSimilarity. rewrite Hl, Nat.eqb_refl. cbn [negb].
  now rewrite normA_squaredNorm, normB_squaredNorm.
Qed.

Lemma cosineSimilarity_zero_or_nan (vecA vecB : list float) :
  length vecA = length vecB ->
  isZero (squaredNorm vecA) \/ isZero (squaredNorm vecB) ->
  cosineSimilarity vecA vecB = Ok 0 \/ cosineSimilarity vecA vecB = Ok nan.
Proof.
  intros Hl Hz. rewrite cosineSimilarity_equal_lengths by exact Hl. cbv zeta.
  assert (Hd : isZero (sqrt (squaredNorm vecA) * sqrt (squaredNorm vecB)) \/
               sqrt (squaredNorm vecA) * sqrt (squaredNorm vecB) = nan).
  { destruct Hz as [Hz|Hz].
    - apply isZero_mul_l. now apply isZero_sqrt.
    - apply isZero_mul_r. now apply isZero_sqrt. }
  destruct Hd as [Hd | ->].
  - left. unfold isZero in Hd. now rewrite Hd.
  - right. rewrite nan_not_zero. now rewrite div_nan.
Qed.

Lemma cosineSimilarity_zero (vecA vecB : list float) :
  length vecA = length vecB ->
  isZero (squaredNorm vecA) \/ isZero (squaredNorm vecB) ->
  is_finite (sqrt (squaredNorm vecA)) = true ->
  is_finite (sqrt (squaredNorm vecB)) = true ->
  cosineSimilarity vecA vecB = Ok 0.
Proof.
  intros Hl Hz Ha Hb. rewrite cosineSimilarity_equal_lengths by exact Hl. cbv zeta.
  assert (Hd : isZero (sqrt (squaredNorm vecA) * sqrt (squaredNorm vecB))).
  { destruct Hz as [Hz|Hz].
    - apply isZero_mul_finite; [now apply isZero_sqrt|exact Hb].
    - rewrite mul_comm. apply isZero_mul_finite; [now apply isZero_sqrt|exact Ha]. }
  unfold isZero in Hd. now rewrite Hd.
Qed.

Lemma accumulateFrom_self (v : list float) (s : Sums) :
  dotProduct s = normA s ->
  dotProduct (accumulateFrom s v v) = normA (accumulateFrom s v v).
Proof.
  revert s. induction v as [|a v IH]; intros s Hs; [exact Hs|].
  unfold accumulateFrom in *. cbn [combine fold_left]. apply IH.
  cbn [dotProduct normA]. now rewrite Hs.
Qed.

Lemma cosineSimilarity_self (v : list float) :
  cosineSimilarity v v =
  let n := squaredNorm v in
  if sqrt n * sqrt n =? 0 then Ok 0 else Ok (n / (sqrt n * sqrt n)).
Proof.
  rewrite cosineSimilarity_equal_lengths by reflexivity. cbv zeta.
  assert (H : dotProduct (accumulate v v) = squaredNorm v)
    by exact (accumulateFrom_self v (mkSums 0 0 0) eq_refl).
  now rewrite H.
Qed.

Lemma finite_nonzero (x : float) :
  is_finite x = true -> (x =? 0) = false ->
  exists s m e, Prim2SF x = S754_finite s m e.
Proof.
  unfold is_finite, is_nan, is_infinity.
  rewrite !FloatAxioms.eqb_spec, abs_spec.
  change (Prim2SF infinity) with (S754_infinity false).
  change (Prim2SF 0) with (S754_zero false).
  destruct (Prim2SF x) as [s|s| |s m e]; cbn; try discriminate; eauto;
    destruct s; cbn; discriminate.
Qed.

Lemma cosineSimilarity_self_exact (v : list float) :
  is_finite (squaredNorm v) = true -> (squaredNorm v =? 0) = false ->
  sqrt (squaredNorm v) * sqrt (squaredNorm v) = squaredNorm v ->
  cosineSimilarity v v = Ok 1.
Proof.
  intros Hfin Hnz Hsq. rewrite cosineSimilarity_self. cbv zeta.
  rewrite Hsq, Hnz. destruct (finite_nonzero _ Hfin Hnz) as (s & m & e & Hn).
  now rewrite (div_self _ s m e Hn).
Qed.
Lemma cosineSimilarity_self_within (v : list float) :
  (0x1p-1000 <=? squaredNorm v) = true -> (squaredNorm v <=? 0x1p1000) = true ->
  exists s, cosineSimilarity v v = Ok s /\
            (0x1.fffffffffffep-1 <=? s) = true /\ (s <=? 0x1.000000000001p0) = true.
Proof.
  intros Hlo Hhi. rewrite cosineSimilarity_self. cbv zeta.
  destruct (SelfRatio.self_ratio_near_one _ Hlo Hhi) as (Hd & Hl & Hu).
  rewrite Hd. eauto.
Qed.

(** C8.  [cosineSimilarity] is symmetric, for all vectors (of different
    lengths it throws either way).  For equal lengths, when the squared norm
    of either vector is zero the result is 0 or NaN, and it is 0 as soon as
    both computed norms are finite.  The similarity of a vector with itself
    is [n / (sqrt n * sqrt n)] for its squared norm [n], unless that
    denominator is zero, when it is 0.  For [n] from 2^-1000 to 2^1000 it is
    within 2^-48 of 1: from [1 - 2^-48] to [1 + 2^-48]; and it is exactly 1
    when [n] is finite, not zero, and [sqrt n * sqrt n] rounds back to
    [n]. *)
Theorem cosineSimilarity_symmetric_zero_self :
  (forall a b : list float, cosineSimilarity a b = cosineSimilarity b a) /\
  (forall a b : list float,
     length a = length b ->
     isZero (squaredNorm a) \/ isZero (squaredNorm b) ->
     (cosineSimilarity a b = Ok 0 \/ cosineSimilarity a b = Ok nan) /\
     (is_finite (sqrt (squaredNorm a)) = true ->
      is_finite (sqrt (squaredNorm b)) = true ->
      cosineSimilarity a b = Ok 0)) /\
  (forall a : list float,
     cosineSimilarity a a =
     let n := squaredNorm a in
     if sqrt n * sqrt n =? 0 then Ok 0 else Ok (n / (sqrt n * sqrt n))) /\
  (forall a : list float,
     (0x1p-1000 <=? squaredNorm a) = true ->
     (squaredNorm a <=? 0x1p1000) = true ->
     exists s, cosineSimilarity a a = Ok s /\
               (0x1.fffffffffffep-1 <=? s) = true /\
               (s <=? 0x1.000000000001p0) = true) /\
  (forall a : list float,
     is_finite (squaredNorm a) = true ->
     (squaredNorm a =? 0) = false ->
     sqrt (squaredNorm a) * sqrt (squaredNorm a) = squaredNorm a ->
     cosineSimilarity a a = Ok 1).
Proof.
  split; [exact cosineSimilarity_sym|].
  split; [|split; [exact cosineSimilarity_self|
                   split; [exact cosineSimilarity_self_within|
                           exact cosineSimilarity_self_exact]]].
  intros a b Hl Hz. split.
  - now apply cosineSimilarity_zero_or_nan.
  - intros Ha Hb. now apply cosineSimilarity_zero.
Qed.

Lemma cosineSimilarity_symmetric_zero_self_witness :
  cosineSimilarity [0; 0] [3; 4] = Ok 0 /\
  cosineSimilarity [3; 4] [3; 4] = Ok 1 /\
  exists s, cosineSimilarity [1; 1; 1] [1; 1; 1] = Ok s /\
            (0x1.fffffffffffep-1 <=? s) = true /\ (s <=? 0x1.000000000001p0) = true.
Proof.
  destruct cosineSimilarity_symmetric_zero_self as (_ & Hzero & _ & Hnear & Hself).
  split; [|split].
  - apply Hzero; [reflexivity|left; reflexivity|reflexivity|reflexivity].
  - apply Hself; reflexivity.
  - apply Hnear; reflexivity.
Defined.

(** Where the sentence of C8 fails: a zero vector against one whose squares
    overflow gives NaN, not 0; a non-zero vector whose squares underflow has
    similarity 0 with itself, one whose squares overflow NaN; and the
    self-similarity of [[1; 1; 1]] is the double after 1. *)
Lemma cosineSimilarity_overflow_underflow :
  isZero (squaredNorm [0]) /\
  cosineSimilarity [0] [0x1p600] = Ok nan /\
  cosineSimilarity [0x1p-600] [0x1p-600] = Ok 0 /\
  cosineSimilarity [0x1p600] [0x1p600] = Ok nan /\
  cosineSimilarity [1; 1; 1] [1; 1; 1] = Ok 0x1.0000000000001p0.
Proof. repeat split. Qed.

End Cosine.

(** *** [Array.prototype.sort] *)

Section StableSortFacts.
Context {A : Type}.
Variable after : A -> A -> bool.

Lemma insertSorted_perm (x : A) (l : list A) :
  Permutation (insertSorted after x l) (x :: l).
Proof.
  induction l as [|y l IH]; cbn [insertSorted]; [reflexivity|].
  destruct (after x y); [|reflexivity].
  rewrite IH. apply perm_swap.
Qed.

Lemma stableSort_perm (l : list A) : Permutation (stableSort after l) l.
Proof.
  induction l as [|x l IH]; [reflexivity|].
  change (stableSort after (x :: l)) with (insertSorted after x (stableSort after l)).
  rewrite insertSorted_perm. now constructor.
Qed.

(** The sort commutes with a [map] when the comparator only looks through it. *)
Lemma stableSort_map {B : Type} (f : B -> A) (l : list B) :
  stableSort after (map f l) = map f (stableSort (fun a b => after (f a) (f b)) l).
Proof.
  induction l as [|x l IH]; [reflexivity|].
  change (stableSort after (map f (x :: l)))
    with (insertSorted after (f x) (stableSort after (map f l))).
  change (stableSort (fun a b => after (f a) (f b)) (x :: l))
    with (insertSorted (fun a b => after (f a) (f b)) x
            (stableSort (fun a b => after (f a) (f b)) l)).
  rewrite IH. generalize (stableSort (fun a b => after (f a) (f b)) l) as s.
  induction s as [|y s IHs]; [reflexivity|].
  cbn [insertSorted map]. destruct (after (f x) (f y)); [|reflexivity].
  cbn [map]. now rewrite IHs.
Qed.

(** Sorted: where the comparator is the strict order of an integer key, the
    keys never increase along the result. *)
Variable key : A -> Z.
Variable ok : A -> Prop.
Hypothesis after_key : forall a b, ok a -> ok b -> after a b = (key a <? key b).

Definition descending (a b : A) : Prop := key b <= key a.

Lemma insertSorted_sorted (x : A) (l : list A) :
  ok x -> Forall ok l -> StronglySorted descending l ->
  StronglySorted descending (insertSorted after x l).
Proof.
  intros Hx Hl Hs. induction Hs as [|y l Hs IH Hy].
  - repeat constructor.
  - inversion Hl as [|? ? Hoky Hokl]; subst. cbn [insertSorted].
    rewrite (after_key x y Hx Hoky).
    destruct (Z.ltb_spec (key x) (key y)) as [Hlt|Hge].
    + constructor; [now apply IH|].
      apply (Permutation_Forall (Permutation_sym (insertSorted_perm x l))).
      constructor; [unfold descending; lia|exact Hy].
    + constructor; [now constructor|].
      constructor; [exact Hge|].
      revert Hy. apply Forall_impl. unfold descending. intros z Hz. lia.
Qed.

Lemma stableSort_sorted (l : list A) :
  Forall ok l -> StronglySorted descending (stableSort after l).
Proof.
  induction l as [|x l IH]; intros Hl; [constructor|].
  inversion Hl as [|? ? Hx Hl']; subst.
  apply insertSorted_sorted; [exact Hx| |now apply IH].
  apply (Permutation_Forall (Permutation_sym (stableSort_perm l))). exact Hl'.
Qed.

(** Stable: elements that the comparator never moves past each other keep
    their order. *)
Variable P : A -> bool.

Lemma insertSorted_filter (x : A) (l : list A) :
  (forall y, In y l -> P x = true -> P y = true -> after x y = false) ->
  filter P (insertSorted after x l) = filter P (x :: l).
Proof.
  induction l as [|y l IH]; intros H; [reflexivity|].
  cbn [insertSorted]. destruct (after x y) eqn:Ha; [|reflexivity].
  cbn [filter]. rewrite IH by (intros z Hz; apply H; now right).
  cbn [filter]. destruct (P x) eqn:Px, (P y) eqn:Py; try reflexivity.
  rewrite (H y (or_introl eq_refl) eq_refl Py) in Ha. discriminate.
Qed.

Lemma stableSort_filter (l : list A) :
  (forall a b, In a l -> In b l -> P a = true -> P b = true -> after a b = false) ->
  filter P (stableSort after l) = filter P l.
Proof.
  induction l as [|x l IH]; intros H; [reflexivity|].
  change (stableSort after (x :: l)) with (insertSorted after x (stableSort after l)).
  rewrite insertSorted_filter.
  - cbn [filter]. rewrite IH; [reflexivity|].
    intros a b Ha Hb. apply H; now right.
  - intros y Hy. apply H; [now left|right].
    apply (Permutation_in _ (stableSort_perm l)). exact Hy.
Qed.
End StableSortFacts.

Lemma StronglySorted_weaken {A : Type} (R R' : A -> A -> Prop) (ok : A -> Prop)
    (l : list A) :
  (forall a b, ok a -> ok b -> R a b -> R' a b) ->
  Forall ok l -> StronglySorted R l -> StronglySorted R' l.
Proof.
  intros HR Hl Hs. induction Hs as [|x l Hs IH Hx]; [constructor|].
  inversion Hl as [|? ? Hokx Hokl]; subst.
  constructor; [now apply IH|].
  rewrite Forall_forall in *. intros y Hy. apply HR; auto.
Qed.

(** *** [searchSimilarChunks] *)

Section Search.
Local Open Scope float_scope.
Import FloatOrder.

(** The score [searchSimilarChunks] gives a row, for the query embedding. *)
Definition similarity (queryEmbedding : list float) (row : Row) : float :=
  match cosineSimilarity queryEmbedding (embedding row) with
  | Ok s => s
  | Throw _ => nan
  end.

(** The row can be scored, and its score is a number. *)
Definition scorable (queryEmbedding : list float) (row : Row) : bool :=
  match cosineSimilarity queryEmbedding (embedding row) with
  | Ok s => negb (is_nan s)
  | Throw _ => false
  end.

Definition scored (queryEmbedding : list float) (row : Row) : Scored :=
  mkScored (toChunk row) (similarity queryEmbedding row).

(** The comparator of the sort, on rows. *)
Definition rowBehind (queryEmbedding : list float) (a b : Row) : bool :=
  0 <? similarity queryEmbedding b - similarity queryEmbedding a.

Definition ranking (queryEmbedding : list float) (rows : list Row) : list Row :=
  stableSort (rowBehind queryEmbedding) rows.

Variable q : list float.

Lemma scorable_not_nan (row : Row) :
  scorable q row = true -> is_nan (similarity q row) = false.
Proof.
  unfold scorable, similarity.
  destruct (cosineSimilarity q (embedding row)); [|discriminate].
  now destruct (is_nan a).
Qed.

Lemma scoreRows_scorable (rows : list Row) :
  forallb (scorable q) rows = true -> scoreRows q rows = Ok (map (scored q) rows).
Proof.
  induction rows as [|row rows IH]; [reflexivity|].
  cbn [forallb scoreRows map]. intros H. apply andb_prop in H as [Hrow Hrows].
  rewrite (IH Hrows). unfold scored at 2, similarity.
  unfold scorable in Hrow.
  destruct (cosineSimilarity q (embedding row)); [reflexivity|discriminate].
Qed.

Lemma sort_scored (rows : list Row) :
  sort (fun a b => score b - score a) (map (scored q) rows) =
  map (scored q) (ranking q rows).
Proof. unfold sort. now rewrite stableSort_map. Qed.

Lemma rowBehind_rank (a b : Row) :
  is_nan (similarity q a) = false -> is_nan (similarity q b) = false ->
  rowBehind q a b = (rankOf (similarity q a) <? rankOf (similarity q b))%Z.
Proof.
  intros Ha Hb. unfold rowBehind. rewrite sub_pos_iff_lt. now apply ltb_rank.
Qed.

Lemma ranking_sorted (rows : list Row) :
  forallb (scorable q) rows = true ->
  StronglySorted (fun a b => (similarity q b <=? similarity q a) = true)
                 (ranking q rows).
Proof.
  intros H.
  assert (Hok : Forall (fun r => is_nan (similarity q r) = false) rows).
  { rewrite forallb_forall in H. apply Forall_forall.
    intros r Hr. apply scorable_not_nan. now apply H. }
  apply (StronglySorted_weaken
           (descending (fun r => rankOf (similarity q r)))
           _ (fun r => is_nan (similarity q r) = false)).
  - intros a b Ha Hb Hd. rewrite leb_rank by assumption.
    apply Z.leb_le. exact Hd.
  - apply (Permutation_Forall (Permutation_sym (stableSort_perm _ rows))). exact Hok.
  - apply stableSort_sorted with (ok := fun r => is_nan (similarity q r) = false);
      [|exact Hok].
    intros a b. apply rowBehind_rank.
Qed.

Lemma ranking_stable (rows : list Row) (v : float) :
  filter (fun r => similarity q r =? v) (ranking q rows) =
  filter (fun r => similarity q r =? v) rows.
Proof.
  apply stableSort_filter. intros a b _ _ Ha Hb.
  destruct (eqb_not_nan _ _ Ha) as [Na Nv].
  destruct (eqb_not_nan _ _ Hb) as [Nb _].
  rewrite rowBehind_rank by assumption.
  rewrite eqb_rank in Ha, Hb by assumption.
  apply Z.eqb_eq in Ha, Hb. apply Z.ltb_ge. lia.
Qed.

Lemma loadRows_filtered (rowOrder : RowOrder) (db : Database) (ids : list string)
    (r : Row) :
  (forall rows, Permutation (rowOrder rows) rows) ->
  ids <> [] -> In r (loadRows rowOrder db (Some ids)) ->
  In r db /\ In (document_id r) ids.
Proof.
  intros Hperm Hne Hr. unfold loadRows in Hr.
  apply (Permutation_in _ (Hperm _)) in Hr. revert Hr.
  destruct ids as [|i ids]; [contradiction|].
  cbn [length Nat.ltb Nat.leb]. rewrite filter_In. intros [Hin Hid].
  split; [exact Hin|]. unfold inIds in Hid. apply existsb_exists in Hid.
  destruct Hid as (x & Hx & Heq). apply String.eqb_eq in Heq. now rewrite Heq.
Qed.

Lemma loadRows_unfiltered (rowOrder : RowOrder) (db : Database)
    (documentIds : option (list string)) :
  (forall rows, Permutation (rowOrder rows) rows) ->
  documentIds = None \/ documentIds = Some [] ->
  Permutation (loadRows rowOrder db documentIds) db.
Proof. intros Hperm [-> | ->]; apply Hperm. Qed.
End Search.

(** C3.  For a limit [k >= 0], when the query is embedded and every row the
    [SELECT] loads can be scored with a number, [searchSimilarChunks]
    returns the first [k] rows of a ranking of the loaded rows: at most [k]
    chunks; similarities never increase along the ranking, so no row left
    out beats a returned one; rows of equal similarity stay in the order in
    which the [SELECT] returned them; and with a non-empty [documentIds]
    every ranked row belongs to one of these documents, while without one,
    or with an empty one, every row of the table is ranked. *)
Theorem searchSimilarChunks_top_k (generateEmbedding : Embedder)
    (rowOrder : RowOrder) (db : Database) (query : list ascii) (k : Z)
    (documentIds : option (list string)) (q : list float) :
  (forall rows, Permutation (rowOrder rows) rows) ->
  0 <= k ->
  generateEmbedding 0%nat query = Ok q ->
  forallb (scorable q) (loadRows rowOrder db documentIds) = true ->
  exists ranked : list Row,
    searchSimilarChunks generateEmbedding rowOrder db query k documentIds =
      Ok (map toChunk (firstn (Z.to_nat k) ranked)) /\
    Z.of_nat (length (firstn (Z.to_nat k) ranked)) <= k /\
    Permutation ranked (loadRows rowOrder db documentIds) /\
    StronglySorted (fun a b => (similarity q b <=? similarity q a)%float = true)
                   ranked /\
    (forall a b, In a (firstn (Z.to_nat k) ranked) ->
                 In b (skipn (Z.to_nat k) ranked) ->
                 (similarity q b <=? similarity q a)%float = true) /\
    (forall v, filter (fun r => similarity q r =? v)%float ranked =
               filter (fun r => similarity q r =? v)%float
                      (loadRows rowOrder db documentIds)) /\
    (forall ids, documentIds = Some ids -> ids <> [] ->
                 forall r, In r ranked -> In r db /\ In (document_id r) ids) /\
    (documentIds = None \/ documentIds = Some [] -> Permutation ranked db).
Proof.
  intros Horder Hk Hq Hs. set (rows := loadRows rowOrder db documentIds) in *.
  exists (ranking q rows).
  assert (Hperm : Permutation (ranking q rows) rows) by apply stableSort_perm.
  assert (Hsorted := ranking_sorted q rows Hs).
  split; [|split; [|split; [exact Hperm|split; [exact Hsorted|split; [|split; [|split]]]]]].
  - unfold searchSimilarChunks. rewrite Hq. fold rows.
    destruct (length rows =? 0)%nat eqn:Hlen.
    + apply Nat.eqb_eq in Hlen. destruct rows; [|discriminate].
      now destruct (Z.to_nat k).
    + rewrite (scoreRows_scorable q rows Hs), sort_scored.
      rewrite slice_prefix by exact Hk.
      now rewrite <- firstn_map, map_map, firstn_map.
  - rewrite length_firstn. lia.
  - intros a b Ha Hb.
    rewrite <- (firstn_skipn (Z.to_nat k) (ranking q rows)) in Hsorted.
    revert Hsorted Ha Hb.
    generalize (firstn (Z.to_nat k) (ranking q rows)) as front.
    generalize (skipn (Z.to_nat k) (ranking q rows)) as back.
    intros back front. induction front as [|x front IH]; [contradiction|].
    cbn [app]. intros Hss [<-|Ha] Hb; inversion Hss as [|? ? Hss' Hall]; subst.
    + rewrite Forall_forall in Hall. apply Hall, in_or_app. now right.
    + now apply IH.
  - intros v. apply ranking_stable.
  - intros ids Hids Hne r Hr. apply (loadRows_filtered rowOrder); [exact Horder|exact Hne|].
    apply (Permutation_in _ Hperm) in Hr. unfold rows in Hr.
    now rewrite Hids in Hr.
  - intros Hnone. apply (Permutation_trans Hperm).
    now apply loadRows_unfiltered.
Qed.

(** A table of two documents; the embeddings are binary32 values. *)
Definition sampleRow (doc : string) (i : Z) (e : list float) : Row :=
  mkRow (chunkId doc i) doc doc i [] 0 0 e.

Definition sampleDb : Database :=
  [ sampleRow "a" 0 [0; 1]%float;
    sampleRow "b" 0 [1; 1]%float;
    sampleRow "a" 1 [1; 0]%float;
    sampleRow "b" 1 [2; 2]%float ].

Definition sampleEmbedder : Embedder := fun _ _ => Ok [1; 0]%float.

Lemma searchSimilarChunks_top_k_witness :
  exists ranked : list Row,
    searchSimilarChunks sampleEmbedder tableScan sampleDb [] 1 (Some ["b"]%string) =
      Ok (map toChunk (firstn 1 ranked)) /\
    Permutation ranked (loadRows tableScan sampleDb (Some ["b"]%string)) /\
    forall r, In r ranked -> In r sampleDb /\ In (document_id r) ["b"]%string.
Proof.
  destruct (searchSimilarChunks_top_k sampleEmbedder tableScan sampleDb [] 1
              (Some ["b"]%string) [1; 0]%float)
    as (ranked & Hres & _ & Hperm & _ & _ & _ & Hids & _).
  - intros rows. apply Permutation_refl.
  - lia.
  - reflexivity.
  - reflexivity.
  - exists ranked. split; [exact Hres|]. split; [exact Hperm|].
    apply (Hids ["b"]%string eq_refl). discriminate.
Defined.

Example search_sample_ranking :
  searchSimilarChunks sampleEmbedder tableScan sampleDb [] 3 None =
  Ok (map toChunk [ sampleRow "a" 1 [1; 0]%float;
                    sampleRow "b" 0 [1; 1]%float;
                    sampleRow "b" 1 [2; 2]%float ]).
Proof. vm_compute. reflexivity. Qed.

(** An engine that answers the filtered [SELECT] through the index on
    [document_id] returns the rows document by document.  Rows of equal
    similarity then come out in that order, not in the order of insertion. *)
Definition byDocument : RowOrder :=
  stableSort (fun a b => String.ltb (document_id b) (document_id a)).

Example search_ties_follow_select_order :
  let db := [ sampleRow "b" 0 [1; 0]%float; sampleRow "a" 0 [1; 0]%float ] in
  (forall rows, Permutation (byDocument rows) rows) /\
  searchSimilarChunks sampleEmbedder byDocument db [] 2 (Some ["a"; "b"]%string) =
    Ok (map toChunk [ sampleRow "a" 0 [1; 0]%float; sampleRow "b" 0 [1; 0]%float ]) /\
  searchSimilarChunks sampleEmbedder tableScan db [] 2 (Some ["a"; "b"]%string) =
    Ok (map toChunk [ sampleRow "b" 0 [1; 0]%float; sampleRow "a" 0 [1; 0]%float ]).
Proof.
  split; [intros rows; apply stableSort_perm|].
  vm_compute. split; reflexivity.
Qed.

(** Where the sentence of C3 fails: a [documentIds] that is supplied but
    empty does not restrict the candidates, and a negative limit counts
    from the end of the ranking. *)
Lemma searchSimilarChunks_empty_filter_negative_limit :
  searchSimilarChunks sampleEmbedder tableScan sampleDb [] 5 (Some []) =
    Ok (map toChunk [ sampleRow "a" 1 [1; 0]%float;
                      sampleRow "b" 0 [1; 1]%float;
                      sampleRow "b" 1 [2; 2]%float;
                      sampleRow "a" 0 [0; 1]%float ]) /\
  searchSimilarChunks sampleEmbedder tableScan sampleDb [] (-1) (Some ["b"]%string) =
    Ok (map toChunk [ sampleRow "b" 0 [1; 1]%float ]).
Proof. vm_compute. split; reflexivity. Qed.

End VectorDbFacts.

(** ** More on the chunker: how the chunks fit together *)

Module ChunkingMore.
Import Chunking ChunkingFacts.

(** Every chunk starts [overlap] before the end of the one before it. *)
Fixpoint linked {char : Type} (overlap : Z) (l : list (TextChunk char)) : Prop :=
  match l with
  | c :: (d :: _) as rest => startIndex d = endIndex c - overlap /\ linked overlap rest
  | _ => True
  end.

(** The text put together again: the first chunk, then every later chunk
    without its first [overlap] characters. *)
Definition reassemble {char : Type} (overlap : Z) (l : list (TextChunk char))
  : list char :=
  match l with
  | [] => []
  | c :: rest => text c ++ flat_map (fun d => skipn (Z.to_nat overlap) (text d)) rest
  end.

Lemma linked_snoc {char : Type} (overlap : Z) (l : list (TextChunk char))
    (d : TextChunk char) :
  linked overlap l -> (l = [] \/ startIndex d = lastEnd l - overlap) ->
  linked overlap (l ++ [d]).
Proof.
  induction l as [|a [|b l] IH]; intros Hl Hd.
  - exact I.
  - destruct Hd as [Hd|Hd]; [discriminate|]. cbn in *. auto.
  - destruct Hl as [Hab Hl]. split; [exact Hab|].
    apply IH; [exact Hl|]. right. destruct Hd as [Hd|Hd]; [discriminate|].
    exact Hd.
Qed.

Lemma linked_nth {char : Type} (overlap : Z) (l : list (TextChunk char)) :
  linked overlap l ->
  forall i c d, nth_error l i = Some c -> nth_error l (S i) = Some d ->
                startIndex d = endIndex c - overlap.
Proof.
  induction l as [|a [|b l] IH]; intros Hl i c d Hc Hd.
  - destruct i; discriminate.
  - destruct i as [|[|i]]; discriminate.
  - destruct Hl as [Hab Hl]. destruct i as [|i].
    + cbn in Hc, Hd. injection Hc as <-. injection Hd as <-. exact Hab.
    + exact (IH Hl i c d Hc Hd).
Qed.

Lemma reassemble_snoc {char : Type} (overlap : Z) (l : list (TextChunk char))
    (d : TextChunk char) :
  l <> [] ->
  reassemble overlap (l ++ [d]) =
  reassemble overlap l ++ skipn (Z.to_nat overlap) (text d).
Proof.
  destruct l as [|c l]; [contradiction|]. intros _. cbn [app reassemble].
  rewrite flat_map_app. cbn [flat_map]. now rewrite app_nil_r, app_assoc.
Qed.

Lemma slice_range {A : Type} (s : list A) (a b : Z) :
  0 <= a <= b -> b <= Z.of_nat (length s) ->
  slice s a b = firstn (Z.to_nat (b - a)) (skipn (Z.to_nat a) s).
Proof.
  intros Hab Hb. unfold slice, relIndex.
  destruct (Z.ltb_spec a 0); [lia|]. destruct (Z.ltb_spec b 0); [lia|].
  now rewrite !Z.min_l by lia.
Qed.

Lemma firstn_plus {A : Type} (n m : nat) (l : list A) :
  firstn (n + m) l = firstn n l ++ firstn m (skipn n l).
Proof.
  revert l. induction n as [|n IH]; intros [|x l]; cbn; try reflexivity.
  - now rewrite firstn_nil.
  - now rewrite IH.
Qed.

(** Two adjacent slices make one. *)
Lemma slice_app {A : Type} (s : list A) (a b c : Z) :
  0 <= a <= b -> b <= c -> c <= Z.of_nat (length s) ->
  slice s a b ++ slice s b c = slice s a c.
Proof.
  intros Hab Hbc Hc. rewrite !slice_range by lia.
  replace (Z.to_nat (c - a)) with (Z.to_nat (b - a) + Z.to_nat (c - b))%nat by lia.
  rewrite firstn_plus. f_equal. rewrite skipn_skipn.
  f_equal. f_equal. lia.
Qed.

Lemma skipn_slice {A : Type} (s : list A) (a b k : Z) :
  0 <= k -> 0 <= a -> a + k <= b -> b <= Z.of_nat (length s) ->
  skipn (Z.to_nat k) (slice s a b) = slice s (a + k) b.
Proof.
  intros Hk Ha Hb Hlen. rewrite !slice_range by lia.
  rewrite skipn_firstn_comm, skipn_skipn. f_equal; [lia|]. f_equal. lia.
Qed.

Section Fit.
Context {char : Type}.
Variable (txt : list char) (chunkSize overlap : Z).
Hypothesis chunkSize_pos : 0 < chunkSize.
Hypothesis overlap_range : 0 <= overlap < chunkSize.

Local Abbreviation len := (textLength txt).

(** What the loop keeps, besides [Inv]. *)
Record Fits (st : LoopState char) : Prop := mkFits {
  fits_inv : Inv txt chunkSize st;
  fits_linked : linked overlap (st_chunks st);
  fits_first : forall c, hd_error (st_chunks st) = Some c -> startIndex c = 0;
  fits_empty : st_chunks st = [] -> st_startIndex st = 0;
  fits_next : forall d, last (map Some (st_chunks st)) None = Some d ->
              st_startIndex st = endIndex d - overlap \/
              (st_startIndex st = endIndex d /\ endIndex d - overlap <= startIndex d /\
               endIndex d = len);
  fits_text : reassemble overlap (st_chunks st) = slice txt 0 (lastEnd (st_chunks st));
  fits_count : Z.of_nat (length (st_chunks st)) +
               remaining txt chunkSize overlap (st_startIndex st) <=
               remaining txt chunkSize overlap 0
}.

Lemma last_Some_snoc {A : Type} (l : list A) (x : A) :
  last (map Some (l ++ [x])) None = Some x.
Proof. rewrite map_app. cbn [map]. apply last_last. Qed.

Lemma last_Some_lastEnd (l : list (TextChunk char)) (d : TextChunk char) :
  last (map Some l) None = Some d -> lastEnd l = endIndex d.
Proof.
  unfold lastEnd. induction l as [|a [|b l] IH]; intros H.
  - discriminate.
  - cbn in H. injection H as <-. reflexivity.
  - apply IH. exact H.
Qed.

Lemma last_Some_nonempty {A : Type} (l : list A) :
  l <> [] -> exists d, last (map Some l) None = Some d.
Proof.
  induction l as [|a [|b l] IH]; intros H; [contradiction| |].
  - exists a. reflexivity.
  - destruct IH as (d & Hd); [discriminate|]. exists d. exact Hd.
Qed.

Lemma Fits_init : Fits (@initState char).
Proof.
  constructor; cbn [initState st_chunks st_startIndex].
  - apply Inv_init.
  - exact I.
  - discriminate.
  - reflexivity.
  - discriminate.
  - unfold lastEnd. cbn [map last reassemble].
    now rewrite slice_prefix by lia.
  - cbn [length]. lia.
Qed.

Lemma Fits_step (st : LoopState char) :
  Fits st -> loopCond txt chunkSize overlap st = true ->
  Fits (loopBody txt chunkSize overlap st).
Proof.
  intros [HI Hl Hf He Hn Ht Hc] Hcond.
  pose proof (Inv_step txt chunkSize overlap chunkSize_pos overlap_range st HI Hcond)
    as HI'.
  unfold loopCond in Hcond. apply andb_true_iff in Hcond as [Hlt _].
  apply Z.ltb_lt in Hlt.
  pose proof (inv_start _ _ _ HI) as Hs.
  pose proof (inv_lastEnd _ _ _ HI) as Hle.
  pose proof (remaining_step txt chunkSize overlap chunkSize_pos overlap_range st
                (conj (proj1 Hs) Hlt)) as Hrem.
  revert HI' Hrem. rewrite (loopBody_pushes txt chunkSize overlap chunkSize_pos st)
    by lia. cbv zeta.
  set (s := st_startIndex st) in *.
  set (e := Z.min (s + chunkSize) len).
  set (d := mkTextChunk (slice txt s e) s e (st_chunkIndex st)).
  intros HI' Hrem. cbn [st_startIndex] in Hrem.
  assert (Hprev : st_chunks st = [] \/ s = lastEnd (st_chunks st) - overlap).
  { destruct (st_chunks st) as [|a l] eqn:El; [now left|right].
    destruct (last_Some_nonempty (a :: l)) as (x & Hx); [discriminate|].
    rewrite (last_Some_lastEnd _ _ Hx).
    destruct (Hn x Hx) as [H1|(H1 & _ & H3)]; [exact H1|]. lia. }
  constructor; cbn [st_chunks st_startIndex].
  - exact HI'.
  - apply linked_snoc; [exact Hl|].
    destruct Hprev as [H0|H1]; [now left|right]. cbn [startIndex d]. exact H1.
  - intros c Hc'. destruct (st_chunks st) as [|a l] eqn:El.
    + cbn in Hc'. injection Hc' as <-. cbn. fold s. now apply He.
    + apply Hf. exact Hc'.
  - intros Habs. now destruct (st_chunks st).
  - intros x Hx. rewrite last_Some_snoc in Hx. injection Hx as <-.
    cbn [endIndex startIndex d].
    destruct (Z.leb_spec (e - overlap) s); [right|left; reflexivity].
    split; [reflexivity|]. split; [assumption|]. unfold e in *. lia.
  - rewrite lastEnd_snoc. cbn [endIndex d].
    destruct Hprev as [H0|H1].
    + rewrite H0. cbn [app reassemble flat_map text d]. rewrite app_nil_r.
      now rewrite (He H0).
    + destruct (st_chunks st) as [|a l] eqn:El.
      * cbn [app reassemble flat_map text d]. rewrite app_nil_r.
        now rewrite (He eq_refl).
      * rewrite reassemble_snoc by discriminate. rewrite Ht. cbn [text d].
        rewrite skipn_slice by (unfold e, textLength in *; lia).
        replace (s + overlap) with (lastEnd (a :: l)) by lia.
        apply slice_app; unfold e, textLength in *; lia.
  - rewrite length_app. cbn [length]. lia.
Qed.

Lemma final_Fits : Fits (final txt chunkSize overlap).
Proof. unfold final. apply loop_invariant; [exact Fits_step|exact Fits_init]. Qed.

(** Every round of the loop pushes one chunk and counts one iteration. *)
Lemma afterRounds_counts (n : nat) :
  (forall k, (k < n)%nat ->
             loopCond txt chunkSize overlap (afterRounds txt chunkSize overlap k) = true) ->
  Inv txt chunkSize (afterRounds txt chunkSize overlap n) /\
  length (st_chunks (afterRounds txt chunkSize overlap n)) = n /\
  st_iterations (afterRounds txt chunkSize overlap n) = Z.of_nat n.
Proof.
  induction n as [|n IH]; intros Hbefore.
  - split; [apply Inv_init|split; reflexivity].
  - destruct IH as (HI & Hlen & Hit); [intros k Hk; apply Hbefore; lia|].
    assert (Hc : loopCond txt chunkSize overlap (afterRounds txt chunkSize overlap n) = true)
      by (apply Hbefore; lia).
    change (afterRounds txt chunkSize overlap (S n))
      with (loopBody txt chunkSize overlap (afterRounds txt chunkSize overlap n)).
    split; [now apply Inv_step|].
    pose proof (inv_start _ _ _ HI) as Hs.
    unfold loopCond in Hc. apply andb_true_iff in Hc as [Hlt _]. apply Z.ltb_lt in Hlt.
    rewrite loopBody_pushes by lia. cbv zeta. cbn [st_chunks st_iterations].
    rewrite length_app, Hlen, Hit. cbn [length]. split; lia.
Qed.

(** A round moves [startIndex] by at most [chunkSize]. *)
Lemma afterRounds_start (n : nat) :
  st_startIndex (afterRounds txt chunkSize overlap n) <= Z.of_nat n * chunkSize.
Proof.
  induction n as [|n IH]; [cbn; lia|].
  change (afterRounds txt chunkSize overlap (S n))
    with (loopBody txt chunkSize overlap (afterRounds txt chunkSize overlap n)).
  unfold loopBody. cbn [st_startIndex].
  destruct (_ <=? _); lia.
Qed.
End Fit.

Lemma linked_last_two {char : Type} (overlap : Z) (l : list (TextChunk char))
    (c d : TextChunk char) :
  linked overlap (l ++ [c; d]) -> startIndex d = endIndex c - overlap.
Proof.
  induction l as [|a [|b l] IH]; cbn [app linked].
  - tauto.
  - intros [_ H]. exact (proj1 H).
  - intros [_ H]. apply IH. exact H.
Qed.

Lemma remaining_zero_bound {char : Type} (txt : list char) (chunkSize overlap : Z) :
  0 < chunkSize -> 0 <= overlap < chunkSize ->
  remaining txt chunkSize overlap 0 <=
  ceilDiv (textLength txt) (chunkSize - overlap) + 1.
Proof.
  intros Hc Ho. unfold remaining.
  assert (H0 : 0 <= ceilDiv (textLength txt) (chunkSize - overlap)).
  { unfold ceilDiv. apply Z.div_pos; unfold textLength; lia. }
  destruct (Z.leb_spec (textLength txt) 0); [lia|].
  assert (H1 : 1 <= ceilDiv (textLength txt) (chunkSize - overlap))
    by (apply ceilDiv_pos; lia).
  destruct (Z.leb_spec (textLength txt - overlap) 0); [lia|].
  destruct (Z.leb_spec (textLength txt) (0 + chunkSize)); [lia|].
  assert (ceilDiv (textLength txt - chunkSize - 0) (chunkSize - overlap) <=
          ceilDiv (textLength txt - (chunkSize - overlap)) (chunkSize - overlap))
    by (apply ceilDiv_mono; lia).
  rewrite ceilDiv_step in *; lia.
Qed.

(** X1.  For valid parameters the chunks fit together: the first starts at
    0, and each later one starts exactly [overlap] characters before the
    end of the one before it. *)
Theorem chunkText_chunks_overlap_exactly {char : Type} (txt : list char)
    (chunkSize overlap : Z) :
  0 < chunkSize -> 0 <= overlap < chunkSize ->
  exists chunks,
    chunkText txt chunkSize overlap = Ok chunks /\
    (forall c, hd_error chunks = Some c -> startIndex c = 0) /\
    (forall i c d, nth_error chunks i = Some c -> nth_error chunks (S i) = Some d ->
                   startIndex d = endIndex c - overlap /\ endIndex c <= endIndex d).
Proof.
  intros Hc Ho. exists (st_chunks (final txt chunkSize overlap)).
  pose proof (final_Fits txt chunkSize overlap Hc Ho) as HF.
  split; [now apply chunkText_runs_loop|]. split; [exact (fits_first _ _ _ _ HF)|].
  intros i c d Hci Hdi.
  pose proof (linked_nth overlap _ (fits_linked _ _ _ _ HF) i c d Hci Hdi) as Hlink.
  split; [exact Hlink|].
  pose proof (inv_wf _ _ _ (fits_inv _ _ _ _ HF)) as Hwf.
  rewrite Forall_forall in Hwf.
  destruct (Hwf c (nth_error_In _ _ Hci)) as (_ & _ & Hec & _).
  destruct (Hwf d (nth_error_In _ _ Hdi)) as (_ & _ & Hed & _).
  lia.
Qed.

Lemma chunkText_chunks_overlap_exactly_witness :
  exists chunks,
    chunkText ["a"; "b"; "c"; "d"; "e"]%char 3 1 = Ok chunks /\
    (forall c, hd_error chunks = Some c -> startIndex c = 0) /\
    (forall i c d, nth_error chunks i = Some c -> nth_error chunks (S i) = Some d ->
                   startIndex d = endIndex c - 1 /\ endIndex c <= endIndex d).
Proof.
  apply (chunkText_chunks_overlap_exactly ["a"; "b"; "c"; "d"; "e"]%char 3 1); lia.
Defined.

(** X2.  With a positive [overlap] and a text longer than it, the last
    chunk is redundant: it holds exactly the last [overlap] characters of
    the text, and the chunk before it already runs to the end of the
    text. *)
Theorem chunkText_last_chunk_redundant {char : Type} (txt : list char)
    (chunkSize overlap : Z) :
  0 < overlap < chunkSize -> overlap < Z.of_nat (length txt) ->
  exists front c d,
    chunkText txt chunkSize overlap = Ok (front ++ [c; d]) /\
    startIndex c < startIndex d /\
    endIndex c = Z.of_nat (length txt) /\
    startIndex d = Z.of_nat (length txt) - overlap /\
    endIndex d = Z.of_nat (length txt) /\
    text d = skipn (length txt - Z.to_nat overlap) txt.
Proof.
  intros Ho Hlen.
  assert (Hc : 0 < chunkSize) by lia. assert (Ho' : 0 <= overlap < chunkSize) by lia.
  pose proof (final_Fits txt chunkSize overlap Hc Ho') as HF.
  pose proof (final_lastEnd txt chunkSize overlap Hc Ho') as Hlast.
  pose proof (final_reaches_end txt chunkSize overlap Hc Ho') as Hend.
  rewrite (chunkText_runs_loop txt chunkSize overlap Hc Ho').
  destruct HF as [HI Hl Hf _ Hn _ _].
  pose proof (inv_wf _ _ _ HI) as Hwf. rewrite Forall_forall in Hwf.
  pose proof (inv_sorted _ _ _ HI) as Hsorted.
  set (chunks := st_chunks (final txt chunkSize overlap)) in *.
  unfold textLength in *.
  destruct (exists_last (l := chunks)) as (rest & d & Hrest).
  { intros Habs. rewrite Habs in Hlast. cbn in Hlast. lia. }
  assert (Hd : last (map Some chunks) None = Some d)
    by (rewrite Hrest; apply last_Some_snoc).
  assert (Hed : endIndex d = Z.of_nat (length txt)).
  { rewrite <- (last_Some_lastEnd _ _ Hd). exact Hlast. }
  destruct (Hn d Hd) as [Hn1|(_ & Hn2 & _)]; [lia|].
  destruct (Hwf d) as (_ & _ & _ & Htext); [rewrite Hrest; apply in_elt|].
  destruct rest as [|r0 rest'].
  - exfalso. cbn in Hrest. assert (startIndex d = 0) by (apply Hf; now rewrite Hrest).
    lia.
  - destruct (exists_last (l := r0 :: rest')) as (front & c & Hfc); [discriminate|].
    rewrite Hfc in Hrest.
    rewrite <- app_assoc in Hrest. cbn [app] in Hrest.
    exists front, c, d. split; [now rewrite Hrest|].
    rewrite Hrest in Hl. pose proof (linked_last_two _ _ _ _ Hl) as Hlink.
    destruct (Hwf c) as (_ & _ & Hec & _).
    { rewrite Hrest. apply in_or_app. right. now left. }
    unfold textLength in Hec.
    assert (Hsd : startIndex d = Z.of_nat (length txt) - overlap) by lia.
    split; [|split; [lia|split; [exact Hsd|split; [exact Hed|]]]].
    + rewrite Hrest in Hsorted.
      apply (sorted_consecutive startIndex _ Hsorted (length front) c d).
      * rewrite nth_error_app2, Nat.sub_diag by lia. reflexivity.
      * rewrite nth_error_app2 by lia.
        replace (S (length front) - length front)%nat with 1%nat by lia. reflexivity.
    + rewrite Htext, Hsd, Hed. rewrite slice_range by lia.
      replace (Z.to_nat (Z.of_nat (length txt) - overlap))
        with (length txt - Z.to_nat overlap)%nat by lia.
      apply firstn_all2. rewrite length_skipn. lia.
Qed.

Lemma chunkText_last_chunk_redundant_witness :
  exists front c d,
    chunkText ["a"; "b"; "c"; "d"; "e"]%char 3 1 = Ok (front ++ [c; d]) /\
    startIndex c < startIndex d /\
    endIndex c = 5 /\ startIndex d = 4 /\ endIndex d = 5 /\
    text d = ["e"]%char.
Proof.
  apply (chunkText_last_chunk_redundant ["a"; "b"; "c"; "d"; "e"]%char 3 1);
    cbn; lia.
Defined.

(** X3.  Nothing is lost and nothing is added: the first chunk followed by
    every later chunk without its first [overlap] characters is the text. *)
Theorem chunkText_reassembles_text {char : Type} (txt : list char)
    (chunkSize overlap : Z) :
  0 < chunkSize -> 0 <= overlap < chunkSize ->
  exists chunks,
    chunkText txt chunkSize overlap = Ok chunks /\
    reassemble overlap chunks = txt.
Proof.
  intros Hc Ho. exists (st_chunks (final txt chunkSize overlap)).
  split; [now apply chunkText_runs_loop|].
  rewrite (fits_text _ _ _ _ (final_Fits txt chunkSize overlap Hc Ho)).
  rewrite (final_lastEnd txt chunkSize overlap Hc Ho). unfold textLength.
  rewrite slice_prefix by lia. rewrite Nat2Z.id. apply firstn_all.
Qed.

Lemma chunkText_reassembles_text_witness :
  exists chunks,
    chunkText ["a"; "b"; "c"; "d"; "e"]%char 3 1 = Ok chunks /\
    reassemble 1 chunks = ["a"; "b"; "c"; "d"; "e"]%char.
Proof.
  apply (chunkText_reassembles_text ["a"; "b"; "c"; "d"; "e"]%char 3 1); lia.
Defined.

(** X4.  For valid parameters the loop of [chunkText] leaves after [n]
    rounds because [startIndex] has reached the end of the text, with the
    iteration count still below the safety limit; every round has pushed
    one chunk, so [n] chunks are returned; and [n] lies between
    [ceil (text.length / chunkSize)] and
    [ceil (text.length / (chunkSize - overlap)) + 1]. *)
Theorem chunkText_count_bound {char : Type} (txt : list char)
    (chunkSize overlap : Z) :
  0 < chunkSize -> 0 <= overlap < chunkSize ->
  exists n chunks,
    exitsAfter txt chunkSize overlap n /\
    st_startIndex (afterRounds txt chunkSize overlap n) = Z.of_nat (length txt) /\
    st_iterations (afterRounds txt chunkSize overlap n) < maxChunks txt chunkSize overlap /\
    st_chunks (afterRounds txt chunkSize overlap n) = chunks /\
    chunkText txt chunkSize overlap = Ok chunks /\
    length chunks = n /\
    ceilDiv (Z.of_nat (length txt)) chunkSize <= Z.of_nat n <=
      ceilDiv (Z.of_nat (length txt)) (chunkSize - overlap) + 1.
Proof.
  intros Hc Ho.
  destruct (final_exitsAfter txt chunkSize overlap) as (n & Hexits & Hfinal).
  destruct (afterRounds_counts txt chunkSize overlap Hc Ho n (proj1 Hexits))
    as (_ & Hlen & Hit).
  assert (Hstart : st_startIndex (afterRounds txt chunkSize overlap n) <=
                   Z.of_nat n * chunkSize) by (apply afterRounds_start; assumption).
  pose proof (final_reaches_end txt chunkSize overlap Hc Ho) as Hend.
  pose proof (fits_count _ _ _ _ (final_Fits txt chunkSize overlap Hc Ho)) as Hn.
  pose proof (remaining_zero_bound txt chunkSize overlap Hc Ho) as Hb.
  rewrite Hend in Hn. unfold remaining at 1 in Hn. rewrite Z.leb_refl in Hn.
  rewrite <- Hfinal in Hend, Hn. rewrite Hlen in Hn.
  assert (Hlow : ceilDiv (Z.of_nat (length txt)) chunkSize <= Z.of_nat n).
  { unfold ceilDiv. apply Z.lt_succ_r. apply Z.div_lt_upper_bound; [lia|].
    rewrite Hend in Hstart. unfold textLength in Hstart. lia. }
  exists n, (st_chunks (afterRounds txt chunkSize overlap n)).
  split; [exact Hexits|]. split; [exact Hend|].
  split; [rewrite Hit; unfold maxChunks, textLength in *; lia|].
  split; [reflexivity|].
  split; [rewrite Hfinal; now apply chunkText_runs_loop|].
  split; [exact Hlen|]. unfold textLength in *. lia.
Qed.

Lemma chunkText_count_bound_witness :
  exists n chunks,
    exitsAfter ChunkingFacts.text2500 1000 200 n /\
    st_startIndex (afterRounds ChunkingFacts.text2500 1000 200 n) = 2500 /\
    st_iterations (afterRounds ChunkingFacts.text2500 1000 200 n) <
      maxChunks ChunkingFacts.text2500 1000 200 /\
    st_chunks (afterRounds ChunkingFacts.text2500 1000 200 n) = chunks /\
    chunkText ChunkingFacts.text2500 1000 200 = Ok chunks /\
    length chunks = n /\
    ceilDiv 2500 1000 <= Z.of_nat n <= ceilDiv 2500 800 + 1.
Proof.
  apply (chunkText_count_bound ChunkingFacts.text2500 1000 200); lia.
Defined.
End ChunkingMore.

Module VectorDbMore.
Import VectorDb VectorDbFacts.

(** *** Sorting with a comparator that is a strict order *)

Section Ordered.
Context {A : Type}.
Variable after : A -> A -> bool.
Hypothesis after_asym : forall a b, after a b = true -> after b a = false.
Hypothesis after_trans :
  forall a b c, after a b = false -> after b c = false -> after a c = false.

Definition notAfter (a b : A) : Prop := after a b = false.

Lemma insertSorted_ordered (x : A) (l : list A) :
  StronglySorted notAfter l -> StronglySorted notAfter (insertSorted after x l).
Proof.
  induction 1 as [|y l Hs IH Hy]; cbn [insertSorted].
  - repeat constructor.
  - destruct (after x y) eqn:Hxy.
    + constructor; [exact IH|].
      apply (Permutation_Forall (Permutation_sym (insertSorted_perm after x l))).
      constructor; [now apply after_asym|exact Hy].
    + constructor; [now constructor|]. constructor; [exact Hxy|].
      revert Hy. apply Forall_impl. intros z Hz. exact (after_trans _ _ _ Hxy Hz).
Qed.

Lemma stableSort_ordered (l : list A) : StronglySorted notAfter (stableSort after l).
Proof.
  induction l as [|x l IH]; [constructor|].
  change (stableSort after (x :: l)) with (insertSorted after x (stableSort after l)).
  now apply insertSorted_ordered.
Qed.
End Ordered.

(** A list that is in order already is left as it is. *)
Lemma stableSort_sorted_id {A : Type} (after : A -> A -> bool) (l : list A) :
  StronglySorted (fun a b => after a b = false) l -> stableSort after l = l.
Proof.
  induction 1 as [|x l Hs IH Hx]; [reflexivity|].
  change (stableSort after (x :: l)) with (insertSorted after x (stableSort after l)).
  rewrite IH. destruct l as [|y l]; [reflexivity|].
  cbn [insertSorted]. inversion Hx as [|? ? Hxy _]; subst. now rewrite Hxy.
Qed.

(** *** The order of strings *)

Lemma ascii_compare_trans (c : comparison) (x y z : ascii) :
  Ascii.compare x y = c -> Ascii.compare y z = c -> Ascii.compare x z = c.
Proof.
  unfold Ascii.compare. destruct c; intros H1 H2.
  - apply N.compare_eq in H1, H2. rewrite H1, H2. apply N.compare_refl.
  - exact (N.lt_trans _ _ _ H1 H2).
  - apply N.compare_gt_iff in H1, H2. apply N.compare_gt_iff.
    exact (N.lt_trans _ _ _ H2 H1).
Qed.

Lemma string_compare_refl (s : string) : String.compare s s = Eq.
Proof.
  induction s as [|c s IH]; [reflexivity|]. cbn.
  unfold Ascii.compare. now rewrite N.compare_refl.
Qed.

Lemma string_compare_lt_trans (s t u : string) :
  String.compare s t = Lt -> String.compare t u = Lt -> String.compare s u = Lt.
Proof.
  revert t u. induction s as [|a s IH]; intros [|b t] [|c u]; cbn; try discriminate;
    try reflexivity.
  destruct (Ascii.compare a b) eqn:Hab; try discriminate;
    destruct (Ascii.compare b c) eqn:Hbc; try discriminate; intros H1 H2.
  - rewrite (ascii_compare_trans Eq a b c Hab Hbc). exact (IH _ _ H1 H2).
  - apply Ascii.compare_eq_iff in Hab. subst b. now rewrite Hbc.
  - apply Ascii.compare_eq_iff in Hbc. subst c. now rewrite Hab.
  - now rewrite (ascii_compare_trans Lt a b c Hab Hbc).
Qed.

(** *** [ORDER BY document_id, chunk_index] *)

Definition rowLe (a b : Row) : Prop :=
  String.compare (document_id a) (document_id b) = Lt \/
  (document_id a = document_id b /\ chunk_index a <= chunk_index b).

Lemma rowAfter_false (a b : Row) : rowAfter a b = false <-> rowLe a b.
Proof.
  unfold rowAfter, rowLe.
  destruct (String.compare (document_id a) (document_id b)) eqn:Hc; split; auto.
  - intros H. right. split; [now apply String.compare_eq_iff|]. apply Z.ltb_ge. exact H.
  - intros [H|[_ H]]; [discriminate|]. apply Z.ltb_ge. exact H.
  - discriminate.
  - intros [H|[H _]]; [discriminate|]. rewrite H, string_compare_refl in Hc.
    discriminate.
Qed.

Lemma rowAfter_asym (a b : Row) : rowAfter a b = true -> rowAfter b a = false.
Proof.
  unfold rowAfter. rewrite (String.compare_antisym (document_id b) (document_id a)).
  destruct (String.compare (document_id a) (document_id b)); cbn [CompOpp];
    try discriminate; auto.
  intros H. apply Z.ltb_lt in H. apply Z.ltb_ge. lia.
Qed.

Lemma rowLe_trans (a b c : Row) : rowLe a b -> rowLe b c -> rowLe a c.
Proof.
  unfold rowLe. intros [H1|[E1 H1]] [H2|[E2 H2]].
  - left. exact (string_compare_lt_trans _ _ _ H1 H2).
  - left. now rewrite <- E2.
  - left. now rewrite E1.
  - right. split; [congruence|lia].
Qed.

Lemma rowAfter_trans (a b c : Row) :
  rowAfter a b = false -> rowAfter b c = false -> rowAfter a c = false.
Proof. rewrite !rowAfter_false. apply rowLe_trans. Qed.

Lemma inIds_In (ids : list string) (r : Row) :
  inIds ids r = true <-> In (document_id r) ids.
Proof.
  unfold inIds. rewrite existsb_exists. split.
  - intros (x & Hx & Heq). apply String.eqb_eq in Heq. now rewrite Heq.
  - intros H. exists (document_id r). split; [exact H|apply String.eqb_refl].
Qed.

(** The rows [getAllDocumentChunks] returns from a table it has read. *)
Lemma getAllDocumentChunks_rows (db : Database) (ids : list string) :
  exists rows,
    getAllDocumentChunks db ids = Ok (map toChunk rows) /\
    Permutation rows (filter (inIds ids) db) /\
    (forall r, In r rows <-> In r db /\ In (document_id r) ids) /\
    StronglySorted rowLe rows.
Proof.
  unfold getAllDocumentChunks. destruct ids as [|i ids].
  - exists []. cbn [length Nat.eqb]. split; [reflexivity|].
    split; [|split; [|constructor]].
    + induction db; cbn; auto.
    + intros r. split; [intros []|intros [_ []]].
  - cbn [length Nat.eqb]. set (ids' := i :: ids).
    exists (stableSort rowAfter (filter (inIds ids') db)).
    assert (Hperm := stableSort_perm rowAfter (filter (inIds ids') db)).
    split; [reflexivity|]. split; [exact Hperm|]. split.
    + intros r. rewrite <- inIds_In, <- filter_In. split.
      * apply Permutation_in. exact Hperm.
      * apply Permutation_in. now apply Permutation_sym.
    + eapply StronglySorted_weaken with (ok := fun _ => True);
        [| |apply (stableSort_ordered rowAfter rowAfter_asym rowAfter_trans)].
      * intros a b _ _ H. now apply rowAfter_false.
      * apply Forall_forall. auto.
Qed.

(** X5.  [getAllDocumentChunks] throws what [getDatabase()] throws, also
    for an empty [documentIds]; for an empty list it otherwise returns
    nothing without running a statement; it throws what the statement
    throws; and when the statement runs it returns the rows of the listed
    documents, all of them and no other, ordered by document id and then by
    chunk index. *)
Theorem getAllDocumentChunks_listed_and_ordered (engine : Engine) (ids : list string) :
  match engine with
  | CannotOpen msg => getAllDocumentChunksOn engine ids = Throw msg
  | Refuses msg =>
      getAllDocumentChunksOn engine ids =
      match ids with [] => Ok [] | _ :: _ => Throw msg end
  | Runs db =>
      exists rows,
        getAllDocumentChunksOn engine ids = Ok (map toChunk rows) /\
        Permutation rows (filter (inIds ids) db) /\
        (forall r, In r rows <-> In r db /\ In (document_id r) ids) /\
        StronglySorted rowLe rows
  end.
Proof.
  destruct engine as [msg|msg|db]; cbn [getAllDocumentChunksOn].
  - reflexivity.
  - destruct ids; reflexivity.
  - apply getAllDocumentChunks_rows.
Qed.

(** *** Writing, then reading *)

(** What a stored chunk shows of itself, and the same for a chunk of the
    text indexed as document [d] under [name]. *)
Definition shown (c : DocumentChunk)
  : string * string * string * Z * Z * Z * list float :=
  (id c, documentId c, documentName c, chunkIndex c, startIndex c, endIndex c,
   vector c).

(** The embedding of a chunk as the BLOB holds it. *)
Definition storedVector (e : Embedder) (c : Chunking.TextChunk ascii) : list float :=
  match e (Z.to_nat (Chunking.chunkIndex c)) (Chunking.text c) with
  | Ok embedding => map fround embedding
  | Throw _ => []
  end.

Definition expected (e : Embedder) (d name : string) (c : Chunking.TextChunk ascii)
  : string * string * string * Z * Z * Z * list float :=
  (chunkId d (Chunking.chunkIndex c), d, name, Chunking.chunkIndex c,
   Chunking.startIndex c, Chunking.endIndex c, storedVector e c).

Definition embedded (e : Embedder) (c : Chunking.TextChunk ascii) : bool :=
  isOk (e (Z.to_nat (Chunking.chunkIndex c)) (Chunking.text c)).

Lemma storedRows_shown (e : Embedder) (d name : string)
    (chunks : list (Chunking.TextChunk ascii)) :
  map shown (map toChunk (storedRows e d name chunks)) =
  map (expected e d name) (filter (embedded e) chunks).
Proof.
  unfold storedRows. induction chunks as [|c cs IH]; [reflexivity|].
  cbn [map filter]. unfold embedded at 1, batchDatum at 1.
  destruct (e (Z.to_nat (Chunking.chunkIndex c)) (Chunking.text c)) eqn:He;
    cbn [isOk somes map]; [|exact IH].
  f_equal; [|exact IH]. unfold expected, storedVector. now rewrite He.
Qed.

Lemma storedRows_indices (e : Embedder) (d name : string)
    (chunks : list (Chunking.TextChunk ascii)) :
  StronglySorted Z.lt (map Chunking.chunkIndex chunks) ->
  StronglySorted Z.lt (map chunk_index (storedRows e d name chunks)).
Proof.
  unfold storedRows. induction chunks as [|c cs IH]; cbn [map somes]; intros Hs;
    [constructor|].
  inversion Hs as [|? ? Hs' Hc]; subst. unfold batchDatum at 1.
  destruct (e (Z.to_nat (Chunking.chunkIndex c)) (Chunking.text c));
    cbn [somes map]; [|now apply IH].
  constructor; [now apply IH|]. cbn [chunk_index].
  apply Forall_forall. intros i Hi. apply in_map_iff in Hi as (r & <- & Hr).
  destruct (storedRows_shape d name e cs r Hr) as (_ & _ & Hin).
  rewrite Forall_forall in Hc. now apply Hc.
Qed.

Lemma seq_sorted (n start : nat) : StronglySorted Z.lt (map Z.of_nat (seq start n)).
Proof.
  revert start. induction n as [|n IH]; intros start; cbn [seq map]; constructor.
  - apply IH.
  - apply Forall_forall. intros i Hi. apply in_map_iff in Hi as (j & <- & Hj).
    apply in_seq in Hj. lia.
Qed.

Lemma storedRows_ordered (e : Embedder) (d name : string)
    (chunks : list (Chunking.TextChunk ascii)) :
  map Chunking.chunkIndex chunks = map Z.of_nat (seq 0 (length chunks)) ->
  StronglySorted (fun a b => rowAfter a b = false) (storedRows e d name chunks).
Proof.
  intros Hidx.
  assert (Hs : StronglySorted Z.lt (map chunk_index (storedRows e d name chunks))).
  { apply storedRows_indices. rewrite Hidx. apply seq_sorted. }
  assert (Hd : Forall (fun r => document_id r = d) (storedRows e d name chunks)).
  { apply Forall_forall. intros r Hr. now destruct (storedRows_shape d name e chunks r Hr). }
  induction (storedRows e d name chunks) as [|r rows IH]; [constructor|].
  cbn [map] in Hs. inversion Hs as [|? ? Hs' Hr]; subst.
  inversion Hd as [|? ? Hdr Hd']; subst.
  constructor; [now apply IH|].
  rewrite Forall_forall in *. intros r' Hr'. apply rowAfter_false. right.
  split; [now rewrite (Hd' r' Hr')|].
  assert (chunk_index r < chunk_index r') by (apply Hr; now apply in_map). lia.
Qed.

Lemma filter_inIds_single (d : string) (db : Database) :
  filter (inIds [d]) db = rowsOf d db.
Proof.
  unfold rowsOf. apply filter_ext. intros r. unfold inIds. cbn [existsb].
  apply orb_false_r.
Qed.

(** X6.  Indexing a text and reading the document back, the database
    running, gives one chunk for each chunk of the text whose embedding
    succeeded, in the order of the text, each with its id [d_i], the
    document's id and name, its index and span, and as vector the embedding
    of the chunk rounded to binary32.  The text read back is no part of the
    statement: the column holds it as UTF-8, which the 8-bit characters of
    the rows do not show. *)
Theorem indexDocument_then_getAllDocumentChunks (e : Embedder) (db : Database)
    (d name : string) (txt : list ascii) :
  wellKeyed db ->
  exists chunks stored,
    Chunking.chunkText txt 1000 200 = Ok chunks /\
    getAllDocumentChunksOn (Runs (db_after (indexDocument e db d name txt))) [d] =
      Ok stored /\
    map shown stored = map (expected e d name) (filter (embedded e) chunks).
Proof.
  intros Hkeys.
  destruct (ChunkingFacts.chunkText_indices txt 1000 200) as (chunks & Hrun & Hidx);
    [lia|lia|].
  destruct (indexDocument_result d name e db txt Hkeys) as (chunks' & Hrun' & Hres).
  rewrite Hrun in Hrun'. injection Hrun' as <-.
  exists chunks, (map toChunk (storedRows e d name chunks)).
  split; [exact Hrun|]. split; [|apply storedRows_shown].
  rewrite Hres. cbn [db_after getAllDocumentChunksOn]. unfold getAllDocumentChunks.
  cbn [length Nat.eqb].
  rewrite filter_inIds_single, rowsOf_app, rowsOf_otherRows.
  destruct (rowsOf_storedRows d name e chunks) as [-> _]. cbn [app].
  now rewrite (stableSort_sorted_id rowAfter _ (storedRows_ordered e d name chunks Hidx)).
Qed.

Lemma indexDocument_then_getAllDocumentChunks_witness :
  exists chunks stored,
    Chunking.chunkText ChunkingFacts.text2500 1000 200 = Ok chunks /\
    getAllDocumentChunksOn
      (Runs (db_after (indexDocument secondChunkFails [] "d" "report.txt"
                                     ChunkingFacts.text2500))) ["d"%string] = Ok stored /\
    map shown stored =
    map (expected secondChunkFails "d" "report.txt")
        (filter (embedded secondChunkFails) chunks).
Proof.
  apply (indexDocument_then_getAllDocumentChunks secondChunkFails [] "d" "report.txt"
           ChunkingFacts.text2500).
  constructor.
Defined.

(** *** Deleting *)

Lemma slice_In {A : Type} (l : list A) (from to : Z) (x : A) :
  In x (slice l from to) -> In x l.
Proof.
  unfold slice. intros H.
  assert (F : forall n (k : list A), In x (firstn n k) -> In x k).
  { induction n as [|n IH]; intros [|y k] Hk; simpl in *; try contradiction.
    destruct Hk as [Hk|Hk]; [now left | right; now apply IH]. }
  assert (S : forall n (k : list A), In x (skipn n k) -> In x k).
  { induction n as [|n IH]; intros [|y k] Hk; simpl in *; try contradiction;
      try exact Hk. right. now apply IH. }
  apply F in H. now apply S in H.
Qed.

Lemma scoreRows_chunks (q : list float) (rows : list Row) (scored : list Scored) :
  scoreRows q rows = Ok scored -> map chunk scored = map toChunk rows.
Proof.
  revert scored. induction rows as [|r rows IH]; cbn [scoreRows]; intros scored H.
  - injection H as <-. reflexivity.
  - destruct (cosineSimilarity q (embedding r)); [|discriminate].
    destruct (scoreRows q rows) as [scored'|]; [|discriminate].
    injection H as <-. cbn [map chunk]. now rewrite (IH scored' eq_refl).
Qed.

(** Whatever a search returns is the chunk of a row the [SELECT] loaded. *)
Lemma searchSimilarChunks_loaded (e : Embedder) (rowOrder : RowOrder) (db : Database)
    (query : list ascii) (k : Z) (ids : option (list string))
    (chunks : list DocumentChunk) (c : DocumentChunk) :
  searchSimilarChunks e rowOrder db query k ids = Ok chunks -> In c chunks ->
  exists r, In r (loadRows rowOrder db ids) /\ c = toChunk r.
Proof.
  unfold searchSimilarChunks. destruct (e 0%nat query) as [q|]; [|discriminate].
  destruct (length (loadRows rowOrder db ids) =? 0)%nat.
  { intros H. injection H as <-. intros []. }
  destruct (scoreRows q (loadRows rowOrder db ids)) as [scored|] eqn:Hs; [|discriminate].
  intros H Hc. injection H as <-.
  apply in_map_iff in Hc as (s & <- & Hin). apply slice_In in Hin.
  apply (Permutation_in _ (stableSort_perm _ scored)) in Hin.
  apply (in_map chunk) in Hin. rewrite (scoreRows_chunks _ _ _ Hs) in Hin.
  apply in_map_iff in Hin as (r & Hr & Hin). exists r. split; [exact Hin|now symmetry].
Qed.

Lemma loadRows_In (rowOrder : RowOrder) (db : Database) (ids : option (list string))
    (r : Row) :
  (forall rows, Permutation (rowOrder rows) rows) ->
  In r (loadRows rowOrder db ids) -> In r db.
Proof.
  intros Hperm Hr. unfold loadRows in Hr. apply (Permutation_in _ (Hperm _)) in Hr.
  destruct ids as [ids|]; [|exact Hr].
  destruct (0 <? length ids)%nat; [|exact Hr]. now apply filter_In in Hr.
Qed.

(** X7.  [deleteDocumentChunks] removes the rows of the document and only
    them; the other documents read back as before; deleting again changes
    nothing; and no later read or search returns a chunk of the document. *)
Theorem deleteDocumentChunks_removes_document (db : Database) (d : string) :
  (forall r, In r (deleteDocumentChunks db d) <-> In r db /\ document_id r <> d) /\
  (forall ids, ~ In d ids ->
     getAllDocumentChunks (deleteDocumentChunks db d) ids = getAllDocumentChunks db ids) /\
  deleteDocumentChunks (deleteDocumentChunks db d) d = deleteDocumentChunks db d /\
  (forall ids chunks c,
     getAllDocumentChunks (deleteDocumentChunks db d) ids = Ok chunks ->
     In c chunks -> documentId c <> d) /\
  (forall e rowOrder query k ids chunks c,
     (forall rows, Permutation (rowOrder rows) rows) ->
     searchSimilarChunks e rowOrder (deleteDocumentChunks db d) query k ids = Ok chunks ->
     In c chunks -> documentId c <> d).
Proof.
  unfold deleteDocumentChunks, deleteWhere. cbn [fst]. fold (otherRows d db).
  assert (Hin : forall r, In r (otherRows d db) <-> In r db /\ document_id r <> d).
  { intros r. unfold otherRows. rewrite filter_In.
    destruct (String.eqb_spec (document_id r) d); cbn; split; intros [H1 H2]; auto;
      try discriminate; try contradiction. }
  split; [exact Hin|]. split; [|split; [|split]].
  - intros ids Hd. unfold getAllDocumentChunks.
    destruct (length ids =? 0)%nat; [reflexivity|].
    replace (filter (inIds ids) (otherRows d db)) with (filter (inIds ids) db);
      [reflexivity|].
    clear Hin. unfold otherRows. induction db as [|r db IH]; [reflexivity|].
    cbn [filter].
    destruct (String.eqb_spec (document_id r) d) as [Heq|Hne]; cbn [negb].
    + rewrite <- IH. destruct (inIds ids r) eqn:Hr; [|reflexivity].
      apply inIds_In in Hr. rewrite Heq in Hr. contradiction.
    + cbn [filter]. now rewrite IH.
  - apply otherRows_idempotent.
  - intros ids chunks c Hget Hc.
    destruct (getAllDocumentChunks_rows (otherRows d db) ids)
      as (rows & Hrows & _ & Hmem & _).
    rewrite Hrows in Hget. injection Hget as <-.
    apply in_map_iff in Hc as (r & <- & Hr). apply Hmem in Hr as [Hr _].
    apply Hin in Hr. exact (proj2 Hr).
  - intros e rowOrder query k ids chunks c Hperm Hsearch Hc.
    destruct (searchSimilarChunks_loaded _ _ _ _ _ _ _ _ Hsearch Hc) as (r & Hr & ->).
    apply (loadRows_In _ _ _ _ Hperm) in Hr. apply Hin in Hr. exact (proj2 Hr).
Qed.

(** *** Histories of the table *)

(** The two operations of the module that write the table. *)
Inductive Op : Type :=
| Index (e : Embedder) (documentId documentName : string) (txt : list ascii)
| Delete (documentId : string).

Definition perform (db : Database) (op : Op) : Database :=
  match op with
  | Index e d name txt => db_after (indexDocument e db d name txt)
  | Delete d => deleteDocumentChunks db d
  end.

(** The table after the operations [ops], run one after the other on the
    table [CREATE TABLE IF NOT EXISTS] made. *)
Definition history (ops : list Op) : Database := fold_left perform ops [].

Definition oneName (db : Database) : Prop :=
  forall r r', In r db -> In r' db -> document_id r = document_id r' ->
               document_name r = document_name r'.

Definition positioned (db : Database) : Prop :=
  forall r r', In r db -> In r' db -> document_id r = document_id r' ->
               chunk_index r = chunk_index r' -> r = r'.

Definition coherent (db : Database) : Prop :=
  wellKeyed db /\ NoDup (map row_id db) /\ oneName db.

Lemma filter_keeps_ids_distinct (keep : Row -> bool) (db : Database) :
  NoDup (map row_id db) -> NoDup (map row_id (filter keep db)).
Proof.
  induction db as [|r db IH]; cbn [map filter]; intros Hnd; [constructor|].
  inversion Hnd as [|? ? Hnotin Hnd']; subst.
  destruct (keep r); [|now apply IH]. cbn [map]. constructor; [|now apply IH].
  intros Hin. apply Hnotin. apply in_map_iff in Hin as (r' & Hid & Hin).
  apply filter_In in Hin as [Hin _]. apply in_map_iff. now exists r'.
Qed.

Lemma storedRows_name (e : Embedder) (d name : string)
    (chunks : list (Chunking.TextChunk ascii)) (r : Row) :
  In r (storedRows e d name chunks) -> document_name r = name.
Proof.
  unfold storedRows. induction chunks as [|c cs IH]; cbn [map somes]; [intros []|].
  unfold batchDatum at 1.
  destruct (e (Z.to_nat (Chunking.chunkIndex c)) (Chunking.text c)); [|exact IH].
  intros [<-|Hin]; [reflexivity|now apply IH].
Qed.

Lemma coherent_delete (db : Database) (d : string) :
  coherent db -> coherent (otherRows d db).
Proof.
  intros (Hk & Hnd & Hone). split; [|split].
  - unfold wellKeyed, otherRows in *. rewrite Forall_forall in *. intros r Hr.
    apply filter_In in Hr as [Hr _]. auto.
  - now apply filter_keeps_ids_distinct.
  - intros r r' Hr Hr'. apply filter_In in Hr as [Hr _].
    apply filter_In in Hr' as [Hr' _]. now apply Hone.
Qed.

Lemma coherent_index (e : Embedder) (db : Database) (d name : string)
    (chunks : list (Chunking.TextChunk ascii)) :
  NoDup (map Chunking.chunkIndex chunks) ->
  coherent db -> coherent (otherRows d db ++ storedRows e d name chunks).
Proof.
  intros Hidx Hco. pose proof (coherent_delete db d Hco) as (Hk' & Hnd' & Hone').
  destruct Hco as (Hk & Hnd & Hone).
  destruct (storedRows_fresh d name e db chunks Hk Hidx) as [Hnew Hfresh].
  split; [|split].
  - now apply wellKeyed_after.
  - rewrite map_app. apply NoDup_app; [exact Hnd'|exact Hnew|].
    intros i Hi Hi'. apply in_map_iff in Hi as (r' & <- & Hr').
    apply in_map_iff in Hi' as (r & Heq & Hr). exact (Hfresh r r' Hr Hr' (eq_sym Heq)).
  - assert (Hother : forall r, In r (otherRows d db) -> document_id r <> d).
    { intros r Hr. apply filter_In in Hr as [_ Hr].
      destruct (String.eqb_spec (document_id r) d); [discriminate|assumption]. }
    intros r r' Hr Hr' Heq. apply in_app_or in Hr. apply in_app_or in Hr'.
    destruct Hr as [Hr|Hr], Hr' as [Hr'|Hr'].
    + now apply Hone'.
    + destruct (storedRows_shape d name e chunks r' Hr') as (Hd & _).
      exfalso. apply (Hother r Hr). congruence.
    + destruct (storedRows_shape d name e chunks r Hr) as (Hd & _).
      exfalso. apply (Hother r' Hr'). congruence.
    + rewrite (storedRows_name _ _ _ _ _ Hr), (storedRows_name _ _ _ _ _ Hr').
      reflexivity.
Qed.

Lemma coherent_perform (db : Database) (op : Op) :
  coherent db -> coherent (perform db op).
Proof.
  intros Hco. destruct op as [e d name txt|d]; cbn [perform].
  - destruct (indexDocument_result d name e db txt (proj1 Hco)) as (chunks & Hrun & ->).
    cbn [db_after]. apply coherent_index; [|exact Hco].
    destruct (ChunkingFacts.chunkText_indices txt 1000 200) as (chunks' & Hrun' & Hidx);
      [lia|lia|].
    rewrite Hrun in Hrun'. injection Hrun' as <-. now apply indices_distinct.
  - unfold deleteDocumentChunks, deleteWhere. cbn [fst]. now apply coherent_delete.
Qed.

Lemma history_coherent (ops : list Op) : coherent (history ops).
Proof.
  unfold history.
  assert (G : forall db, coherent db -> coherent (fold_left perform ops db)).
  { induction ops as [|op ops IH]; intros db Hdb; [exact Hdb|].
    cbn [fold_left]. apply IH. now apply coherent_perform. }
  apply G. split; [constructor|split; [constructor|intros r r' []]].
Qed.

Lemma coherent_positioned (db : Database) : coherent db -> positioned db.
Proof.
  intros (Hk & Hnd & _) r r' Hr Hr' Hd Hi.
  unfold wellKeyed in Hk. rewrite Forall_forall in Hk.
  assert (Hid : row_id r = row_id r') by (rewrite (Hk r Hr), (Hk r' Hr'); congruence).
  clear Hk Hd Hi. induction db as [|a db IH]; [destruct Hr|].
  cbn [map] in Hnd. inversion Hnd as [|? ? Hnotin Hnd']; subst.
  destruct Hr as [->|Hr], Hr' as [->|Hr'].
  - reflexivity.
  - exfalso. apply Hnotin. rewrite Hid. now apply in_map.
  - exfalso. apply Hnotin. rewrite <- Hid. now apply in_map.
  - now apply IH.
Qed.

(** X8.  Whatever documents are indexed and deleted, one operation after the
    other, starting from the empty table and whatever the embedding provider
    answers: the primary key [id] stays unique and is the
    [documentId_chunkIndex] of its row, a document has one row per chunk
    index and one name, and the next [indexDocument] returns without
    throwing. *)
Theorem history_keeps_primary_key (ops : list Op) :
  let db := history ops in
  NoDup (map row_id db) /\
  (forall r, In r db -> row_id r = chunkId (document_id r) (chunk_index r)) /\
  positioned db /\
  oneName db /\
  (forall e d name txt, outcome (indexDocument e db d name txt) = Ok tt).
Proof.
  cbv zeta. pose proof (history_coherent ops) as Hco.
  pose proof (coherent_positioned _ Hco) as Hpos.
  destruct Hco as (Hk & Hnd & Hone).
  split; [exact Hnd|]. split; [|split; [exact Hpos|split; [exact Hone|]]].
  - unfold wellKeyed in Hk. now rewrite Forall_forall in Hk.
  - intros e d name txt.
    destruct (indexDocument_result d name e _ txt Hk) as (chunks & _ & ->).
    reflexivity.
Qed.


(** *** [getDocumentStats] *)

Definition groupKey (g : StatRow) : string * string :=
  (sr_document_id g, sr_document_name g).

Definition rowKey (r : Row) : string * string := (document_id r, document_name r).

(** The rows of the table a group stands for. *)
Definition groupOf (id name : string) (db : Database) : list Row :=
  filter (fun r => String.eqb (document_id r) id && String.eqb (document_name r) name) db.

Definition sumCounts (groups : list StatRow) : Z :=
  fold_left (fun sum row => sum + sr_chunk_count row) groups 0.

Lemma inGroup_key (g : StatRow) (r : Row) : inGroup g r = true <-> groupKey g = rowKey r.
Proof.
  unfold inGroup, groupKey, rowKey. rewrite andb_true_iff, !String.eqb_eq.
  split; [intros [-> ->]; reflexivity|intros H; injection H; auto].
Qed.

Lemma sumCounts_shift (groups : list StatRow) (z : Z) :
  fold_left (fun sum row => sum + sr_chunk_count row) groups z = z + sumCounts groups.
Proof.
  unfold sumCounts. revert z. induction groups as [|g gs IH]; intros z; cbn [fold_left].
  - lia.
  - rewrite IH, (IH (0 + _)). lia.
Qed.

Lemma sumCounts_cons (g : StatRow) (groups : list StatRow) :
  sumCounts (g :: groups) = sr_chunk_count g + sumCounts groups.
Proof. unfold sumCounts at 1. cbn [fold_left]. now rewrite sumCounts_shift. Qed.

Lemma sumCounts_perm (l l' : list StatRow) :
  Permutation l l' -> sumCounts l = sumCounts l'.
Proof.
  induction 1; rewrite ?sumCounts_cons in *; lia.
Qed.

(** What the aggregate holds after the rows [seen]. *)
Record Grouped (seen : list Row) (groups : list StatRow) : Prop := mkGrouped {
  grouped_distinct : NoDup (map groupKey groups);
  grouped_count : forall g, In g groups ->
      sr_chunk_count g =
      Z.of_nat (length (groupOf (sr_document_id g) (sr_document_name g) seen));
  grouped_inhabited : forall g, In g groups -> 1 <= sr_chunk_count g;
  grouped_all : forall r, In r seen -> In (rowKey r) (map groupKey groups);
  grouped_sum : sumCounts groups = Z.of_nat (length seen)
}.

Lemma groupOf_snoc (id name : string) (seen : list Row) (r : Row) :
  length (groupOf id name (seen ++ [r])) =
  (length (groupOf id name seen) +
   (if String.eqb (document_id r) id && String.eqb (document_name r) name then 1 else 0))%nat.
Proof.
  unfold groupOf. rewrite filter_app, length_app. cbn [filter].
  now destruct (_ && _).
Qed.

Lemma key_test (g : StatRow) (r : Row) :
  (String.eqb (document_id r) (sr_document_id g) &&
   String.eqb (document_name r) (sr_document_name g)) = inGroup g r.
Proof. unfold inGroup. now rewrite (String.eqb_sym (document_id r)), (String.eqb_sym (document_name r)). Qed.

Lemma addToGroup_keys (r : Row) (groups : list StatRow) :
  map groupKey (addToGroup r groups) =
  if existsb (fun g => inGroup g r) groups then map groupKey groups
  else map groupKey groups ++ [rowKey r].
Proof.
  induction groups as [|g gs IH]; cbn [addToGroup existsb map app]; [reflexivity|].
  destruct (inGroup g r) eqn:Hg; cbn [orb map]; [reflexivity|].
  rewrite IH. now destruct (existsb _ gs).
Qed.

Lemma addToGroup_sum (r : Row) (groups : list StatRow) :
  sumCounts (addToGroup r groups) = sumCounts groups + 1.
Proof.
  induction groups as [|g gs IH]; cbn [addToGroup]; [reflexivity|].
  destruct (inGroup g r); rewrite !sumCounts_cons; cbn [sr_chunk_count]; lia.
Qed.

Lemma existsb_inGroup (r : Row) (groups : list StatRow) :
  existsb (fun g => inGroup g r) groups = true <-> In (rowKey r) (map groupKey groups).
Proof.
  rewrite existsb_exists, in_map_iff. split; intros (g & H1 & H2); exists g.
  - now apply inGroup_key in H2.
  - split; [exact H2|now apply inGroup_key].
Qed.

(** A group of the new aggregate is an old one the row does not belong to,
    or the one of the row: one larger than before, or 1 when it is new. *)
Lemma addToGroup_In (r : Row) (groups : list StatRow) (g' : StatRow) :
  NoDup (map groupKey groups) ->
  In g' (addToGroup r groups) ->
  (In g' groups /\ inGroup g' r = false) \/
  (inGroup g' r = true /\
   ((exists g, In g groups /\ groupKey g = groupKey g' /\
               sr_chunk_count g' = sr_chunk_count g + 1) \/
    (existsb (fun g => inGroup g r) groups = false /\ sr_chunk_count g' = 1))).
Proof.
  induction groups as [|g gs IH]; cbn [addToGroup existsb map]; intros Hnd.
  - intros [<-|[]]. right. split.
    + unfold inGroup. cbn. now rewrite !String.eqb_refl.
    + right. auto.
  - inversion Hnd as [|? ? Hnotin Hnd']; subst.
    destruct (inGroup g r) eqn:Hg; cbn [orb].
    + intros [<-|Hin].
      * right. split; [exact Hg|]. left. exists g. cbn. auto.
      * left. split; [now right|].
        destruct (inGroup g' r) eqn:Hg'; [|reflexivity].
        exfalso. apply Hnotin. apply inGroup_key in Hg, Hg'. rewrite Hg, <- Hg'.
        now apply in_map.
    + intros [<-|Hin]; [left; split; [now left|exact Hg]|].
      destruct (IH Hnd' Hin) as [[H1 H2]|[H1 [(g0 & H2 & H3 & H4)|[H2 H3]]]].
      * left. split; [now right|exact H2].
      * right. split; [exact H1|]. left. exists g0. split; [now right|auto].
      * right. split; [exact H1|]. right. auto.
Qed.

Lemma groupOf_none (id name : string) (seen : list Row) :
  (forall r, In r seen -> rowKey r <> (id, name)) -> groupOf id name seen = [].
Proof.
  intros H. unfold groupOf. induction seen as [|r seen IH]; [reflexivity|].
  cbn [filter].
  destruct (String.eqb_spec (document_id r) id) as [H1|H1];
    destruct (String.eqb_spec (document_name r) name) as [H2|H2]; cbn [andb];
    try (apply IH; intros r' Hr'; apply H; now right).
  exfalso. apply (H r); [now left|]. unfold rowKey. now rewrite H1, H2.
Qed.

Lemma Grouped_step (seen : list Row) (groups : list StatRow) (r : Row) :
  Grouped seen groups -> Grouped (seen ++ [r]) (addToGroup r groups).
Proof.
  intros [Hnd Hcount Hpos Hall Hsum].
  assert (Hg : forall g', In g' (addToGroup r groups) ->
            sr_chunk_count g' =
            Z.of_nat (length (groupOf (sr_document_id g') (sr_document_name g')
                                      (seen ++ [r]))) /\
            1 <= sr_chunk_count g').
  { intros g' Hin. rewrite groupOf_snoc, key_test.
    destruct (addToGroup_In r groups g' Hnd Hin)
      as [[H1 H2]|[H1 [(g & H2 & H3 & H4)|[H2 H3]]]].
    - rewrite H2, Nat.add_0_r. auto.
    - rewrite H1. pose proof (Hcount g H2) as Hc. pose proof (Hpos g H2).
      injection H3 as Hid Hname. rewrite Hid, Hname in Hc. lia.
    - rewrite H1, H3. rewrite groupOf_none; [cbn; lia|].
      intros r0 Hr0 Hkey. apply Hall in Hr0.
      apply inGroup_key in H1. unfold groupKey in H1. rewrite <- Hkey, H1 in *.
      apply existsb_inGroup in Hr0. congruence. }
  constructor.
  - rewrite addToGroup_keys. destruct (existsb _ groups) eqn:He; [exact Hnd|].
    apply NoDup_app; [exact Hnd|repeat constructor; intros []|].
    intros k Hk [<-|[]]. apply existsb_inGroup in Hk. congruence.
  - intros g' Hin. exact (proj1 (Hg g' Hin)).
  - intros g' Hin. exact (proj2 (Hg g' Hin)).
  - intros r0 Hr0. rewrite addToGroup_keys. apply in_app_or in Hr0.
    destruct (existsb _ groups) eqn:He.
    + destruct Hr0 as [Hr0|[<-|[]]]; [now apply Hall|now apply existsb_inGroup].
    + apply in_or_app. destruct Hr0 as [Hr0|[<-|[]]]; [left; now apply Hall|].
      right. now left.
  - rewrite addToGroup_sum, Hsum, length_app. cbn [length]. lia.
Qed.

Lemma groupRows_Grouped (db : Database) : Grouped db (groupRows db).
Proof.
  unfold groupRows.
  assert (G : forall l seen groups, Grouped seen groups ->
            Grouped (seen ++ l) (fold_left (fun groups r => addToGroup r groups) l groups)).
  { induction l as [|r l IH]; intros seen groups H; cbn [fold_left].
    - now rewrite app_nil_r.
    - replace (seen ++ r :: l) with ((seen ++ [r]) ++ l) by now rewrite <- app_assoc.
      apply IH. now apply Grouped_step. }
  apply (G db [] []). constructor; try (intros ? []); [constructor|reflexivity].
Qed.

Definition statKey (s : DocumentStat) : string * string :=
  (ds_documentId s, ds_documentName s).

(** X9.  [getDocumentStats] counts every row once: [totalChunks] is the
    number of rows of the table, there is one entry per pair of a document id
    and a name that occurs in it, and the [chunkCount] of an entry is the
    number of rows with that id and name, never 0. *)
Theorem getDocumentStats_counts_rows
    (orderByName : list StatRow -> list StatRow) (db : Database) :
  (forall rows, Permutation (orderByName rows) rows) ->
  let stats := getDocumentStats orderByName db in
  totalChunks stats = Z.of_nat (length db) /\
  totalDocuments stats = Z.of_nat (length (documents stats)) /\
  NoDup (map statKey (documents stats)) /\
  (forall s, In s (documents stats) ->
     ds_chunkCount s =
     Z.of_nat (length (groupOf (ds_documentId s) (ds_documentName s) db)) /\
     1 <= ds_chunkCount s) /\
  (forall r, In r db -> In (rowKey r) (map statKey (documents stats))).
Proof.
  intros Hperm. cbv zeta. unfold getDocumentStats.
  cbn [totalChunks totalDocuments documents].
  destruct (groupRows_Grouped db) as [Hnd Hcount Hpos Hall Hsum].
  pose proof (Hperm (groupRows db)) as Hp.
  assert (Hkeys : map statKey
                    (map (fun row => mkDocumentStat (sr_document_id row)
                                       (sr_document_name row) (sr_chunk_count row))
                         (orderByName (groupRows db))) =
                  map groupKey (orderByName (groupRows db))).
  { rewrite map_map. reflexivity. }
  split; [|split; [|split; [|split]]].
  - fold (sumCounts (orderByName (groupRows db))).
    now rewrite (sumCounts_perm _ _ Hp).
  - now rewrite length_map.
  - rewrite Hkeys. eapply Permutation_NoDup; [|exact Hnd].
    apply Permutation_map. now apply Permutation_sym.
  - intros s Hs. apply in_map_iff in Hs as (g & <- & Hg).
    apply (Permutation_in _ Hp) in Hg. cbn. auto.
  - intros r Hr. rewrite Hkeys. apply Hall in Hr.
    eapply Permutation_in; [|exact Hr]. apply Permutation_map. now apply Permutation_sym.
Qed.


Lemma getDocumentStats_counts_rows_witness :
  let stats := getDocumentStats sortByName sampleDb in
  totalChunks stats = 4 /\ totalDocuments stats = 2.
Proof.
  destruct (getDocumentStats_counts_rows sortByName sampleDb) as (H1 & H2 & _).
  - intros rows. apply stableSort_perm.
  - cbv zeta. split; [exact H1|]. rewrite H2. reflexivity.
Defined.

Lemma groupOf_In (id name : string) (db : Database) (r : Row) :
  In r (groupOf id name db) <-> In r db /\ rowKey r = (id, name).
Proof.
  unfold groupOf, rowKey. rewrite filter_In, andb_true_iff, !String.eqb_eq.
  split; intros [H1 H2]; (split; [exact H1|]).
  - now destruct H2 as [-> ->].
  - injection H2; auto.
Qed.

Lemma nonempty_In {A : Type} (l : list A) : (1 <= length l)%nat -> exists a, In a l.
Proof. destruct l as [|a l]; cbn; [lia|]. exists a. now left. Qed.

Lemma NoDup_map_coarser {A B C : Type} (f : A -> B) (g : A -> C) (l : list A) :
  (forall x y, In x l -> In y l -> g x = g y -> f x = f y) ->
  NoDup (map f l) -> NoDup (map g l).
Proof.
  induction l as [|a l IH]; cbn [map]; intros Hfg Hnd; [constructor|].
  inversion Hnd as [|? ? Hnotin Hnd']; subst. constructor.
  - intros Hin. apply in_map_iff in Hin as (b & Hb & Hin). apply Hnotin.
    rewrite <- (Hfg b a); [now apply in_map|now right|now left|exact Hb].
  - apply IH; [|exact Hnd']. intros x y Hx Hy. apply Hfg; now right.
Qed.

Lemma oneName_groupOf (db : Database) (r : Row) :
  oneName db -> In r db ->
  groupOf (document_id r) (document_name r) db = rowsOf (document_id r) db.
Proof.
  intros Hone Hr. unfold groupOf, rowsOf. apply filter_ext_in. intros r' Hr'.
  destruct (String.eqb_spec (document_id r') (document_id r)) as [Hd|Hd]; [|reflexivity].
  cbn. apply String.eqb_eq. now apply Hone.
Qed.

(** X10.  On a table made by indexing and deleting documents,
    [getDocumentStats] lists a document exactly when the table holds a chunk
    of it, lists it once, and with the number of its rows: a document whose
    text gave no chunk, or whose embeddings all failed, is not listed. *)
Theorem getDocumentStats_one_entry_per_document
    (orderByName : list StatRow -> list StatRow) (ops : list Op) :
  (forall rows, Permutation (orderByName rows) rows) ->
  let db := history ops in
  let stats := getDocumentStats orderByName db in
  NoDup (map ds_documentId (documents stats)) /\
  (forall s, In s (documents stats) ->
     ds_chunkCount s = Z.of_nat (length (rowsOf (ds_documentId s) db))) /\
  (forall d, In d (map ds_documentId (documents stats)) <-> rowsOf d db <> []).
Proof.
  intros Hperm. cbv zeta. set (db := history ops).
  destruct (history_coherent ops) as (_ & _ & Hone). fold db in Hone.
  unfold getDocumentStats. cbn [documents].
  destruct (groupRows_Grouped db) as [Hnd Hcount Hpos Hall Hsum].
  pose proof (Hperm (groupRows db)) as Hp.
  set (toStat := fun row => mkDocumentStat (sr_document_id row) (sr_document_name row)
                                           (sr_chunk_count row)).
  assert (Hrow : forall g, In g (groupRows db) ->
            exists r, In r db /\ rowKey r = groupKey g).
  { intros g Hg. pose proof (Hcount g Hg) as Hc. pose proof (Hpos g Hg) as H1.
    destruct (nonempty_In (groupOf (sr_document_id g) (sr_document_name g) db))
      as (r & Hr); [lia|].
    apply groupOf_In in Hr. exists r. exact Hr. }
  split; [|split].
  - rewrite map_map. cbn [toStat ds_documentId].
    apply (Permutation_NoDup (l := map sr_document_id (groupRows db)));
      [apply Permutation_map; now apply Permutation_sym|].
    apply (NoDup_map_coarser groupKey); [|exact Hnd].
    intros g g' Hg Hg' Hid.
    destruct (Hrow g Hg) as (r & Hr & Hk), (Hrow g' Hg') as (r' & Hr' & Hk').
    unfold rowKey, groupKey in *. injection Hk as Hk1 Hk2. injection Hk' as Hk1' Hk2'.
    rewrite <- Hk1, <- Hk2, <- Hk1', <- Hk2'. f_equal.
    + congruence.
    + apply Hone; congruence.
  - intros s Hs. apply in_map_iff in Hs as (g & <- & Hg).
    apply (Permutation_in _ Hp) in Hg. cbn [toStat ds_chunkCount ds_documentId].
    rewrite (Hcount g Hg). destruct (Hrow g Hg) as (r & Hr & Hk).
    injection Hk as Hk1 Hk2. rewrite <- Hk1, <- Hk2.
    now rewrite oneName_groupOf.
  - intros d. rewrite map_map. cbn [toStat ds_documentId]. split.
    + intros Hin. apply in_map_iff in Hin as (g & <- & Hg).
      apply (Permutation_in _ Hp) in Hg. destruct (Hrow g Hg) as (r & Hr & Hk).
      injection Hk as Hk1 _. intros Hnone.
      assert (Hin : In r (rowsOf (sr_document_id g) db)).
      { apply filter_In. split; [exact Hr|]. now apply String.eqb_eq. }
      now rewrite Hnone in Hin.
    + intros Hne. destruct (rowsOf d db) as [|r rest] eqn:Hrows; [contradiction|].
      assert (Hr : In r (rowsOf d db)) by (rewrite Hrows; now left).
      apply filter_In in Hr as [Hr Hd]. apply String.eqb_eq in Hd.
      apply Hall in Hr. apply in_map_iff in Hr as (g & Hk & Hg).
      apply in_map_iff. exists g. split.
      * unfold groupKey, rowKey in Hk. injection Hk as Hk1 _. congruence.
      * eapply Permutation_in; [|exact Hg]. now apply Permutation_sym.
Qed.

(** A document of five characters, one whose only embedding fails, and a
    deletion. *)
Definition sampleOps : list Op :=
  [ Index neverFails "a" "a.txt" ["h"; "e"; "l"; "l"; "o"]%char;
    Index (fun _ _ => Throw "rate limit") "b" "b.txt" ["h"; "i"]%char;
    Index neverFails "c" "c.txt" ["x"]%char;
    Delete "c" ].

Lemma getDocumentStats_one_entry_per_document_witness :
  map ds_documentId (documents (getDocumentStats sortByName (history sampleOps))) = ["a"]%string /\
  forall d, In d (map ds_documentId (documents (getDocumentStats sortByName (history sampleOps))))
            <-> rowsOf d (history sampleOps) <> [].
Proof.
  split; [vm_compute; reflexivity|].
  refine (proj2 (proj2 (getDocumentStats_one_entry_per_document sortByName sampleOps _))).
  intros rows. apply stableSort_perm.
Defined.


(** *** When a search fails *)

Lemma scoreRows_fails (q : list float) (rows : list Row) :
  Exists (fun r => length (embedding r) <> length q) rows ->
  scoreRows q rows = Throw "Vectors must have the same length".
Proof.
  induction rows as [|r rows IH]; intros H; [inversion H|]. cbn [scoreRows].
  unfold cosineSimilarity at 1.
  destruct (Nat.eqb_spec (length q) (length (embedding r))) as [Heq|Hne];
    cbn [negb]; [|reflexivity].
  inversion H as [? ? Hr|? ? Hrows]; subst; [now symmetry in Heq|].
  rewrite (IH Hrows). now destruct (_ =? 0)%float.
Qed.

Lemma scoreRows_returns (q : list float) (rows : list Row) :
  Forall (fun r => length (embedding r) = length q) rows ->
  exists scored, scoreRows q rows = Ok scored /\ length scored = length rows.
Proof.
  induction 1 as [|r rows Hr _ (scored & IH & Hlen)]; cbn [scoreRows].
  - now exists [].
  - unfold cosineSimilarity at 1. rewrite Hr, Nat.eqb_refl. cbn [negb]. rewrite IH.
    destruct (_ =? 0)%float; eexists; (split; [reflexivity|]); cbn [length];
      now rewrite Hlen.
Qed.

(** X11.  A search throws exactly when the embedding of the query fails (with
    the provider's error) or when one of the rows the [SELECT] loads has an
    embedding of another length than the query's (with [Vectors must have
    the same length]), however small the limit and wherever that row would
    rank; otherwise it returns. *)
Theorem searchSimilarChunks_throws_on_any_mismatch
    (e : Embedder) (rowOrder : RowOrder) (db : Database) (query : list ascii)
    (k : Z) (ids : option (list string)) :
  let rows := loadRows rowOrder db ids in
  (forall msg, e 0%nat query = Throw msg ->
     searchSimilarChunks e rowOrder db query k ids = Throw msg) /\
  (forall q, e 0%nat query = Ok q ->
     (Exists (fun r => length (embedding r) <> length q) rows ->
      searchSimilarChunks e rowOrder db query k ids =
        Throw "Vectors must have the same length") /\
     (Forall (fun r => length (embedding r) = length q) rows ->
      exists chunks, searchSimilarChunks e rowOrder db query k ids = Ok chunks /\
                     (Z.of_nat (length rows) <= k -> length chunks = length rows))).
Proof.
  cbv zeta. unfold searchSimilarChunks. split.
  - intros msg ->. reflexivity.
  - intros q ->. split.
    + intros Hex. destruct (Nat.eqb_spec (length (loadRows rowOrder db ids)) 0) as [H0|_].
      * apply length_zero_iff_nil in H0. rewrite H0 in Hex. inversion Hex.
      * now rewrite scoreRows_fails.
    + intros Hall. destruct (Nat.eqb_spec (length (loadRows rowOrder db ids)) 0) as [H0|_].
      * exists []. split; [reflexivity|]. now rewrite H0.
      * destruct (scoreRows_returns q _ Hall) as (scored & -> & Hlen).
        eexists. split; [reflexivity|]. intros Hk. rewrite length_map.
        rewrite slice_prefix by lia. unfold sort. rewrite length_firstn.
        rewrite (Permutation_length (stableSort_perm _ scored)), Hlen. lia.
Qed.

End VectorDbMore.

(** ** The chunker of the server routes *)

Module ServerChunkingFacts.
Import Chunking ServerChunking ChunkingMore.

Section Rounds.
Context {char : Type}.
Variable (txt : list char) (chunkSize overlap : Z).

(** The state after [n] rounds of the loop. *)
Definition rounds (n : nat) : LoopState char :=
  Nat.iter n (loopBody txt chunkSize overlap) initState.

Lemma rounds_S (n : nat) :
  rounds (S n) = loopBody txt chunkSize overlap (rounds n).
Proof. reflexivity. Qed.

Lemma loop_rounds (fuel n : nat) :
  (forall k, (k <= n + fuel)%nat -> loopCond txt (rounds k) = true) ->
  loop txt chunkSize overlap fuel (rounds n) = None.
Proof.
  revert n. induction fuel as [|fuel IH]; intros n H; cbn [loop].
  - rewrite (H n) by lia. reflexivity.
  - rewrite (H n) by lia. rewrite <- rounds_S. apply IH.
    intros k Hk. apply H. lia.
Qed.

Lemma rounds_count (n : nat) : length (st_chunks (rounds n)) = n.
Proof.
  induction n as [|n IH]; [reflexivity|].
  rewrite rounds_S. cbn [loopBody st_chunks]. rewrite length_app, IH. cbn. lia.
Qed.

Lemma rounds_below (n : nat) :
  0 < textLength txt -> 0 < overlap -> st_startIndex (rounds n) < textLength txt.
Proof.
  intros Hlen Hov. induction n as [|n IH]; [exact Hlen|].
  rewrite rounds_S. cbn [loopBody st_startIndex]. lia.
Qed.

End Rounds.

(** X12.  On a text that is not empty and with an overlap above 0 (200 by
    default), this [chunkText] never returns: after every number of rounds
    the loop condition [startIndex < text.length] still holds and one more
    chunk has been pushed, because [endIndex - overlap] stays below the
    length of the text. *)
Theorem chunkText_unguarded_never_returns {char : Type} (txt : list char)
    (chunkSize overlap : Z) :
  (0 < length txt)%nat -> 0 < overlap ->
  (forall fuel, chunkText txt chunkSize overlap fuel = None) /\
  (forall n, loopCond txt (rounds txt chunkSize overlap n) = true /\
             length (st_chunks (rounds txt chunkSize overlap n)) = n).
Proof.
  intros Hlen Hov.
  assert (Hcond : forall n, loopCond txt (rounds txt chunkSize overlap n) = true).
  { intros n. unfold loopCond. apply Z.ltb_lt. apply rounds_below; [|exact Hov].
    unfold textLength. lia. }
  split.
  - intros fuel. unfold chunkText.
    change initState with (rounds txt chunkSize overlap 0).
    rewrite loop_rounds; [reflexivity|]. intros k _. apply Hcond.
  - intros n. split; [apply Hcond|apply rounds_count].
Qed.

Lemma chunkText_unguarded_never_returns_witness :
  chunkText ["a"; "b"; "c"]%char 1000 200 1000 = None.
Proof.
  apply (chunkText_unguarded_never_returns ["a"; "b"; "c"]%char 1000 200); cbn; lia.
Defined.


Section NoOverlap.
Context {char : Type}.
Variable (txt : list char) (chunkSize : Z).
Hypothesis chunkSize_pos : 0 < chunkSize.

(** With no overlap the chunks pushed so far are the text up to
    [startIndex], cut every [chunkSize] characters. *)
Record Cut (st : LoopState char) : Prop := mkCut {
  cut_range : 0 <= st_startIndex st <= textLength txt;
  cut_text : flat_map text (st_chunks st) = slice txt 0 (st_startIndex st);
  cut_count : st_chunkIndex st = ceilDiv (st_startIndex st) chunkSize;
  cut_number : Z.of_nat (length (st_chunks st)) = st_chunkIndex st;
  cut_sizes : forall c, In c (st_chunks st) ->
      0 < Z.of_nat (length (text c)) <= chunkSize /\
      Z.of_nat (length (text c)) = endIndex c - startIndex c;
  cut_full : st_startIndex st < textLength txt ->
      st_startIndex st = st_chunkIndex st * chunkSize
}.

Lemma Cut_init : Cut initState.
Proof.
  constructor; cbn [initState st_startIndex st_chunks st_chunkIndex flat_map length];
    unfold textLength.
  - lia.
  - now rewrite slice_prefix by lia.
  - unfold ceilDiv. rewrite Z.div_small; lia.
  - reflexivity.
  - intros c [].
  - lia.
Qed.

Lemma ceilDiv_next (k : Z) : 0 <= k -> ceilDiv (k * chunkSize + chunkSize) chunkSize = k + 1.
Proof.
  intros Hk. unfold ceilDiv.
  replace (k * chunkSize + chunkSize + chunkSize - 1)
    with ((chunkSize - 1) + (k + 1) * chunkSize) by lia.
  rewrite Z.div_add by lia. rewrite Z.div_small; lia.
Qed.

Lemma ceilDiv_mult (k : Z) : 0 <= k -> ceilDiv (k * chunkSize) chunkSize = k.
Proof.
  intros Hk. unfold ceilDiv.
  replace (k * chunkSize + chunkSize - 1) with ((chunkSize - 1) + k * chunkSize) by lia.
  rewrite Z.div_add by lia. rewrite Z.div_small; lia.
Qed.

Lemma ceilDiv_last (k n : Z) :
  0 <= k -> k * chunkSize < n <= k * chunkSize + chunkSize -> ceilDiv n chunkSize = k + 1.
Proof.
  intros Hk Hn. unfold ceilDiv.
  replace (n + chunkSize - 1) with ((n - k * chunkSize - 1) + (k + 1) * chunkSize) by lia.
  rewrite Z.div_add by lia. rewrite Z.div_small; lia.
Qed.

Lemma Cut_step (st : LoopState char) :
  Cut st -> loopCond txt st = true -> Cut (loopBody txt chunkSize 0 st).
Proof.
  intros [Hr Ht Hc Hn Hs Hf] Hcond. unfold loopCond in Hcond.
  apply Z.ltb_lt in Hcond. specialize (Hf Hcond).
  assert (Hk : 0 <= st_chunkIndex st) by lia.
  set (e := Z.min (st_startIndex st + chunkSize) (textLength txt)).
  assert (He : st_startIndex st < e <= textLength txt) by (unfold e; lia).
  assert (Hlen : Z.of_nat (length (slice txt (st_startIndex st) e)) = e - st_startIndex st).
  { apply slice_length; unfold textLength in *; lia. }
  constructor; cbn [loopBody st_startIndex st_chunks st_chunkIndex]; fold e;
    rewrite ?Z.sub_0_r.
  - lia.
  - rewrite flat_map_app, Ht. cbn [flat_map text]. rewrite app_nil_r.
    apply slice_app; unfold textLength in *; lia.
  - symmetry. apply ceilDiv_last; [exact Hk|]. unfold e. lia.
  - rewrite length_app. cbn [length]. lia.
  - intros c Hin. apply in_app_or in Hin as [Hin|[<-|[]]]; [now apply Hs|].
    cbn [text startIndex endIndex]. unfold e in *. lia.
  - intros Hlt. unfold e in *. lia.
Qed.

Lemma loop_exits_without_overlap (fuel : nat) (st : LoopState char) :
  Cut st -> textLength txt - st_startIndex st <= Z.of_nat fuel ->
  exists st', loop txt chunkSize 0 fuel st = Some st' /\ Cut st' /\
              st_startIndex st' = textLength txt.
Proof.
  revert st. induction fuel as [|fuel IH]; intros st Hcut Hfuel; cbn [loop].
  - destruct (loopCond txt st) eqn:Hcond.
    + unfold loopCond in Hcond. apply Z.ltb_lt in Hcond. lia.
    + exists st. unfold loopCond in Hcond. apply Z.ltb_ge in Hcond.
      pose proof (cut_range _ Hcut). split; [reflexivity|split; [exact Hcut|lia]].
  - destruct (loopCond txt st) eqn:Hcond.
    + apply IH; [now apply Cut_step|].
      unfold loopCond in Hcond. apply Z.ltb_lt in Hcond.
      cbn [loopBody st_startIndex]. destruct Hcut as [Hr]. lia.
    + exists st. unfold loopCond in Hcond. apply Z.ltb_ge in Hcond.
      pose proof (cut_range _ Hcut). split; [reflexivity|split; [exact Hcut|lia]].
Qed.
End NoOverlap.

(** X13.  With [overlap = 0] the same [chunkText] returns, after at most
    [text.length] rounds: the chunks are the text cut every [chunkSize]
    characters, none of them empty, [ceil(text.length / chunkSize)] in
    number, and their texts put end to end are the text. *)
Theorem chunkText_unguarded_without_overlap {char : Type} (txt : list char)
    (chunkSize : Z) :
  0 < chunkSize ->
  exists chunks,
    chunkText txt chunkSize 0 (length txt) = Some chunks /\
    flat_map text chunks = txt /\
    Z.of_nat (length chunks) = ceilDiv (Z.of_nat (length txt)) chunkSize /\
    forall c, In c chunks ->
      0 < Z.of_nat (length (text c)) <= chunkSize /\
      Z.of_nat (length (text c)) = endIndex c - startIndex c.
Proof.
  intros Hcs.
  destruct (loop_exits_without_overlap txt chunkSize Hcs (length txt) initState (Cut_init txt chunkSize Hcs))
    as (st & Hloop & [Hr Ht Hc Hn Hs Hf] & Hend).
  { cbn. unfold textLength. lia. }
  exists (st_chunks st). unfold chunkText. rewrite Hloop. cbn [option_map].
  split; [reflexivity|]. split; [|split].
  - rewrite Ht, Hend. unfold textLength. rewrite slice_prefix by lia.
    rewrite Nat2Z.id. apply firstn_all.
  - rewrite Hn, Hc, Hend. reflexivity.
  - exact Hs.
Qed.

Lemma chunkText_unguarded_without_overlap_witness :
  exists chunks,
    chunkText ["a"; "b"; "c"; "d"; "e"]%char 2 0 5 = Some chunks /\
    flat_map text chunks = ["a"; "b"; "c"; "d"; "e"]%char /\
    Z.of_nat (length chunks) = 3.
Proof.
  destruct (chunkText_unguarded_without_overlap ["a"; "b"; "c"; "d"; "e"]%char 2)
    as (chunks & H1 & H2 & H3 & _); [lia|].
  exists chunks. split; [exact H1|]. split; [exact H2|]. rewrite H3. reflexivity.
Defined.


(** X14.  The [indexDocument] of the server routes never stores a chunk: on
    an empty text it returns after deleting the rows of the document, and on
    any other text it does not return, because its [chunkText] (called with
    an overlap of 200) does not. *)
Theorem server_indexDocument_stores_nothing (e : VectorDb.Embedder)
    (db : VectorDb.Database) (d name : string) (txt : list ascii) :
  (txt = [] ->
   forall fuel, ServerVectorDb.indexDocument fuel e db d name txt =
     Some (VectorDb.mkIndexed (VectorDb.deleteDocumentChunks db d)
                              (snd (VectorDb.deleteWhere db d)) (Ok tt))) /\
  (txt <> [] ->
   forall fuel, ServerVectorDb.indexDocument fuel e db d name txt = None).
Proof.
  split.
  - intros -> fuel. unfold ServerVectorDb.indexDocument, VectorDb.deleteDocumentChunks.
    destruct (VectorDb.deleteWhere db d) as [db1 changes].
    destruct fuel; reflexivity.
  - intros Hne fuel. unfold ServerVectorDb.indexDocument.
    destruct (VectorDb.deleteWhere db d) as [db1 changes].
    assert (Hnone : chunkText txt 1000 200 fuel = None).
    { unfold chunkText.
      change initState with (rounds txt 1000 200 0).
      rewrite loop_rounds; [reflexivity|]. intros k _. unfold loopCond.
      apply Z.ltb_lt. apply rounds_below; [|lia].
      unfold textLength. destruct txt; [contradiction|cbn [length]; lia]. }
    now rewrite Hnone.
Qed.

End ServerChunkingFacts.

(** ** More on the chat route *)

Module ChatMore.
Import VectorDb Chat ChatFacts.
Local Open Scope string_scope.

(** *** Grouping the chunks by document *)

(** [chunk.documentName || 'Unknown'] *)
Definition docName (c : DocumentChunk) : string := orElse (documentName c) "Unknown".

(** The texts of the chunks of one document, in the order of the chunks. *)
Definition textsOf (name : string) (cs : list DocumentChunk) : list string :=
  map (fun c => string_of_list_ascii (text c))
      (filter (fun c => String.eqb (docName c) name) cs).

Definition inherited (c : DocumentChunk) : bool := hasName (docName c) inheritedNames.

(** What the accumulator of the [reduce] holds after the chunks [seen]. *)
Record Gathered (seen : list DocumentChunk) (acc : list (string * list string))
  : Prop := mkGathered {
  gathered_distinct : NoDup (map fst acc);
  gathered_texts : forall e, In e acc -> snd e = textsOf (fst e) seen /\ snd e <> [];
  gathered_all : forall c, In c seen -> In (docName c) (map fst acc);
  gathered_named : forall e, In e acc -> exists c, In c seen /\ docName c = fst e
}.

Lemma hasName_In (name : string) (names : list string) :
  hasName name names = true <-> In name names.
Proof.
  unfold hasName. rewrite existsb_exists. split.
  - intros (n & Hn & Heq). apply String.eqb_eq in Heq. now subst.
  - intros H. exists name. split; [exact H|apply String.eqb_refl].
Qed.

Lemma pushTo_keys (name txt : string) (acc : list (string * list string)) :
  map fst (pushTo name txt acc) =
  if hasName name (map fst acc) then map fst acc else (map fst acc ++ [name])%list.
Proof.
  induction acc as [|[n texts] acc IH]; cbn [pushTo map fst hasName existsb app];
    [reflexivity|].
  rewrite (String.eqb_sym name n). destruct (String.eqb n name) eqn:Hn; cbn [orb map fst].
  - reflexivity.
  - rewrite IH. unfold hasName. now destruct (existsb _ (map fst acc)).
Qed.

(** An entry after [pushTo]: an entry of before under another name, or the
    entry of [name] with [txt] added at its end. *)
Lemma pushTo_In (name txt : string) (acc : list (string * list string))
    (e : string * list string) :
  NoDup (map fst acc) ->
  In e (pushTo name txt acc) ->
  (In e acc /\ fst e <> name) \/
  (fst e = name /\
   ((exists texts, In (name, texts) acc /\ snd e = (texts ++ [txt])%list) \/
    (~ In name (map fst acc) /\ snd e = [txt]))).
Proof.
  induction acc as [|[n texts] acc IH]; cbn [pushTo map fst]; intros Hnd.
  - intros [<-|[]]. right. split; [reflexivity|]. right. split; [intros []|reflexivity].
  - inversion Hnd as [|? ? Hnotin Hnd']; subst.
    destruct (String.eqb_spec n name) as [->|Hne].
    + intros [<-|Hin].
      * right. split; [reflexivity|]. left. exists texts. split; [now left|reflexivity].
      * left. split; [now right|]. intros Heq. apply Hnotin. rewrite <- Heq.
        now apply in_map.
    + intros [<-|Hin]; [left; split; [now left|exact Hne]|].
      destruct (IH Hnd' Hin) as [[H1 H2]|[H1 [(t & H2 & H3)|[H2 H3]]]].
      * left. split; [now right|exact H2].
      * right. split; [exact H1|]. left. exists t. split; [now right|exact H3].
      * right. split; [exact H1|]. right. split; [|exact H3].
        cbn [In]. intros [Heq|Hin']; [now apply Hne|now apply H2].
Qed.

Lemma textsOf_snoc (name : string) (seen : list DocumentChunk) (c : DocumentChunk) :
  textsOf name (seen ++ [c]) =
  (textsOf name seen ++
   (if String.eqb (docName c) name then [string_of_list_ascii (text c)] else []))%list.
Proof.
  unfold textsOf. rewrite filter_app, map_app. cbn [filter].
  now destruct (String.eqb (docName c) name).
Qed.

Lemma textsOf_none (name : string) (seen : list DocumentChunk) :
  (forall c, In c seen -> docName c <> name) -> textsOf name seen = [].
Proof.
  intros H. unfold textsOf. induction seen as [|c seen IH]; [reflexivity|].
  cbn [filter]. destruct (String.eqb_spec (docName c) name) as [Heq|Hne].
  - exfalso. apply (H c); [now left|exact Heq].
  - apply IH. intros c' Hc'. apply H. now right.
Qed.

Lemma Gathered_step (seen : list DocumentChunk) (acc : list (string * list string))
    (c : DocumentChunk) :
  Gathered seen acc ->
  Gathered (seen ++ [c]) (pushTo (docName c) (string_of_list_ascii (text c)) acc).
Proof.
  intros [Hnd Htexts Hall Hnamed].
  assert (He : forall e, In e (pushTo (docName c) (string_of_list_ascii (text c)) acc) ->
            snd e = textsOf (fst e) (seen ++ [c]) /\ snd e <> [] /\
            exists c', In c' (seen ++ [c]) /\ docName c' = fst e).
  { intros e Hin. rewrite textsOf_snoc.
    destruct (pushTo_In _ _ _ e Hnd Hin) as [[H1 H2]|[H1 [(t & H2 & H3)|[H2 H3]]]].
    - destruct (Htexts e H1) as [Ht Hne]. destruct (Hnamed e H1) as (c' & Hc' & Hn).
      destruct (String.eqb_spec (docName c) (fst e)) as [Heq|_]; [now symmetry in Heq|].
      rewrite app_nil_r. split; [exact Ht|]. split; [exact Hne|].
      exists c'. split; [apply in_or_app; now left|exact Hn].
    - destruct (Htexts _ H2) as [Ht _]. cbn [fst snd] in Ht.
      rewrite H1, String.eqb_refl, H3, Ht. split; [reflexivity|].
      split; [now destruct (textsOf _ seen)|].
      exists c. split; [apply in_or_app; right; now left|now symmetry].
    - rewrite H1, String.eqb_refl, H3. rewrite textsOf_none.
      + split; [reflexivity|]. split; [discriminate|].
        exists c. split; [apply in_or_app; right; now left|now symmetry].
      + intros c' Hc' Heq. apply H2. rewrite <- Heq. now apply Hall. }
  constructor.
  - rewrite pushTo_keys. destruct (hasName _ (map fst acc)) eqn:Hhas; [exact Hnd|].
    apply NoDup_app; [exact Hnd|repeat constructor; intros []|].
    intros n Hn [<-|[]]. apply hasName_In in Hn. congruence.
  - intros e Hin. destruct (He e Hin) as (H1 & H2 & _). auto.
  - intros c' Hc'. rewrite pushTo_keys. apply in_app_or in Hc'.
    destruct (hasName _ (map fst acc)) eqn:Hhas.
    + destruct Hc' as [Hc'|[<-|[]]]; [now apply Hall|now apply hasName_In].
    + apply in_or_app. destruct Hc' as [Hc'|[<-|[]]]; [left; now apply Hall|].
      right. now left.
  - intros e Hin. destruct (He e Hin) as (_ & _ & H3). exact H3.
Qed.

Lemma groupStep_pushes (acc : list (string * list string)) (c : DocumentChunk) :
  inherited c = false ->
  groupStep acc c = Ok (pushTo (docName c) (string_of_list_ascii (text c)) acc).
Proof.
  unfold inherited, docName, groupStep. intros ->. now destruct (hasName _ (map fst acc)).
Qed.

Lemma groupStep_throws (seen : list DocumentChunk) (acc : list (string * list string))
    (c : DocumentChunk) :
  Gathered seen acc -> Forall (fun c => inherited c = false) seen ->
  inherited c = true ->
  groupStep acc c = Throw "acc[docName].push is not a function".
Proof.
  intros HG Hseen Hc. unfold groupStep. fold (docName c).
  destruct (hasName (docName c) (map fst acc)) eqn:Hhas.
  - exfalso. apply hasName_In in Hhas. apply in_map_iff in Hhas as (e & He & Hin).
    destruct (gathered_named _ _ HG e Hin) as (c' & Hc' & Hn).
    rewrite Forall_forall in Hseen. specialize (Hseen c' Hc').
    unfold inherited in *. congruence.
  - unfold inherited in Hc. now rewrite Hc.
Qed.

Lemma groupByDocument_run (cs seen : list DocumentChunk)
    (acc : list (string * list string)) :
  Gathered seen acc -> Forall (fun c => inherited c = false) seen ->
  (Forall (fun c => inherited c = false) cs ->
   exists groups, groupByDocument acc cs = Ok groups /\ Gathered (seen ++ cs) groups) /\
  (Exists (fun c => inherited c = true) cs ->
   groupByDocument acc cs = Throw "acc[docName].push is not a function").
Proof.
  revert seen acc. induction cs as [|c cs IH]; intros seen acc HG Hseen.
  - split; [|intros H; inversion H]. intros _. exists acc. rewrite app_nil_r. now split.
  - cbn [groupByDocument]. destruct (inherited c) eqn:Hc.
    + split.
      * intros H. inversion H; subst. congruence.
      * intros _. now rewrite (groupStep_throws seen acc c HG Hseen Hc).
    + rewrite (groupStep_pushes acc c Hc).
      destruct (IH (seen ++ [c])%list _ (Gathered_step seen acc c HG)) as [IH1 IH2].
      { apply Forall_app. split; [exact Hseen|]. now repeat constructor. }
      rewrite <- app_assoc in IH1. cbn [app] in IH1. split.
      * intros H. inversion H; subst. now apply IH1.
      * intros H. inversion H; subst; [congruence|]. now apply IH2.
Qed.

Lemma Gathered_nil : Gathered [] [].
Proof. constructor; try (intros ? []). constructor. Qed.

(** X15.  Grouping the retrieved chunks by document name throws as soon as
    one chunk belongs to a document whose name is a property every object
    inherits ([constructor], [toString], ...); otherwise it returns one entry
    per document name that occurs, holding the texts of that document's
    chunks, all of them and in the order they were retrieved. *)
Theorem groupByDocument_gathers_or_throws (cs : list DocumentChunk) :
  (Exists (fun c => inherited c = true) cs ->
   groupByDocument [] cs = Throw "acc[docName].push is not a function") /\
  (Forall (fun c => inherited c = false) cs ->
   exists groups,
     groupByDocument [] cs = Ok groups /\
     NoDup (map fst groups) /\
     (forall c, In c cs -> In (docName c, textsOf (docName c) cs) groups) /\
     (forall name texts, In (name, texts) groups ->
        texts = textsOf name cs /\ texts <> [])).
Proof.
  destruct (groupByDocument_run cs [] [] Gathered_nil (Forall_nil _)) as [H1 H2].
  split; [exact H2|]. intros Hall.
  destruct (H1 Hall) as (groups & Hrun & [Hnd Htexts Hin Hnamed]). cbn [app] in *.
  exists groups. split; [exact Hrun|]. split; [exact Hnd|]. split.
  - intros c Hc. apply Hin in Hc. apply in_map_iff in Hc as ([n t] & Hn & He).
    cbn [fst] in Hn. subst n. destruct (Htexts _ He) as [Ht _]. cbn [fst snd] in Ht.
    now rewrite <- Ht.
  - intros name texts He. exact (Htexts _ He).
Qed.


(** *** Answering the tool calls *)

Definition isSearchWeb (tc : ToolCall) : bool := String.eqb (tc_name tc) "search_web".

(** The [tool_call_id] of a tool message. *)
Definition answered (m : Message) : option string :=
  match m with
  | ToolMessage tool_call_id _ => Some tool_call_id
  | _ => None
  end.

Definition isWebSearchCall (c : Call) : bool :=
  match c with WebSearchCall _ => true | _ => false end.

(** What running tool calls adds to the state: tool messages at the end of
    [messages], web searches at the end of the log; the stream stays open. *)
Definition answers (tcs : list ToolCall) (st st' : State) : Prop :=
  closed st' = closed st /\
  contextChunks st' = contextChunks st /\
  contextText st' = contextText st /\
  (exists new, messages st' = (messages st ++ new)%list /\
               map answered new = map (fun tc => Some (tc_id tc)) (filter isSearchWeb tcs)) /\
  (exists searches, calls st' = (calls st ++ searches)%list /\
                    forallb isWebSearchCall searches = true /\
                    (length searches <= length (filter isSearchWeb tcs))%nat).

Lemma answers_refl (st : State) : answers [] st st.
Proof.
  repeat split; [exists []|exists []]; cbn; rewrite ?app_nil_r; auto.
Qed.

Lemma answers_cons (tc : ToolCall) (tcs : list ToolCall) (st st1 st2 : State) :
  answers [tc] st st1 -> answers tcs st1 st2 -> answers (tc :: tcs) st st2.
Proof.
  intros (H1 & H2 & H3 & (n1 & H4 & H5) & (s1 & H6 & H7 & H8))
         (K1 & K2 & K3 & (n2 & K4 & K5) & (s2 & K6 & K7 & K8)).
  split; [congruence|]. split; [congruence|]. split; [congruence|]. split.
  - exists (n1 ++ n2)%list. rewrite K4, H4, app_assoc. split; [reflexivity|].
    rewrite map_app, H5, K5. cbn [filter]. destruct (isSearchWeb tc); reflexivity.
  - exists (s1 ++ s2)%list. rewrite K6, H6, app_assoc. split; [reflexivity|].
    rewrite forallb_app, H7, K7. split; [reflexivity|].
    rewrite length_app. cbn [filter] in *. destruct (isSearchWeb tc); cbn [length] in *; lia.
Qed.

Lemma runToolCallStream_answers (env : Env) (tc : ToolCall) (st : State) :
  closed st = false ->
  exists st', runToolCallStream env (Some tc) st = (Ok tt, st') /\ answers [tc] st st'.
Proof.
  intros Hopen. unfold answers. cbn [runToolCallStream filter]. unfold isSearchWeb.
  destruct (String.eqb (tc_name tc) "search_web").
  2:{ exists st. split; [reflexivity|]. repeat split; [exists []|exists []]; cbn;
        rewrite ?app_nil_r; auto. }
  cbv [tryCatch bind liftResult webSearch external sendSSE modify ret pushMessage].
  destruct (parseQuery env _) as [query|msg]; rewrite ?Hopen.
  - cbn [closed set_outputs calls set_calls].
    destruct (searchWeb env _ query) as [results|msg].
    + cbn [closed set_outputs set_calls set_usedWebSearch]. eexists. split; [reflexivity|].
      cbn. repeat split.
      * eexists. split; [reflexivity|reflexivity].
      * exists [WebSearchCall query]. repeat split; cbn; lia.
    + cbn [closed set_outputs set_calls]. eexists. split; [reflexivity|].
      cbn. repeat split.
      * eexists. split; [reflexivity|reflexivity].
      * exists [WebSearchCall query]. repeat split; cbn; lia.
  - eexists. split; [reflexivity|]. cbn. repeat split.
    + eexists. split; [reflexivity|reflexivity].
    + exists []. rewrite app_nil_r. repeat split; cbn; lia.
Qed.

Lemma runToolCallJson_answers (env : Env) (tc : ToolCall) (st : State) :
  exists st', runToolCallJson env tc st = (Ok tt, st') /\ answers [tc] st st'.
Proof.
  unfold answers. cbn [runToolCallJson filter]. unfold runToolCallJson, isSearchWeb.
  destruct (String.eqb (tc_name tc) "search_web").
  2:{ exists st. split; [reflexivity|]. repeat split; [exists []|exists []]; cbn;
        rewrite ?app_nil_r; auto. }
  cbv [tryCatch bind liftResult webSearch external modify ret pushMessage].
  destruct (parseQuery env _) as [query|msg].
  - destruct (searchWeb env _ query) as [results|msg].
    + eexists. split; [reflexivity|]. cbn. repeat split.
      * eexists. split; [reflexivity|reflexivity].
      * exists [WebSearchCall query]. repeat split; cbn; lia.
    + eexists. split; [reflexivity|]. cbn. repeat split.
      * eexists. split; [reflexivity|reflexivity].
      * exists [WebSearchCall query]. repeat split; cbn; lia.
  - eexists. split; [reflexivity|]. cbn. repeat split.
    + eexists. split; [reflexivity|reflexivity].
    + exists []. rewrite app_nil_r. repeat split; cbn; lia.
Qed.

(** X16.  Running the tool calls of a completion never throws, in either
    handler, whatever the arguments of a call are and whether the web search
    works: every call named [search_web] gets exactly one tool message with
    its [tool_call_id], in the order of the calls, and at most one web
    search is made for it; a call with another name is skipped and gets no
    message.  The streaming handler throws on a hole of the array, after
    answering the calls before it. *)
Theorem tool_calls_answered_once (env : Env) (tcs : list ToolCall) (st : State) :
  (exists st', forEach tcs (runToolCallJson env) st = (Ok tt, st') /\ answers tcs st st') /\
  (closed st = false ->
   (exists st', forEach (map Some tcs) (runToolCallStream env) st = (Ok tt, st') /\
                answers tcs st st') /\
   (forall rest,
      exists st', forEach (map Some tcs ++ None :: rest)%list (runToolCallStream env) st =
                    (Throw "Cannot read properties of undefined (reading 'function')", st') /\
                  answers tcs st st')).
Proof.
  split; [|intros Hopen; split; [|intros rest]].
  - revert st. induction tcs as [|tc tcs IH]; intros st; cbn [forEach].
    + exists st. split; [reflexivity|apply answers_refl].
    + destruct (runToolCallJson_answers env tc st) as (st1 & H1 & A1).
      destruct (IH st1) as (st2 & H2 & A2). exists st2. unfold bind. rewrite H1.
      split; [exact H2|]. now apply (answers_cons tc tcs st st1 st2).
  - revert st Hopen. induction tcs as [|tc tcs IH]; intros st Hopen; cbn [forEach map].
    + exists st. split; [reflexivity|apply answers_refl].
    + destruct (runToolCallStream_answers env tc st Hopen) as (st1 & H1 & A1).
      destruct (IH st1) as (st2 & H2 & A2); [destruct A1 as [-> _]; exact Hopen|].
      exists st2. unfold bind. rewrite H1.
      split; [exact H2|]. now apply (answers_cons tc tcs st st1 st2).
  - revert st Hopen. induction tcs as [|tc tcs IH]; intros st Hopen;
      cbn [forEach map app].
    + exists st. split; [reflexivity|apply answers_refl].
    + destruct (runToolCallStream_answers env tc st Hopen) as (st1 & H1 & A1).
      destruct (IH st1) as (st2 & H2 & A2); [destruct A1 as [-> _]; exact Hopen|].
      exists st2. unfold bind. rewrite H1.
      split; [exact H2|]. now apply (answers_cons tc tcs st st1 st2).
Qed.


(** *** Putting the streamed tool calls together *)

(** [toolCallDelta.index || 0] *)
Definition deltaIndex (d : ToolCallDelta) : nat :=
  match tcd_index d with Some i => i | None => O end.

(** The fragments a slot of [toolCalls] is made of. *)
Definition fragmentsOf (i : nat) (ds : list ToolCallDelta) : list ToolCallDelta :=
  filter (fun d => (deltaIndex d =? i)%nat) ds.

(** The last [id] that is not empty, the empty string when there is none. *)
Definition lastId (ds : list ToolCallDelta) : string :=
  fold_left (fun id d => match truthy (tcd_id d) with Some v => v | None => id end) ds "".

Definition glue (l : list string) : string := fold_right String.append "" l.

Lemma arrayGet_arraySet_same {A : Type} (l : list (option A)) (i : nat) (v : A) :
  arrayGet (arraySet l i v) i = Some v.
Proof.
  unfold arrayGet. revert l. induction i as [|i IH]; intros [|x l]; cbn; auto.
Qed.

Lemma arrayGet_nil {A : Type} (i : nat) : arrayGet (@nil (option A)) i = None.
Proof. unfold arrayGet. now destruct i. Qed.

Lemma arrayGet_arraySet_other {A : Type} (l : list (option A)) (i j : nat) (v : A) :
  i <> j -> arrayGet (arraySet l j v) i = arrayGet l i.
Proof.
  unfold arrayGet. revert l i. induction j as [|j IH]; intros [|x l] [|i] Hij;
    cbn; try reflexivity; try contradiction.
  - now destruct i.
  - rewrite IH by lia. now destruct i.
  - apply IH. lia.
Qed.

Lemma arraySet_length {A : Type} (l : list (option A)) (i : nat) (v : A) :
  length (arraySet l i v) = Nat.max (length l) (S i).
Proof.
  revert l. induction i as [|i IH]; intros [|x l]; cbn [arraySet length].
  - reflexivity.
  - lia.
  - rewrite IH. cbn [length]. lia.
  - rewrite IH. lia.
Qed.

(** One fragment added to what a slot holds. *)
Definition addFragment (slot : option ToolCall) (d : ToolCallDelta) : option ToolCall :=
  let current :=
    match slot with
    | Some tc => tc
    | None => mkToolCall (orEmpty (tcd_id d)) "" ""
    end in
  Some (mkToolCall
          (match truthy (tcd_id d) with Some i => i | None => tc_id current end)
          (tc_name current ++ orEmpty (tcd_name d))
          (tc_arguments current ++ orEmpty (tcd_arguments d))).

Lemma applyToolCallDelta_slot (arr : list (option ToolCall)) (d : ToolCallDelta) (i : nat) :
  arrayGet (applyToolCallDelta arr d) i =
  if (deltaIndex d =? i)%nat then addFragment (arrayGet arr i) d else arrayGet arr i.
Proof.
  unfold applyToolCallDelta. fold (deltaIndex d).
  destruct (Nat.eqb_spec (deltaIndex d) i) as [<-|Hne].
  - now rewrite arrayGet_arraySet_same.
  - rewrite arrayGet_arraySet_other by congruence. reflexivity.
Qed.

Lemma fold_slot (ds : list ToolCallDelta) (arr : list (option ToolCall)) (i : nat) :
  arrayGet (fold_left applyToolCallDelta ds arr) i =
  fold_left addFragment (fragmentsOf i ds) (arrayGet arr i).
Proof.
  revert arr. induction ds as [|d ds IH]; intros arr; [reflexivity|].
  cbn [fold_left fragmentsOf filter]. rewrite IH, applyToolCallDelta_slot.
  fold (fragmentsOf i ds). now destruct (deltaIndex d =? i)%nat.
Qed.

Lemma append_empty (s : string) : s ++ "" = s.
Proof. induction s as [|c s IH]; cbn; [reflexivity|now rewrite IH]. Qed.

Lemma append_assoc (s t u : string) : (s ++ t) ++ u = s ++ (t ++ u).
Proof. induction s as [|c s IH]; cbn; [reflexivity|now rewrite IH]. Qed.

Lemma addFragment_fold (ds : list ToolCallDelta) (tc : ToolCall) :
  fold_left addFragment ds (Some tc) =
  Some (mkToolCall
          (fold_left (fun id d => match truthy (tcd_id d) with Some v => v | None => id end)
                     ds (tc_id tc))
          (tc_name tc ++ glue (map (fun d => orEmpty (tcd_name d)) ds))
          (tc_arguments tc ++ glue (map (fun d => orEmpty (tcd_arguments d)) ds))).
Proof.
  revert tc. induction ds as [|d ds IH]; intros tc; cbn [fold_left map glue fold_right].
  - rewrite !append_empty. now destruct tc.
  - unfold addFragment at 2. rewrite IH. cbn [tc_id tc_name tc_arguments].
    fold (glue (map (fun d => orEmpty (tcd_name d)) ds)).
    fold (glue (map (fun d => orEmpty (tcd_arguments d)) ds)).
    now rewrite !append_assoc.
Qed.

Lemma fold_length (ds : list ToolCallDelta) (arr : list (option ToolCall)) :
  length (fold_left applyToolCallDelta ds arr) =
  fold_left (fun n d => Nat.max n (S (deltaIndex d))) ds (length arr).
Proof.
  revert arr. induction ds as [|d ds IH]; intros arr; [reflexivity|].
  cbn [fold_left]. rewrite IH. unfold applyToolCallDelta. fold (deltaIndex d).
  now rewrite arraySet_length.
Qed.

(** X17.  The slot [i] of the array the streamed tool-call fragments are
    folded into depends on the fragments with index [i] only (a fragment
    without index counts for slot 0), however they are interleaved with
    those of other calls: it is a hole when there is none, and otherwise the
    call whose name and arguments are the fragments' names and arguments put
    end to end in the order of arrival, with the last non-empty [id].  The
    array is as long as the largest index requires. *)
Theorem tool_call_fragments_reassembled (ds : list ToolCallDelta) (i : nat) :
  let toolCalls := fold_left applyToolCallDelta ds [] in
  let mine := fragmentsOf i ds in
  arrayGet toolCalls i =
    match mine with
    | [] => None
    | _ :: _ =>
        Some (mkToolCall (lastId mine)
                         (glue (map (fun d => orEmpty (tcd_name d)) mine))
                         (glue (map (fun d => orEmpty (tcd_arguments d)) mine)))
    end /\
  length toolCalls = fold_left (fun n d => Nat.max n (S (deltaIndex d))) ds O.
Proof.
  cbv zeta. split; [|apply fold_length].
  rewrite fold_slot, arrayGet_nil.
  destruct (fragmentsOf i ds) as [|d mine]; [reflexivity|].
  cbn [fold_left]. unfold addFragment at 2. rewrite addFragment_fold.
  cbn [tc_id tc_name tc_arguments map glue fold_right]. unfold lastId. cbn [fold_left].
  f_equal. f_equal. unfold orEmpty. now destruct (truthy (tcd_id d)).
Qed.


(** *** Retrieval for a specific question *)

(** The retrieval for a question that is not general: one search, with the
    limit of the request. *)
Definition SpecificOutcome (env : Env) (q : string) (lim : Z) (ids : list string)
    (st : State) : Prop :=
  Retrieved match searchSimilarChunks env 0 q lim ids with
            | Ok found => found
            | Throw _ => []
            end
            [SearchCall q lim ids] st.

Lemma SpecificOutcome_log env q lim ids st c :
  isRetrieval c = false -> SpecificOutcome env q lim ids st ->
  SpecificOutcome env q lim ids (set_calls (calls st ++ [c]) st).
Proof. intros Hc. unfold SpecificOutcome. now apply Retrieved_log. Qed.

Section SpecificRetrieval.
Variables (env : Env) (q : string) (lim : Z) (ids : list string).
Hypothesis specific : Classifier.isGeneralQuestion (list_ascii_of_string q) = false.

Lemma retrieveChunks_specific :
  hoare Start (retrieveChunks env q lim ids)
        (fun _ => SpecificOutcome env q lim ids) (SpecificOutcome env q lim ids).
Proof.
  intros st (Hcalls & Hchunks & _).
  cbv [retrieveChunks bind modify get ret searchChunks external].
  cbn [isGeneral set_isGeneral]. rewrite specific. cbv beta iota.
  cbn [calls set_isGeneral]. rewrite Hcalls. cbn [length app].
  unfold SpecificOutcome, Retrieved.
  destruct (searchSimilarChunks env 0 q lim ids) as [found|msg];
    cbn [contextChunks calls set_calls set_contextChunks set_isGeneral].
  - split; [reflexivity|]. exists []. split; [reflexivity|constructor].
  - split; [exact Hchunks|]. exists []. split; [reflexivity|constructor].
Qed.

Lemma documentSearchJson_specific :
  hoare Start (documentSearchJson env q lim ids)
        (fun _ => SpecificOutcome env q lim ids) (SpecificOutcome env q lim ids).
Proof.
  unfold documentSearchJson.
  apply hoare_tryCatch with (E' := SpecificOutcome env q lim ids);
    [|intros msg; apply hoare_ret; auto].
  eapply hoare_bind; [apply retrieveChunks_specific|intros ?; cbv beta].
  apply keeps_hoare. repeat keeps_step.
  apply keeps_modify. intros st H. exact H.
Qed.

Lemma documentSearchStream_specific :
  hoare (fun st => Start st /\ closed st = false)
        (documentSearchStream env q lim ids)
        (fun _ => SpecificOutcome env q lim ids) (SpecificOutcome env q lim ids).
Proof.
  unfold documentSearchStream.
  assert (Hsend : forall e, keeps (SpecificOutcome env q lim ids) (sendSSE e)).
  { intros e. apply keeps_sendSSE_frame. intros st H. exact H. }
  apply hoare_tryCatch with (E' := SpecificOutcome env q lim ids);
    [|intros msg; apply keeps_hoare, Hsend].
  eapply hoare_bind with (R := fun _ => Start).
  { intros st [HS Hopen]. unfold sendSSE. rewrite Hopen. exact HS. }
  intros ?. cbv beta.
  eapply hoare_bind; [apply retrieveChunks_specific|intros ?; cbv beta].
  apply keeps_hoare. repeat (keeps_step || apply Hsend).
  apply keeps_modify. intros st H. exact H.
Qed.
End SpecificRetrieval.

Section SpecificRequest.
Variables (env : Env) (body : Body) (q : string) (ids : list string).
Hypothesis body_parsed : requestJson env = Ok body.
Hypothesis question_given : truthy (question body) = Some q.
Hypothesis ids_given : documentIds body = Some ids.
Hypothesis ids_nonempty : ids <> [].
Hypothesis specific : Classifier.isGeneralQuestion (list_ascii_of_string q) = false.

Lemma POST_stream_specific :
  SpecificOutcome env q (defaultLimit body) ids (snd (POST_stream env)).
Proof.
  set (lim := defaultLimit body).
  assert (H : hoare (fun st => Start st /\ closed st = false) (start env)
                (fun _ => SpecificOutcome env q lim ids) (SpecificOutcome env q lim ids)).
  { unfold start.
    apply hoare_tryCatch with (E' := SpecificOutcome env q lim ids).
    - apply (parsed_bind env body body_parsed). rewrite question_given, ids_given.
      destruct ids as [|i ids']; [congruence|]. cbn [length Nat.ltb Nat.leb].
      eapply hoare_bind;
        [apply documentSearchStream_specific; exact specific|intros ?; cbv beta].
      apply keeps_hoare.
      apply Frame_stream_tail; frame_args (SpecificOutcome_log env q lim (i :: ids')).
    - intros msg. apply keeps_hoare.
      apply Frame_catch; frame_args (SpecificOutcome_log env q lim ids). }
  specialize (H initState Start_initState). unfold POST_stream.
  destruct (start env initState) as [[a|msg] st]; exact H.
Qed.

Lemma POST_json_specific :
  SpecificOutcome env q (defaultLimit body) ids (snd (POST_json env)).
Proof.
  set (lim := defaultLimit body).
  assert (H : hoare Start (handler env)
                (fun _ => SpecificOutcome env q lim ids) (SpecificOutcome env q lim ids)).
  { unfold handler.
    apply (parsed_bind env body body_parsed). rewrite question_given, ids_given.
    destruct ids as [|i ids']; [congruence|]. cbn [length Nat.ltb Nat.leb].
    eapply hoare_bind;
      [apply documentSearchJson_specific; exact specific|intros ?; cbv beta].
    apply keeps_hoare.
    apply Frame_json_tail; frame_args (SpecificOutcome_log env q lim (i :: ids')). }
  specialize (H initState (proj1 Start_initState)). unfold POST_json.
  destruct (handler env initState) as [[a|msg] st]; exact H.
Qed.
End SpecificRequest.

(** A request with a specific question over one document and no [limit]. *)
Definition revenueEnv : Env :=
  mkEnv (Ok (mkBody (Some "What was the revenue in Q3?") (Some ["d"]) None))
        (fun _ _ k _ => Ok (firstn (Z.to_nat k) sixtyChunks))
        (fun _ _ => Ok sixtyChunks)
        (Ok tt)
        (fun _ _ => mkCompletion [Some (mkDelta (Some "It grew.") None)] EndOfStream)
        (fun _ _ => Ok (Some (mkChoiceMessage (Some "It grew.") None)))
        (fun _ => Ok "q")
        (fun _ _ => Ok []).

(** X18.  For a request whose question is not classified General and whose
    [documentIds] is not empty, in both handlers: the first external call is
    the search with the [limit] of the request (5 when the request gives
    none), the context is what it returns, even when that is nothing, or
    nothing when it throws; no other retrieval call is made: the chunks of
    the documents are never fetched in full. *)
Theorem specific_retrieval_searches_once
    (env : Env) (body : Body) (q : string) (ids : list string) :
  requestJson env = Ok body ->
  truthy (question body) = Some q ->
  documentIds body = Some ids -> ids <> [] ->
  Classifier.classify (list_ascii_of_string q) = Classifier.Specific ->
  forall st, st = snd (POST_stream env) \/ st = snd (POST_json env) ->
    let k := match limit body with Some l => l | None => 5 end in
    (exists rest, calls st = SearchCall q k ids :: rest /\ Forall noRetrieval rest) /\
    contextChunks st = match searchSimilarChunks env 0 q k ids with
                       | Ok found => found
                       | Throw _ => []
                       end.
Proof.
  intros Hbody Hq Hids Hne Hspec st Hst. cbv zeta.
  assert (Hs : Classifier.isGeneralQuestion (list_ascii_of_string q) = false).
  { unfold Classifier.classify in Hspec.
    destruct (Classifier.isGeneralQuestion _); [discriminate|reflexivity]. }
  assert (H : SpecificOutcome env q (defaultLimit body) ids st).
  { destruct Hst as [-> | ->].
    - exact (POST_stream_specific env body q ids Hbody Hq Hids Hne Hs).
    - exact (POST_json_specific env body q ids Hbody Hq Hids Hne Hs). }
  destruct H as (Hv & rest & Hcalls & Hrest). fold (defaultLimit body).
  split; [|exact Hv]. exists rest. split; [exact Hcalls|exact Hrest].
Qed.

Lemma specific_retrieval_searches_once_witness :
  (exists rest, calls (snd (POST_stream revenueEnv)) =
                  SearchCall "What was the revenue in Q3?" 5 ["d"] :: rest /\
                Forall noRetrieval rest) /\
  contextChunks (snd (POST_stream revenueEnv)) = firstn 5 sixtyChunks.
Proof.
  apply (specific_retrieval_searches_once revenueEnv
           (mkBody (Some "What was the revenue in Q3?") (Some ["d"]) None)
           "What was the revenue in Q3?" ["d"]);
    try reflexivity; [discriminate|now left].
Defined.


(** *** What the final event and the JSON response report *)

Definition searchedWeb (st : State) : Prop := existsb isWebSearchCall (calls st) = true.

Definition retrieved (st : State) : Prop := existsb isRetrieval (calls st) = true.

(** The three local variables the final report is made of are backed by
    what the request did. *)
Record Backed (st : State) : Prop := mkBacked {
  backed_context : contextText st <> "" -> contextChunks st <> [];
  backed_chunks : contextChunks st <> [] -> retrieved st;
  backed_web : usedWebSearch st = true -> searchedWeb st
}.

Definition NoContext (st : State) : Prop := contextText st = "".

Lemma hoare_and {A : Type} (P1 P2 : State -> Prop) (m : M A)
    (Q1 Q2 : A -> State -> Prop) (E1 E2 : State -> Prop) :
  hoare P1 m Q1 E1 -> hoare P2 m Q2 E2 ->
  hoare (fun st => P1 st /\ P2 st) m (fun a st => Q1 a st /\ Q2 a st)
        (fun st => E1 st /\ E2 st).
Proof.
  intros H1 H2 st [HP1 HP2]. specialize (H1 st HP1). specialize (H2 st HP2).
  destruct (m st) as [[a|msg] st']; auto.
Qed.

Lemma keeps_and {A : Type} (I J : State -> Prop) (m : M A) :
  keeps I m -> keeps J m -> keeps (fun st => I st /\ J st) m.
Proof. intros HI HJ. exact (hoare_and I J m _ _ I J HI HJ). Qed.

Lemma logged (p : Call -> bool) (st : State) (c : Call) :
  existsb p (calls st) = true -> existsb p (calls st ++ [c]) = true.
Proof. intros H. rewrite existsb_app, H. reflexivity. Qed.

Lemma Backed_log (st : State) (c : Call) :
  Backed st -> Backed (set_calls (calls st ++ [c]) st).
Proof.
  intros [H1 H2 H3]. constructor; cbn [contextText contextChunks usedWebSearch set_calls].
  - exact H1.
  - intros H. apply logged. now apply H2.
  - intros H. apply logged. now apply H3.
Qed.

Lemma Backed_same (st st' : State) :
  contextText st' = contextText st -> contextChunks st' = contextChunks st ->
  usedWebSearch st' = usedWebSearch st -> calls st' = calls st ->
  Backed st -> Backed st'.
Proof.
  intros E1 E2 E3 E4 [H1 H2 H3].
  constructor; unfold retrieved, searchedWeb in *; rewrite ?E1, ?E2, ?E3, ?E4; assumption.
Qed.

Ltac backed_base :=
  first
    [ apply keeps_external; intros ? ?; apply Backed_log; assumption
    | apply keeps_modify; intros ? ?; eapply Backed_same; [..|eassumption]; reflexivity
    | apply keeps_sendSSE_frame; intros ? ?; eapply Backed_same; [..|eassumption];
      reflexivity ].

Ltac backed := repeat (keeps_step || backed_base).

Lemma Backed_close : keeps Backed close.
Proof.
  intros st H. unfold close. destruct (closed st); [exact H|].
  eapply Backed_same; [..|exact H]; reflexivity.
Qed.

Lemma Backed_seedMessages q : keeps Backed (seedMessages q).
Proof. unfold seedMessages. backed. Qed.

(** A tool call sets [usedWebSearch] only after the web search. *)
Lemma Backed_webSearch (env : Env) (query : string) (k : list SearchResult -> M unit) :
  (forall r, keeps Backed (k r)) ->
  keeps Backed (searchResults <- webSearch env query ;;
                modify (set_usedWebSearch true) ;; k searchResults).
Proof.
  intros Hk st HB. unfold bind at 1. unfold webSearch, external.
  destruct (searchWeb env (length (calls st)) query) as [r|msg].
  - unfold bind, modify.
    assert (HB' : Backed (set_usedWebSearch true (set_calls (calls st ++ [WebSearchCall query]) st))).
    { destruct (Backed_log st (WebSearchCall query) HB) as [H1 H2 H3].
      constructor; cbn in *; auto.
      intros _. unfold searchedWeb. cbn. rewrite existsb_app. cbn. apply orb_true_r. }
    exact (Hk r _ HB').
  - now apply Backed_log.
Qed.

Lemma Backed_runToolCallStream env toolCall : keeps Backed (runToolCallStream env toolCall).
Proof.
  unfold runToolCallStream. destruct toolCall as [tc|]; [|backed].
  destruct (String.eqb (tc_name tc) "search_web"); [|backed].
  apply keeps_tryCatch; [|intros ?; backed].
  apply keeps_bind; [backed|intros query].
  apply keeps_bind; [backed|intros _].
  apply Backed_webSearch. intros r. backed.
Qed.

Lemma Backed_runToolCallJson env tc : keeps Backed (runToolCallJson env tc).
Proof.
  unfold runToolCallJson.
  destruct (String.eqb (tc_name tc) "search_web"); [|backed].
  apply keeps_tryCatch; [|intros ?; backed].
  apply keeps_bind; [backed|intros query].
  apply Backed_webSearch. intros r. backed.
Qed.

Lemma Backed_roundStream env : keeps Backed (roundStream env).
Proof.
  unfold roundStream, nextIteration, modelStream, finish.
  apply keeps_bind; [backed|intros _].
  apply keeps_bind; [backed|intros st1].
  apply keeps_bind; [backed|intros _].
  apply keeps_bind; [backed|intros completion].
  apply keeps_bind; [apply keeps_consume; intros c; backed|intros acc].
  apply keeps_bind; [backed|intros _].
  apply keeps_bind; [backed|intros _].
  destruct (0 <? length (snd acc))%nat; [|backed].
  apply keeps_bind; [|intros _; backed].
  apply keeps_forEach. intros tc. apply Backed_runToolCallStream.
Qed.

Lemma Backed_roundJson env : keeps Backed (roundJson env).
Proof.
  unfold roundJson, nextIteration, modelMessage.
  apply keeps_bind; [backed|intros _].
  apply keeps_bind; [backed|intros choice].
  destruct choice as [message|]; [|backed].
  apply keeps_bind; [backed|intros _].
  destruct (0 <? length (toolCallsOf message))%nat; [|backed].
  apply keeps_bind; [|intros _; backed].
  apply keeps_forEach. intros tc. apply Backed_runToolCallJson.
Qed.

(** The retrieval fills [contextChunks] while [contextText] is still empty,
    and only with what a retrieval call returned. *)
Lemma Backed_retrieveChunks env q lim ids :
  keeps (fun st => Backed st /\ NoContext st) (retrieveChunks env q lim ids).
Proof.
  assert (Hset : forall st v c,
            Backed st /\ NoContext st -> isRetrieval c = true ->
            (Backed (set_contextChunks v (set_calls (calls st ++ [c]) st)) /\
             NoContext (set_contextChunks v (set_calls (calls st ++ [c]) st)))).
  { intros st v c [[H1 H2 H3] HN] Hc. split; [|exact HN]. constructor; cbn.
    - intros H. now rewrite HN in H.
    - intros _. unfold retrieved. cbn. rewrite existsb_app. cbn. rewrite Hc.
      apply orb_true_r.
    - intros H. apply logged. now apply H3. }
  assert (Hlog : forall st c, Backed st /\ NoContext st ->
            Backed (set_calls (calls st ++ [c]) st) /\
            NoContext (set_calls (calls st ++ [c]) st)).
  { intros st c [HB HN]. split; [now apply Backed_log|exact HN]. }
  intros st0 [HB0 HN0].
  assert (H0 : Backed (set_isGeneral (Classifier.isGeneralQuestion (list_ascii_of_string q)) st0) /\
               NoContext (set_isGeneral (Classifier.isGeneralQuestion (list_ascii_of_string q)) st0)).
  { split; [eapply Backed_same; [..|exact HB0]; reflexivity|exact HN0]. }
  cbv [retrieveChunks bind modify get ret searchChunks allDocumentChunks external].
  cbn [isGeneral set_isGeneral].
  set (st := set_isGeneral _ st0) in *.
  destruct (Classifier.isGeneralQuestion (list_ascii_of_string q)).
  - destruct (searchSimilarChunks env (length (calls st)) q generalLimit ids) as [found|msg];
      [|now apply Hlog].
    pose proof (Hset st found (SearchCall q generalLimit ids) H0 eq_refl) as Hfound.
    destruct (Z.of_nat (length found) <? 10)%Z; [|exact Hfound].
    set (st1 := set_contextChunks found _) in *.
    destruct (getAllDocumentChunks env (length (calls st1)) ids) as [allChunks|msg];
      [|now apply Hlog].
    exact (Hset st1 (slice allChunks 0 50) (AllChunksCall ids) Hfound eq_refl).
  - destruct (searchSimilarChunks env (length (calls st)) q lim ids) as [found|msg];
      [|now apply Hlog].
    exact (Hset st found (SearchCall q lim ids) H0 eq_refl).
Qed.

Lemma Backed_contextText (P : State -> Prop) (t : string) :
  hoare (fun st => Backed st /\ contextChunks st <> [])
        (modify (set_contextText t)) (fun _ => Backed) P.
Proof.
  apply hoare_modify. intros st [[H1 H2 H3] Hne]. constructor; cbn; auto.
Qed.

Lemma nonempty_length {A : Type} (l : list A) : (0 <? length l)%nat = true -> l <> [].
Proof. destruct l; [discriminate|discriminate]. Qed.

Lemma Backed_documentSearchJson env q lim ids :
  hoare (fun st => Backed st /\ NoContext st) (documentSearchJson env q lim ids)
        (fun _ => Backed) Backed.
Proof.
  unfold documentSearchJson.
  apply hoare_tryCatch with (E' := Backed); [|intros msg; apply keeps_ret].
  eapply hoare_bind with (R := fun _ st => Backed st /\ NoContext st).
  { eapply hoare_conseq; [apply Backed_retrieveChunks|..]; cbv beta; intros; tauto. }
  intros _. cbv beta. intros st [HB _]. unfold bind at 1, get.
  destruct (0 <? length (contextChunks st))%nat eqn:Hlen; [|exact HB].
  apply nonempty_length in Hlen. unfold bind, liftResult.
  destruct (groupByDocument [] (contextChunks st)); [|exact HB].
  exact (Backed_contextText (fun _ => True) _ st (conj HB Hlen)).
Qed.

Lemma Backed_documentSearchStream env q lim ids :
  hoare (fun st => Backed st /\ NoContext st) (documentSearchStream env q lim ids)
        (fun _ => Backed) Backed.
Proof.
  unfold documentSearchStream.
  apply hoare_tryCatch with (E' := Backed); [|intros msg; backed].
  eapply hoare_bind with (R := fun _ st => Backed st /\ NoContext st).
  { intros st [HB HN]. unfold sendSSE. destruct (closed st); [exact HB|].
    split; [|exact HN]. eapply Backed_same; [..|exact HB]; reflexivity. }
  intros _. cbv beta. eapply hoare_bind with (R := fun _ st => Backed st /\ NoContext st).
  { eapply hoare_conseq; [apply Backed_retrieveChunks|..]; cbv beta; intros; tauto. }
  intros _. cbv beta. intros st [HB _]. unfold bind at 1, get.
  destruct (0 <? length (contextChunks st))%nat eqn:Hlen.
  - apply nonempty_length in Hlen. unfold bind at 1, liftResult.
    destruct (groupByDocument [] (contextChunks st)) as [groups|msg]; [|exact HB].
    unfold bind at 1.
    pose proof (Backed_contextText Backed (formatContext groups) st (conj HB Hlen)) as H.
    unfold modify in *.
    assert (Hs : keeps Backed (sendSSE (ToolEnd "document_search"
                    ("Found " ++ count (contextChunks st) ++ " relevant chunks from "
                     ++ count groups ++ " document(s)")))) by backed.
    exact (Hs _ H).
  - assert (Hs : keeps Backed (sendSSE (ToolEnd "document_search" "No relevant chunks found")))
      by backed.
    exact (Hs st HB).
Qed.

Lemma Backed_initState : Backed initState /\ NoContext initState.
Proof. split; [constructor; cbn; congruence|reflexivity]. Qed.

Lemma Quiet_initState : Quiet initState.
Proof. split; [reflexivity|]. exists []. split; [reflexivity|constructor]. Qed.

(** What a report says, against the state it was made in. *)
Definition reported (hasContext : bool) (chunksUsed : Z) (usedWeb : bool) (st : State)
  : Prop :=
  chunksUsed = Z.of_nat (length (contextChunks st)) /\
  (hasContext = true -> 0 < chunksUsed) /\
  (0 < chunksUsed -> exists c, In c (calls st) /\ isRetrieval c = true) /\
  (usedWeb = true -> exists query, In (WebSearchCall query) (calls st)).

Lemma Backed_reported (st : State) :
  Backed st ->
  reported (0 <? String.length (contextText st))%nat
           (Z.of_nat (length (contextChunks st))) (usedWebSearch st) st.
Proof.
  intros [H1 H2 H3]. split; [reflexivity|]. split; [|split].
  - intros Hc. assert (Hne : contextText st <> "").
    { intros E. rewrite E in Hc. discriminate. }
    specialize (H1 Hne). destruct (contextChunks st); [contradiction|cbn; lia].
  - intros Hn. assert (Hne : contextChunks st <> []).
    { intros E. rewrite E in Hn. cbn in Hn. lia. }
    specialize (H2 Hne). apply existsb_exists in H2. exact H2.
  - intros Hw. specialize (H3 Hw). apply existsb_exists in H3 as (c & Hin & Hc).
    destruct c; try discriminate. eauto.
Qed.

Definition doneBacked (st : State) : Prop :=
  forall h n w, In (Enqueue (Done h n w)) (outputs st) -> reported h n w st.

Lemma no_done_among (evs : list SseEvent) (h : bool) (n : Z) (w : bool) :
  Forall nonTerminal evs -> ~ In (Enqueue (Done h n w)) (map Enqueue evs).
Proof.
  intros Hev Hin. apply in_map_iff in Hin as (e & He & Hin). injection He as ->.
  rewrite Forall_forall in Hev. apply (Hev _ Hin). exact I.
Qed.

Lemma error_then_close msg :
  hoare Quiet (sendSSE (Error msg) ;; close) (fun _ => doneBacked) (fun _ => False).
Proof.
  intros st (Hc & evs & Ho & Hev). unfold bind, sendSSE, close. rewrite Hc. cbn.
  intros h n w Hin. cbn in Hin. rewrite Ho, <- app_assoc in Hin.
  apply in_app_or in Hin as [Hin|[Hin|[Hin|[]]]]; try discriminate.
  now apply no_done_among in Hin.
Qed.

Lemma done_then_close :
  hoare (fun st => Quiet st /\ Backed st) (sendDone ;; close)
        (fun _ => doneBacked) (fun _ => False).
Proof.
  intros st [(Hc & evs & Ho & Hev) HB]. cbv [bind sendDone get sendSSE close].
  rewrite Hc. cbn. intros h n w Hin. cbn in Hin. rewrite Ho, <- app_assoc in Hin.
  apply in_app_or in Hin as [Hin|[Hin|[Hin|[]]]]; try discriminate.
  - now apply no_done_among in Hin.
  - injection Hin as <- <- <-. exact (Backed_reported st HB).
Qed.

Lemma start_doneBacked env :
  hoare (fun st => Quiet st /\ Backed st /\ NoContext st) (start env)
        (fun _ => doneBacked) (fun _ => False).
Proof.
  unfold start.
  apply hoare_tryCatch with (E' := Quiet); [|intros msg; apply error_then_close].
  eapply hoare_bind with (R := fun _ st => Quiet st /\ Backed st /\ NoContext st).
  { intros st H. unfold liftResult. destruct (requestJson env); tauto. }
  intros body. cbv beta.
  destruct (truthy (question body)) as [q|].
  2:{ eapply hoare_conseq; [apply error_then_close|..]; cbv beta; intros; tauto. }
  eapply hoare_bind with (R := fun _ st => Quiet st /\ Backed st).
  { assert (Hskip : hoare (fun st => Quiet st /\ Backed st /\ NoContext st) (ret tt)
                      (fun _ st => Quiet st /\ Backed st) Quiet).
    { apply hoare_ret. tauto. }
    destruct (documentIds body) as [ids|]; [|exact Hskip].
    destruct (0 <? length ids)%nat; [|exact Hskip].
    eapply hoare_conseq;
      [exact (hoare_and _ _ _ _ _ _ _ (Quiet_documentSearchStream env q (defaultLimit body) ids)
                (Backed_documentSearchStream env q (defaultLimit body) ids))
      |..]; cbv beta; intros; tauto. }
  intros _. cbv beta.
  assert (Hstep : forall (A : Type) (m : M A) (k : A -> M unit),
            keeps Quiet m -> keeps Backed m ->
            (forall a, hoare (fun st => Quiet st /\ Backed st) (k a)
                             (fun _ => doneBacked) Quiet) ->
            hoare (fun st => Quiet st /\ Backed st) (bind m k) (fun _ => doneBacked) Quiet).
  { intros A m k HQ HB Hk. eapply hoare_bind; [|exact Hk].
    eapply hoare_conseq; [exact (keeps_and _ _ _ HQ HB)|..]; cbv beta; intros; tauto. }
  apply Hstep; [apply keeps_liftResult|apply keeps_liftResult|intros _].
  apply Hstep; [unfold seedMessages; quiet|apply Backed_seedMessages|intros _].
  apply Hstep; [apply keeps_whileRounds, Quiet_roundStream
               |apply keeps_whileRounds, Backed_roundStream|intros _].
  eapply hoare_conseq; [apply done_then_close|..]; cbv beta; intros; tauto.
Qed.

Definition responseBacked (r : JsonResponse) (st : State) : Prop :=
  match r with
  | Success _ h n w => reported h n w st
  | Failure _ _ => True
  end.

Lemma handler_responseBacked env :
  hoare (fun st => Backed st /\ NoContext st) (handler env)
        responseBacked (fun _ => True).
Proof.
  unfold handler.
  eapply hoare_bind with (R := fun _ st => Backed st /\ NoContext st).
  { intros st H. unfold liftResult. destruct (requestJson env); tauto. }
  intros body. cbv beta.
  destruct (truthy (question body)) as [q|]; [|apply hoare_ret; intros; exact I].
  eapply hoare_bind with (R := fun _ => Backed).
  { assert (Hskip : hoare (fun st => Backed st /\ NoContext st) (ret tt)
                      (fun _ => Backed) (fun _ => True)).
    { apply hoare_ret. tauto. }
    destruct (documentIds body) as [ids|]; [|exact Hskip].
    destruct (0 <? length ids)%nat; [|exact Hskip].
    eapply hoare_conseq; [apply Backed_documentSearchJson|..]; cbv beta; intros; tauto. }
  intros _. cbv beta.
  assert (Hstep : forall (A : Type) (m : M A) (k : A -> M JsonResponse),
            keeps Backed m ->
            (forall a, hoare Backed (k a) responseBacked (fun _ => True)) ->
            hoare Backed (bind m k) responseBacked (fun _ => True)).
  { intros A m k HB Hk. eapply hoare_bind; [|exact Hk].
    eapply hoare_conseq; [exact HB|..]; cbv beta; intros; tauto. }
  apply Hstep; [apply keeps_liftResult|intros _].
  apply Hstep; [apply Backed_seedMessages|intros _].
  apply Hstep; [apply keeps_whileRounds, Backed_roundJson|intros _].
  apply Hstep; [unfold fallback; backed|intros _].
  intros st HB. unfold respond, bind, get, ret. cbn. exact (Backed_reported st HB).
Qed.

(** X19.  What the [done] event of the streaming handler and the success
    response of the JSON handler report is backed by what the request did:
    [chunksUsed] is the number of chunks in the context; [hasContext] is
    true only with at least one chunk; chunks are used only after a
    retrieval call; and [usedWebSearch] is true only after a call of the web
    search. *)
Theorem final_report_is_backed (env : Env) :
  (forall h n w,
     In (Enqueue (Done h n w)) (outputs (snd (POST_stream env))) ->
     reported h n w (snd (POST_stream env))) /\
  (forall a h n w,
     fst (POST_json env) = Success a h n w ->
     reported h n w (snd (POST_json env))).
Proof.
  split.
  - pose proof (start_doneBacked env initState
                  (conj Quiet_initState Backed_initState)) as H.
    unfold POST_stream. destruct (start env initState) as [[[]|msg] st]; [exact H|destruct H].
  - intros a h n w. pose proof (handler_responseBacked env initState Backed_initState) as H.
    unfold POST_json. destruct (handler env initState) as [[r|msg] st]; cbn [fst snd].
    + intros ->. exact H.
    + discriminate.
Qed.


(** *** What a streamed completion leaves *)

(** The text fragments of a stream: the [delta.content] that are not
    empty. *)
Fixpoint contents (cs : list (option Delta)) : list string :=
  match cs with
  | [] => []
  | None :: rest => contents rest
  | Some delta :: rest =>
      match truthy (delta_content delta) with
      | Some c => c :: contents rest
      | None => contents rest
      end
  end.

(** The tool-call fragments of a stream, chunk after chunk. *)
Fixpoint toolCallDeltas (cs : list (option Delta)) : list ToolCallDelta :=
  match cs with
  | [] => []
  | None :: rest => toolCallDeltas rest
  | Some delta :: rest =>
      (match delta_tool_calls delta with Some ds => ds | None => [] end
       ++ toolCallDeltas rest)%list
  end.

(** The request state but for the stream. *)
Definition sameButOutputs (st st' : State) : Prop :=
  calls st' = calls st /\ contextChunks st' = contextChunks st /\
  contextText st' = contextText st /\ isGeneral st' = isGeneral st /\
  messages st' = messages st /\ usedWebSearch st' = usedWebSearch st /\
  iterationCount st' = iterationCount st /\ answer st' = answer st.

Lemma consume_streams (cs : list (option Delta)) (acc : string * list (option ToolCall))
    (st : State) :
  closed st = false ->
  exists st',
    consume cs acc st =
      (Ok (fst acc ++ glue (contents cs),
           fold_left applyToolCallDelta (toolCallDeltas cs) (snd acc)), st') /\
    outputs st' = (outputs st ++ map (fun c => Enqueue (Content c)) (contents cs))%list /\
    closed st' = false /\ sameButOutputs st st'.
Proof.
  revert acc st. induction cs as [|[delta|] cs IH]; intros acc st Hopen;
    cbn [consume contents toolCallDeltas].
  - exists st. cbn [glue fold_right map fold_left]. rewrite append_empty, app_nil_r.
    destruct acc. repeat split; auto.
  - unfold bind at 1.
    destruct (truthy (delta_content delta)) as [c|].
    + unfold bind at 1, sendSSE. rewrite Hopen. cbn [ret].
      set (st1 := set_outputs (outputs st ++ [Enqueue (Content c)]) false st).
      destruct (IH match delta_tool_calls delta with
                   | Some ds => (fst acc ++ c, fold_left applyToolCallDelta ds (snd acc))
                   | None => (fst acc ++ c, snd acc)
                   end st1 eq_refl) as (st' & Hrun & Hout & Hcl & Hsame).
      exists st'. split; [|split; [|split; [exact Hcl|exact Hsame]]].
      * cbn [fst snd]. destruct (delta_tool_calls delta) as [ds|]; cbn [fst snd] in *;
          rewrite Hrun; cbn [glue fold_right app]; rewrite ?fold_left_app, append_assoc;
          reflexivity.
      * rewrite Hout. cbn [outputs set_outputs st1 map]. now rewrite <- app_assoc.
    + cbn [ret].
      destruct (IH match delta_tool_calls delta with
                   | Some ds => (fst acc, fold_left applyToolCallDelta ds (snd acc))
                   | None => acc
                   end st Hopen) as (st' & Hrun & Hout & Hcl & Hsame).
      exists st'. split; [|split; [exact Hout|split; [exact Hcl|exact Hsame]]].
      destruct (delta_tool_calls delta) as [ds|]; cbn [fst snd] in *;
        rewrite Hrun; rewrite ?fold_left_app; reflexivity.
  - apply IH. exact Hopen.
Qed.

(** X26.  Reading a streamed completion: with the stream open it never
    throws; it sends one [content] event per text fragment that is not
    empty, in order, and nothing else; the text it records for the assistant
    message is those fragments put end to end, so what was streamed is what
    is remembered; and the tool calls it assembles depend on the sequence of
    tool-call fragments only, not on how the provider cut it into chunks. *)
Theorem consume_records_what_it_streams (cs : list (option Delta)) (st : State) :
  closed st = false ->
  exists st',
    consume cs ("", []) st =
      (Ok (glue (contents cs), fold_left applyToolCallDelta (toolCallDeltas cs) []), st') /\
    outputs st' = (outputs st ++ map (fun c => Enqueue (Content c)) (contents cs))%list /\
    closed st' = false /\ sameButOutputs st st'.
Proof.
  intros Hopen. destruct (consume_streams cs ("", []) st Hopen) as (st' & H).
  exists st'. exact H.
Qed.

(** A stream cut into single characters, with two interleaved tool calls. *)
Definition choppedStream : list (option Delta) :=
  [ Some (mkDelta (Some "He") None);
    None;
    Some (mkDelta (Some "")
            (Some [mkToolCallDelta (Some 1%nat) (Some "b") (Some "search_web") None;
                   mkToolCallDelta None (Some "a") (Some "search_") (Some "{")]));
    Some (mkDelta (Some "llo")
            (Some [mkToolCallDelta (Some 0%nat) None (Some "web") (Some "}")])) ].

Lemma consume_records_what_it_streams_witness :
  exists st',
    consume choppedStream ("", []) initState =
      (Ok ("Hello", [Some (mkToolCall "a" "search_web" "{}");
                     Some (mkToolCall "b" "search_web" "")]), st') /\
    outputs st' = [Enqueue (Content "He"); Enqueue (Content "llo")].
Proof.
  destruct (consume_records_what_it_streams choppedStream initState eq_refl)
    as (st' & H1 & H2 & _).
  exists st'. split; [exact H1|exact H2].
Defined.


(** *** How a request ends *)





















Section ModelAnswers.
Variable env : Env.

(** No call of [chat.completions.create] throws. *)
Hypothesis modelAnswers : forall n msgs, exists choice, createMessage env n msgs = Ok choice.






End ModelAnswers.




End ChatMore.

(** ** Embeddings and the vector store *)

Module EmbeddingsFacts.
Import ChunkingFacts VectorDb VectorDbFacts Embeddings.

(** The provider asked for the whole text, whatever its length. *)
Definition whole (create : Create) : Embedder :=
  fun call text =>
    match create call text with
    | Throw msg => Throw msg
    | Ok None => Throw "Invalid embedding response from OpenAI"
    | Ok (Some embedding) => Ok embedding
    end.

Lemma generateEmbedding_short (key : string) (create : Create) (call : nat)
    (text : list ascii) :
  Chat.truthy (Some key) = Some key -> Z.of_nat (length text) <= maxLength ->
  generateEmbedding (Some key) create call text = whole create call text.
Proof.
  intros Hkey Hlen. unfold generateEmbedding, whole. rewrite Hkey.
  destruct (Z.ltb_spec maxLength (Z.of_nat (length text))); [lia|reflexivity].
Qed.

Lemma generateEmbedding_prefix (apiKey : option string) (create : Create) (call : nat)
    (text : list ascii) :
  generateEmbedding apiKey create call text =
  generateEmbedding apiKey create call (firstn (Z.to_nat maxLength) text).
Proof.
  unfold generateEmbedding, maxLength. destruct (Chat.truthy apiKey); [|reflexivity].
  rewrite length_firstn.
  destruct (Z.ltb_spec 8000 (Z.of_nat (length text))) as [Hlt|Hge].
  - destruct (Z.ltb_spec 8000 (Z.of_nat (Nat.min (Z.to_nat 8000) (length text))));
      [lia|reflexivity].
  - assert (Hall : firstn (Z.to_nat 8000) text = text) by (apply firstn_all2; lia).
    rewrite !Hall.
    destruct (Z.ltb_spec 8000 (Z.of_nat (length text))); [lia|].
    destruct (Z.ltb_spec 8000 (Z.of_nat (Nat.min (Z.to_nat 8000) (length text))));
      [lia|reflexivity].
Qed.

(** [indexDocument] asks the provider about its chunks only. *)
Lemma insertAll_same (e1 e2 : Embedder) (d name : string)
    (batch : list (Chunking.TextChunk ascii)) (db : Database) :
  (forall c, In c batch -> e1 (Z.to_nat (Chunking.chunkIndex c)) (Chunking.text c) =
                           e2 (Z.to_nat (Chunking.chunkIndex c)) (Chunking.text c)) ->
  insertAll db (map (batchDatum e1 d name) batch) =
  insertAll db (map (batchDatum e2 d name) batch).
Proof.
  intros H. f_equal. apply map_ext_in. intros c Hc. unfold batchDatum.
  now rewrite (H c Hc).
Qed.

Lemma batchLoop_same (e1 e2 : Embedder) (d name : string)
    (chunks : list (Chunking.TextChunk ascii)) (fuel i : nat) (db : Database) :
  (forall c, In c chunks -> e1 (Z.to_nat (Chunking.chunkIndex c)) (Chunking.text c) =
                            e2 (Z.to_nat (Chunking.chunkIndex c)) (Chunking.text c)) ->
  batchLoop fuel e1 d name chunks i db = batchLoop fuel e2 d name chunks i db.
Proof.
  intros H. revert i db. induction fuel as [|fuel IH]; intros i db; cbn [batchLoop];
    [reflexivity|].
  destruct (i <? length chunks)%nat; [|reflexivity].
  rewrite (insertAll_same e1 e2).
  - destruct (insertAll db _); [apply IH|reflexivity].
  - intros c Hc. apply H. eapply VectorDbMore.slice_In. exact Hc.
Qed.

Lemma indexDocument_same (e1 e2 : Embedder) (db : Database) (d name : string)
    (txt : list ascii) :
  (forall chunks c, Chunking.chunkText txt 1000 200 = Ok chunks -> In c chunks ->
     e1 (Z.to_nat (Chunking.chunkIndex c)) (Chunking.text c) = e2 (Z.to_nat (Chunking.chunkIndex c)) (Chunking.text c)) ->
  indexDocument e1 db d name txt = indexDocument e2 db d name txt.
Proof.
  intros H. unfold indexDocument. destruct (deleteWhere db d) as [db1 changes].
  destruct (Chunking.chunkText txt 1000 200) as [chunks|msg] eqn:Hrun; [|reflexivity].
  destruct (length chunks =? 0)%nat; [reflexivity|].
  rewrite (batchLoop_same e1 e2); [reflexivity|]. intros c Hc. now apply (H chunks).
Qed.

Lemma chunk_length (txt : list ascii) (chunks : list (Chunking.TextChunk ascii))
    (c : Chunking.TextChunk ascii) :
  Chunking.chunkText txt 1000 200 = Ok chunks -> In c chunks -> (length (Chunking.text c) <= 1000)%nat.
Proof.
  intros Hrun Hc. rewrite chunkText_runs_loop in Hrun by lia. injection Hrun as <-.
  pose proof (final_Inv txt 1000 200) as Hinv.
  assert (Hsize : 0 < 1000) by lia. assert (Hov : 0 <= 200 < 1000) by lia.
  destruct (Hinv Hsize Hov) as [_ Hwf _ _ _ _ _ _].
  rewrite Forall_forall in Hwf. destruct (Hwf c Hc) as (H0 & H1 & H2 & H3).
  assert (Hlen : Z.of_nat (length (Chunking.text c)) = Chunking.endIndex c - Chunking.startIndex c).
  { rewrite H3. apply slice_length; unfold Chunking.textLength in *; lia. }
  lia.
Qed.

Lemma insertAll_none (db : Database) (batchData : list (option Row)) :
  Forall (fun x => x = None) batchData -> insertAll db batchData = Ok db.
Proof.
  induction 1 as [|x l Hx _ IH]; cbn [insertAll]; [reflexivity|]. now rewrite Hx.
Qed.

Lemma batchLoop_none (e : Embedder) (d name : string)
    (chunks : list (Chunking.TextChunk ascii)) (fuel i : nat) (db : Database) :
  (forall n t, isOk (e n t) = false) ->
  batchLoop fuel e d name chunks i db = (db, Ok tt).
Proof.
  intros H. revert i. induction fuel as [|fuel IH]; intros i; cbn [batchLoop];
    [reflexivity|].
  destruct (i <? length chunks)%nat; [|reflexivity].
  rewrite insertAll_none; [apply IH|].
  apply Forall_forall. intros x Hx. apply in_map_iff in Hx as (c & <- & _).
  unfold batchDatum. specialize (H (Z.to_nat (Chunking.chunkIndex c)) (Chunking.text c)).
  now destruct (e _ _).
Qed.

(** X20.  How [indexDocument] and [searchSimilarChunks] go with
    [generateEmbedding].  A chunk is at most 1000 characters long, so the
    provider is asked about each chunk whole, never about a truncated one.
    Without an API key every embedding fails and [indexDocument] still
    returns normally: it has deleted the chunks the document had and stored
    none.  A query is cut to its first 8000 characters: a longer one finds
    what its prefix finds. *)
Theorem generateEmbedding_in_the_store (create : Create) :
  (forall key db d name txt,
     Chat.truthy (Some key) = Some key ->
     indexDocument (generateEmbedding (Some key) create) db d name txt =
     indexDocument (whole create) db d name txt) /\
  (forall apiKey db d name txt,
     Chat.truthy apiKey = None ->
     indexDocument (generateEmbedding apiKey create) db d name txt =
     mkIndexed (otherRows d db) (Z.of_nat (length (rowsOf d db))) (Ok tt)) /\
  (forall apiKey rowOrder db query k ids,
     searchSimilarChunks (generateEmbedding apiKey create) rowOrder db query k ids =
     searchSimilarChunks (generateEmbedding apiKey create) rowOrder db
                         (firstn (Z.to_nat 8000) query) k ids).
Proof.
  split; [|split].
  - intros key db d name txt Hkey. apply indexDocument_same. intros chunks c Hrun Hc.
    apply generateEmbedding_short; [exact Hkey|].
    pose proof (chunk_length txt chunks c Hrun Hc). unfold maxLength. lia.
  - intros apiKey db d name txt Hkey. unfold indexDocument, deleteWhere.
    fold (otherRows d db). fold (rowsOf d db).
    destruct (chunkText_indices txt 1000 200) as (chunks & -> & _); [lia|lia|].
    destruct (length chunks =? 0)%nat; [reflexivity|].
    rewrite batchLoop_none; [reflexivity|].
    intros n t. unfold generateEmbedding. now rewrite Hkey.
  - intros apiKey rowOrder db query k ids. unfold searchSimilarChunks.
    now rewrite (generateEmbedding_prefix apiKey create 0 query).
Qed.

End EmbeddingsFacts.

(** ** Web search *)

Module WebSearchFacts.
Import Chat WebSearch.
Local Open Scope string_scope.

Lemma isEmpty_false (s : string) : isEmpty s = false <-> (0 < String.length s)%nat.
Proof. unfold isEmpty. destruct s; cbn; split; intros; try lia; try discriminate; reflexivity. Qed.

Lemma substring_length (n : nat) (s : string) :
  String.length (String.substring 0 n s) = Nat.min n (String.length s).
Proof.
  revert s. induction n as [|n IH]; intros [|c s]; cbn; try reflexivity.
  now rewrite IH.
Qed.

(** What the loop accepts as a result. *)
Definition accepted (r : SearchResult) : Prop :=
  url r <> "" /\
  includes "duckduckgo.com/l/" (url r) = false /\
  (0 < String.length (title r) <= 200)%nat /\
  (0 < String.length (snippet r) <= 500)%nat.

Section Loop.
Variable decodeURIComponent : string -> result string.
Variable maxResults : Z.

Record Sound (st : Found) : Prop := mkSound {
  sound_seen : map url (results st) = seenUrls st;
  sound_distinct : NoDup (seenUrls st);
  sound_accepted : Forall accepted (results st);
  sound_count : Z.of_nat (length (results st)) <= Z.max 0 maxResults
}.

Lemma snippet_bounds (s : string) :
  (0 < String.length (orElse (String.substring 0 500 s) noDescription) <= 500)%nat.
Proof.
  unfold orElse. destruct (isEmpty (String.substring 0 500 s)) eqn:He.
  - cbn. lia.
  - apply isEmpty_false in He. rewrite substring_length in *. lia.
Qed.

Lemma visit_Sound (link : Link) (st : Found) :
  Sound st -> Z.of_nat (length (results st)) < maxResults ->
  Sound (visit decodeURIComponent link st).
Proof.
  intros [Hseen Hnd Hacc Hcount] Hroom. unfold visit.
  set (u := extractUrl decodeURIComponent _).
  set (t := trim (linkTitle link)).
  destruct (isEmpty u) eqn:Hu; cbn [orb]; [now constructor|].
  destruct (includes "duckduckgo.com/l/" u) eqn:Hi; cbn [orb]; [now constructor|].
  destruct (existsb (String.eqb u) (seenUrls st)) eqn:Hs; cbn [orb]; [now constructor|].
  destruct (isEmpty t) eqn:Ht; [now constructor|].
  constructor; cbn [results seenUrls].
  - rewrite map_app, Hseen. reflexivity.
  - apply NoDup_app; [exact Hnd|repeat constructor; intros []|].
    intros x Hx [<-|[]].
    assert (existsb (String.eqb u) (seenUrls st) = true); [|congruence].
    apply existsb_exists. exists u. split; [exact Hx|apply String.eqb_refl].
  - apply Forall_app. split; [exact Hacc|]. constructor; [|constructor].
    unfold accepted. cbn [url title snippet]. split; [|split; [exact Hi|split]].
    + intros E. rewrite E in Hu. discriminate.
    + apply isEmpty_false in Ht. rewrite substring_length. lia.
    + apply snippet_bounds.
  - rewrite length_app. cbn [length]. lia.
Qed.

Lemma each_Sound (links : list Link) (st : Found) :
  Sound st -> Sound (each decodeURIComponent maxResults links st).
Proof.
  revert st. induction links as [|link links IH]; intros st H; cbn [each]; [exact H|].
  destruct (Z.leb_spec maxResults (Z.of_nat (length (results st)))); [exact H|].
  apply IH. now apply visit_Sound.
Qed.

Lemma Sound_init : Sound (mkFound [] []).
Proof. constructor; cbn; try constructor. lia. Qed.
End Loop.

(** X21.  [searchWeb] never throws and never returns an empty list.  What
    it returns is either one placeholder (no result found, or the search
    failed) with an empty [url], which the chat route never counts as a
    result; or at most [maxResults] results with distinct, non-empty URLs,
    none of them a DuckDuckGo redirect, each with a title of 1 to 200
    characters and a description of 1 to 500. *)
Theorem searchWeb_results_or_placeholder
    (decodeURIComponent : string -> result string) (fetched : Fetched)
    (query : string) (maxResults : Z) :
  let found := searchWeb decodeURIComponent fetched query maxResults in
  (exists r, found = [r] /\ url r = "" /\ validResult r = false) \/
  (found <> [] /\ Z.of_nat (length found) <= maxResults /\
   NoDup (map url found) /\ Forall accepted found).
Proof.
  cbv zeta. unfold searchWeb. destruct fetched as [message|status|links].
  - left. eexists. split; [reflexivity|]. split; reflexivity.
  - left. eexists. split; [reflexivity|]. split; reflexivity.
  - destruct (each_Sound decodeURIComponent maxResults links _ (Sound_init maxResults))
      as [Hseen Hnd Hacc Hcount].
    destruct (results (each decodeURIComponent maxResults links (mkFound [] [])))
      as [|r found]; cbn [length Nat.ltb Nat.leb].
    + left. eexists. split; [reflexivity|]. split; reflexivity.
    + right. assert (Hmax : Z.of_nat (length (r :: found)) <= maxResults)
        by (cbn [length] in *; lia).
      rewrite slice_prefix by (cbn [length] in Hmax; lia).
      rewrite firstn_all2 by lia.
      split; [discriminate|]. split; [exact Hmax|]. split; [|exact Hacc].
      rewrite Hseen. exact Hnd.
Qed.

End WebSearchFacts.

(** ** Document metadata and the [DELETE] route *)

Module StorageFacts.
Import Storage DocumentRoute.
Local Open Scope string_scope.

Definition hasId (id : string) (doc : DocumentMetadata) : bool := String.eqb (md_id doc) id.

Lemma find_app {A : Type} (p : A -> bool) (l1 l2 : list A) :
  find p (l1 ++ l2)%list = match find p l1 with Some a => Some a | None => find p l2 end.
Proof. induction l1 as [|a l1 IH]; cbn; [reflexivity|]. now destruct (p a). Qed.

Lemma find_filter_other (id id' : string) (docs : list DocumentMetadata) :
  id' <> id ->
  find (hasId id') (filter (fun doc => negb (String.eqb (md_id doc) id)) docs) =
  find (hasId id') docs.
Proof.
  intros Hne. induction docs as [|doc docs IH]; [reflexivity|]. cbn [filter find].
  unfold hasId at 2. destruct (String.eqb_spec (md_id doc) id) as [Heq|Hd]; cbn [negb].
  - rewrite IH. destruct (String.eqb_spec (md_id doc) id') as [Heq'|_]; [congruence|reflexivity].
  - cbn [find]. unfold hasId at 1. now rewrite IH.
Qed.

Lemma find_filter_same (id : string) (docs : list DocumentMetadata) :
  find (hasId id) (filter (fun doc => negb (String.eqb (md_id doc) id)) docs) = None.
Proof.
  induction docs as [|doc docs IH]; [reflexivity|]. cbn [filter].
  destruct (String.eqb (md_id doc) id) eqn:He; cbn [negb]; [exact IH|].
  cbn [find]. unfold hasId at 1. now rewrite He.
Qed.

(** X22.  The metadata file as a register of documents, when its writes
    succeed.  A document that is added is listed last and found under its
    id, unless an entry with that id was there before: then the older entry
    keeps being found.  Removing an id removes every entry with it and no
    other.  A file that cannot be read counts as empty: the next addition
    replaces it by a file with that one document. *)
Theorem metadata_register (file : MetadataFile) (m : DocumentMetadata) (id : string) :
  let added := snd (addDocumentMetadata None m file) in
  let removed := snd (removeDocumentMetadata None id file) in
  readMetadata added = (readMetadata file ++ [m])%list /\
  getDocumentMetadata (md_id m) added =
    match getDocumentMetadata (md_id m) file with
    | Some older => Some older
    | None => Some m
    end /\
  (forall id', id' <> md_id m ->
     getDocumentMetadata id' added = getDocumentMetadata id' file) /\
  getDocumentMetadata id removed = None /\
  (forall id', id' <> id ->
     getDocumentMetadata id' removed = getDocumentMetadata id' file) /\
  (forall doc, In doc (readMetadata removed) <->
               In doc (readMetadata file) /\ md_id doc <> id) /\
  (file = Unreadable -> added = Holds [m]).
Proof.
  cbv zeta. unfold addDocumentMetadata, removeDocumentMetadata, getDocumentMetadata.
  cbn [writeMetadata snd readMetadata].
  fold (hasId (md_id m)). fold (hasId id).
  split; [reflexivity|]. split; [|split; [|split; [|split; [|split]]]].
  - rewrite find_app. cbn [find]. unfold hasId at 2. now rewrite String.eqb_refl.
  - intros id' Hne. fold (hasId id'). rewrite find_app. cbn [find]. unfold hasId at 2.
    destruct (String.eqb_spec (md_id m) id') as [Heq|_]; [congruence|].
    now destruct (find (hasId id') (readMetadata file)).
  - apply find_filter_same.
  - intros id' Hne. fold (hasId id'). now apply find_filter_other.
  - intros doc. rewrite filter_In.
    destruct (String.eqb_spec (md_id doc) id); cbn [negb]; split; intros [H1 H2];
      split; auto; try discriminate; try contradiction.
  - intros ->. reflexivity.
Qed.


Lemma isEmpty_nonempty (s : string) : s <> "" -> Chat.isEmpty s = false.
Proof. destruct s; [contradiction|reflexivity]. Qed.

(** X23.  [DELETE /api/documents/id], when the metadata file can be
    written.  An id without metadata is refused with 404 and nothing is
    touched, not even chunks the table still holds for it.  Otherwise the
    answer is a success: no metadata is left for the id, the other documents
    keep theirs, and a second [DELETE] gets 404.  The chunks of the document
    are gone, unless deleting them failed: that failure is swallowed, the
    answer is still a success, and the chunks stay in the table with no
    metadata to delete them by. *)
Theorem DELETE_removes_document (faults : Faults) (id : string) (w : World) :
  id <> "" -> writeFault faults = None ->
  let r := DELETE faults id w in
  (getDocumentMetadata id (metadataFile w) = None ->
   r = (Refused 404 "Document not found", w)) /\
  (forall metadata,
     getDocumentMetadata id (metadataFile w) = Some metadata ->
     fst r = Deleted /\
     getDocumentMetadata id (metadataFile (snd r)) = None /\
     fst (DELETE faults id (snd r)) = Refused 404 "Document not found" /\
     (forall id', id' <> id ->
        getDocumentMetadata id' (metadataFile (snd r)) =
        getDocumentMetadata id' (metadataFile w)) /\
     (deleteChunksFails faults = false ->
      forall row, In row (table (snd r)) <->
                  In row (table w) /\ VectorDb.document_id row <> id) /\
     (deleteChunksFails faults = true -> table (snd r) = table w) /\
     (unlinkFails faults = false ->
      ~ In (md_fileName metadata) (documentFiles (snd r)))).
Proof.
  intros Hid Hwrite. cbv zeta. unfold DELETE. rewrite (isEmpty_nonempty id Hid).
  split; [intros ->; reflexivity|]. intros metadata Hmeta. rewrite Hmeta.
  unfold removeDocumentMetadata. rewrite Hwrite. cbn [writeMetadata fst snd metadataFile].
  assert (Hgone : getDocumentMetadata id
                    (Holds (filter (fun doc => negb (String.eqb (md_id doc) id))
                                   (readMetadata (metadataFile w)))) = None).
  { unfold getDocumentMetadata. cbn [readMetadata]. apply find_filter_same. }
  split; [reflexivity|]. split; [exact Hgone|]. split; [now rewrite Hgone|].
  split; [|split; [|split]].
  - intros id' Hne. unfold getDocumentMetadata. cbn [readMetadata].
    now apply find_filter_other.
  - intros Hdb row. cbn [table]. rewrite Hdb.
    unfold VectorDb.deleteDocumentChunks, VectorDb.deleteWhere. cbn [fst].
    rewrite filter_In.
    destruct (String.eqb_spec (VectorDb.document_id row) id); cbn [negb];
      split; intros [H1 H2]; split; auto; try discriminate; try contradiction.
  - intros Hdb. cbn [table]. now rewrite Hdb.
  - intros Hfs. cbn [documentFiles]. unfold unlink. rewrite Hfs.
    destruct (existsb (String.eqb (md_fileName metadata)) (documentFiles w)) eqn:Hex;
      cbn [snd].
    + intros Hin. apply filter_In in Hin as [_ Hin].
      now rewrite String.eqb_refl in Hin.
    + intros Hin.
      assert (existsb (String.eqb (md_fileName metadata)) (documentFiles w) = true);
        [|congruence].
      apply existsb_exists. exists (md_fileName metadata).
      split; [exact Hin|apply String.eqb_refl].
Qed.

(** Two registered documents; the chunks of the first are in the table. *)
Definition sampleWorld : World :=
  mkWorld (Holds [ mkDocumentMetadata "a" "a.txt" "a_a.txt" 5 "text/plain" "2024-01-01" 5;
                   mkDocumentMetadata "b" "b.txt" "b_b.txt" 2 "text/plain" "2024-01-02" 2 ])
          ["a_a.txt"; "b_b.txt"]
          [ VectorDb.mkRow "a_0" "a" "a.txt" 0 [] 0 5 [] ].

Lemma DELETE_removes_document_witness :
  fst (DELETE (mkFaults false true None) "a" sampleWorld) = Deleted /\
  table (snd (DELETE (mkFaults false true None) "a" sampleWorld)) = table sampleWorld /\
  fst (DELETE (mkFaults false true None) "a"
         (snd (DELETE (mkFaults false true None) "a" sampleWorld))) =
    Refused 404 "Document not found".
Proof.
  destruct (DELETE_removes_document (mkFaults false true None) "a" sampleWorld)
    as [_ H]; [discriminate|reflexivity|].
  destruct (H (mkDocumentMetadata "a" "a.txt" "a_a.txt" 5 "text/plain" "2024-01-01" 5)
              eq_refl) as (H1 & _ & H3 & _ & _ & H6 & _).
  split; [exact H1|]. split; [exact (H6 eq_refl)|exact H3].
Defined.

End StorageFacts.

(** ** Upload *)

Module UploadFacts.
Import Upload.
Local Open Scope string_scope.

Definition clean (c : ascii) : ascii := if kept c then c else "_"%char.

Lemma clean_dot (c : ascii) : Ascii.eqb (clean c) "." = Ascii.eqb c ".".
Proof.
  unfold clean. destruct (kept c) eqn:Hk; [reflexivity|].
  destruct (Ascii.eqb_spec c "."); [subst; discriminate|reflexivity].
Qed.

Lemma split_sanitize (s : string) :
  split "." (sanitize s) = map sanitize (split "." s).
Proof.
  unfold sanitize. fold clean. induction s as [|c s IH]; [reflexivity|].
  cbn [mapString split]. rewrite clean_dot.
  destruct (Ascii.eqb c "."); cbn [map]; rewrite IH; [reflexivity|].
  destruct (split "." s); reflexivity.
Qed.

Lemma split_nonempty (s : string) : split "." s <> [].
Proof.
  induction s as [|c s IH]; cbn [split]; [discriminate|].
  destruct (Ascii.eqb c "."); [discriminate|]. destruct (split "." s); discriminate.
Qed.

Lemma last_map {A B : Type} (f : A -> B) (l : list A) (d : A) (d' : B) :
  l <> [] -> last (map f l) d' = f (last l d).
Proof.
  induction l as [|a [|b l] IH]; intros H; [contradiction|reflexivity|].
  change (last (map f (b :: l)) d' = f (last (b :: l) d)). apply IH. discriminate.
Qed.

Definition lowerLetter (c : ascii) : bool :=
  let n := codeUnit c in ((97 <=? n) && (n <=? 122))%N.

Fixpoint allString (p : ascii -> bool) (s : string) : bool :=
  match s with
  | EmptyString => true
  | String c rest => p c && allString p rest
  end.

(** Only an ASCII letter has an ASCII letter as its lower case. *)
Lemma lowerChar_letter (c : ascii) :
  lowerLetter (Classifier.lowerChar c) = true -> kept c = true.
Proof.
  destruct c as [[] [] [] [] [] [] [] []]; vm_compute; intros H;
    first [reflexivity|discriminate H].
Qed.

Lemma toLowerCase_cons (c : ascii) (s : string) :
  Chat.toLowerCase (String c s) = String (Classifier.lowerChar c) (Chat.toLowerCase s).
Proof. reflexivity. Qed.

Lemma letters_unchanged (s : string) :
  allString lowerLetter (Chat.toLowerCase s) = true -> sanitize s = s.
Proof.
  induction s as [|c s IH]; [reflexivity|]. rewrite toLowerCase_cons.
  cbn [allString]. intros H. apply andb_true_iff in H as [Hc Hs].
  unfold sanitize in *. cbn [mapString]. rewrite (lowerChar_letter c Hc).
  now rewrite IH.
Qed.

Lemma supported_cases (e : string) :
  supported SUPPORTED_TYPES e = true ->
  e = ".pdf" \/ e = ".txt" \/ e = ".doc" \/ e = ".docx" \/ e = ".md" \/ e = ".xlsx"
  \/ e = ".xls" \/ e = ".csv".
Proof.
  unfold supported, SUPPORTED_TYPES. cbn [existsb]. rewrite !orb_true_iff, !String.eqb_eq.
  intuition discriminate.
Qed.

Lemma supported_letters (t : string) :
  supported SUPPORTED_TYPES ("." ++ t) = true -> allString lowerLetter t = true.
Proof.
  intros H. apply supported_cases in H. cbn [String.append] in H.
  repeat (destruct H as [H|H]; [injection H as ->; reflexivity|]).
  injection H as ->. reflexivity.
Qed.

Lemma sanitize_length (s : string) : String.length (sanitize s) = String.length s.
Proof. unfold sanitize. induction s as [|c s IH]; cbn; [reflexivity|now rewrite IH]. Qed.

Lemma sanitize_chars (s : string) (c : ascii) :
  In c (list_ascii_of_string (sanitize s)) -> kept c = true \/ c = "_"%char.
Proof.
  unfold sanitize. induction s as [|a s IH]; cbn [mapString list_ascii_of_string];
    [intros []|].
  intros [<-|Hin]; [|now apply IH]. destruct (kept a) eqn:Ha; auto.
Qed.

Lemma list_ascii_app (s t : string) :
  list_ascii_of_string (s ++ t) = (list_ascii_of_string s ++ list_ascii_of_string t)%list.
Proof. induction s as [|c s IH]; cbn; [reflexivity|now rewrite IH]. Qed.

(** X24.  The name a file is stored under is the document id, [_], and the
    name of the upload with every character outside [[a-zA-Z0-9.-]] replaced
    by [_], one for one: after the id it holds no path separator.  For a
    file the upload accepts, the replacement leaves the extension as it
    is. *)
Theorem stored_file_name_is_safe (documentId fileName : string) :
  String.length (sanitize fileName) = String.length fileName /\
  (forall c, In c (list_ascii_of_string (storedFileName documentId fileName)) ->
     In c (list_ascii_of_string documentId) \/ kept c = true \/ c = "_"%char) /\
  (forall c, In c (list_ascii_of_string (sanitize fileName)) ->
     c <> "/"%char /\ c <> "092"%char) /\
  (supported SUPPORTED_TYPES (fileExtension fileName) = true ->
   fileExtension (sanitize fileName) = fileExtension fileName /\
   last (split "." (sanitize fileName)) "" = last (split "." fileName) "").
Proof.
  split; [apply sanitize_length|]. split; [|split].
  - intros c. unfold storedFileName. rewrite !list_ascii_app.
    intros Hin. apply in_app_or in Hin as [Hin|Hin]; [now left|right].
    apply in_app_or in Hin as [[<-|[]]|Hin]; [now right|].
    exact (sanitize_chars fileName c Hin).
  - intros c Hin. apply sanitize_chars in Hin as [Hk| ->].
    + split; intros ->; discriminate.
    + split; discriminate.
  - intros Hs. unfold fileExtension in *.
    assert (Hlast : last (split "." (sanitize fileName)) "" = last (split "." fileName) "").
    { rewrite split_sanitize. rewrite (last_map sanitize _ "" "") by apply split_nonempty.
      apply letters_unchanged. now apply supported_letters. }
    split; [now rewrite Hlast|exact Hlast].
Qed.

Lemma inherited_cases (n : string) :
  Chat.hasName n Chat.inheritedNames = true -> In n Chat.inheritedNames.
Proof.
  unfold Chat.hasName. intros H. apply existsb_exists in H as (x & Hx & Heq).
  apply String.eqb_eq in Heq. now subst.
Qed.

Lemma supported_server (e : string) :
  supported SUPPORTED_TYPES_server e = true -> supported SUPPORTED_TYPES e = true.
Proof.
  unfold supported, SUPPORTED_TYPES_server, SUPPORTED_TYPES. cbn [existsb].
  rewrite !orb_true_iff. intuition discriminate.
Qed.

Lemma validate_accepts (types : list string) (file : File) (extension : string) :
  validate types (Some file) = inr extension ->
  size file <= MAX_FILE_SIZE /\ extension = fileExtension (name file) /\
  supported types extension = true.
Proof.
  unfold validate. destruct (Z.ltb_spec MAX_FILE_SIZE (size file)); [discriminate|].
  destruct (supported types (fileExtension (name file))) eqn:Hs; cbn [negb];
    [|discriminate].
  intros Hv. injection Hv as <-. auto.
Qed.

(** X25.  A file the upload accepts is at most 50 MB and has one of the
    supported extensions, where the extension is the part of the name after
    the last dot, in lower case, or the whole name when it has no dot.  Such
    a file is served with the content type of its extension, never as
    [application/octet-stream]; and its name is not empty and not a property
    that objects inherit, so that grouping chunks by document name in the
    chat route does not throw on it.  What the server route accepts, the
    other accepts as well. *)
Theorem accepted_upload_is_served_and_grouped (file : File) (extension : string) :
  validate SUPPORTED_TYPES (Some file) = inr extension \/
  validate SUPPORTED_TYPES_server (Some file) = inr extension ->
  validate SUPPORTED_TYPES (Some file) = inr extension /\
  size file <= 52428800 /\
  extension = "." ++ Chat.toLowerCase (last (split "." (name file)) "") /\
  In (extension, contentType (name file)) contentTypeMap /\
  contentType (name file) <> "application/octet-stream" /\
  name file <> "" /\
  Chat.hasName (name file) Chat.inheritedNames = false /\
  Chat.hasName (Chat.orElse (name file) "Unknown") Chat.inheritedNames = false.
Proof.
  intros Hv.
  assert (Hacc : size file <= MAX_FILE_SIZE /\ extension = fileExtension (name file) /\
                 supported SUPPORTED_TYPES extension = true).
  { destruct Hv as [Hv|Hv]; apply validate_accepts in Hv as (H1 & H2 & H3);
      auto using supported_server. }
  destruct Hacc as (Hsize & -> & Hs).
  assert (Hok : validate SUPPORTED_TYPES (Some file) = inr (fileExtension (name file))).
  { unfold validate. destruct (Z.ltb_spec MAX_FILE_SIZE (size file)); [lia|].
    now rewrite Hs. }
  split; [exact Hok|]. split; [exact Hsize|]. split; [reflexivity|].
  set (fileName := name file) in *.
  assert (Hne : fileName <> "") by (intros E; rewrite E in Hs; discriminate Hs).
  assert (Hin : Chat.hasName fileName Chat.inheritedNames = false).
  { destruct (Chat.hasName fileName Chat.inheritedNames) eqn:Hh; [|reflexivity].
    apply inherited_cases in Hh. cbn in Hh.
    repeat (destruct Hh as [Hh|Hh]; [rewrite <- Hh in Hs; discriminate Hs|]).
    destruct Hh. }
  assert (Hct : In (fileExtension fileName, contentType fileName) contentTypeMap /\
                contentType fileName <> "application/octet-stream").
  { unfold contentType. apply supported_cases in Hs.
    repeat (destruct Hs as [Hs|Hs];
            [rewrite Hs; split; [cbn; tauto|cbn; discriminate]|]).
    rewrite Hs; split; [cbn; tauto|cbn; discriminate]. }
  destruct Hct as [H1 H2]. repeat split; try assumption.
  unfold Chat.orElse. destruct fileName; [contradiction|exact Hin].
Qed.

Lemma accepted_upload_is_served_and_grouped_witness :
  contentType "Report.2024.PDF" = "application/pdf" /\
  Chat.hasName "Report.2024.PDF" Chat.inheritedNames = false.
Proof.
  destruct (accepted_upload_is_served_and_grouped
              (mkFile "Report.2024.PDF" 1024 "application/pdf") ".pdf"
              (or_intror eq_refl))
    as (_ & _ & _ & _ & _ & _ & H & _).
  split; [reflexivity|exact H].
Defined.

End UploadFacts.
